(** * quatosTool: frame mass properties and mixer synthesis

    A shallow embedding of [quatosTool.cc].  The program computes in C
    [double]; every function below is written once over an abstract scalar
    interface ([Scalar]) and read at two instances:

    - [ScalarF], IEEE binary64 ([PrimFloat]): the arithmetic the program
      runs, used wherever a statement depends on NaN, on division by zero
      or on a concrete run;
    - [ScalarR], the real numbers: the exact-arithmetic reading used for
      the algebraic statements the specification makes "within numerical
      tolerance".

    Eigen's [jacobiSvd] and [inverse] and libm's [cosf] are library calls,
    not code of this program: they are the three fields of [Extern], an
    environment every function that calls them takes as a parameter. *)

From Stdlib Require Import ZArith List Bool Lia Reals Lra Psatz Floats.
From Stdlib Require Uint63.
From Stdlib Require Ascii String.
Import ListNotations.

Set Implicit Arguments.

(** ** The scalar interface *)

Class Scalar (T : Type) := {
  fofZ   : Z -> T;            (* conversion of an int to double             *)
  fadd   : T -> T -> T;
  fsub   : T -> T -> T;
  fmul   : T -> T -> T;
  fdiv   : T -> T -> T;
  fneg   : T -> T;
  fsqrt  : T -> T;            (* sqrt                                       *)
  fabs   : T -> T;            (* cwiseAbs on one coefficient                *)
  fltb   : T -> T -> bool;    (* a < b                                      *)
  feqb   : T -> T -> bool;    (* a == b                                     *)
  ftrunc : T -> Z;            (* conversion of a double to int (truncation) *)
  fpi    : T;                 (* M_PI                                       *)
  feps   : T                  (* std::numeric_limits<double>::epsilon()     *)
}.

Declare Scope scalar_scope.
Delimit Scope scalar_scope with S.
Infix "+" := fadd : scalar_scope.
Infix "-" := fsub : scalar_scope.
Infix "*" := fmul : scalar_scope.
Infix "/" := fdiv : scalar_scope.
Notation "- x" := (fneg x) : scalar_scope.
Infix "<?" := fltb : scalar_scope.
Infix "=?" := feqb : scalar_scope.
Notation "x >? y" := (fltb y x) : scalar_scope.
Notation "x !=? y" := (negb (feqb x y)) (at level 70) : scalar_scope.
Notation "# z" := (fofZ z%Z) (at level 1, format "# z") : scalar_scope.

(** *** IEEE binary64 *)

Module IEEE.

Definition of_Z (z : Z) : float :=
  if (0 <=? z)%Z then PrimFloat.of_uint63 (Uint63.of_Z z)
  else PrimFloat.opp (PrimFloat.of_uint63 (Uint63.of_Z (- z))).

(** Conversion to [int] drops the fractional part; C leaves it undefined
    for NaN, the infinities and values out of range, where this returns 0
    (respectively the unbounded integer). *)
Definition trunc (x : float) : Z :=
  match Prim2SF x with
  | S754_finite s m e =>
      let v := if (0 <=? e)%Z then (Z.pos m * 2 ^ e)%Z
               else (Z.pos m / 2 ^ (- e))%Z in
      if s then (- v)%Z else v
  | _ => 0%Z
  end.

Definition pi : float := 0x1.921fb54442d18p+1%float.
Definition eps : float := 0x1p-52%float.

End IEEE.

#[export] Instance ScalarF : Scalar float := {|
  fofZ := IEEE.of_Z;
  fadd := PrimFloat.add;
  fsub := PrimFloat.sub;
  fmul := PrimFloat.mul;
  fdiv := PrimFloat.div;
  fneg := PrimFloat.opp;
  fsqrt := PrimFloat.sqrt;
  fabs := PrimFloat.abs;
  fltb := PrimFloat.ltb;
  feqb := PrimFloat.eqb;
  ftrunc := IEEE.trunc;
  fpi := IEEE.pi;
  feps := IEEE.eps
|}.

(** *** Exact arithmetic *)

Module Exact.

Definition ltb (x y : R) : bool := if Rlt_dec x y then true else false.
Definition eqb (x y : R) : bool := if Req_dec_T x y then true else false.

Definition trunc (x : R) : Z :=
  if Rle_dec 0 x then Int_part x else (- Int_part (- x))%Z.

Definition eps : R := (/ 2 ^ 52)%R.

End Exact.

#[export] Instance ScalarR : Scalar R := {|
  fofZ := IZR;
  fadd := Rplus;
  fsub := Rminus;
  fmul := Rmult;
  fdiv := Rdiv;
  fneg := Ropp;
  fsqrt := R_sqrt.sqrt;
  fabs := Rabs;
  fltb := Exact.ltb;
  feqb := Exact.eqb;
  ftrunc := Exact.trunc;
  fpi := PI;
  feps := Exact.eps
|}.

(** ** Eigen matrices

    A dense matrix is its two dimensions and its coefficient accessor.
    Coefficients outside the dimensions are never read by the operations
    below. *)

Record matrix (T : Type) := mk_matrix {
  rows : nat;
  cols : nat;
  coeff : nat -> nat -> T
}.

Arguments mk_matrix {T} _ _ _.

Record JacobiSVD (T : Type) := mk_svd {
  matrixU : matrix T;
  singularValues : list T;
  matrixV : matrix T
}.

(** The library calls the program makes. *)
Record Extern (T : Type) := mk_extern {
  jacobiSvd : matrix T -> JacobiSVD T;   (* a.jacobiSvd(ComputeThinU | ComputeThinV) *)
  inverse : matrix T -> matrix T;        (* MatrixXd::inverse()                     *)
  cosf : T -> T                          (* cosf                                    *)
}.

Section Eigen.

Context {T : Type} {SC : Scalar T}.
Local Open Scope scalar_scope.

(** [sum_upto n f] is f(0) + ... + f(n-1), accumulated from index 0 up. *)
Fixpoint sum_upto (n : nat) (f : nat -> T) : T :=
  match n with
  | O => #0
  | S k => sum_upto k f + f k
  end.

(** operator* on two matrices *)
Definition mmul (a b : matrix T) : matrix T :=
  mk_matrix (rows a) (cols b)
    (fun i j => sum_upto (cols a) (fun k => coeff a i k * coeff b k j)).

Definition transpose (a : matrix T) : matrix T :=
  mk_matrix (cols a) (rows a) (fun i j => coeff a j i).

(** matrix * scalar *)
Definition mscale (a : matrix T) (s : T) : matrix T :=
  mk_matrix (rows a) (cols a) (fun i j => coeff a i j * s).

(** matrix / scalar *)
Definition mdiv (a : matrix T) (s : T) : matrix T :=
  mk_matrix (rows a) (cols a) (fun i j => coeff a i j / s).

(** scalar * matrix *)
Definition smul (s : T) (a : matrix T) : matrix T :=
  mk_matrix (rows a) (cols a) (fun i j => s * coeff a i j).

Definition msub (a b : matrix T) : matrix T :=
  mk_matrix (rows a) (cols a) (fun i j => coeff a i j - coeff b i j).

Definition mneg (a : matrix T) : matrix T :=
  mk_matrix (rows a) (cols a) (fun i j => - coeff a i j).

Definition Zero (r c : nat) : matrix T := mk_matrix r c (fun _ _ => #0).
Definition Ones (r c : nat) : matrix T := mk_matrix r c (fun _ _ => #1).
Definition Identity (n : nat) : matrix T :=
  mk_matrix n n (fun i j => if Nat.eqb i j then #1 else #0).

(** A list read as a 1 x n row and as an n x 1 column. *)
Definition row_of (n : nat) (l : list T) : matrix T :=
  mk_matrix 1 n (fun _ j => nth j l #0).
Definition col_of (n : nat) (l : list T) : matrix T :=
  mk_matrix n 1 (fun i _ => nth i l #0).

Definition col (a : matrix T) (k : nat) : matrix T :=
  mk_matrix (rows a) 1 (fun i _ => coeff a i k).

(** The coefficients of a matrix in storage (column-major) order. *)
Definition coeffs (a : matrix T) : list T :=
  flat_map (fun j => map (fun i => coeff a i j) (seq 0 (rows a))) (seq 0 (cols a)).

(** [A << r0, r1, ...]: rows stacked into a matrix of [c] columns. *)
Definition vstack (c : nat) (rs : list (matrix T)) : matrix T :=
  mk_matrix (length rs) c (fun i j => coeff (nth i rs (Zero 1 c)) 0 j).

(** [asDiagonal] of a vector, as a dense square matrix. *)
Definition asDiagonal (v : list T) : matrix T :=
  mk_matrix (length v) (length v)
    (fun i j => if Nat.eqb i j then nth i v #0 else #0).

(** [maxCoeff]: the reduction keeps the larger of the running value and
    the next coefficient, starting from the first one.  Eigen leaves the
    result on an empty vector undefined; it is 0 here. *)
Definition maxCoeff (l : list T) : T :=
  match l with
  | [] => #0
  | x :: r => fold_left (fun a b => if a <? b then b else a) r x
  end.

Definition cwiseAbs (l : list T) : list T := map fabs l.

End Eigen.

(** ** The frame record *)

(** The [CONFIG_*] enumeration, in declaration order. *)
Inductive config : Type :=
  | CONFIG_QUAD_PLUS
  | CONFIG_QUAD_X
  | CONFIG_HEX_PLUS
  | CONFIG_HEX_X
  | CONFIG_OCTO_PLUS
  | CONFIG_OCTO_X
  | CONFIG_CUSTOM.

Definition is_custom (c : config) : bool :=
  match c with CONFIG_CUSTOM => true | _ => false end.

(** [configIds]: default config IDs of the predefined frame types. *)
Definition configIds (c : config) : Z :=
  match c with
  | CONFIG_QUAD_PLUS => 4
  | CONFIG_QUAD_X => 5
  | CONFIG_HEX_PLUS => 10
  | CONFIG_HEX_X => 11
  | CONFIG_OCTO_PLUS => 30
  | CONFIG_OCTO_X => 31
  | CONFIG_CUSTOM => 0
  end.

Definition NUM_PORTS : Z := 16.

Section Frame.

Context {T : Type} {SC : Scalar T}.
Local Open Scope scalar_scope.

(** [dec m k] is the double written as the decimal literal m / 10^k. *)
Definition dec (m : Z) (k : nat) : T := #m / #(10 ^ Z.of_nat k).

Definition DEFAULT_MASS_ARM : T := #80.
Definition DEFAULT_MASS_MOTOR : T := #100.
Definition DEFAULT_MASS_ESC : T := #20.
Definition DEFAULT_DIST_MOTOR : T := dec 25 2.
Definition DEFAULT_DIST_ESC : T := dec 1 1.
Definition DEG_TO_RAD : T := fpi / #180.

Definition vec3 : Type := (T * T * T)%type.
Definition vx (v : vec3) : T := fst (fst v).
Definition vy (v : vec3) : T := snd (fst v).
Definition vz (v : vec3) : T := snd v.

(** [quatosData_t].  The 1 x n matrices the parser fills ([ports],
    [propDir]) and the vectors [frameX], [frameY], [massObjects] are lists;
    [objectsDim] and [objectsOffset] are lists of rows.  [ports] holds
    integers (the parser stores [atoi] results). *)
Record quatosData_t := mk_quatosData {
  validCraft : Z;
  craftType : config;
  n : nat;
  configId : Z;
  totalMass : T;
  offsetCG : vec3;
  ports : list Z;
  propDir : list T;
  frameX : list T;
  frameY : list T;
  motorX : matrix T;
  motorY : matrix T;
  massEsc : T;
  massMot : T;
  massArm : T;
  massObjects : list T;
  distMot : T;
  distEsc : T;
  objectsCount : nat;
  objectsDim : list vec3;
  objectsOffset : list vec3;
  PITCH : matrix T;
  ROLL : matrix T;
  YAW : matrix T;
  THROT : matrix T;
  PD : matrix T;
  M : matrix T;
  Mt : matrix T;
  PID : matrix T;
  J : matrix T
}.

(** [resetCraft]: the motor count of a standard type (when none was
    declared), zeroed per-motor tables and the default masses and
    distances.  [frameX] and [frameY] are only resized by the program;
    they are zero-filled here. *)
Definition resetCraft (craft : config) (motors : nat) (id : Z) : quatosData_t :=
  let n :=
    match motors with
    | O =>
        match craft with
        | CONFIG_QUAD_PLUS | CONFIG_QUAD_X => 4
        | CONFIG_HEX_PLUS | CONFIG_HEX_X => 6
        | CONFIG_OCTO_X | CONFIG_OCTO_PLUS => 8
        | CONFIG_CUSTOM => 0
        end
    | _ => motors
    end%nat in
  {| validCraft := 1; craftType := craft; n := n; configId := id;
     totalMass := #0; offsetCG := (#0, #0, #0);
     ports := repeat 0%Z n; propDir := repeat #0 n;
     frameX := repeat #0 n; frameY := repeat #0 n;
     motorX := Zero 0 0; motorY := Zero 0 0;
     massEsc := DEFAULT_MASS_ESC; massMot := DEFAULT_MASS_MOTOR;
     massArm := DEFAULT_MASS_ARM; massObjects := [];
     distMot := DEFAULT_DIST_MOTOR; distEsc := DEFAULT_DIST_ESC;
     objectsCount := 0; objectsDim := []; objectsOffset := [];
     PITCH := Zero 0 0; ROLL := Zero 0 0; YAW := Zero 0 0; THROT := Zero 0 0;
     PD := Zero 0 0; M := Zero 0 0; Mt := Zero 0 0; PID := Zero 0 0;
     J := Zero 3 3 |}.

(** ** Mass properties *)

Record object_t := mk_object {
  mass : T;
  x : T; y : T; z : T;
  dimX : T; dimY : T; dimZ : T
}.

(** [quatosToolJCalc]: J = J - mass*(S*S), S the cross-product matrix of
    (x, y, z). *)
Definition skew (x y z : T) : matrix T :=
  mk_matrix 3 3 (fun i j =>
    match i, j with
    | 0, 0 => #0    | 0, 1 => - z   | 0, 2 => y
    | 1, 0 => z     | 1, 1 => #0    | 1, 2 => - x
    | 2, 0 => - y   | 2, 1 => x     | _, _ => #0
    end%nat).

Definition quatosToolJCalc (J : matrix T) (mass x y z : T) : matrix T :=
  let S := skew x y z in
  msub J (smul mass (mmul S S)).

(** The three nested loops of [quatosToolShapeCalc] visit the cells
    (i, j, k), k fastest. *)
Definition cells (x y z : Z) : list (nat * nat * nat) :=
  flat_map (fun i =>
    flat_map (fun j =>
      map (fun k => (i, j, k)) (seq 0 (Z.to_nat z)))
      (seq 0 (Z.to_nat y)))
    (seq 0 (Z.to_nat x)).

Definition sign_of (v : T) : T := if v <? #0 then #(-1) else #1.

(** The point mass the loop body hands to [quatosToolJCalc] for one cell. *)
Definition cell_point (cg : vec3) (obj : object_t) (mass : T)
    (c : nat * nat * nat) : object_t :=
  let '(i, j, k) := c in
  mk_object mass
    (x obj - vx cg - (dimX obj / #2 + #(Z.of_nat i) / #1000) * sign_of (x obj))
    (y obj - vy cg - (dimY obj / #2 + #(Z.of_nat j) / #1000) * sign_of (y obj))
    (z obj - vz cg - (dimZ obj / #2 + #(Z.of_nat k) / #1000) * sign_of (z obj))
    #0 #0 #0.

(** [quatosToolShapeCalc] (only cuboids): the dimensions are divided into
    mm cubes.  The source holds the three counts and their product in
    [int]; here they are integers without bound, which is what the source
    computes as long as the counts and the products x * y and x * y * z
    are in the range of [int] (outside it the C program has no defined
    behaviour). *)
Definition shape_cells (cg : vec3) (obj : object_t) : list object_t :=
  let x := ftrunc (dimX obj * #1000) in
  let y := ftrunc (dimY obj * #1000) in
  let z := ftrunc (dimZ obj * #1000) in
  let mass := mass obj / #(x * y * z) in
  map (cell_point cg obj mass) (cells x y z).

Definition quatosToolShapeCalc (cg : vec3) (J : matrix T) (obj : object_t)
    : matrix T :=
  fold_left (fun J p => quatosToolJCalc J (mass p) (x p) (y p) (z p))
    (shape_cells cg obj) J.

(** The three implicit objects of motor [i]: motor, ESC, arm. *)
Definition motor_objs (d : quatosData_t) (i : nat) : list object_t :=
  let fx := nth i (frameX d) #0 in
  let fy := nth i (frameY d) #0 in
  let custom := is_custom (craftType d) in
  let motor :=
    mk_object (massMot d)
      (if custom then fx else fx * distMot d)
      (if custom then fy else fy * distMot d)
      #0 #0 #0 #0 in
  let esc :=
    if custom then
      let norm := fsqrt (fx * fx + fy * fy) in
      mk_object (massEsc d) (fx / norm * distEsc d) (fy / norm * distEsc d)
        #0 #0 #0 #0
    else
      mk_object (massEsc d) (fx * distEsc d) (fy * distEsc d) #0 #0 #0 #0 in
  let arm :=
    mk_object (massArm d)
      (if custom then fx / #2 else fx / #2 * distMot d)
      (if custom then fy / #2 else fy / #2 * distMot d)
      #0 #0 #0 #0 in
  [motor; esc; arm].

(** The declared payload object [i]. *)
Definition payload_obj (d : quatosData_t) (i : nat) : object_t :=
  let off := nth i (objectsOffset d) (#0, #0, #0) in
  let dim := nth i (objectsDim d) (#0, #0, #0) in
  mk_object (nth i (massObjects d) #0) (vx off) (vy off) (vz off)
    (vx dim) (vy dim) (vz dim).

Definition build_objs (d : quatosData_t) : list object_t :=
  flat_map (motor_objs d) (seq 0 (n d))
  ++ map (payload_obj d) (seq 0 (length (massObjects d))).

(** g => Kg *)
Definition to_kg (o : object_t) : object_t :=
  mk_object (mass o / #1000) (x o) (y o) (z o) (dimX o) (dimY o) (dimZ o).

(** One round of the accumulation loop: the running mass-weighted position
    sums and the running total mass. *)
Definition cg_step (acc : vec3 * T) (o : object_t) : vec3 * T :=
  let cg := fst acc in
  let total := snd acc in
  (vx cg + mass o * x o, vy cg + mass o * y o, vz cg + mass o * z o,
   total + mass o).

(** The condition under which an object goes to [quatosToolShapeCalc]. *)
Definition dimensioned (o : object_t) : bool :=
  (dimX o !=? #0) && (dimY o !=? #0) && (dimZ o !=? #0).

Definition j_step (cg : vec3) (J : matrix T) (o : object_t) : matrix T :=
  if dimensioned o then
    quatosToolShapeCalc cg J o
  else
    quatosToolJCalc J (mass o) (x o - vx cg) (y o - vy cg) (z o - vz cg).

Definition set_mass_properties (d : quatosData_t) (total : T) (cg : vec3)
    (count : nat) (Jm : matrix T) : quatosData_t :=
  {| validCraft := validCraft d; craftType := craftType d; n := n d;
     configId := configId d;
     totalMass := total; offsetCG := cg;
     ports := ports d; propDir := propDir d;
     frameX := frameX d; frameY := frameY d;
     motorX := motorX d; motorY := motorY d;
     massEsc := massEsc d; massMot := massMot d; massArm := massArm d;
     massObjects := massObjects d;
     distMot := distMot d; distEsc := distEsc d;
     objectsCount := count;
     objectsDim := objectsDim d; objectsOffset := objectsOffset d;
     PITCH := PITCH d; ROLL := ROLL d; YAW := YAW d; THROT := THROT d;
     PD := PD d; M := M d; Mt := Mt d; PID := PID d;
     J := Jm |}.

(** [quatosToolObjCalc]: total mass, CG offset and the J matrix.  The
    function has no failure path: the division by the total mass and the
    J accumulation are carried out on every input. *)
Definition quatosToolObjCalc (d : quatosData_t) : quatosData_t :=
  let objs := map to_kg (build_objs d) in
  let acc := fold_left cg_step objs ((#0, #0, #0), #0) in
  let sums := fst acc in
  let total := snd acc in
  let cg := (vx sums / total, vy sums / total, vz sums / total) in
  let Jm := fold_left (j_step cg) objs (Zero 3 3) in
  set_mass_properties d total cg (length objs) Jm.

End Frame.

(** ** Mixer synthesis *)

Section Mixer.

Context {T : Type} {SC : Scalar T}.
Variable E : Extern T.
Local Open Scope scalar_scope.

(** The diagonal of inverted singular values: 1/sigma where |sigma| exceeds
    the tolerance, 0 elsewhere. *)
Definition select_inverse (tolerance : T) (sv : list T) : list T :=
  map (fun s => if fabs s >? tolerance then #1 / s else #0) sv.

(** [pseudoInverse(a, result, epsilon)] *)
Definition pseudoInverse (a : matrix T) (epsilon : T) : matrix T :=
  let svd := jacobiSvd E a in
  let tolerance :=
    epsilon * #(Z.of_nat (Nat.max (cols a) (rows a)))
    * maxCoeff (cwiseAbs (singularValues svd)) in
  mmul (mmul (matrixV svd)
             (asDiagonal (select_inverse tolerance (singularValues svd))))
       (transpose (matrixU svd)).

(** The [switch] on the craft type: x/y coordinates for each motor.  A
    custom frame keeps the coordinates the parser stored.  (For HEX_PLUS
    the program assigns both vectors twice; the second assignment, the one
    that stays, is the one below.) *)
Definition frame_geometry (d : quatosData_t) : list T * list T :=
  let c := fun a : T => cosf E (a * DEG_TO_RAD) in
  match craftType d with
  | CONFIG_QUAD_PLUS =>
      ([ #1; #0; #(-1); #0 ],
       [ #0; #1; #0; #(-1) ])
  | CONFIG_QUAD_X =>
      ([ fsqrt #2 / #2; fsqrt #2 / #2; - fsqrt #2 / #2; - fsqrt #2 / #2 ],
       [ - fsqrt #2 / #2; fsqrt #2 / #2; fsqrt #2 / #2; - fsqrt #2 / #2 ])
  | CONFIG_HEX_PLUS =>
      ([ #1; dec 5 1; - dec 5 1; #(-1); - dec 5 1; dec 5 1 ],
       [ #0; fsqrt #3 / #2; fsqrt #3 / #2; #0; - fsqrt #3 / #2; - fsqrt #3 / #2 ])
  | CONFIG_HEX_X =>
      ([ fsqrt #3 / #2; fsqrt #3 / #2; #0; - fsqrt #3 / #2; - fsqrt #3 / #2; #0 ],
       [ - dec 5 1; dec 5 1; #1; dec 5 1; - dec 5 1; #(-1) ])
  | CONFIG_OCTO_PLUS =>
      ([ #1; c #45; #0; c #135; #(-1); c #225; #0; c #315 ],
       [ #0; c #315; #1; c #45; #0; c #135; #(-1); c #225 ])
  | CONFIG_OCTO_X =>
      ([ c (dec 3375 1); c (dec 225 1); c (dec 675 1); c (dec 1125 1);
         c (dec 1575 1); c (dec 2025 1); c (dec 2475 1); c (dec 2925 1) ],
       [ c (dec 2475 1); c (dec 2925 1); c (dec 3375 1); c (dec 225 1);
         c (dec 675 1); c (dec 1125 1); c (dec 1575 1); c (dec 2025 1) ])
  | CONFIG_CUSTOM => (frameX d, frameY d)
  end.

Definition set_frame (d : quatosData_t) (g : list T * list T) : quatosData_t :=
  {| validCraft := validCraft d; craftType := craftType d; n := n d;
     configId := configId d;
     totalMass := totalMass d; offsetCG := offsetCG d;
     ports := ports d; propDir := propDir d;
     frameX := fst g; frameY := snd g;
     motorX := motorX d; motorY := motorY d;
     massEsc := massEsc d; massMot := massMot d; massArm := massArm d;
     massObjects := massObjects d;
     distMot := distMot d; distEsc := distEsc d;
     objectsCount := objectsCount d;
     objectsDim := objectsDim d; objectsOffset := objectsOffset d;
     PITCH := PITCH d; ROLL := ROLL d; YAW := YAW d; THROT := THROT d;
     PD := PD d; M := M d; Mt := Mt d; PID := PID d;
     J := J d |}.

(** [m << b0, b1, ...] on one row of blocks: block [b] of width [w] fills
    the next [w] columns. *)
Fixpoint hstack_coeff (bs : list (nat * matrix T)) (i j : nat) : T :=
  match bs with
  | [] => #0
  | (w, b) :: r =>
      if Nat.ltb j w then coeff b i j else hstack_coeff r i (j - w)
  end.

Definition hstack (r : nat) (bs : list (nat * matrix T)) : matrix T :=
  mk_matrix r (fold_right (fun b c => (fst b + c)%nat) 0%nat bs) (hstack_coeff bs).

(** One row of motor coordinates about the CG: the transposed frame
    vector, scaled by [distMot] unless the frame is custom, minus
    [Ones * offsetCG(k)].  (The program subtracts the n x 1 expression
    [VectorXd::Ones(n) * offsetCG(k)] from the 1 x n row; every coefficient
    of that expression is [1 * offsetCG(k)], which is what each coefficient
    of the row is reduced by.) *)
Definition motor_coords (d : quatosData_t) (frame : list T) (cg : T) : matrix T :=
  let m := transpose (col_of (n d) frame) in
  let m := if is_custom (craftType d) then m else mscale m (distMot d) in
  (* adjust for CG offset *)
  msub m (mscale (Ones 1 (n d)) cg).

Definition system_roll (n : nat) (motorX motorY : matrix T) : matrix T :=
  vstack n [motorX; Ones 1 n; mneg motorY].
Definition system_pitch (n : nat) (motorX motorY : matrix T) : matrix T :=
  vstack n [mneg motorY; Ones 1 n; motorX].
Definition system_yaw (n : nat) (motorX motorY propDir : matrix T) : matrix T :=
  vstack n [motorX; motorY; propDir].
Definition system_throttle (n : nat) (motorX motorY propDir : matrix T) : matrix T :=
  vstack n [motorX; motorY; propDir; Ones 1 n].

Definition target3 : matrix T := col_of 3 [#0; #0; #1].
Definition target4 (n : nat) : matrix T := col_of 4 [#0; #0; #0; #(Z.of_nat n)].

(** The PID table: each column of Mt over its largest absolute value, the
    four rows transposed back and scaled by 100. *)
Definition pid_row (Mt : matrix T) (k : nat) : matrix T :=
  mdiv (transpose (col Mt k)) (maxCoeff (cwiseAbs (coeffs (col Mt k)))).

Definition pid_of (n : nat) (Mt : matrix T) : matrix T :=
  let P := vstack n [pid_row Mt 0; pid_row Mt 1; pid_row Mt 2; pid_row Mt 3] in
  mscale (transpose P) #100.

(** [quatosToolCalc] *)
Definition quatosToolCalc (d0 : quatosData_t) : quatosData_t :=
  (* calculate x/y coordinates for each motor *)
  let d1 := set_frame d0 (frame_geometry d0) in
  (* calc GG offset & J matrix *)
  let d := quatosToolObjCalc d1 in
  let n := n d in
  let motorX := motor_coords d (frameX d) (vx (offsetCG d)) in
  let motorY := motor_coords d (frameY d) (vy (offsetCG d)) in
  (* our sense of rotation is counter intuitive *)
  let propDir := map (fun p => p * #(-1)) (propDir d) in
  let pD := row_of n propDir in
  let ROLL := mmul (pseudoInverse (system_roll n motorX motorY) feps) target3 in
  let PITCH := mmul (pseudoInverse (system_pitch n motorX motorY) feps) target3 in
  let YAW := mmul (pseudoInverse (system_yaw n motorX motorY pD) feps) target3 in
  let THROT :=
    mmul (pseudoInverse (system_throttle n motorX motorY pD) feps) (target4 n) in
  let PD := hstack n [(1%nat, ROLL); (1%nat, PITCH); (1%nat, YAW)] in
  let M := vstack n [mneg motorY; motorX; pD] in
  let Mt := hstack n [(1%nat, THROT); (3%nat, mmul PD (inverse E (mmul M PD)))] in
  let PID := pid_of n Mt in
  {| validCraft := validCraft d; craftType := craftType d; n := n;
     configId := configId d;
     totalMass := totalMass d; offsetCG := offsetCG d;
     ports := ports d; propDir := propDir;
     frameX := frameX d; frameY := frameY d;
     motorX := motorX; motorY := motorY;
     massEsc := massEsc d; massMot := massMot d; massArm := massArm d;
     massObjects := massObjects d;
     distMot := distMot d; distEsc := distEsc d;
     objectsCount := objectsCount d;
     objectsDim := objectsDim d; objectsOffset := objectsOffset d;
     PITCH := PITCH; ROLL := ROLL; YAW := YAW; THROT := THROT;
     PD := PD; M := M; Mt := Mt; PID := PID;
     J := J d |}.

(** [main], from the validity test on: what the run ends with. *)
Inductive outcome : Type :=
  | Aborted (status : Z)
  | Finished (d : quatosData_t (T := T)).

Definition main (d : quatosData_t) : outcome :=
  if (validCraft d =? 0)%Z then
    Aborted (-1)
  else
    Finished (quatosToolCalc d).

End Mixer.

(** ** Port-order words

    The tail of [main] that writes [DEFAULT_MOT_FRAME] and
    [DEFAULT_MOT_FRAME_H].  [portOrder] is an [unsigned long]; the [float]
    read through the cast is its low 32 bits. *)

Module PortOrder.

Local Open Scope Z_scope.

Definition ulong (z : Z) : Z := z mod 2 ^ 64.

(** [for (; i >= 0; --i) portOrder |= (unsigned long)ports(i + base) << (lo + 4*i)],
    entered with [i = top]. *)
Definition pack (ports : list Z) (base : nat) (lo : Z) (top : Z) (portOrder : Z) : Z :=
  fold_left
    (fun acc i =>
       Z.lor acc
         (ulong (Z.shiftl (ulong (nth (i + base) ports 0)) (lo + 4 * Z.of_nat i))))
    (rev (seq 0 (Z.to_nat (top + 1))))
    portOrder.

(** The first word: 8 bits of configId, then the ports of motors 0..5. *)
Definition frame_word (ports : list Z) (configId : Z) : Z :=
  let size := Z.of_nat (length ports) in
  let portOrder := pack ports 0 8 (Z.min 5 (size - 1)) 0 in
  Z.lor portOrder (ulong configId).

(** The second word, written when there are more than 6 motors. *)
Definition frame_word_h (ports : list Z) : option Z :=
  let size := Z.of_nat (length ports) in
  if 6 <? size then Some (pack ports 6 0 (Z.min 7 (size - 7)) 0) else None.

(** The four bytes of [portOrder] read as a [float]. *)
Definition float_bits (portOrder : Z) : Z := portOrder mod 2 ^ 32.

(** What [fprintf("%.20g", val)] writes for the binary32 value with the
    given bit pattern: a decimal numeral that denotes the value exactly
    enough to identify it (20 significant digits, 9 suffice), or the text
    of an infinity or of a NaN, which carries the sign only. *)
Inductive printed : Type :=
  | Pnum (neg : bool) (mant : Z) (exp : Z)   (* (-1)^neg * mant * 2^exp *)
  | Pinf (neg : bool)
  | Pnan (neg : bool).

Definition print_g20 (bits : Z) : printed :=
  let neg := Z.testbit bits 31 in
  let e := Z.land (Z.shiftr bits 23) 255 in
  let m := Z.land bits (2 ^ 23 - 1) in
  if e =? 255 then (if m =? 0 then Pinf neg else Pnan neg)
  else if e =? 0 then Pnum neg m (-149)
  else Pnum neg (m + 2 ^ 23) (e - 150).

(** The documented decode: the text read back as a binary32 value, its bit
    pattern, and the fields of the pattern. *)
Definition scan_bits (p : printed) : Z :=
  let sign (neg : bool) := if neg then 2 ^ 31 else 0 in
  match p with
  | Pnum neg m e =>
      if m <? 2 ^ 23 then Z.lor (sign neg) m
      else Z.lor (sign neg) (Z.lor (Z.shiftl (e + 150) 23) (m - 2 ^ 23))
  | Pinf neg => Z.lor (sign neg) (Z.shiftl 255 23)
  | Pnan neg => Z.lor (sign neg) (Z.lor (Z.shiftl 255 23) (2 ^ 22))
  end.

Definition field (bits lo width : Z) : Z :=
  Z.land (Z.shiftr bits lo) (2 ^ width - 1).

Definition decode_configId (bits : Z) : Z := field bits 0 8.
Definition decode_ports (bits : Z) (lo : Z) (count : nat) : list Z :=
  map (fun i => field bits (lo + 4 * Z.of_nat i) 4) (seq 0 count).

(** Encoding, printing, reading back and decoding a frame's port table. *)
Definition emit (ports : list Z) (configId : Z) : printed * option printed :=
  (print_g20 (float_bits (frame_word ports configId)),
   option_map (fun w => print_g20 (float_bits w)) (frame_word_h ports)).

Definition recover (count : nat) (out : printed * option printed) : Z * list Z :=
  let lo := scan_bits (fst out) in
  (decode_configId lo,
   decode_ports lo 8 (Nat.min count 6)
   ++ match snd out with
      | Some h => decode_ports (scan_bits h) 0 (count - 6)
      | None => []
      end).

End PortOrder.

(** ** Parsed frames

    What the XML handlers leave in the record for one craft element:
    [resetCraft], then the ports and rotations of the port (or geometry
    motor) elements, the geometry of a custom frame, the declared masses
    and distances and the cubes. *)

Section Parsed.

Context {T : Type} {SC : Scalar T}.

Definition craft_record (craft : config) (motors : nat) (id : Z)
    (port : list Z) (rotation : list Z) (geometry : list (T * T))
    (mass_motor mass_esc mass_arm dist_motor dist_esc : T)
    (cubes : list (T * vec3 * vec3)) : quatosData_t :=
  let d := resetCraft craft motors id in
  {| validCraft := validCraft d; craftType := craftType d; n := n d;
     configId := configId d;
     totalMass := totalMass d; offsetCG := offsetCG d;
     ports := port; propDir := map fofZ rotation;
     frameX := if is_custom craft then map fst geometry else frameX d;
     frameY := if is_custom craft then map snd geometry else frameY d;
     motorX := motorX d; motorY := motorY d;
     massEsc := mass_esc; massMot := mass_motor; massArm := mass_arm;
     massObjects := map (fun c => fst (fst c)) cubes;
     distMot := dist_motor; distEsc := dist_esc;
     objectsCount := objectsCount d;
     objectsDim := map (fun c => snd (fst c)) cubes;
     objectsOffset := map (fun c => snd c) cubes;
     PITCH := PITCH d; ROLL := ROLL d; YAW := YAW d; THROT := THROT d;
     PD := PD d; M := M d; Mt := Mt d; PID := PID d;
     J := J d |}.

(** A standard frame with the default masses and distances and no cube. *)
Definition standard_craft (craft : config) (port rotation : list Z) : quatosData_t :=
  craft_record craft 0 (configIds craft) port rotation []
    DEFAULT_MASS_MOTOR DEFAULT_MASS_ESC DEFAULT_MASS_ARM
    DEFAULT_DIST_MOTOR DEFAULT_DIST_ESC [].

End Parsed.

(** ** Statements' vocabulary *)

(** A library environment for concrete binary64 runs: its decomposition
    is empty, its inverse is the matrix itself and its cosine the angle
    itself.  It stands for no real library: the statements that use it
    hold for every library as well, or only show that a hypothesis can be
    met. *)
Definition no_library : Extern float :=
  mk_extern (fun a => mk_svd (Zero 0 0) [] (Zero 0 0)) (fun a => a) (fun v => v).

Definition is_nan (v : float) : Prop := Prim2SF v = S754_nan.
Definition is_zero (v : float) : Prop := (v =? 0)%float = true.

(** Every coefficient of a 3 x 3 matrix is NaN. *)
Definition all_nan (m : matrix float) : Prop :=
  forall i j : nat, (i < 3)%nat -> (j < 3)%nat -> is_nan (coeff m i j).

(** A quad "+" whose motor, ESC and arm masses are all declared 0. *)
Definition massless_quad : quatosData_t (T := float) :=
  craft_record CONFIG_QUAD_PLUS 0 4 [1; 2; 3; 4]%Z [1; -1; 1; -1]%Z []
    0%float 0%float 0%float DEFAULT_DIST_MOTOR DEFAULT_DIST_ESC [].

(** A payload plate 0.1 m x 0.1 m of no thickness, 100 g, at the origin. *)
Definition flat_plate : object_t (T := float) :=
  mk_object 100%float 0%float 0%float 0%float
    (dec 1 1) (dec 1 1) 0%float.


(** A custom frame of three motors, the first placed at (0, 0). *)
Definition centred_motor_craft : quatosData_t (T := float) :=
  craft_record CONFIG_CUSTOM 3 0 [1; 2; 3]%Z [1; -1; 1]%Z
    [(0, 0); (1, 0); (0, 1)]%float
    DEFAULT_MASS_MOTOR DEFAULT_MASS_ESC DEFAULT_MASS_ARM
    DEFAULT_DIST_MOTOR DEFAULT_DIST_ESC [].


(** A 2 x 4 table over the reals. *)
Definition sample_Mt : matrix R :=
  mk_matrix 2 4 (fun i j => if Nat.eqb i 0 then 1%R else (-2)%R).

(** The column [k] of a PID table with [n] motors, as a list. *)
Definition pid_column {T : Type} (n : nat) (P : matrix T) (k : nat) : list T :=
  map (fun i => coeff P i k) (seq 0 n).

(** ** Exact matrices *)

(** Two matrices of the same dimensions with the same coefficients. *)
Definition meq (a b : matrix R) : Prop :=
  rows a = rows b /\ cols a = cols b
  /\ forall i j, (i < rows a)%nat -> (j < cols a)%nat -> coeff a i j = coeff b i j.

Definition det3 (a : matrix R) : R :=
  (coeff a 0 0 * (coeff a 1 1 * coeff a 2 2 - coeff a 1 2 * coeff a 2 1)
   - coeff a 0 1 * (coeff a 1 0 * coeff a 2 2 - coeff a 1 2 * coeff a 2 0)
   + coeff a 0 2 * (coeff a 1 0 * coeff a 2 1 - coeff a 1 1 * coeff a 2 0))%R.

(** What [inverse] promises on an invertible 3 x 3 matrix. *)
Definition inverse_spec (inv : matrix R -> matrix R) : Prop :=
  forall a : matrix R,
    rows a = 3%nat -> cols a = 3%nat -> det3 a <> 0%R ->
    meq (mmul a (inv a)) (Identity 3).

(** What [jacobiSvd] promises (thin U and V): a = U diag(sigma) V^T with
    orthonormal columns in U and V, the square one of the two being
    orthogonal. *)
Record thin_svd (a : matrix R) (s : JacobiSVD R) : Prop := {
  svd_rank : length (singularValues s) = Nat.min (rows a) (cols a);
  svd_U_rows : rows (matrixU s) = rows a;
  svd_U_cols : cols (matrixU s) = length (singularValues s);
  svd_V_rows : rows (matrixV s) = cols a;
  svd_V_cols : cols (matrixV s) = length (singularValues s);
  svd_product :
    meq a (mmul (mmul (matrixU s) (asDiagonal (singularValues s)))
             (transpose (matrixV s)));
  svd_U_orth :
    meq (mmul (transpose (matrixU s)) (matrixU s))
      (Identity (length (singularValues s)));
  svd_V_orth :
    meq (mmul (transpose (matrixV s)) (matrixV s))
      (Identity (length (singularValues s)));
  svd_U_square :
    (rows a <= cols a)%nat ->
    meq (mmul (matrixU s) (transpose (matrixU s))) (Identity (rows a));
  svd_V_square :
    (cols a <= rows a)%nat ->
    meq (mmul (matrixV s) (transpose (matrixV s))) (Identity (cols a))
}.

(** The tolerance [pseudoInverse] computes. *)
Definition tolerance_of {T : Type} {SC : Scalar T} (E : Extern T)
    (a : matrix T) (epsilon : T) : T :=
  fmul (fmul epsilon (fofZ (Z.of_nat (Nat.max (cols a) (rows a)))))
    (maxCoeff (cwiseAbs (singularValues (jacobiSvd E a)))).

(** The three attitude columns of Mt. *)
Definition attitude_columns {T : Type} (Mt : matrix T) : matrix T :=
  mk_matrix (rows Mt) 3 (fun i j => coeff Mt i (S j)).

(** A library environment whose [jacobiSvd] answers with the decomposition
    I * diag(sv) * I^T: the thin SVD of the diagonal matrix diag(sv) with
    positive decreasing entries. *)
Definition diagonal_library {T : Type} {SC : Scalar T} (sv : list T) : Extern T :=
  mk_extern
    (fun a => mk_svd (Identity (length sv)) sv (Identity (length sv)))
    (fun a => a) (fun v => v).

(** ** An exact library environment

    [jacobiSvd] for matrices whose rows are mutually orthogonal (as the
    rows of the four mixer systems of a symmetric frame are): U is the
    identity, the singular values are the row norms and the columns of V
    are the normalised rows.  [inverse] by cofactors, [cosf] the cosine. *)

Definition row_norm2 (a : matrix R) (i : nat) : R :=
  sum_upto (cols a) (fun k => (coeff a i k * coeff a i k)%R).

Definition svd_of_orthogonal_rows (a : matrix R) : JacobiSVD R :=
  let sv := map (fun i => R_sqrt.sqrt (row_norm2 a i)) (seq 0 (rows a)) in
  mk_svd (Identity (rows a)) sv
    (mk_matrix (cols a) (rows a) (fun j i => (coeff a i j / nth i sv 0)%R)).

Definition cofactor_inverse (a : matrix R) : matrix R :=
  let a00 := coeff a 0 0 in let a01 := coeff a 0 1 in let a02 := coeff a 0 2 in
  let a10 := coeff a 1 0 in let a11 := coeff a 1 1 in let a12 := coeff a 1 2 in
  let a20 := coeff a 2 0 in let a21 := coeff a 2 1 in let a22 := coeff a 2 2 in
  mk_matrix 3 3 (fun i j =>
    match i, j with
    | 0, 0 => (a11 * a22 - a12 * a21) / det3 a
    | 0, 1 => (a02 * a21 - a01 * a22) / det3 a
    | 0, 2 => (a01 * a12 - a02 * a11) / det3 a
    | 1, 0 => (a12 * a20 - a10 * a22) / det3 a
    | 1, 1 => (a00 * a22 - a02 * a20) / det3 a
    | 1, 2 => (a02 * a10 - a00 * a12) / det3 a
    | 2, 0 => (a10 * a21 - a11 * a20) / det3 a
    | 2, 1 => (a01 * a20 - a00 * a21) / det3 a
    | _, _ => (a00 * a11 - a01 * a10) / det3 a
    end%R).

Definition exact_library : Extern R :=
  mk_extern svd_of_orthogonal_rows cofactor_inverse cos.

(** The quad "+" with default masses and distances, on ports 1..4, with
    the given rotation signs. *)
Definition quad_plus_craft (rotation : list Z) : quatosData_t (T := R) :=
  standard_craft CONFIG_QUAD_PLUS [1; 2; 3; 4]%Z rotation.

(** A quad "+" whose motors 0, 1 turn one way and motors 2, 3 the other. *)
Definition paired_rotation_quad : quatosData_t (T := R) :=
  quad_plus_craft [1; 1; -1; -1]%Z.

(** The quad "+" with alternating rotation signs. *)
Definition alternating_quad : quatosData_t (T := R) :=
  quad_plus_craft [1; -1; 1; -1]%Z.

(** ** Standard geometry *)

(** The motor count [resetCraft] gives a frame type. *)
Definition motor_count (c : config) : nat := n (resetCraft (T := R) c 0 0).

(** The angle of motor 0, in degrees. *)
Definition start_phase (c : config) : R :=
  match c with
  | CONFIG_QUAD_X => -45
  | CONFIG_HEX_X => -30
  | CONFIG_OCTO_X => -45 / 2
  | _ => 0
  end%R.

(** The point of the unit circle at the angle of motor [i]: the starting
    phase plus [i] times 360/n degrees. *)
Definition polar_point (c : config) (i : nat) : R * R :=
  let theta :=
    ((start_phase c
      + IZR (Z.of_nat i) * (360 / IZR (Z.of_nat (motor_count c))))
     * (PI / 180))%R in
  (cos theta, sin theta).

(** Angles in twelfths of a half turn. *)
Definition at12 (k : Z) : R := (IZR k * (PI / 12))%R.

(** The six standard frame types, and for each the frame with default
    masses and distances, ports 1..n and rotation signs +1, -1, +1, ... *)
Definition standard_types : list config :=
  [CONFIG_QUAD_PLUS; CONFIG_QUAD_X; CONFIG_HEX_PLUS; CONFIG_HEX_X;
   CONFIG_OCTO_PLUS; CONFIG_OCTO_X].

Definition alternating (count : nat) : list Z :=
  map (fun i => if Nat.even i then 1%Z else (-1)%Z) (seq 0 count).

Definition alternating_craft (c : config) : quatosData_t (T := R) :=
  standard_craft c (map Z.of_nat (seq 1 (motor_count c)))
    (alternating (motor_count c)).

(** cos and sin of 22.5 degrees, the half step of OCTO_X. *)
Definition cos8 : R := cos (PI / 8).
Definition sin8 : R := sin (PI / 8).

(** * The front end: lookups, XML handlers and output

    The rest of [quatosTool.cc]: the table lookups by name, the three
    handlers the XML parser calls, and the selection of matrix
    coefficients for the output lines.  Expat, [atoi], [atof] and the
    formatting of numbers by [fprintf] are library code: the handlers
    take the sequence of parser events as input, and [atoi], [atof] are
    the fields of [Libc]. *)

(** ** C strings

    A C string is a [string] read up to its first NUL character (or to its
    end): [head] is the character under the pointer, [tail] the pointer
    advanced by one. *)

Module CString.

Import Ascii String.
Local Open Scope Z_scope.

Definition code (c : ascii) : Z := Z.of_N (N_of_ascii c).

Definition head (s : string) : Z :=
  match s with
  | EmptyString => 0
  | String c _ => code c
  end.

Definition tail (s : string) : string :=
  match s with
  | EmptyString => EmptyString
  | String _ r => r
  end.

(** The characters of a C string before its terminator. *)
Fixpoint text (s : string) : string :=
  match s with
  | EmptyString => EmptyString
  | String c r => if code c =? 0 then EmptyString else String c (text r)
  end.

Definition strlen (s : string) : nat := String.length (text s).

(** [tolower] in the "C" locale (the program never calls [setlocale]). *)
Definition tolower (c : Z) : Z :=
  if (65 <=? c) && (c <=? 90) then c + 32 else c.

(** [strncasecmp]: the difference of the first pair of characters that
    differ after [tolower], 0 when [n] characters or both strings are
    exhausted first. *)
Fixpoint strncasecmp (s1 s2 : string) (n : nat) : Z :=
  match n with
  | O => 0
  | S k =>
      let c1 := tolower (head s1) in
      let c2 := tolower (head s2) in
      if c1 =? c2 then
        if c1 =? 0 then 0 else strncasecmp (tail s1) (tail s2) k
      else c1 - c2
  end.

Fixpoint strcmp (s1 s2 : string) : Z :=
  let c1 := head s1 in
  let c2 := head s2 in
  if c1 =? c2 then
    match s1 with
    | EmptyString => 0
    | String _ r => if c1 =? 0 then 0 else strcmp r (tail s2)
    end
  else c1 - c2.

(** [strtok(s, ",")] followed by [strtok(NULL, ",")]...: the non-empty
    runs of characters other than the delimiter, in order.  [cur] is the
    token being read, [None] between tokens. *)
Fixpoint tokens_from (delim : Z) (s : string) (cur : option string) : list string :=
  let close := match cur with Some t => [t] | None => [] end in
  match s with
  | EmptyString => close
  | String c r =>
      if code c =? 0 then close
      else if code c =? delim then close ++ tokens_from delim r None
      else
        tokens_from delim r
          (Some (match cur with
                 | Some t => t ++ String c EmptyString
                 | None => String c EmptyString
                 end)%string)
  end.

Definition strtok_all (s : string) (delim : Z) : list string :=
  tokens_from delim s None.

(** The buffer after [strtok] has returned [count] tokens: the delimiter
    that ended each of them is overwritten by NUL.  [in_token] tells
    whether the character before [s] belongs to a token. *)
Fixpoint strtok_marks (delim : Z) (s : string) (in_token : bool) (count : nat)
    : string :=
  match count, s with
  | O, _ => s
  | _, EmptyString => EmptyString
  | S k, String c r =>
      if code c =? 0 then s
      else if code c =? delim then
        if in_token then String zero (strtok_marks delim r false k)
        else String c (strtok_marks delim r false count)
      else String c (strtok_marks delim r true count)
  end.

End CString.

(** ** Lookups by name *)

Module Names.

Import Ascii String CString.
Local Open Scope string_scope.
Local Open Scope Z_scope.

Definition elementNames : list string :=
  [ "quatos_configuration"; "craft"; "ports"; "port"; "distance"; "mass";
    "motor"; "arm"; "esc"; "cube"; "geometry" ].

Definition ELEMENT_QUATOS_CONFIGURATION : Z := 0.
Definition ELEMENT_CRAFT : Z := 1.
Definition ELEMENT_PORTS : Z := 2.
Definition ELEMENT_PORT : Z := 3.
Definition ELEMENT_DISTANCE : Z := 4.
Definition ELEMENT_MASS : Z := 5.
Definition ELEMENT_MOTOR : Z := 6.
Definition ELEMENT_ARM : Z := 7.
Definition ELEMENT_ESC : Z := 8.
Definition ELEMENT_CUBE : Z := 9.
Definition ELEMENT_GEOMETRY : Z := 10.
Definition ELEMENT_NUM : Z := 11.

Definition configTypes : list string :=
  [ "quad_plus"; "quad_x"; "hex_plus"; "hex_x"; "octo_plus"; "octo_x";
    "custom" ].

Definition CONFIG_NUM : Z := 7.

(** The enumerator with a given value. *)
Definition config_of (i : Z) : option config :=
  match i with
  | 0 => Some CONFIG_QUAD_PLUS
  | 1 => Some CONFIG_QUAD_X
  | 2 => Some CONFIG_HEX_PLUS
  | 3 => Some CONFIG_HEX_X
  | 4 => Some CONFIG_OCTO_PLUS
  | 5 => Some CONFIG_OCTO_X
  | 6 => Some CONFIG_CUSTOM
  | _ => None
  end.

Definition config_value (c : config) : Z :=
  match c with
  | CONFIG_QUAD_PLUS => 0
  | CONFIG_QUAD_X => 1
  | CONFIG_HEX_PLUS => 2
  | CONFIG_HEX_X => 3
  | CONFIG_OCTO_PLUS => 4
  | CONFIG_OCTO_X => 5
  | CONFIG_CUSTOM => 6
  end.

(** [for (i = 0; i < NUM; i++) if (!strncasecmp(name, table[i],
    strlen(table[i])+1)) return i; return -1;], entered at index [i] with
    the entries from [i] on. *)
Fixpoint index_by_name (table : list string) (name : string) (i : Z) : Z :=
  match table with
  | [] => -1
  | entry :: rest =>
      if strncasecmp name entry (strlen entry + 1) =? 0 then i
      else index_by_name rest name (i + 1)
  end.

Definition quatosToolConfigTypeByName (name : string) : Z :=
  index_by_name configTypes name 0.

Definition quatosToolElementIdByName (name : string) : Z :=
  index_by_name elementNames name 0.

(** [quatosToolFindAttr]: [atts] is the array of attribute names and
    values the parser hands to the start handler, two entries per
    attribute; the result is the value after the first name that matches,
    [None] for NULL. *)
Fixpoint quatosToolFindAttr (atts : list (string * string)) (name : string)
    : option string :=
  match atts with
  | [] => None
  | (att, value) :: rest =>
      if strncasecmp name att (strlen name) =? 0 then Some value
      else quatosToolFindAttr rest name
  end.

End Names.

(** ** Ports *)

(** [for (i = 0; i < ports.size(); i++) if (ports(i) == port) return i;
    return -1;], entered at index [i] with the entries from [i] on. *)
Fixpoint find_port_from (ports : list Z) (port : Z) (i : Z) : Z :=
  match ports with
  | [] => (-1)%Z
  | p :: rest => if (p =? port)%Z then i else find_port_from rest port (i + 1)%Z
  end.

Definition quatosToolFindPort (ports : list Z) (port : Z) : Z :=
  find_port_from ports port 0.

(** ** Output of a matrix

    [quatosToolMatrixOutput] as the sequence of lines it writes.  A line
    is its fixed text and the values handed to [fprintf]; how [fprintf]
    renders a number is not modelled.  [to_float] is the conversion of a
    [double] to the [float] variables [val], [t], [p], [r], [y], and
    [round] the function of the C library. *)

Module Output.

Import Ascii String.
Local Open Scope string_scope.

Section Lines.

Context {T : Type} {SC : Scalar T}.
Variable to_float : T -> T.
Variable round : T -> T.
Local Open Scope scalar_scope.

Inductive line : Type :=
  | Display (name : string) (m : matrix T)     (* displayMatrix(name, m)         *)
  | Text (s : string)                          (* a line without a value         *)
  | Entry (key : string) (v : T)               (* key, then one coefficient      *)
  | Motor (key : string) (port : Z) (tail : string) (val : T).
                                               (* key, port number, tail of the
                                                  key, one [float]               *)

(** The coefficient reported for port [i]: [by_row] for the M matrix
    (3 x n, [mtrx(k, j)]), otherwise [mtrx(j, k)]; 0 when no motor is on
    the port. *)
Definition port_value (ports : list Z) (mtrx : matrix T) (by_row : bool)
    (k : nat) (i : Z) : T :=
  let j := quatosToolFindPort ports i in
  if (0 <=? j)%Z then
    to_float (if by_row then coeff mtrx k (Z.to_nat j)
              else coeff mtrx (Z.to_nat j) k)
  else #0.

(** The port numbers 1 .. NUM_PORTS. *)
Definition port_numbers : list Z :=
  map (fun i => Z.of_nat i) (seq 1 (Z.to_nat NUM_PORTS)).

Definition mix_header (maxIdx : nat) (ii : nat) : list line :=
  match ii with
  | 0 => [Text (if Nat.eqb maxIdx 4 then "[Throttle]" else "[MM_Roll]")]
  | 1 => [Text (if Nat.eqb maxIdx 4 then "[Roll]" else "[MM_Pitch]")]
  | 2 => [Text (if Nat.eqb maxIdx 4 then "[Pitch]" else "[MM_Yaw]")]
  | 3 => [Text "[Yaw]"]
  | _ => []
  end%nat.

(** [round(val * 10000)/10000]: the product of the [float] and the [int]
    is a [float]; with the overloads that <math.h> declares since C++11,
    [round] of a [float] is a [float], and so is its quotient by the
    [int].  [fprintf] receives the quotient converted to [double], which
    changes no value. *)
Definition rounded (val : T) : T :=
  to_float (round (to_float (val * #10000)) / #10000).

Definition mix_section (ports : list Z) (mtrx : matrix T) (maxIdx : nat)
    (ii : nat) : list line :=
  mix_header maxIdx ii
  ++ map (fun i =>
            Motor "Motor" i ""
              (rounded (port_value ports mtrx (negb (Nat.eqb maxIdx 4)) ii i)))
       port_numbers
  ++ [Text ""].

Definition define_lines (ports : list Z) (mtrx : matrix T) (is_M : bool)
    (i : Z) : list line :=
  if is_M then
    let r := port_value ports mtrx true 0 i in
    let p := port_value ports mtrx true 1 i in
    let y := port_value ports mtrx true 2 i in
    [ Motor "#define DEFAULT_QUATOS_MM_P" i "" p;
      Motor "#define DEFAULT_QUATOS_MM_R" i "" r;
      Motor "#define DEFAULT_QUATOS_MM_Y" i "" y ]
  else
    let t := port_value ports mtrx false 0 i in
    let r := port_value ports mtrx false 1 i in
    let p := port_value ports mtrx false 2 i in
    let y := port_value ports mtrx false 3 i in
    [ Motor "#define DEFAULT_MOT_PWRD_" i "_T" t;
      Motor "#define DEFAULT_MOT_PWRD_" i "_P" p;
      Motor "#define DEFAULT_MOT_PWRD_" i "_R" r;
      Motor "#define DEFAULT_MOT_PWRD_" i "_Y" y ].

Definition quatosToolMatrixOutput (outputMIXfile : bool) (ports : list Z)
    (mtrxName : string) (mtrx : matrix T) : list line :=
  (if outputMIXfile then [] else [Display mtrxName mtrx])
  ++
  (* output .mix file for QGC (.ini file format) *)
  if outputMIXfile then
    if (CString.strcmp mtrxName "J" =? 0)%Z then
      [ Text "[QUATOS]";
        Entry "J_ROLL" (coeff mtrx 0 0);
        Entry "J_PITCH" (coeff mtrx 1 1);
        Entry "J_YAW" (coeff mtrx 2 2);
        Text "" ]
    else
      (* "M" matrix has only 3 members *)
      let maxIdx := if (CString.strcmp mtrxName "M" =? 0)%Z then 3%nat else 4%nat in
      Text "" :: flat_map (mix_section ports mtrx maxIdx) (seq 0 maxIdx)
  (* output generated matrix and #defines for DEFAULT_MOT_PWRD params *)
  else
    if (CString.strcmp mtrxName "J" =? 0)%Z then
      [ Entry "#define DEFAULT_QUATOS_J_ROLL" (coeff mtrx 0 0);
        Entry "#define DEFAULT_QUATOS_J_PITCH" (coeff mtrx 1 1);
        Entry "#define DEFAULT_QUATOS_J_YAW" (coeff mtrx 2 2);
        Text "" ]
    else
      flat_map (define_lines ports mtrx (CString.strcmp mtrxName "M" =? 0)%Z)
        port_numbers
      ++ [Text ""].

End Lines.

End Output.

(** ** The XML handlers *)

Module Parser.

Import Ascii String CString Names.
Local Open Scope Z_scope.

(** What a handler ends with: the updated state, a call of [exit], or
    behaviour the C language leaves undefined (an access outside an array
    or a matrix, which [EIGEN_NO_DEBUG] leaves unchecked, or a NULL handed
    to [atof]). *)
Inductive result (A : Type) : Type :=
  | Ok (a : A)
  | Exit (status : Z)
  | Undefined.

Arguments Ok {A} a.
Arguments Exit {A} status.
Arguments Undefined {A}.

Definition bind {A B : Type} (r : result A) (f : A -> result B) : result B :=
  match r with
  | Ok a => f a
  | Exit s => Exit s
  | Undefined => Undefined
  end.

(** [a[i]] and [a[i] = v] on an array or a vector of known size. *)
Definition read {A : Type} (a : list A) (i : Z) : option A :=
  if (0 <=? i) && (i <? Z.of_nat (List.length a))
  then nth_error a (Z.to_nat i) else None.

Fixpoint replace_nth {A : Type} (a : list A) (k : nat) (v : A) : list A :=
  match a, k with
  | [], _ => []
  | _ :: r, O => v :: r
  | x :: r, S k' => x :: replace_nth r k' v
  end.

Definition write {A : Type} (a : list A) (i : Z) (v : A) : option (list A) :=
  if (0 <=? i) && (i <? Z.of_nat (List.length a))
  then Some (replace_nth a (Z.to_nat i) v) else None.

(** [resize]: a vector whose size changes is reallocated and its
    coefficients are indeterminate ([None]); [conservativeResize] keeps the
    coefficients that remain. *)
Definition resize {A : Type} (k : nat) (v : list (option A)) : list (option A) :=
  if Nat.eqb (List.length v) k then v else repeat None k.

Definition conservativeResize {A : Type} (k : nat) (fresh : A) (v : list A)
    : list A :=
  firstn k v ++ repeat fresh (k - List.length v).

Definition MAX_DEPTH : Z := 16.

(** [parseContext_t]; [value] holds the [valueLen] characters stored so
    far. *)
Module context.

Record parseContext_t : Type := mk_context {
  elementIds : list Z;
  level : Z;
  validCraft : Z;
  n : Z;
  value : string
}.

Definition with_elementIds (c : parseContext_t) (v : list Z) : parseContext_t :=
  {| elementIds := v; level := level c; validCraft := validCraft c;
     n := n c; value := value c |}.
Definition with_level (c : parseContext_t) (v : Z) : parseContext_t :=
  {| elementIds := elementIds c; level := v; validCraft := validCraft c;
     n := n c; value := value c |}.
Definition with_validCraft (c : parseContext_t) (v : Z) : parseContext_t :=
  {| elementIds := elementIds c; level := level c; validCraft := v;
     n := n c; value := value c |}.
Definition with_n (c : parseContext_t) (v : Z) : parseContext_t :=
  {| elementIds := elementIds c; level := level c; validCraft := validCraft c;
     n := v; value := value c |}.
Definition with_value (c : parseContext_t) (v : string) : parseContext_t :=
  {| elementIds := elementIds c; level := level c; validCraft := validCraft c;
     n := n c; value := v |}.

End context.

(** The fields of [quatosData] the handlers write.  [ports] and [propDir]
    hold the integers [atoi] returned; a coefficient no statement has
    written since its vector was allocated is [None]. *)
Module quatosData.

Record fields (T : Type) : Type := mk_fields {
  validCraft : Z;
  craftId : string;
  craftType : Z;
  n : Z;
  configId : Z;
  ports : list Z;
  propDir : list Z;
  frameX : list (option T);
  frameY : list (option T);
  massEsc : T;
  massMot : T;
  massArm : T;
  massObjects : list (option T);
  distMot : T;
  distEsc : T;
  objectsDim : list (list (option T));
  objectsOffset : list (list (option T))
}.

Definition set_validCraft {T : Type} (q : fields T) (v : Z) : fields T :=
  {|   validCraft := v; craftId := craftId q; craftType := craftType q;
     n := n q; configId := configId q; ports := ports q;
     propDir := propDir q; frameX := frameX q; frameY := frameY q;
     massEsc := massEsc q; massMot := massMot q; massArm := massArm q;
     massObjects := massObjects q; distMot := distMot q;
     distEsc := distEsc q; objectsDim := objectsDim q;
     objectsOffset := objectsOffset q |}.

Definition set_craftId {T : Type} (q : fields T) (v : string) : fields T :=
  {|   validCraft := validCraft q; craftId := v; craftType := craftType q;
     n := n q; configId := configId q; ports := ports q;
     propDir := propDir q; frameX := frameX q; frameY := frameY q;
     massEsc := massEsc q; massMot := massMot q; massArm := massArm q;
     massObjects := massObjects q; distMot := distMot q;
     distEsc := distEsc q; objectsDim := objectsDim q;
     objectsOffset := objectsOffset q |}.

Definition set_craftType {T : Type} (q : fields T) (v : Z) : fields T :=
  {|   validCraft := validCraft q; craftId := craftId q; craftType := v;
     n := n q; configId := configId q; ports := ports q;
     propDir := propDir q; frameX := frameX q; frameY := frameY q;
     massEsc := massEsc q; massMot := massMot q; massArm := massArm q;
     massObjects := massObjects q; distMot := distMot q;
     distEsc := distEsc q; objectsDim := objectsDim q;
     objectsOffset := objectsOffset q |}.

Definition set_n {T : Type} (q : fields T) (v : Z) : fields T :=
  {|   validCraft := validCraft q; craftId := craftId q;
     craftType := craftType q; n := v; configId := configId q;
     ports := ports q; propDir := propDir q; frameX := frameX q;
     frameY := frameY q; massEsc := massEsc q; massMot := massMot q;
     massArm := massArm q; massObjects := massObjects q;
     distMot := distMot q; distEsc := distEsc q;
     objectsDim := objectsDim q; objectsOffset := objectsOffset q |}.

Definition set_configId {T : Type} (q : fields T) (v : Z) : fields T :=
  {|   validCraft := validCraft q; craftId := craftId q;
     craftType := craftType q; n := n q; configId := v; ports := ports q;
     propDir := propDir q; frameX := frameX q; frameY := frameY q;
     massEsc := massEsc q; massMot := massMot q; massArm := massArm q;
     massObjects := massObjects q; distMot := distMot q;
     distEsc := distEsc q; objectsDim := objectsDim q;
     objectsOffset := objectsOffset q |}.

Definition set_ports {T : Type} (q : fields T) (v : list Z) : fields T :=
  {|   validCraft := validCraft q; craftId := craftId q;
     craftType := craftType q; n := n q; configId := configId q;
     ports := v; propDir := propDir q; frameX := frameX q;
     frameY := frameY q; massEsc := massEsc q; massMot := massMot q;
     massArm := massArm q; massObjects := massObjects q;
     distMot := distMot q; distEsc := distEsc q;
     objectsDim := objectsDim q; objectsOffset := objectsOffset q |}.

Definition set_propDir {T : Type} (q : fields T) (v : list Z) : fields T :=
  {|   validCraft := validCraft q; craftId := craftId q;
     craftType := craftType q; n := n q; configId := configId q;
     ports := ports q; propDir := v; frameX := frameX q;
     frameY := frameY q; massEsc := massEsc q; massMot := massMot q;
     massArm := massArm q; massObjects := massObjects q;
     distMot := distMot q; distEsc := distEsc q;
     objectsDim := objectsDim q; objectsOffset := objectsOffset q |}.

Definition set_frameX {T : Type} (q : fields T) (v : list (option T)) : fields T :=
  {|   validCraft := validCraft q; craftId := craftId q;
     craftType := craftType q; n := n q; configId := configId q;
     ports := ports q; propDir := propDir q; frameX := v;
     frameY := frameY q; massEsc := massEsc q; massMot := massMot q;
     massArm := massArm q; massObjects := massObjects q;
     distMot := distMot q; distEsc := distEsc q;
     objectsDim := objectsDim q; objectsOffset := objectsOffset q |}.

Definition set_frameY {T : Type} (q : fields T) (v : list (option T)) : fields T :=
  {|   validCraft := validCraft q; craftId := craftId q;
     craftType := craftType q; n := n q; configId := configId q;
     ports := ports q; propDir := propDir q; frameX := frameX q;
     frameY := v; massEsc := massEsc q; massMot := massMot q;
     massArm := massArm q; massObjects := massObjects q;
     distMot := distMot q; distEsc := distEsc q;
     objectsDim := objectsDim q; objectsOffset := objectsOffset q |}.

Definition set_massEsc {T : Type} (q : fields T) (v : T) : fields T :=
  {|   validCraft := validCraft q; craftId := craftId q;
     craftType := craftType q; n := n q; configId := configId q;
     ports := ports q; propDir := propDir q; frameX := frameX q;
     frameY := frameY q; massEsc := v; massMot := massMot q;
     massArm := massArm q; massObjects := massObjects q;
     distMot := distMot q; distEsc := distEsc q;
     objectsDim := objectsDim q; objectsOffset := objectsOffset q |}.

Definition set_massMot {T : Type} (q : fields T) (v : T) : fields T :=
  {|   validCraft := validCraft q; craftId := craftId q;
     craftType := craftType q; n := n q; configId := configId q;
     ports := ports q; propDir := propDir q; frameX := frameX q;
     frameY := frameY q; massEsc := massEsc q; massMot := v;
     massArm := massArm q; massObjects := massObjects q;
     distMot := distMot q; distEsc := distEsc q;
     objectsDim := objectsDim q; objectsOffset := objectsOffset q |}.

Definition set_massArm {T : Type} (q : fields T) (v : T) : fields T :=
  {|   validCraft := validCraft q; craftId := craftId q;
     craftType := craftType q; n := n q; configId := configId q;
     ports := ports q; propDir := propDir q; frameX := frameX q;
     frameY := frameY q; massEsc := massEsc q; massMot := massMot q;
     massArm := v; massObjects := massObjects q; distMot := distMot q;
     distEsc := distEsc q; objectsDim := objectsDim q;
     objectsOffset := objectsOffset q |}.

Definition set_massObjects {T : Type} (q : fields T) (v : list (option T)) : fields T :=
  {|   validCraft := validCraft q; craftId := craftId q;
     craftType := craftType q; n := n q; configId := configId q;
     ports := ports q; propDir := propDir q; frameX := frameX q;
     frameY := frameY q; massEsc := massEsc q; massMot := massMot q;
     massArm := massArm q; massObjects := v; distMot := distMot q;
     distEsc := distEsc q; objectsDim := objectsDim q;
     objectsOffset := objectsOffset q |}.

Definition set_distMot {T : Type} (q : fields T) (v : T) : fields T :=
  {|   validCraft := validCraft q; craftId := craftId q;
     craftType := craftType q; n := n q; configId := configId q;
     ports := ports q; propDir := propDir q; frameX := frameX q;
     frameY := frameY q; massEsc := massEsc q; massMot := massMot q;
     massArm := massArm q; massObjects := massObjects q; distMot := v;
     distEsc := distEsc q; objectsDim := objectsDim q;
     objectsOffset := objectsOffset q |}.

Definition set_distEsc {T : Type} (q : fields T) (v : T) : fields T :=
  {|   validCraft := validCraft q; craftId := craftId q;
     craftType := craftType q; n := n q; configId := configId q;
     ports := ports q; propDir := propDir q; frameX := frameX q;
     frameY := frameY q; massEsc := massEsc q; massMot := massMot q;
     massArm := massArm q; massObjects := massObjects q;
     distMot := distMot q; distEsc := v; objectsDim := objectsDim q;
     objectsOffset := objectsOffset q |}.

Definition set_objectsDim {T : Type} (q : fields T) (v : list (list (option T))) : fields T :=
  {|   validCraft := validCraft q; craftId := craftId q;
     craftType := craftType q; n := n q; configId := configId q;
     ports := ports q; propDir := propDir q; frameX := frameX q;
     frameY := frameY q; massEsc := massEsc q; massMot := massMot q;
     massArm := massArm q; massObjects := massObjects q;
     distMot := distMot q; distEsc := distEsc q; objectsDim := v;
     objectsOffset := objectsOffset q |}.

Definition set_objectsOffset {T : Type} (q : fields T) (v : list (list (option T))) : fields T :=
  {|   validCraft := validCraft q; craftId := craftId q;
     craftType := craftType q; n := n q; configId := configId q;
     ports := ports q; propDir := propDir q; frameX := frameX q;
     frameY := frameY q; massEsc := massEsc q; massMot := massMot q;
     massArm := massArm q; massObjects := massObjects q;
     distMot := distMot q; distEsc := distEsc q;
     objectsDim := objectsDim q; objectsOffset := v |}.

End quatosData.

Import context.

Section Handlers.

Context {T : Type} {SC : Scalar T}.

Record Libc : Type := mk_libc {
  atoi : string -> Z;
  atof : string -> T
}.

Variable L : Libc.

Definition state : Type := (parseContext_t * quatosData.fields T)%type.

(** [memset(&context, 0, ...)] and [memset(&quatosData, 0, ...)], then the
    craft id the command line gave (empty without [-c]). *)
Definition initial (craft_id : string) : state :=
  (mk_context (repeat 0 (Z.to_nat MAX_DEPTH)) 0 0 0 EmptyString,
   quatosData.mk_fields 0 craft_id 0 0 0 [] [] [] [] (fofZ 0) (fofZ 0) (fofZ 0)
     [] (fofZ 0) (fofZ 0) [] []).

Definition resetCraft (c : parseContext_t) (q : quatosData.fields T)
    : result state :=
  let '(c, q) :=
    if quatosData.n q =? 0 then
      let t := quatosData.craftType q in
      if (t =? 0) || (t =? 1) then (c, quatosData.set_n q 4)
      else if (t =? 2) || (t =? 3) then (c, quatosData.set_n q 6)
      else if (t =? 5) || (t =? 4) then (c, quatosData.set_n q 8)
      else (with_validCraft c 0, quatosData.set_n q 0)
    else (c, q) in
  let k := quatosData.n q in
  if k <? 0 then Undefined
  else
    let q := quatosData.set_ports q (repeat 0 (Z.to_nat k)) in
    let q := quatosData.set_propDir q (repeat 0 (Z.to_nat k)) in
    let q := quatosData.set_frameX q (resize (Z.to_nat k) (quatosData.frameX q)) in
    let q := quatosData.set_frameY q (resize (Z.to_nat k) (quatosData.frameY q)) in
    let q := quatosData.set_massEsc q DEFAULT_MASS_ESC in
    let q := quatosData.set_massMot q DEFAULT_MASS_MOTOR in
    let q := quatosData.set_massArm q DEFAULT_MASS_ARM in
    let q := quatosData.set_distEsc q DEFAULT_DIST_ESC in
    let q := quatosData.set_distMot q DEFAULT_DIST_MOTOR in
    Ok (c, quatosData.set_validCraft q 1).

(** [m(row, col) = atof(att)] on a matrix of three columns, when the
    attribute is present. *)
Definition set_cell (m : list (list (option T))) (row : Z) (col : Z)
    (att : option string) : result (list (list (option T))) :=
  match att with
  | None => Ok m
  | Some a =>
      match read m row with
      | None => Undefined
      | Some r =>
          match write r col (Some (atof L a)) with
          | None => Undefined
          | Some r' =>
              match write m row r' with
              | None => Undefined
              | Some m' => Ok m'
              end
          end
      end
  end.

Definition parseCube (c : parseContext_t) (q : quatosData.fields T)
    (atts : list (string * string)) : result state :=
  let k := Z.to_nat (n c + 1) in
  let blank := repeat (@None T) 3 in
  let q := quatosData.set_massObjects q
             (conservativeResize k None (quatosData.massObjects q)) in
  let q := quatosData.set_objectsDim q
             (conservativeResize k blank (quatosData.objectsDim q)) in
  let q := quatosData.set_objectsOffset q
             (conservativeResize k blank (quatosData.objectsOffset q)) in
  bind (set_cell (quatosData.objectsDim q) (n c) 0
          (quatosToolFindAttr atts "dimx")) (fun m =>
  bind (set_cell m (n c) 1 (quatosToolFindAttr atts "dimy")) (fun m =>
  bind (set_cell m (n c) 2 (quatosToolFindAttr atts "dimz")) (fun m =>
  let q := quatosData.set_objectsDim q m in
  bind (set_cell (quatosData.objectsOffset q) (n c) 0
          (quatosToolFindAttr atts "offsetx")) (fun m =>
  bind (set_cell m (n c) 1 (quatosToolFindAttr atts "offsety")) (fun m =>
  bind (set_cell m (n c) 2 (quatosToolFindAttr atts "offsetz")) (fun m =>
  Ok (c, quatosData.set_objectsOffset q m))))))).

Definition parsePort (c : parseContext_t) (q : quatosData.fields T)
    (atts : list (string * string)) : result state :=
  match quatosToolFindAttr atts "rotation" with
  | None => Ok (c, q)      (* "missing rotation attribute" *)
  | Some att =>
      match write (quatosData.propDir q) (n c) (atoi L att) with
      | None => Undefined
      | Some v => Ok (c, quatosData.set_propDir q v)
      end
  end.

Definition parseCraft (c : parseContext_t) (q : quatosData.fields T)
    (atts : list (string * string)) : result state :=
  match quatosToolFindAttr atts "id" with
  | None => Ok (c, q)
  | Some att =>
      if (head (quatosData.craftId q) =? 0)
         || (strcmp att (quatosData.craftId q) =? 0) then
        (* strncpy(craftId, att, strlen(att)) into a buffer of 256 bytes
           that is zero past the id it holds; 256 characters or more leave
           it without a terminator or overrun it *)
        if (256 <=? Z.of_nat (strlen att)) then Undefined
        else
          let q := quatosData.set_craftId q (text att) in
          match quatosToolFindAttr atts "config" with
          | None => Ok (c, q)      (* "missing config type" *)
          | Some att =>
              let q := quatosData.set_craftType q (quatosToolConfigTypeByName att) in
              if quatosData.craftType q <? 0 then
                Ok (c, q)          (* "invalid config type" *)
              else
                let motors :=
                  if quatosData.craftType q =? config_value CONFIG_CUSTOM then
                    match quatosToolFindAttr atts "motors" with
                    | None => Exit 1
                    | Some att =>
                        if atoi L att =? 0 then Exit 1
                        else Ok (quatosData.set_n q (atoi L att))
                    end
                  else Ok q in
                bind motors (fun q =>
                  let q :=
                    match quatosToolFindAttr atts "configId" with
                    | Some att => quatosData.set_configId q (atoi L att)
                    | None =>
                        quatosData.set_configId q
                          (match config_of (quatosData.craftType q) with
                           | Some t => configIds t
                           | None => 0
                           end)
                    end in
                  resetCraft (with_validCraft c 1) q)
          end
      else Ok (c, q)
  end.

Definition parseGeometryMotor (c : parseContext_t) (q : quatosData.fields T)
    (atts : list (string * string)) : result state :=
  match quatosToolFindAttr atts "rotation" with
  | None => Ok (c, q)      (* "missing geometry->motor rotation attribute" *)
  | Some att =>
      match write (quatosData.propDir q) (n c) (atoi L att) with
      | None => Undefined
      | Some v =>
          let q := quatosData.set_propDir q v in
          match quatosToolFindAttr atts "port" with
          | None => Ok (c, q)
          | Some att =>
              if atoi L att =? 0 then Ok (c, q)
              else
                match write (quatosData.ports q) (n c) (atoi L att) with
                | None => Undefined
                | Some p => Ok (c, quatosData.set_ports q p)
                end
          end
      end
  end.

(** The [switch] of [startElement] on the element just pushed. *)
Definition start_switch (elementId : Z) (c : parseContext_t)
    (q : quatosData.fields T) (atts : list (string * string)) : result state :=
  if elementId =? ELEMENT_QUATOS_CONFIGURATION then
    Ok (with_validCraft c 0, q)
  else if elementId =? ELEMENT_CRAFT then
    parseCraft c q atts
  else if (elementId =? ELEMENT_PORTS) || (elementId =? ELEMENT_GEOMETRY)
          || (elementId =? ELEMENT_DISTANCE) || (elementId =? ELEMENT_MASS) then
    Ok (if validCraft c =? 0 then c else with_n c 0, q)
  else if elementId =? ELEMENT_PORT then
    if validCraft c =? 0 then Ok (c, q) else parsePort c q atts
  else if elementId =? ELEMENT_MOTOR then
    if validCraft c =? 0 then Ok (c, q)
    else
      match read (elementIds c) (level c - 1) with
      | None => Undefined
      | Some parent =>
          if parent =? ELEMENT_GEOMETRY then parseGeometryMotor c q atts
          else Ok (c, q)
      end
  else if elementId =? ELEMENT_CUBE then
    if validCraft c =? 0 then Ok (c, q) else parseCube c q atts
  else Ok (c, q).

Definition startElement (st : state) (name : string)
    (atts : list (string * string)) : result state :=
  let '(c, q) := st in
  let elementId := quatosToolElementIdByName name in
  bind
    (if (0 <=? elementId) && (level c <? MAX_DEPTH - 1) then
       match write (elementIds c) (level c + 1) elementId with
       | None => Undefined
       | Some ids =>
           start_switch elementId
             (with_level (with_elementIds c ids) (level c + 1)) q atts
       end
     else Ok (c, q))
    (fun st => Ok (with_value (fst st) EmptyString, snd st)).

(** [context->value[context->valueLen++] = *str]: the first character of
    the chunk is stored; the buffer has 256 bytes. *)
Definition parseChar (st : state) (str : ascii) : result state :=
  let '(c, q) := st in
  if 256 <=? Z.of_nat (String.length (value c)) then Undefined
  else Ok (with_value c (value c ++ String str EmptyString)%string, q).

(** The buffer read as a C string: it is zeroed at every start tag, so
    the string is the characters stored since, provided one byte of the
    256 is left for the terminator. *)
Definition value_text (c : parseContext_t) : option string :=
  if Z.of_nat (String.length (value c)) <? 256 then Some (text (value c))
  else None.

Definition with_text (c : parseContext_t) (f : string -> result state)
    : result state :=
  match value_text c with
  | None => Undefined
  | Some s => f s
  end.

(** The [switch] of [endElement]. *)
Definition end_switch (elementId : Z) (c : parseContext_t)
    (q : quatosData.fields T) : result state :=
  if elementId =? ELEMENT_CRAFT then
    Ok (with_validCraft c 0, q)
  else if elementId =? ELEMENT_PORT then
    if validCraft c =? 0 then Ok (c, q)
    else
      with_text c (fun s =>
        match write (quatosData.ports q) (n c) (atoi L s) with
        | None => Undefined
        | Some p => Ok (with_n c (n c + 1), quatosData.set_ports q p)
        end)
  else if elementId =? ELEMENT_MOTOR then
    if validCraft c =? 0 then Ok (c, q)
    else
      match read (elementIds c) (level c - 1) with
      | None => Undefined
      | Some parent =>
          if parent =? ELEMENT_MASS then
            with_text c (fun s => Ok (c, quatosData.set_massMot q (atof L s)))
          else if parent =? ELEMENT_DISTANCE then
            with_text c (fun s => Ok (c, quatosData.set_distMot q (atof L s)))
          else if parent =? ELEMENT_GEOMETRY then
            with_text c (fun s =>
              match strtok_all s 44 with
              | tx :: ty :: _ =>
                  match write (quatosData.frameX q) (n c) (Some (atof L tx)) with
                  | None => Undefined
                  | Some fx =>
                      match write (quatosData.frameY q) (n c) (Some (atof L ty)) with
                      | None => Undefined
                      | Some fy =>
                          Ok (with_n (with_value c (strtok_marks 44 (value c) false 2))
                                (n c + 1),
                              quatosData.set_frameY (quatosData.set_frameX q fx) fy)
                      end
                  end
              | _ => Undefined      (* atof(NULL) *)
              end)
          else Ok (c, q)
      end
  else if elementId =? ELEMENT_ARM then
    if validCraft c =? 0 then Ok (c, q)
    else
      match read (elementIds c) (level c - 1) with
      | None => Undefined
      | Some parent =>
          if parent =? ELEMENT_MASS then
            with_text c (fun s => Ok (c, quatosData.set_massArm q (atof L s)))
          else Ok (c, q)
      end
  else if elementId =? ELEMENT_ESC then
    if validCraft c =? 0 then Ok (c, q)
    else
      match read (elementIds c) (level c - 1) with
      | None => Undefined
      | Some parent =>
          if parent =? ELEMENT_MASS then
            with_text c (fun s => Ok (c, quatosData.set_massEsc q (atof L s)))
          else if parent =? ELEMENT_DISTANCE then
            with_text c (fun s => Ok (c, quatosData.set_distEsc q (atof L s)))
          else Ok (c, q)
      end
  else if elementId =? ELEMENT_CUBE then
    if validCraft c =? 0 then Ok (c, q)
    else
      with_text c (fun s =>
        match write (quatosData.massObjects q) (n c) (Some (atof L s)) with
        | None => Undefined
        | Some m => Ok (with_n c (n c + 1), quatosData.set_massObjects q m)
        end)
  else Ok (c, q).

Definition endElement (st : state) (name : string) : result state :=
  let '(c, q) := st in
  match read (elementIds c) (level c) with
  | None => Undefined
  | Some elementId =>
      bind (end_switch elementId c q)
        (fun st => Ok (with_level (fst st) (level (fst st) - 1), snd st))
  end.

(** What the XML parser reports, in document order: a start tag with its
    attributes, an end tag, and (to the default handler) a chunk of
    anything else, of which the handler looks at the first character. *)
Inductive event : Type :=
  | StartElement (name : string) (atts : list (string * string))
  | EndElement (name : string)
  | Default (str : ascii).

Definition handle (st : state) (e : event) : result state :=
  match e with
  | StartElement name atts => startElement st name atts
  | EndElement name => endElement st name
  | Default str => parseChar st str
  end.

Fixpoint run (events : list event) (st : state) : result state :=
  match events with
  | [] => Ok st
  | e :: rest => bind (handle st e) (run rest)
  end.

(** [quatosToolReadXML]: the handlers run on the events of the document;
    [parse] calls [exit(1)] where the XML parser reports an error, that is
    after the events of the part that is well formed. *)
Definition quatosToolReadXML (events : list event) (well_formed : bool)
    (st : state) : result state :=
  bind (run events st) (fun st => if well_formed then Ok st else Exit 1).

End Handlers.

End Parser.

(** ** The ranges the computation relies on

    [quatosToolObjCalc] fills [objs[256]] with three objects per motor and
    one per cube, without a test, and reads the frame coordinates of every
    motor and the dimensions and the offset of every cube;
    [quatosToolShapeCalc] converts the extents in millimetres to [int] and
    multiplies them as [int]; [quatosToolCalc] assigns the coordinates of
    a standard type to vectors of [n] coefficients and stacks [propDir]
    under rows of [n] columns.  Outside these ranges the C program has no
    defined behaviour. *)

Section Ranges.

Context {T : Type} {SC : Scalar T}.
Local Open Scope scalar_scope.

Definition int_range (v : Z) : bool := ((- 2 ^ 31 <=? v) && (v <? 2 ^ 31))%Z.

Definition cells_fit (obj : object_t) : bool :=
  let x := ftrunc (dimX obj * #1000) in
  let y := ftrunc (dimY obj * #1000) in
  let z := ftrunc (dimZ obj * #1000) in
  int_range x && int_range y && int_range z
  && int_range (x * y)%Z && int_range (x * y * z)%Z.

Definition objects_fit (d : quatosData_t) : bool :=
  (n d <=? length (frameX d))%nat && (n d <=? length (frameY d))%nat
  && (length (massObjects d) <=? length (objectsDim d))%nat
  && (length (massObjects d) <=? length (objectsOffset d))%nat
  && (3 * n d + length (massObjects d) <=? 256)%nat
  && forallb (fun i => implb (dimensioned (payload_obj d i))
                         (cells_fit (payload_obj d i)))
       (seq 0 (length (massObjects d))).

Definition calc_fits (E : Extern T) (d : quatosData_t) : bool :=
  (length (frameX d) =? n d)%nat && (length (frameY d) =? n d)%nat
  && (length (propDir d) =? n d)%nat
  && (length (fst (frame_geometry E d)) =? n d)%nat
  && (length (snd (frame_geometry E d)) =? n d)%nat
  && objects_fit (set_frame d (frame_geometry E d)).

End Ranges.

(** ** The program, from the document to the tables

    [main] after the command line is read: the document is parsed, an
    invalid craft ends the run with -1, and [quatosToolCalc] runs on the
    record the handlers filled, within the ranges above. *)

Module Tool.

Import Ascii String Parser.

Section Program.

Context {T : Type} {SC : Scalar T}.
Variable E : Extern T.
Variable L : Libc (T := T).

Fixpoint all_some {A : Type} (l : list (option A)) : option (list A) :=
  match l with
  | [] => Some []
  | None :: _ => None
  | Some a :: r => option_map (cons a) (all_some r)
  end.

Definition row3 (r : list (option T)) : option vec3 :=
  match r with
  | [Some a; Some b; Some c] => Some (a, b, c)
  | _ => None
  end.

(** The motor count [resetCraft] gives a standard type. *)
Definition standard_count (t : config) : Z :=
  match t with
  | CONFIG_QUAD_PLUS | CONFIG_QUAD_X => 4
  | CONFIG_HEX_PLUS | CONFIG_HEX_X => 6
  | CONFIG_OCTO_PLUS | CONFIG_OCTO_X => 8
  | CONFIG_CUSTOM => 0
  end.

(** The record [quatosToolCalc] starts from.  It is [None] where the
    computation would read a coefficient the handlers left indeterminate
    (a coordinate of a custom frame, a mass, dimension or offset of a
    cube), or would assign the coordinates of a standard type to vectors
    of another size. *)
Definition record_of (q : quatosData.fields T) : option (quatosData_t (T := T)) :=
  match Names.config_of (quatosData.craftType q) with
  | None => None
  | Some t =>
      let geometry :=
        if is_custom t then
          match all_some (quatosData.frameX q), all_some (quatosData.frameY q) with
          | Some fx, Some fy => Some (combine fx fy)
          | _, _ => None
          end
        else if (quatosData.n q =? standard_count t)%Z then Some []
        else None in
      let cubes :=
        match all_some (quatosData.massObjects q),
              all_some (map row3 (quatosData.objectsDim q)),
              all_some (map row3 (quatosData.objectsOffset q)) with
        | Some m, Some dim, Some off => Some (combine (combine m dim) off)
        | _, _, _ => None
        end in
      match geometry, cubes with
      | Some g, Some cb =>
          Some (craft_record t (Z.to_nat (quatosData.n q))
                  (quatosData.configId q) (quatosData.ports q)
                  (quatosData.propDir q) g
                  (quatosData.massMot q) (quatosData.massEsc q)
                  (quatosData.massArm q) (quatosData.distMot q)
                  (quatosData.distEsc q) cb)
      | _, _ => None
      end
  end.

(** How a run ends: [main] returns (with the computed record when it
    returns 0), [exit] is called, or the behaviour is undefined.  A run
    that computes with the craft type -1, which a craft element with an
    invalid config attribute leaves behind an accepted one, is outside
    the record type of the computation. *)
Inductive ending : Type :=
  | Returned (status : Z) (d : option (quatosData_t (T := T)))
  | Exited (status : Z)
  | Unspecified
  | Unmodelled.

Definition quatosTool (craft_id : string) (events : list event)
    (well_formed : bool) : ending :=
  match quatosToolReadXML L events well_formed (initial craft_id) with
  | Exit s => Exited s
  | Undefined => Unspecified
  | Ok (c, q) =>
      if (quatosData.validCraft q =? 0)%Z then Returned (-1) None
      else if (quatosData.craftType q <? 0)%Z then Unmodelled
      else
        match record_of q with
        | None => Unspecified
        | Some d =>
            if calc_fits E d then
              match main E d with
              | Aborted s => Returned s None
              | Finished r => Returned 0 (Some r)
              end
            else Unspecified
        end
  end.

End Program.

End Tool.

(** ** Vocabulary of the front-end statements *)

Module Spelling.

Import Ascii String CString.

(** The character codes of a C string, and the same after [tolower]. *)
Fixpoint codes (s : string) : list Z :=
  match s with
  | EmptyString => []
  | String c r => if (code c =? 0)%Z then [] else code c :: codes r
  end.

Definition lower (s : string) : list Z := map tolower (codes s).

(** [p] is an initial segment of [l]. *)
Definition starts_with (l p : list Z) : Prop := exists rest, l = p ++ rest.

(** A token of [strtok]: not empty, without NUL and without the
    delimiter. *)
Definition token (delim : Z) (s : string) : Prop :=
  s <> EmptyString
  /\ Forall (fun c => code c <> 0%Z /\ code c <> delim) (list_ascii_of_string s).

End Spelling.

Module Documents.

Import Ascii String Parser.
Local Open Scope string_scope.

(** A start tag of a [craft] element. *)
Definition opens_craft (e : event) : bool :=
  match e with
  | StartElement name _ =>
      (Names.quatosToolElementIdByName name =? Names.ELEMENT_CRAFT)%Z
  | _ => false
  end.

(** The calls of the default handler that leave the string [s] in the
    buffer: one call per character of [s], which is the character the
    call starts with. *)
Definition chars (s : string) : list event :=
  map Default (list_ascii_of_string s).

(** The program feeds the XML parser one byte per call, and the parser
    decides in which pieces it reports character data to the default
    handler: every character on its own, or a longer run of text in one
    piece.  [parseChar] is called once per piece and reads its first
    character only; an empty piece is not reported. *)
Definition first_char (piece : string) : list ascii :=
  match piece with
  | EmptyString => []
  | String c _ => [c]
  end.

(** The calls of the default handler for character data reported in the
    pieces [pieces], and the string these calls leave in the buffer. *)
Definition reported (pieces : list string) : list event :=
  map Default (flat_map first_char pieces).

Definition stored (pieces : list string) : string :=
  string_of_list_ascii (flat_map first_char pieces).

(** A text reported one character per piece. *)
Definition bytewise (s : string) : list string :=
  map (fun c => String c EmptyString) (list_ascii_of_string s).

(** A [port] element: its rotation attribute and its text. *)
Definition port_element (gap : string) (p : string * string) : list event :=
  [StartElement "port" [("rotation", fst p)]] ++ chars (snd p)
  ++ [EndElement "port"] ++ chars gap.

(** The document
    [<quatos_configuration> <craft id=".." config=".."> <ports>
     <port rotation="..">..</port> ... </ports> </craft>
     </quatos_configuration>],
    with the same white space [gap] after every tag. *)
Definition standard_document (gap id config : string)
    (ports : list (string * string)) : list event :=
  [StartElement "quatos_configuration" []] ++ chars gap
  ++ [StartElement "craft" [("id", id); ("config", config)]] ++ chars gap
  ++ [StartElement "ports" []] ++ chars gap
  ++ flat_map (port_element gap) ports
  ++ [EndElement "ports"] ++ chars gap
  ++ [EndElement "craft"] ++ chars gap
  ++ [EndElement "quatos_configuration"].

(** The same document as the handlers see it when the parser reports the
    white space [gap] and the text of every port element in pieces. *)
Definition reported_port (gap : list string) (p : string * list string)
    : list event :=
  [StartElement "port" [("rotation", fst p)]] ++ reported (snd p)
  ++ [EndElement "port"] ++ reported gap.

Definition reported_document (gap : list string) (id config : string)
    (ports : list (string * list string)) : list event :=
  [StartElement "quatos_configuration" []] ++ reported gap
  ++ [StartElement "craft" [("id", id); ("config", config)]] ++ reported gap
  ++ [StartElement "ports" []] ++ reported gap
  ++ flat_map (reported_port gap) ports
  ++ [EndElement "ports"] ++ reported gap
  ++ [EndElement "craft"] ++ reported gap
  ++ [EndElement "quatos_configuration"].

(** The state when the first [port] element of a standard document is
    reached: the craft is accepted, the tables are zeroed for the motor
    count of its type, and [ports] is on top of the element stack. *)
Definition at_ports {T : Type} {SC : Scalar T} (gap id : string) (type : config)
    : state (T := T) :=
  (context.mk_context [0; 0; 1; 2; 0; 0; 0; 0; 0; 0; 0; 0; 0; 0; 0; 0]%Z 3 1 0 gap,
   quatosData.mk_fields 1 (CString.text id) (Names.config_value type)
     (Tool.standard_count type) (configIds type)
     (repeat 0%Z (Z.to_nat (Tool.standard_count type)))
     (repeat 0%Z (Z.to_nat (Tool.standard_count type)))
     (repeat None (Z.to_nat (Tool.standard_count type)))
     (repeat None (Z.to_nat (Tool.standard_count type)))
     DEFAULT_MASS_ESC DEFAULT_MASS_MOTOR DEFAULT_MASS_ARM []
     DEFAULT_DIST_MOTOR DEFAULT_DIST_ESC [] []).

End Documents.

(** ** A C library for the examples

    [atoi] on white space, an optional sign and decimal digits, as the C
    library converts a numeral that fits an [int]; [atof] on the same
    numerals (the examples hand it no fraction and no exponent). *)

Module Examples.

Import Ascii String CString.
Local Open Scope Z_scope.

Definition isspace (c : Z) : bool := (c =? 32) || ((9 <=? c) && (c <=? 13)).

Definition isdigit (c : Z) : bool := (48 <=? c) && (c <=? 57).

Fixpoint digits (s : string) (acc : Z) : Z :=
  match s with
  | EmptyString => acc
  | String c r =>
      if isdigit (code c) then digits r (10 * acc + (code c - 48)) else acc
  end.

Fixpoint decimal (s : string) : Z :=
  match s with
  | EmptyString => 0
  | String c r =>
      if isspace (code c) then decimal r
      else if code c =? 45 then - digits r 0
      else if code c =? 43 then digits r 0
      else digits s 0
  end.

Definition libc : Parser.Libc (T := R) :=
  Parser.mk_libc decimal (fun s => IZR (decimal s)).

(** A cuboid of 2 x 1 x 3 mm and 6 g, 10 cm ahead of the origin; a plate
    of one metre by one metre, half a millimetre thick; the quad "+" with
    alternating rotation signs that carries the cuboid. *)
Definition small_block : object_t (T := R) :=
  mk_object 6%R (/ 10)%R 0%R 0%R (2 / 1000)%R (1 / 1000)%R (3 / 1000)%R.

Definition thin_plate : object_t (T := R) :=
  mk_object 500%R 0%R 0%R 0%R (/ 2000)%R 1%R 1%R.

Definition loaded_quad : quatosData_t (T := R) :=
  craft_record CONFIG_QUAD_PLUS 0 (configIds CONFIG_QUAD_PLUS)
    [1; 2; 3; 4] [1; -1; 1; -1] []
    DEFAULT_MASS_MOTOR DEFAULT_MASS_ESC DEFAULT_MASS_ARM
    DEFAULT_DIST_MOTOR DEFAULT_DIST_ESC
    [(6%R, ((2 / 1000)%R, (1 / 1000)%R, (3 / 1000)%R), ((/ 10)%R, 0%R, 0%R))].

End Examples.

(** A vector with the entries from index [k] on overwritten by [vs]. *)
Definition overwrite {A : Type} (l : list A) (k : nat) (vs : list A) : list A :=
  firstn k l ++ vs ++ skipn (k + length vs) l.

(** ** Vocabulary of the mass-property statements *)

(** The inertia tensor of a point mass [m] at (x, y, z), about the
    origin. *)
Definition point_inertia (m x y z : R) : matrix R :=
  mk_matrix 3 3 (fun i j =>
    match i, j with
    | O, O => m * (y * y + z * z)
    | O, S O => - (m * (x * y))
    | O, S (S O) => - (m * (x * z))
    | S O, O => - (m * (x * y))
    | S O, S O => m * (x * x + z * z)
    | S O, S (S O) => - (m * (y * z))
    | S (S O), O => - (m * (x * z))
    | S (S O), S O => - (m * (y * z))
    | S (S O), S (S O) => m * (x * x + y * y)
    | _, _ => 0
    end%R).

(** The sum of a list of reals. *)
Definition total (l : list R) : R := fold_right Rplus 0%R l.

(** The four systems [quatosToolCalc] solves: the matrix A, the right-hand
    side B and the vector computed as pseudoInverse(A) * B. *)
Definition mixer_systems {T : Type} {SC : Scalar T} (r : quatosData_t (T := T))
    : list (matrix T * matrix T * matrix T) :=
  let pD := row_of (n r) (propDir r) in
  [ (system_roll (n r) (motorX r) (motorY r), target3, ROLL r);
    (system_pitch (n r) (motorX r) (motorY r), target3, PITCH r);
    (system_yaw (n r) (motorX r) (motorY r) pD, target3, YAW r);
    (system_throttle (n r) (motorX r) (motorY r) pD, target4 (n r), THROT r) ].

(** ** Vocabulary of the port-order statements *)

(** The sum the packing loop builds: the port of motor [i + base] times
    16^i, for i below [count], shifted by [lo] bits. *)
Fixpoint packed (ports : list Z) (base : nat) (lo : Z) (count : nat) : Z :=
  match count with
  | O => 0%Z
  | S k => (packed ports base lo k
            + nth (k + base) ports 0 * 2 ^ (lo + 4 * Z.of_nat k))%Z
  end.

(* ================================================================= *)
(** * Properties *)

(** ** Port-order words *)

(** C9 (defect).  A quad "+" whose first motor is on port 16: the port
    does not fit its 4-bit field, is read back as 0 and its carry is or-ed
    into the field of the next motor.  A six-motor frame on ports
    1, 2, 3, 8, 15, 7: the word is a NaN pattern, whose text keeps nothing
    of the fields.  In both runs the decode fails to recover the ports. *)
Theorem C9_port_order_round_trip_fails :
  PortOrder.recover 4 (PortOrder.emit [16; 2; 3; 4]%Z 4)
    = (4%Z, [0; 3; 3; 4]%Z)
  /\ PortOrder.emit [1; 2; 3; 8; 15; 7]%Z 10 = (PortOrder.Pnan false, None)
  /\ PortOrder.recover 6 (PortOrder.emit [1; 2; 3; 8; 15; 7]%Z 10)
    = (0%Z, [0; 0; 0; 12; 15; 7]%Z).
Proof. repeat split; vm_compute; reflexivity. Qed.

(** ** The per-axis systems *)

(** C7.  In the record [quatosToolCalc] returns, the rotation signs are
    the declared ones times -1; the motor coordinates are the (scaled)
    frame coordinates minus the x and y components of the CG offset, the z
    component taking no part; ROLL is the pseudo-inverse of the 3 x n
    matrix with rows [motorX; ones; -motorY] applied to (0, 0, 1), and
    THROT the pseudo-inverse of the 4 x n matrix with rows
    [motorX; motorY; propDir; ones] applied to (0, 0, 0, n). *)
Theorem C7_mixer_systems :
  forall (T : Type) (SC : Scalar T) (E : Extern T) (d : quatosData_t),
    let r := quatosToolCalc E d in
    let scaled (frame : list T) (j : nat) :=
      if is_custom (craftType d) then nth j frame (fofZ 0)
      else fmul (nth j frame (fofZ 0)) (distMot d) in
    propDir r = map (fun p => fmul p (fofZ (-1))) (propDir d)
    /\ (forall j, coeff (motorX r) 0 j
                  = fsub (scaled (frameX r) j) (fmul (fofZ 1) (vx (offsetCG r))))
    /\ (forall j, coeff (motorY r) 0 j
                  = fsub (scaled (frameY r) j) (fmul (fofZ 1) (vy (offsetCG r))))
    /\ (exists A B : matrix T,
          ROLL r = mmul (pseudoInverse E A feps) B
          /\ rows A = 3%nat /\ cols A = n r
          /\ (forall j, coeff A 0 j = coeff (motorX r) 0 j
                        /\ coeff A 1 j = fofZ 1
                        /\ coeff A 2 j = fneg (coeff (motorY r) 0 j))
          /\ rows B = 3%nat /\ cols B = 1%nat
          /\ coeff B 0 0 = fofZ 0 /\ coeff B 1 0 = fofZ 0 /\ coeff B 2 0 = fofZ 1)
    /\ (exists A B : matrix T,
          THROT r = mmul (pseudoInverse E A feps) B
          /\ rows A = 4%nat /\ cols A = n r
          /\ (forall j, coeff A 0 j = coeff (motorX r) 0 j
                        /\ coeff A 1 j = coeff (motorY r) 0 j
                        /\ coeff A 2 j = nth j (propDir r) (fofZ 0)
                        /\ coeff A 3 j = fofZ 1)
          /\ rows B = 4%nat /\ cols B = 1%nat
          /\ coeff B 0 0 = fofZ 0 /\ coeff B 1 0 = fofZ 0
          /\ coeff B 2 0 = fofZ 0 /\ coeff B 3 0 = fofZ (Z.of_nat (n r))).
Proof.
  intros T SC E d r scaled.
  split; [reflexivity|].
  split; [intro j; subst r scaled; cbn; destruct (is_custom (craftType d)); reflexivity|].
  split; [intro j; subst r scaled; cbn; destruct (is_custom (craftType d)); reflexivity|].
  split.
  - eexists; eexists. split; [reflexivity|].
    repeat split; reflexivity.
  - eexists; eexists. split; [reflexivity|].
    repeat split; reflexivity.
Qed.

(** ** Point masses and cuboids *)

Lemma flat_map_const_length :
  forall (A B : Type) (f : A -> list B) (c : nat) (l : list A),
    (forall a, length (f a) = c) ->
    length (flat_map f l) = (length l * c)%nat.
Proof.
  intros A B f c l Hf.
  induction l as [|a l IH]; simpl.
  - reflexivity.
  - rewrite length_app, Hf, IH. reflexivity.
Qed.

Lemma cells_length :
  forall x y z : Z,
    length (cells x y z) = (Z.to_nat x * (Z.to_nat y * Z.to_nat z))%nat.
Proof.
  intros x y z. unfold cells.
  rewrite flat_map_const_length with (c := (Z.to_nat y * Z.to_nat z)%nat).
  - rewrite length_seq. reflexivity.
  - intro i.
    rewrite flat_map_const_length with (c := Z.to_nat z).
    + rewrite length_seq. reflexivity.
    + intro j. rewrite length_map, length_seq. reflexivity.
Qed.



(** ** Total mass and centre of gravity *)

Section CG.

Context {T : Type} {SC : Scalar T}.

(** The accumulation loop, one running sum at a time. *)
Lemma cg_fold_components :
  forall (objs : list object_t) (acc : vec3 * T),
    let r := fold_left cg_step objs acc in
    vx (fst r) = fold_left (fun s o => fadd s (fmul (mass o) (x o))) objs (vx (fst acc))
    /\ vy (fst r) = fold_left (fun s o => fadd s (fmul (mass o) (y o))) objs (vy (fst acc))
    /\ vz (fst r) = fold_left (fun s o => fadd s (fmul (mass o) (z o))) objs (vz (fst acc))
    /\ snd r = fold_left (fun t o => fadd t (mass o)) objs (snd acc).
Proof.
  induction objs as [|o objs IH]; intros acc; simpl.
  - repeat split.
  - apply IH.
Qed.

Lemma main_cases :
  forall (E : Extern T) (d : quatosData_t),
    (validCraft d = 0%Z /\ main E d = Aborted (-1))
    \/ (validCraft d <> 0%Z /\ main E d = Finished (quatosToolCalc E d)).
Proof.
  intros E d. unfold main.
  destruct (Z.eqb_spec (validCraft d) 0) as [H|H]; [left|right]; split;
    auto.
Qed.

End CG.



(** ** NaN in binary64 *)

Section NaN.

Local Open Scope float_scope.

Lemma nan_add_l : forall a b, is_nan a -> is_nan (a + b).
Proof. unfold is_nan; intros a b H. rewrite add_spec, H. reflexivity. Qed.

Lemma nan_add_r : forall a b, is_nan b -> is_nan (a + b).
Proof.
  unfold is_nan; intros a b H. rewrite add_spec, H.
  destruct (Prim2SF a); reflexivity.
Qed.

Lemma nan_sub_l : forall a b, is_nan a -> is_nan (a - b).
Proof. unfold is_nan; intros a b H. rewrite sub_spec, H. reflexivity. Qed.

Lemma nan_sub_r : forall a b, is_nan b -> is_nan (a - b).
Proof.
  unfold is_nan; intros a b H. rewrite sub_spec, H.
  destruct (Prim2SF a); reflexivity.
Qed.

Lemma nan_mul_l : forall a b, is_nan a -> is_nan (a * b).
Proof. unfold is_nan; intros a b H. rewrite mul_spec, H. reflexivity. Qed.

Lemma nan_mul_r : forall a b, is_nan b -> is_nan (a * b).
Proof.
  unfold is_nan; intros a b H. rewrite mul_spec, H.
  destruct (Prim2SF a); reflexivity.
Qed.

Lemma nan_div_l : forall a b, is_nan a -> is_nan (a / b).
Proof. unfold is_nan; intros a b H. rewrite div_spec, H. reflexivity. Qed.

Lemma nan_opp : forall a, is_nan a -> is_nan (- a).
Proof. unfold is_nan; intros a H. rewrite opp_spec, H. reflexivity. Qed.

Lemma is_zero_spec : forall a, is_zero a -> exists s, Prim2SF a = S754_zero s.
Proof.
  unfold is_zero; intros a H. rewrite eqb_spec in H.
  destruct (Prim2SF a) as [s| s | | s m e]; simpl in H.
  - exists s; reflexivity.
  - destruct s; discriminate H.
  - discriminate H.
  - destruct s; discriminate H.
Qed.

(** The norm of a motor placed at (0, 0) is 0, and a zero coordinate over
    that norm is NaN. *)
Lemma zero_norm :
  forall a b, is_zero a -> is_zero b ->
    exists s, Prim2SF (sqrt (a * a + b * b)) = S754_zero s.
Proof.
  intros a b Ha Hb.
  destruct (is_zero_spec Ha) as [sa Ea], (is_zero_spec Hb) as [sb Eb].
  exists false.
  rewrite sqrt_spec, add_spec, !mul_spec, Ea, Eb.
  destruct sa, sb; reflexivity.
Qed.

Lemma zero_over_zero_norm :
  forall a b c, is_zero a -> is_zero b -> is_zero c ->
    is_nan (c / sqrt (a * a + b * b)).
Proof.
  intros a b c Ha Hb Hc. unfold is_nan.
  destruct (zero_norm Ha Hb) as [s Es], (is_zero_spec Hc) as [sc Ec].
  rewrite div_spec, Es, Ec. reflexivity.
Qed.

End NaN.

Create HintDb nan.
#[local] Hint Resolve nan_add_l nan_add_r nan_sub_l nan_sub_r nan_mul_l
  nan_mul_r nan_div_l nan_opp : nan.

(** ** A custom frame with a motor at the origin *)

Section CentredMotor.

Lemma sum_upto_nan :
  forall (f : nat -> float) (n k : nat),
    (k < n)%nat -> is_nan (f k) -> is_nan (sum_upto n f).
Proof.
  intros f n k Hk Hf.
  induction n as [|n IH]; [lia|].
  simpl. destruct (Nat.eq_dec k n) as [->|Hne].
  - apply nan_add_r. exact Hf.
  - apply nan_add_l. apply IH. lia.
Qed.

(** [quatosToolJCalc] at a point whose x and y are NaN fills J with NaN. *)
Lemma JCalc_nan_point :
  forall (J : matrix float) (m px py pz : float),
    is_nan px -> is_nan py -> all_nan (quatosToolJCalc J m px py pz).
Proof.
  intros J m px py pz Hx Hy i j Hi Hj.
  unfold quatosToolJCalc. cbn [coeff msub smul].
  apply nan_sub_r. apply nan_mul_r.
  cbn [coeff mmul cols skew].
  assert (Hny : is_nan (PrimFloat.opp py)) by (apply nan_opp; exact Hy).
  assert (Hnx : is_nan (PrimFloat.opp px)) by (apply nan_opp; exact Hx).
  destruct i as [|[|[|i]]]; [| | |lia]; destruct j as [|[|[|j]]]; try lia;
    first
      [ apply sum_upto_nan with (k := 2%nat); [lia|];
        cbn [coeff skew];
        first [ apply nan_mul_l; assumption | apply nan_mul_r; assumption ]
      | apply sum_upto_nan with (k := 0%nat); [lia|];
        cbn [coeff skew];
        first [ apply nan_mul_l; assumption | apply nan_mul_r; assumption ] ].
Qed.

Lemma JCalc_keeps_nan :
  forall (J : matrix float) (m px py pz : float),
    all_nan J -> all_nan (quatosToolJCalc J m px py pz).
Proof.
  intros J m px py pz HJ i j Hi Hj.
  unfold quatosToolJCalc. cbn [coeff msub].
  apply nan_sub_l. apply HJ; assumption.
Qed.

Lemma ShapeCalc_keeps_nan :
  forall (cg : vec3) (o : object_t) (J : matrix float),
    all_nan J -> all_nan (quatosToolShapeCalc cg J o).
Proof.
  intros cg o. unfold quatosToolShapeCalc.
  induction (shape_cells cg o) as [|p l IH]; intros J HJ; simpl.
  - exact HJ.
  - apply IH. apply JCalc_keeps_nan. exact HJ.
Qed.

Lemma j_step_keeps_nan :
  forall (cg : vec3) (J : matrix float) (o : object_t),
    all_nan J -> all_nan (j_step cg J o).
Proof.
  intros cg J o HJ. unfold j_step.
  destruct (dimensioned o).
  - apply ShapeCalc_keeps_nan. exact HJ.
  - apply JCalc_keeps_nan. exact HJ.
Qed.

Lemma j_fold_keeps_nan :
  forall (cg : vec3) (objs : list object_t) (J : matrix float),
    all_nan J -> all_nan (fold_left (j_step cg) objs J).
Proof.
  intros cg objs.
  induction objs as [|o objs IH]; intros J HJ; simpl.
  - exact HJ.
  - apply IH. apply j_step_keeps_nan. exact HJ.
Qed.

Lemma weighted_sum_nan_acc :
  forall (f : object_t -> float) (objs : list object_t) (acc : float),
    is_nan acc ->
    is_nan (fold_left (fun s o => fadd s (fmul (mass o) (f o))) objs acc).
Proof.
  intros f objs.
  induction objs as [|o objs IH]; intros acc Hacc; simpl.
  - exact Hacc.
  - apply IH. apply nan_add_l. exact Hacc.
Qed.

Lemma weighted_sum_nan_in :
  forall (f : object_t -> float) (objs : list object_t) (acc : float) (o : object_t),
    In o objs -> is_nan (f o) ->
    is_nan (fold_left (fun s o => fadd s (fmul (mass o) (f o))) objs acc).
Proof.
  intros f objs.
  induction objs as [|p objs IH]; intros acc o Hin Hf; simpl.
  - destruct Hin.
  - destruct Hin as [->|Hin].
    + apply weighted_sum_nan_acc. apply nan_add_r. apply nan_mul_r. exact Hf.
    + apply IH with (o := o); assumption.
Qed.

End CentredMotor.

Section CentredMotorRun.

Variable E : Extern float.
Variable d : quatosData_t (T := float).
Variable i : nat.
Hypothesis Hcustom : craftType d = CONFIG_CUSTOM.
Hypothesis Hi : (i < n d)%nat.
Hypothesis Hx0 : is_zero (nth i (frameX d) 0%float).
Hypothesis Hy0 : is_zero (nth i (frameY d) 0%float).

Let esc : object_t := nth 1 (motor_objs d i) (mk_object 0 0 0 0 0 0 0)%float.

Lemma custom_frame_kept :
  frame_geometry E d = (frameX d, frameY d).
Proof. unfold frame_geometry. rewrite Hcustom. reflexivity. Qed.

Lemma esc_nan : is_nan (x esc) /\ is_nan (y esc).
Proof.
  unfold esc, motor_objs. rewrite Hcustom. cbn [is_custom nth x y].
  split; apply nan_mul_l.
  - apply zero_over_zero_norm; assumption.
  - apply zero_over_zero_norm; assumption.
Qed.

Lemma esc_in_objs : In (to_kg esc) (map to_kg (build_objs d)).
Proof.
  apply in_map. unfold build_objs. apply in_or_app. left.
  apply in_flat_map. exists i. split.
  - apply in_seq. lia.
  - unfold esc, motor_objs. cbn [nth]. right. left. reflexivity.
Qed.

Lemma objcalc_same :
  quatosToolObjCalc (set_frame d (frame_geometry E d))
  = set_frame (quatosToolObjCalc d) (frameX d, frameY d).
Proof. rewrite custom_frame_kept. reflexivity. Qed.

Lemma cg_nan :
  is_nan (vx (offsetCG (quatosToolObjCalc d)))
  /\ is_nan (vy (offsetCG (quatosToolObjCalc d))).
Proof.
  pose proof (cg_fold_components (map to_kg (build_objs d))
                (fofZ 0, fofZ 0, fofZ 0, fofZ 0)) as H.
  cbv zeta in H. destruct H as (Hx & Hy & _ & _).
  destruct esc_nan as [Ex Ey].
  unfold quatosToolObjCalc. cbn [offsetCG set_mass_properties vx vy fst snd].
  split; apply nan_div_l.
  - change (is_nan (vx (fst (fold_left cg_step (map to_kg (build_objs d))
                               (fofZ 0, fofZ 0, fofZ 0, fofZ 0))))).
    rewrite Hx. apply weighted_sum_nan_in with (o := to_kg esc).
    + apply esc_in_objs.
    + exact Ex.
  - change (is_nan (vy (fst (fold_left cg_step (map to_kg (build_objs d))
                               (fofZ 0, fofZ 0, fofZ 0, fofZ 0))))).
    rewrite Hy. apply weighted_sum_nan_in with (o := to_kg esc).
    + apply esc_in_objs.
    + exact Ey.
Qed.

Lemma first_object_is_a_point :
  exists (o : object_t) (rest : list object_t),
    map to_kg (build_objs d) = o :: rest /\ dimensioned o = false.
Proof.
  unfold build_objs.
  destruct (n d) as [|k] eqn:En; [lia|].
  cbn [seq flat_map motor_objs app map].
  eexists; eexists. split; [reflexivity|].
  vm_compute. reflexivity.
Qed.

Lemma J_nan : all_nan (J (quatosToolObjCalc d)).
Proof.
  destruct cg_nan as [Cx Cy].
  destruct first_object_is_a_point as (o & rest & Hobjs & Hpoint).
  unfold quatosToolObjCalc in *.
  cbn [J offsetCG set_mass_properties] in *.
  rewrite Hobjs in *.
  cbn [fold_left]. apply j_fold_keeps_nan.
  unfold j_step at 1. rewrite Hpoint.
  apply JCalc_nan_point.
  - apply nan_sub_r. exact Cx.
  - apply nan_sub_r. exact Cy.
Qed.

End CentredMotorRun.



(** ** PID normalisation *)

Section MaxCoeff.

Local Open Scope R_scope.

Lemma ltb_R : forall a b : R, fltb a b = true <-> a < b.
Proof.
  intros a b. cbn. unfold Exact.ltb.
  destruct (Rlt_dec a b); split; intro H; auto; try discriminate; contradiction.
Qed.

Lemma max_fold_R :
  forall (l : list R) (x0 : R),
    let m := fold_left (fun a b => if fltb a b then b else a) l x0 in
    x0 <= m /\ (forall v, In v l -> v <= m) /\ (m = x0 \/ In m l).
Proof.
  induction l as [|b l IH]; intros x0; simpl.
  - split; [lra|]. split; [intros v []|left; reflexivity].
  - destruct (IH (if fltb x0 b then b else x0)) as (H1 & H2 & H3).
    cbv zeta. set (m := fold_left _ l _) in *.
    assert (Hcase : (if fltb x0 b then b else x0) = Rmax x0 b
                    /\ x0 <= Rmax x0 b /\ b <= Rmax x0 b).
    { split; [|split; [apply Rmax_l | apply Rmax_r]].
      destruct (fltb x0 b) eqn:Hlt.
      - apply ltb_R in Hlt. rewrite Rmax_right; lra.
      - assert (~ x0 < b) by (intro Hc; apply ltb_R in Hc; congruence).
        rewrite Rmax_left; lra. }
    destruct Hcase as (Hc & Hl & Hr). rewrite Hc in *.
    split; [lra|]. split.
    + intros v [<-|Hv]; [lra | apply H2; exact Hv].
    + destruct H3 as [H3|H3].
      * rewrite H3. unfold Rmax. destruct (Rle_dec x0 b); auto.
      * right. right. exact H3.
Qed.

Lemma maxCoeff_R :
  forall l : list R, l <> [] ->
    (forall v, In v l -> v <= maxCoeff l) /\ In (maxCoeff l) l.
Proof.
  intros [|x0 l] Hne; [congruence|].
  unfold maxCoeff.
  destruct (max_fold_R l x0) as (H1 & H2 & H3). cbv zeta in *.
  split.
  - intros v [<-|Hv]; [exact H1 | apply H2; exact Hv].
  - destruct H3 as [->|H3]; [left; reflexivity | right; exact H3].
Qed.

End MaxCoeff.

Section PID.

Local Open Scope R_scope.

Lemma coeffs_col :
  forall (T : Type) (a : matrix T) (k : nat),
    coeffs (col a k) = map (fun i => coeff a i k) (seq 0 (rows a)).
Proof.
  intros T a k. unfold coeffs, col. cbn. apply app_nil_r.
Qed.

Lemma pid_of_coeff :
  forall (T : Type) (SC : Scalar T) (n : nat) (Mt : matrix T) (i k : nat),
    (k < 4)%nat ->
    coeff (pid_of n Mt) i k
    = fmul (fdiv (coeff Mt i k) (maxCoeff (cwiseAbs (coeffs (col Mt k)))))
        (fofZ 100).
Proof.
  intros T SC n Mt i k Hk.
  destruct k as [|[|[|[|k]]]]; [reflexivity | reflexivity | reflexivity
                                | reflexivity | lia].
Qed.

(** For every table A of [motors] rows: when the largest absolute value m
    of its column k is not zero, no value of column k of the normalised
    table exceeds 100 in absolute value and one of them reaches exactly
    100. *)
Lemma pid_column_saturates :
  forall (motors : nat) (A : matrix R) (k : nat),
    rows A = motors -> (k < 4)%nat ->
    let m := maxCoeff (cwiseAbs (coeffs (col A k))) in
    m <> 0 ->
    let P := pid_of motors A in
    m = maxCoeff (map (fun i => Rabs (coeff A i k)) (seq 0 motors))
    /\ (forall v, In v (pid_column motors P k) -> Rabs v <= 100)
    /\ (exists v, In v (pid_column motors P k) /\ Rabs v = 100).
Proof.
  intros motors A k Hrows Hk m Hm P.
  assert (Em : m = maxCoeff (map (fun i => Rabs (coeff A i k)) (seq 0 motors))).
  { subst m. rewrite coeffs_col, Hrows. unfold cwiseAbs. rewrite map_map.
    reflexivity. }
  set (L := map (fun i => Rabs (coeff A i k)) (seq 0 motors)) in *.
  assert (HL : L <> []).
  { intro HL. rewrite HL in Em. cbn in Em. congruence. }
  destruct (maxCoeff_R HL) as [Hle Hin]. rewrite <- Em in Hle, Hin.
  assert (Hpos : 0 < m).
  { unfold L in Hin. apply in_map_iff in Hin. destruct Hin as (i0 & Hi0 & _).
    pose proof (Rabs_pos (coeff A i0 k)). lra. }
  assert (Hc : forall i, coeff P i k = coeff A i k / m * 100).
  { intro i. subst P. rewrite pid_of_coeff by exact Hk. reflexivity. }
  assert (Habs : forall i, Rabs (coeff P i k) = Rabs (coeff A i k) / m * 100).
  { intro i. rewrite Hc. unfold Rdiv.
    rewrite !Rabs_mult, Rabs_inv, (Rabs_pos_eq m), (Rabs_pos_eq 100); lra. }
  split; [exact Em|]. split.
  - intros v Hv. unfold pid_column in Hv. apply in_map_iff in Hv.
    destruct Hv as (i & <- & Hi). rewrite Habs.
    assert (Rabs (coeff A i k) <= m).
    { apply Hle. unfold L. apply in_map_iff. exists i. split; auto. }
    apply Rmult_le_reg_r with (r := m); [exact Hpos|].
    field_simplify; [|lra]. lra.
  - unfold L in Hin. apply in_map_iff in Hin. destruct Hin as (i0 & Hi0 & Hseq).
    exists (coeff P i0 k). split.
    + unfold pid_column. apply in_map_iff. exists i0. split; auto.
    + rewrite Habs, Hi0. field. lra.
Qed.

End PID.

Section PIDBinary64.

(** [maxCoeff] returns one of the coefficients, in every scalar model. *)
Lemma maxCoeff_in :
  forall (T : Type) (SC : Scalar T) (l : list T),
    l <> [] -> In (maxCoeff l) l.
Proof.
  intros T SC [|x0 l] Hne; [congruence|].
  unfold maxCoeff. clear Hne.
  assert (H : forall (r : list T) (a : T),
             fold_left (fun a b => if fltb a b then b else a) r a = a
             \/ In (fold_left (fun a b => if fltb a b then b else a) r a) r).
  { intro r. induction r as [|b r IH]; intro a; simpl.
    - left. reflexivity.
    - destruct (IH (if fltb a b then b else a)) as [H|H].
      + rewrite H. destruct (fltb a b); auto.
      + right. right. exact H. }
  destruct (H l x0) as [->|Hin]; [left; reflexivity | right; exact Hin].
Qed.

Lemma abs_of_zero :
  forall v : float, is_zero v -> Prim2SF (PrimFloat.abs v) = S754_zero false.
Proof.
  intros v H. destruct (is_zero_spec H) as [s Es].
  rewrite abs_spec, Es. reflexivity.
Qed.

(** A column of zeros is divided by its largest absolute value, 0: every
    value of the normalised column is 0/0 * 100, a NaN. *)
Lemma pid_zero_column_nan :
  forall (motors : nat) (A : matrix float) (k : nat),
    rows A = motors -> (k < 4)%nat ->
    (forall i, (i < motors)%nat -> is_zero (coeff A i k)) ->
    Forall is_nan (pid_column motors (pid_of motors A) k).
Proof.
  intros motors A k Hr Hk Hz.
  destruct motors as [|m0]; [constructor|].
  set (m := maxCoeff (cwiseAbs (coeffs (col A k)))).
  assert (Hm : Prim2SF m = S754_zero false).
  { subst m. rewrite coeffs_col, Hr. unfold cwiseAbs. rewrite map_map.
    set (L := map _ (seq 0 (S m0))).
    assert (HL : L <> []) by (unfold L; simpl; discriminate).
    pose proof (@maxCoeff_in _ _ L HL) as Hin. unfold L in Hin at 2.
    apply in_map_iff in Hin. destruct Hin as (i & Hi & Hs).
    rewrite <- Hi. apply in_seq in Hs.
    apply abs_of_zero. apply Hz. lia. }
  apply Forall_forall. intros v Hv. unfold pid_column in Hv.
  apply in_map_iff in Hv. destruct Hv as (i & <- & Hi). apply in_seq in Hi.
  rewrite pid_of_coeff by exact Hk. fold m.
  change (is_nan (coeff A i k / m * IEEE.of_Z 100)%float).
  apply nan_mul_l. unfold is_nan.
  destruct (is_zero_spec (Hz i ltac:(lia))) as [s Es].
  rewrite div_spec, Es, Hm. reflexivity.
Qed.

End PIDBinary64.



(** ** Exact matrix algebra *)

#[local] Arguments IZR _ : simpl never.
#[local] Arguments pow _ _ : simpl never.

(** The scalar operations at the real instance, as operations on [R]. *)
Ltac real_ops :=
  cbn [fofZ fadd fsub fmul fdiv fneg fsqrt fabs fltb feqb ftrunc fpi feps
       ScalarR] in *.

Section MatrixAlgebra.

Local Open Scope R_scope.

Lemma sum_upto_ext :
  forall (n : nat) (f g : nat -> R),
    (forall k, (k < n)%nat -> f k = g k) -> sum_upto n f = sum_upto n g.
Proof.
  intro n; induction n as [|n IH]; intros f g H; simpl.
  - reflexivity.
  - rewrite (IH f g), (H n); auto.
Qed.

Lemma sum_upto_zero :
  forall (n : nat) (f : nat -> R),
    (forall k, (k < n)%nat -> f k = 0) -> sum_upto n f = 0.
Proof.
  intro n; induction n as [|n IH]; intros f H; simpl.
  - reflexivity.
  - rewrite IH, H; auto. lra.
Qed.

Lemma sum_upto_plus :
  forall (n : nat) (f g : nat -> R),
    sum_upto n (fun k => f k + g k) = sum_upto n f + sum_upto n g.
Proof.
  intro n; induction n as [|n IH]; intros f g; simpl.
  - lra.
  - rewrite IH. lra.
Qed.

Lemma sum_upto_scal_l :
  forall (n : nat) (c : R) (f : nat -> R),
    sum_upto n (fun k => c * f k) = c * sum_upto n f.
Proof.
  intro n; induction n as [|n IH]; intros c f; simpl.
  - lra.
  - rewrite IH. lra.
Qed.

Lemma sum_upto_scal_r :
  forall (n : nat) (c : R) (f : nat -> R),
    sum_upto n (fun k => f k * c) = sum_upto n f * c.
Proof.
  intro n; induction n as [|n IH]; intros c f; simpl.
  - lra.
  - rewrite IH. lra.
Qed.

Lemma sum_upto_swap :
  forall (n m : nat) (f : nat -> nat -> R),
    sum_upto n (fun k => sum_upto m (fun l => f k l))
    = sum_upto m (fun l => sum_upto n (fun k => f k l)).
Proof.
  intro n; induction n as [|n IH]; intros m f; simpl.
  - symmetry. apply sum_upto_zero. reflexivity.
  - rewrite IH, <- sum_upto_plus. reflexivity.
Qed.

(** Only the term of index [i] survives against a Kronecker delta. *)
Lemma sum_upto_delta :
  forall (n i : nat) (f : nat -> R),
    (i < n)%nat ->
    sum_upto n (fun k => if Nat.eqb k i then f k else 0) = f i.
Proof.
  intro n; induction n as [|n IH]; intros i f Hi; [lia|].
  simpl. destruct (Nat.eqb_spec n i) as [->|Hne].
  - rewrite sum_upto_zero; [lra|].
    intros k Hk. destruct (Nat.eqb_spec k i); [lia | reflexivity].
  - rewrite IH by lia. lra.
Qed.

(** Associativity of the product holds coefficient by coefficient,
    whatever the dimensions. *)
Lemma mmul_assoc :
  forall (a b c : matrix R) (i j : nat),
    coeff (mmul (mmul a b) c) i j = coeff (mmul a (mmul b c)) i j.
Proof.
  intros a b c i j. cbn.
  erewrite sum_upto_ext with (n := cols b);
    [|intros k _; rewrite <- sum_upto_scal_r; reflexivity].
  rewrite sum_upto_swap.
  apply sum_upto_ext. intros l _.
  rewrite <- sum_upto_scal_l.
  apply sum_upto_ext. intros k _. lra.
Qed.

Lemma meq_refl : forall a, meq a a.
Proof. intro a. repeat split. Qed.

Lemma meq_sym : forall a b, meq a b -> meq b a.
Proof.
  intros a b (Hr & Hc & H). repeat split; auto.
  intros i j Hi Hj. symmetry. apply H; congruence.
Qed.

Lemma meq_trans : forall a b c, meq a b -> meq b c -> meq a c.
Proof.
  intros a b c (Hr & Hc & H) (Hr' & Hc' & H'). repeat split; try congruence.
  intros i j Hi Hj. rewrite H by assumption. apply H'; congruence.
Qed.

Lemma mmul_meq :
  forall a a' b b' : matrix R,
    meq a a' -> meq b b' -> cols a = rows b -> meq (mmul a b) (mmul a' b').
Proof.
  intros a a' b b' (Hr & Hc & H) (Hr' & Hc' & H') Hd.
  repeat split; cbn; auto.
  intros i j Hi Hj. rewrite <- Hc.
  apply sum_upto_ext. intros k Hk.
  rewrite H, H'; auto. lia.
Qed.

Lemma mmul_assoc_meq :
  forall a b c : matrix R, meq (mmul (mmul a b) c) (mmul a (mmul b c)).
Proof.
  intros a b c. repeat split. intros i j _ _. apply mmul_assoc.
Qed.

Lemma mmul_id_l :
  forall (a : matrix R) (n : nat), rows a = n -> meq (mmul (Identity n) a) a.
Proof.
  intros a n Hn. repeat split; cbn; auto.
  intros i j Hi Hj.
  rewrite sum_upto_ext
    with (g := fun k => if Nat.eqb k i then coeff a k j else 0).
  - exact (@sum_upto_delta n i (fun k => coeff a k j) Hi).
  - intros k _. rewrite Nat.eqb_sym. destruct (Nat.eqb k i); lra.
Qed.

Lemma mmul_id_r :
  forall (a : matrix R) (n : nat), cols a = n -> meq (mmul a (Identity n)) a.
Proof.
  intros a n Hn. repeat split; cbn; auto.
  intros i j Hi Hj. rewrite Hn.
  rewrite sum_upto_ext
    with (g := fun k => if Nat.eqb k j then coeff a i k else 0).
  - exact (@sum_upto_delta n j (fun k => coeff a i k) Hj).
  - intros k _. destruct (Nat.eqb k j); lra.
Qed.

End MatrixAlgebra.

(** ** Decoupling *)

Section Decoupling.

Local Open Scope R_scope.

Variable E : Extern R.
Variable d : quatosData_t (T := R).

Let r := quatosToolCalc E d.

Lemma Mt_throttle_column :
  forall i, coeff (Mt r) i 0 = coeff (THROT r) i 0.
Proof. intro i. reflexivity. Qed.

Lemma Mt_attitude_columns :
  forall i j, (j < 3)%nat ->
    coeff (attitude_columns (Mt r)) i j
    = coeff (mmul (PD r) (inverse E (mmul (M r) (PD r)))) i j.
Proof.
  intros i j Hj.
  destruct j as [|[|[|j]]]; [reflexivity | reflexivity | reflexivity | lia].
Qed.

Lemma M_PD_dims :
  rows (mmul (M r) (PD r)) = 3%nat /\ cols (mmul (M r) (PD r)) = 3%nat.
Proof. split; reflexivity. Qed.

End Decoupling.

(** ** The pseudo-inverse *)

Section PseudoInverse.

Local Open Scope R_scope.

Lemma diag_product :
  forall (v w : list R) (n : nat),
    length v = n -> length w = n ->
    (forall i, (i < n)%nat -> nth i v 0 * nth i w 0 = 1) ->
    meq (mmul (asDiagonal v) (asDiagonal w)) (Identity n).
Proof.
  intros v w n Hv Hw H.
  split; [cbn; exact Hv|]. split; [cbn; exact Hw|].
  intros i j Hi Hj. cbn in Hi, Hj. cbn [coeff mmul asDiagonal cols Identity].
  rewrite sum_upto_ext
    with (g := fun k => if Nat.eqb k i
                        then nth k v 0 * (if Nat.eqb k j then nth k w 0 else 0)
                        else 0).
  - rewrite (@sum_upto_delta (length v) i
               (fun k => nth k v 0 * (if Nat.eqb k j then nth k w 0 else 0)) Hi).
    change (fofZ 0) with 0. change (fofZ 1) with 1.
    destruct (Nat.eqb_spec i j) as [->|Hne].
    + apply H. lia.
    + lra.
  - intros k _. change (fofZ 0) with 0. rewrite (Nat.eqb_sym i k).
    destruct (Nat.eqb_spec k i) as [->|Hne]; [reflexivity | real_ops; lra].
Qed.

(** (P D Q^T) (Q D' P^T) = I for orthogonal P, orthonormal Q and
    D D' = I, all n x n. *)
Lemma sandwich :
  forall (n : nat) (P D Q D' : matrix R),
    rows P = n -> cols P = n -> rows D = n -> cols D = n ->
    rows Q = n -> cols Q = n -> rows D' = n -> cols D' = n ->
    meq (mmul (transpose Q) Q) (Identity n) ->
    meq (mmul D D') (Identity n) ->
    meq (mmul P (transpose P)) (Identity n) ->
    meq (mmul (mmul (mmul P D) (transpose Q)) (mmul (mmul Q D') (transpose P)))
      (Identity n).
Proof.
  intros n P D Q D' HPr HPc HDr HDc HQr HQc HD'r HD'c HQ HD HP.
  eapply meq_trans; [apply mmul_assoc_meq|].
  eapply meq_trans.
  { apply mmul_meq; [apply meq_refl| |cbn; congruence].
    eapply meq_trans; [apply meq_sym, mmul_assoc_meq|].
    apply mmul_meq; [|apply meq_refl|cbn; congruence].
    eapply meq_trans; [apply meq_sym, mmul_assoc_meq|].
    eapply meq_trans.
    - apply mmul_meq; [exact HQ|apply meq_refl|cbn; congruence].
    - apply mmul_id_l. exact HD'r. }
  eapply meq_trans; [apply mmul_assoc_meq|].
  eapply meq_trans.
  { apply mmul_meq; [apply meq_refl| |cbn; congruence].
    eapply meq_trans; [apply meq_sym, mmul_assoc_meq|].
    eapply meq_trans.
    - apply mmul_meq; [exact HD|apply meq_refl|cbn; congruence].
    - apply mmul_id_l. cbn. exact HPc. }
  exact HP.
Qed.

Lemma maxCoeff_abs_nonneg :
  forall l : list R, 0 <= maxCoeff (cwiseAbs l).
Proof.
  intros [|x0 l].
  - cbn. lra.
  - assert (Hne : cwiseAbs (x0 :: l) <> []) by discriminate.
    destruct (maxCoeff_R Hne) as [_ Hin].
    unfold cwiseAbs in Hin at 2. apply in_map_iff in Hin.
    destruct Hin as (v & Hv & _). rewrite <- Hv. apply Rabs_pos.
Qed.

Lemma select_inverse_rule :
  forall (tol : R) (sv : list R),
    select_inverse tol sv
    = map (fun s => if Rle_dec (Rabs s) tol then 0 else 1 / s) sv.
Proof.
  intros tol sv. unfold select_inverse. apply map_ext. intro s.
  cbn. unfold Exact.ltb.
  destruct (Rlt_dec tol (Rabs s)), (Rle_dec (Rabs s) tol); auto; lra.
Qed.

End PseudoInverse.

Section PseudoInverseSquare.

Local Open Scope R_scope.

Variable E : Extern R.
Variable a : matrix R.
Variable eps : R.

Let s := jacobiSvd E a.
Let tol := tolerance_of E a eps.

Hypothesis Heps : 0 <= eps.
Hypothesis Hsquare : rows a = cols a.
Hypothesis Hsvd : thin_svd a s.
Hypothesis Habove : forall v, In v (singularValues s) -> tol < Rabs v.

Lemma tol_nonneg : 0 <= tol.
Proof.
  unfold tol, tolerance_of. real_ops.
  apply Rmult_le_pos; [apply Rmult_le_pos; [exact Heps|]|].
  - apply IZR_le. lia.
  - apply maxCoeff_abs_nonneg.
Qed.

Lemma sigma_times_inverse :
  forall i, (i < length (singularValues s))%nat ->
    nth i (singularValues s) 0 * nth i (select_inverse tol (singularValues s)) 0 = 1.
Proof.
  intros i Hi.
  pose proof tol_nonneg as Ht.
  assert (Hin : In (nth i (singularValues s) 0) (singularValues s))
    by (apply nth_In; exact Hi).
  pose proof (Habove _ Hin) as Hgt.
  rewrite select_inverse_rule.
  set (f := fun v => if Rle_dec (Rabs v) tol then 0 else 1 / v).
  assert (Hnth : nth i (map f (singularValues s)) 0
                 = f (nth i (singularValues s) 0)).
  { transitivity (nth i (map f (singularValues s)) (f 0)).
    - apply nth_indep. rewrite length_map. exact Hi.
    - apply map_nth. }
  rewrite Hnth. unfold f.
  destruct (Rle_dec _ _) as [Hle|_]; [lra|].
  assert (nth i (singularValues s) 0 <> 0).
  { intro H0. rewrite H0, Rabs_R0 in Hgt. lra. }
  field. assumption.
Qed.

Lemma pinv_square_inverse :
  meq (mmul a (pseudoInverse E a eps)) (Identity (rows a))
  /\ meq (mmul (pseudoInverse E a eps) a) (Identity (rows a)).
Proof.
  destruct Hsvd as [Hk HUr HUc HVr HVc Hprod HUo HVo HUs HVs].
  fold s in Hk, HUr, HUc, HVr, HVc, Hprod, HUo, HVo, HUs, HVs.
  assert (Hn : length (singularValues s) = rows a).
  { rewrite Hk, <- Hsquare. apply Nat.min_id. }
  rewrite Hn in *.
  specialize (HUs ltac:(lia)). specialize (HVs ltac:(lia)).
  rewrite <- Hsquare in HVr, HVs.
  set (D := asDiagonal (singularValues s)) in *.
  set (D' := asDiagonal (select_inverse tol (singularValues s))).
  assert (HDD' : meq (mmul D D') (Identity (rows a))).
  { apply diag_product; [exact Hn | unfold select_inverse; rewrite length_map; exact Hn|].
    intros i Hi. apply sigma_times_inverse. lia. }
  assert (HD'D : meq (mmul D' D) (Identity (rows a))).
  { apply diag_product; [unfold select_inverse; rewrite length_map; exact Hn | exact Hn|].
    intros i Hi. rewrite Rmult_comm. apply sigma_times_inverse. lia. }
  assert (HDr : rows D = rows a) by (cbn; exact Hn).
  assert (HD'r : rows D' = rows a)
    by (cbn; unfold select_inverse; rewrite length_map; exact Hn).
  change (pseudoInverse E a eps)
    with (mmul (mmul (matrixV s) D') (transpose (matrixU s))).
  split.
  - eapply meq_trans.
    + apply mmul_meq; [exact Hprod | apply meq_refl | cbn; congruence].
    + apply sandwich; assumption.
  - eapply meq_trans.
    + apply mmul_meq; [apply meq_refl | exact Hprod | cbn; congruence].
    + apply sandwich; assumption.
Qed.

End PseudoInverseSquare.

(** C6 (amended).  In exact arithmetic, the pseudo-inverse of every matrix
    is V diag(sigma+) U^T for the decomposition [jacobiSvd] returns, where
    sigma+ is 0 for every singular value with |sigma| <= epsilon *
    max(rows, cols) * max|sigma| and 1/sigma for the others.  For a square
    matrix with a thin singular value decomposition none of whose singular
    values is at or below that tolerance, the result is the inverse: its
    products with the matrix, on either side, are the identity. *)
Theorem C6_pseudo_inverse :
  (forall (E : Extern R) (a : matrix R) (eps : R),
     let s := jacobiSvd E a in
     let tol :=
       (eps * INR (Nat.max (cols a) (rows a))
        * maxCoeff (map Rabs (singularValues s)))%R in
     let sinv :=
       map (fun v => if Rle_dec (Rabs v) tol then 0%R else (1 / v)%R)
         (singularValues s) in
     pseudoInverse E a eps
     = mmul (mmul (matrixV s) (asDiagonal sinv)) (transpose (matrixU s)))
  /\ (forall (E : Extern R) (a : matrix R) (eps : R),
        let s := jacobiSvd E a in
        let tol :=
          (eps * INR (Nat.max (cols a) (rows a))
           * maxCoeff (map Rabs (singularValues s)))%R in
        (0 <= eps)%R ->
        rows a = cols a ->
        thin_svd a s ->
        (forall v, In v (singularValues s) -> (tol < Rabs v)%R) ->
        meq (mmul a (pseudoInverse E a eps)) (Identity (rows a))
        /\ meq (mmul (pseudoInverse E a eps) a) (Identity (rows a))).
Proof.
  assert (Etol : forall (E : Extern R) (a : matrix R) (eps : R),
             (eps * INR (Nat.max (cols a) (rows a))
              * maxCoeff (map Rabs (singularValues (jacobiSvd E a))))%R
             = tolerance_of E a eps).
  { intros E a eps. unfold tolerance_of. real_ops. rewrite INR_IZR_INZ.
    reflexivity. }
  split.
  - intros E a eps s tol sinv. unfold sinv, tol, s. rewrite (Etol E a eps).
    unfold pseudoInverse.
    change (fmul (fmul eps (fofZ (Z.of_nat (Nat.max (cols a) (rows a)))))
              (maxCoeff (cwiseAbs (singularValues (jacobiSvd E a)))))
      with (tolerance_of E a eps).
    rewrite select_inverse_rule. reflexivity.
  - intros E a eps s tol Heps Hsq Hsvd Habove.
    apply pinv_square_inverse; try assumption.
    rewrite <- (Etol E a eps). exact Habove.
Qed.

Section DiagonalExamples.

Local Open Scope R_scope.

(** Coefficient-wise equality of two concrete matrices of at most 3 rows
    and columns. *)
Ltac small_meq :=
  split; [reflexivity|]; split; [reflexivity|];
  let i := fresh "i" in let j := fresh "j" in
  let Hi := fresh "Hi" in let Hj := fresh "Hj" in
  intros i j Hi Hj; cbn in Hi, Hj;
  destruct i as [|[|[|i]]]; try lia;
  destruct j as [|[|[|j]]]; try lia;
  cbn; lra.

Lemma thin_svd_diagonal :
  forall u v : R,
    thin_svd (asDiagonal [u; v])
      (jacobiSvd (diagonal_library [u; v]) (asDiagonal [u; v])).
Proof.
  intros u v. constructor; try reflexivity; try (intros _); small_meq.
Qed.

Lemma eps_small : 0 < Exact.eps < / 1024.
Proof.
  unfold Exact.eps. split.
  - apply Rinv_0_lt_compat. apply pow_lt. lra.
  - apply Rinv_lt_contravar.
    + apply Rmult_lt_0_compat; [lra | apply pow_lt; lra].
    + replace 1024 with (2 ^ 10) by (cbv [pow]; lra).
      apply Rlt_pow; [lra | lia].
Qed.

End DiagonalExamples.

Section DiagonalRuns.

Local Open Scope R_scope.

(** The hypotheses of the second part of C6 hold of diag(2, 1) with its
    own decomposition. *)
Lemma C6_diagonal_inverse :
  meq (mmul (asDiagonal [2; 1])
         (pseudoInverse (diagonal_library [2; 1]) (asDiagonal [2; 1]) Exact.eps))
    (Identity 2).
Proof.
  pose proof eps_small as [He0 He1].
  assert (H1 : 0 <= Exact.eps) by lra.
  assert (H2 : rows (asDiagonal [2; 1]) = cols (asDiagonal [2; 1]))
    by reflexivity.
  pose proof (thin_svd_diagonal 2 1) as H3.
  assert (H4 : forall v,
             In v (singularValues
                     (jacobiSvd (diagonal_library [2; 1]) (asDiagonal [2; 1]))) ->
             Exact.eps * INR (Nat.max (cols (asDiagonal [2; 1]))
                                (rows (asDiagonal [2; 1])))
             * maxCoeff (map Rabs (singularValues
                     (jacobiSvd (diagonal_library [2; 1]) (asDiagonal [2; 1]))))
             < Rabs v).
  { intros v Hv.
    change (In v [2; 1]) in Hv.
    change (Exact.eps * INR 2 * maxCoeff [Rabs 2; Rabs 1] < Rabs v).
    assert (Hne : [Rabs 2; Rabs 1] <> []) by discriminate.
    destruct (maxCoeff_R Hne) as [_ Hin].
    assert (Hmax : 0 <= maxCoeff [Rabs 2; Rabs 1] <= 2).
    { destruct Hin as [<-|[<-|[]]].
      - rewrite Rabs_pos_eq; lra.
      - rewrite Rabs_pos_eq; lra. }
    assert (Hv1 : 1 <= Rabs v).
    { destruct Hv as [<-|[<-|[]]]; rewrite Rabs_pos_eq; lra. }
    replace (INR 2) with 2 by (cbn; lra).
    nra. }
  exact (proj1 (proj2 C6_pseudo_inverse (diagonal_library [2; 1])
                  (asDiagonal [2; 1]) Exact.eps H1 H2 H3 H4)).
Defined.

Lemma tolerance_ill_conditioned :
  tolerance_of (diagonal_library [1; Exact.eps]) (asDiagonal [1; Exact.eps]) feps
  = 2 * Exact.eps.
Proof.
  pose proof eps_small as [He0 He1].
  unfold tolerance_of. cbn -[Exact.eps Rabs].
  rewrite (Rabs_pos_eq 1), (Rabs_pos_eq Exact.eps) by lra.
  unfold Exact.ltb. destruct (Rlt_dec 1 Exact.eps); lra.
Qed.

(** C6 (as stated, refuted).  diag(1, 2^-52) is square and of full rank
    (diag(1, 2^52) is its inverse) and I diag(1, 2^-52) I^T is its
    singular value decomposition; its second singular value is below the
    tolerance 2 * 2^-52, so the corresponding entry of the result is 0 and
    the product with the matrix has 0, not 1, in that place.  The run in
    binary64 gives the same zero. *)
Lemma C6_ill_conditioned_not_inverted :
  let A := asDiagonal [1; Exact.eps] in
  let L := diagonal_library [1; Exact.eps] in
  thin_svd A (jacobiSvd L A)
  /\ meq (mmul A (asDiagonal [1; 2 ^ 52])) (Identity 2)
  /\ coeff (pseudoInverse L A feps) 1 1 = 0
  /\ coeff (mmul A (pseudoInverse L A feps)) 1 1 = 0
  /\ coeff (pseudoInverse (diagonal_library [1%float; IEEE.eps])
              (asDiagonal [1%float; IEEE.eps]) feps) 1 1 = 0%float.
Proof.
  pose proof eps_small as [He0 He1].
  assert (Hsel : select_inverse (2 * Exact.eps) [1; Exact.eps] = [1 / 1; 0]).
  { rewrite select_inverse_rule. cbn [map].
    rewrite (Rabs_pos_eq 1), (Rabs_pos_eq Exact.eps) by lra.
    destruct (Rle_dec 1 (2 * Exact.eps)); [lra|].
    destruct (Rle_dec Exact.eps (2 * Exact.eps)); [reflexivity | lra]. }
  assert (Hp : coeff (pseudoInverse (diagonal_library [1; Exact.eps])
                        (asDiagonal [1; Exact.eps]) feps) 1 1 = 0).
  { unfold pseudoInverse.
    change (fmul (fmul feps (fofZ (Z.of_nat (Nat.max
                (cols (asDiagonal [1; Exact.eps]))
                (rows (asDiagonal [1; Exact.eps]))))))
              (maxCoeff (cwiseAbs (singularValues
                 (jacobiSvd (diagonal_library [1; Exact.eps])
                    (asDiagonal [1; Exact.eps]))))))
      with (tolerance_of (diagonal_library [1; Exact.eps])
              (asDiagonal [1; Exact.eps]) feps).
    rewrite tolerance_ill_conditioned.
    change (singularValues (jacobiSvd (diagonal_library [1; Exact.eps])
                              (asDiagonal [1; Exact.eps])))
      with [1; Exact.eps].
    rewrite Hsel. cbn. lra. }
  intros A L. split; [apply thin_svd_diagonal|]. split.
  - split; [reflexivity|]. split; [reflexivity|].
    intros i j Hi Hj. cbn in Hi, Hj.
    destruct i as [|[|i]]; try lia; destruct j as [|[|j]]; try lia;
      cbn -[Exact.eps]; unfold Exact.eps; try lra;
      field; apply pow_nonzero; lra.
  - split; [exact Hp|]. split.
    + subst A L. cbn [coeff mmul cols asDiagonal length sum_upto].
      rewrite Hp. cbn. lra.
    + vm_compute. reflexivity.
Qed.

End DiagonalRuns.

(** ** The quad "+" in exact arithmetic *)

Section QuadPlus.

Local Open Scope R_scope.

Lemma cofactor_inverse_spec : inverse_spec cofactor_inverse.
Proof.
  intros a Hr Hc Hdet.
  split; [cbn; exact Hr|]. split; [reflexivity|].
  intros i j Hi Hj. cbn in Hi, Hj. rewrite Hr in Hi.
  cbn [coeff mmul]. rewrite Hc.
  unfold det3 in *.
  destruct i as [|[|[|i]]]; try lia; destruct j as [|[|[|j]]]; try lia;
    cbn; unfold det3; field; exact Hdet.
Qed.

Variable E : Extern R.
Variable rotation : list Z.

Let d := quad_plus_craft rotation.
Let r := quatosToolCalc E d.

Lemma quad_cg :
  offsetCG (quatosToolObjCalc (set_frame d (frame_geometry E d))) = (0, 0, 0).
Proof.
  unfold quatosToolObjCalc. cbn [offsetCG set_mass_properties].
  cbn. f_equal; [f_equal|]; lra.
Qed.

Lemma quad_motorX :
  forall k, coeff (motorX r) 0 k = nth k [1; 0; -1; 0] 0 * (25 / 100).
Proof.
  intro k. unfold r, quatosToolCalc. cbn [motorX]. unfold motor_coords.
  rewrite quad_cg. cbn.
  destruct k as [|[|[|[|k]]]]; cbn; lra.
Qed.

Lemma quad_motorY :
  forall k, coeff (motorY r) 0 k = nth k [0; 1; 0; -1] 0 * (25 / 100).
Proof.
  intro k. unfold r, quatosToolCalc. cbn [motorY]. unfold motor_coords.
  rewrite quad_cg. cbn.
  destruct k as [|[|[|[|k]]]]; cbn; lra.
Qed.

End QuadPlus.

(** ** A singular M * PD *)

Section Singular.

Local Open Scope R_scope.

Lemma det3_dependent_rows :
  forall (a : matrix R) (c1 c2 : R),
    (forall j, coeff a 2 j = c1 * coeff a 0 j + c2 * coeff a 1 j) ->
    det3 a = 0.
Proof.
  intros a c1 c2 H. unfold det3. rewrite !H. ring.
Qed.

Lemma mmul_dependent_rows :
  forall (a b : matrix R) (c1 c2 : R),
    (forall k, (k < cols a)%nat ->
               coeff a 2 k = c1 * coeff a 0 k + c2 * coeff a 1 k) ->
    forall j, coeff (mmul a b) 2 j
              = c1 * coeff (mmul a b) 0 j + c2 * coeff (mmul a b) 1 j.
Proof.
  intros a b c1 c2 H j. cbn [coeff mmul].
  rewrite <- !sum_upto_scal_l, <- sum_upto_plus.
  apply sum_upto_ext. intros k Hk. rewrite (H k Hk). real_ops. ring.
Qed.

Lemma paired_rotation_rows :
  forall (E : Extern R) (k : nat),
    (k < 4)%nat ->
    coeff (M (quatosToolCalc E paired_rotation_quad)) 2 k
    = 4 * coeff (M (quatosToolCalc E paired_rotation_quad)) 0 k
      + (-4) * coeff (M (quatosToolCalc E paired_rotation_quad)) 1 k.
Proof.
  intros E k Hk.
  change (coeff (M (quatosToolCalc E paired_rotation_quad)) 0 k)
    with (- coeff (motorY (quatosToolCalc E paired_rotation_quad)) 0 k).
  change (coeff (M (quatosToolCalc E paired_rotation_quad)) 1 k)
    with (coeff (motorX (quatosToolCalc E paired_rotation_quad)) 0 k).
  unfold paired_rotation_quad.
  rewrite quad_motorX, quad_motorY.
  destruct k as [|[|[|[|k]]]]; try lia; cbn; lra.
Qed.

Lemma paired_rotation_singular :
  forall E : Extern R,
    det3 (mmul (M (quatosToolCalc E paired_rotation_quad))
            (PD (quatosToolCalc E paired_rotation_quad))) = 0.
Proof.
  intro E.
  apply det3_dependent_rows with (c1 := 4) (c2 := -4).
  apply mmul_dependent_rows.
  intros k Hk. apply paired_rotation_rows. exact Hk.
Qed.

End Singular.



(** ** The pseudo-inverse of a matrix with orthogonal rows *)

Lemma nth_map_seq :
  forall (g : nat -> R) (m i : nat),
    (i < m)%nat -> nth i (map g (seq 0 m)) 0%R = g i.
Proof.
  intros g m i Hi.
  transitivity (nth i (map g (seq 0 m)) (g 0%nat)).
  - apply nth_indep. rewrite length_map, length_seq. exact Hi.
  - rewrite map_nth, seq_nth by exact Hi. reflexivity.
Qed.

Section OrthogonalRows.

Local Open Scope R_scope.

Variable a : matrix R.
Variable eps : R.

Let sv := map (fun i => R_sqrt.sqrt (row_norm2 a i)) (seq 0 (rows a)).

Lemma nth_sv :
  forall i, (i < rows a)%nat -> nth i sv 0 = R_sqrt.sqrt (row_norm2 a i).
Proof.
  intros i Hi. unfold sv. apply nth_map_seq. exact Hi.
Qed.

Lemma pinv_orthogonal_rows :
  forall i j,
    (i < rows a)%nat ->
    0 < row_norm2 a i ->
    tolerance_of exact_library a eps < R_sqrt.sqrt (row_norm2 a i) ->
    coeff (pseudoInverse exact_library a eps) j i
    = coeff a i j / row_norm2 a i.
Proof.
  intros i j Hi Hpos Htol.
  assert (Hlen : length sv = rows a)
    by (unfold sv; rewrite length_map, length_seq; reflexivity).
  assert (Hs : 0 < R_sqrt.sqrt (row_norm2 a i)) by (apply sqrt_lt_R0; exact Hpos).
  unfold pseudoInverse.
  change (fmul (fmul eps (fofZ (Z.of_nat (Nat.max (cols a) (rows a)))))
            (maxCoeff (cwiseAbs (singularValues (jacobiSvd exact_library a)))))
    with (tolerance_of exact_library a eps).
  set (tol := tolerance_of exact_library a eps) in *.
  change (jacobiSvd exact_library a) with (svd_of_orthogonal_rows a).
  unfold svd_of_orthogonal_rows. fold sv.
  cbn [matrixU matrixV singularValues].
  set (sinv := select_inverse tol sv).
  assert (Hsinv : nth i sinv 0 = 1 / R_sqrt.sqrt (row_norm2 a i)).
  { unfold sinv. rewrite select_inverse_rule.
    set (f := fun s => if Rle_dec (Rabs s) tol then 0 else 1 / s).
    transitivity (f (nth i sv 0)).
    - transitivity (nth i (map f sv) (f 0)).
      + apply nth_indep. rewrite length_map, Hlen. exact Hi.
      + apply map_nth.
    - rewrite nth_sv by exact Hi. unfold f.
      rewrite Rabs_pos_eq by lra.
      destruct (Rle_dec _ _); [lra | reflexivity]. }
  cbn [coeff mmul cols transpose asDiagonal Identity rows].
  assert (Hl : length sinv = rows a)
    by (unfold sinv, select_inverse; rewrite length_map; exact Hlen).
  rewrite Hl.
  rewrite sum_upto_ext
    with (g := fun k => if Nat.eqb k i
                        then sum_upto (rows a)
                               (fun l => coeff a l j / nth l sv 0
                                         * (if Nat.eqb l k then nth l sinv 0 else 0))
                        else 0).
  2:{ intros k _. real_ops. rewrite (Nat.eqb_sym i k).
      destruct (Nat.eqb k i); lra. }
  rewrite (@sum_upto_delta (rows a) i
             (fun k => sum_upto (rows a)
                         (fun l => coeff a l j / nth l sv 0
                                   * (if Nat.eqb l k then nth l sinv 0 else 0)))
             Hi).
  rewrite sum_upto_ext
    with (g := fun l => if Nat.eqb l i
                        then coeff a l j / nth l sv 0 * nth l sinv 0 else 0).
  2:{ intros l _. destruct (Nat.eqb l i); lra. }
  rewrite (@sum_upto_delta (rows a) i
             (fun l => coeff a l j / nth l sv 0 * nth l sinv 0) Hi).
  rewrite Hsinv, nth_sv by exact Hi.
  rewrite <- (sqrt_sqrt (row_norm2 a i)) at 3 by lra.
  field. lra.
Qed.

(** The product with the target (0, 0, 1) picks the third column. *)
Lemma pinv_target3 :
  rows a = 3%nat ->
  forall j,
    coeff (mmul (pseudoInverse exact_library a eps) target3) j 0
    = coeff (pseudoInverse exact_library a eps) j 2.
Proof.
  intros Hr j.
  cbn [coeff mmul].
  change (cols (pseudoInverse exact_library a eps)) with (rows a).
  rewrite Hr. cbn [sum_upto target3 col_of coeff nth]. real_ops. lra.
Qed.

End OrthogonalRows.

Section ThreeRowSystems.

Local Open Scope R_scope.

Lemma sqrt_4 : R_sqrt.sqrt 4 = 2.
Proof. replace 4 with (2 * 2) by lra. apply sqrt_square. lra. Qed.

Lemma sqrt_64th : R_sqrt.sqrt (/ 64) = / 8.
Proof. replace (/ 64) with (/ 8 * / 8) by lra. apply sqrt_square. lra. Qed.

(** A 3 x 4 system with orthogonal rows of squared norm at most 4, the
    last of squared norm at least 1/64, is solved for the target
    (0, 0, 1) by its last row over that row's squared norm. *)
Lemma solve_three_rows :
  forall a : matrix R,
    rows a = 3%nat -> cols a = 4%nat ->
    (forall i, (i < 3)%nat -> 0 <= row_norm2 a i <= 4) ->
    / 64 <= row_norm2 a 2 ->
    forall j,
      coeff (mmul (pseudoInverse exact_library a feps) target3) j 0
      = coeff a 2 j / row_norm2 a 2.
Proof.
  intros a Hr Hc Hn H2 j.
  pose proof eps_small as [He0 He1].
  rewrite pinv_target3 by exact Hr.
  apply pinv_orthogonal_rows; [lia | lra |].
  assert (Hmax : 0 <= maxCoeff (cwiseAbs (singularValues (jacobiSvd exact_library a)))
                 <= 2).
  { split; [apply maxCoeff_abs_nonneg|].
    change (jacobiSvd exact_library a) with (svd_of_orthogonal_rows a).
    cbn [singularValues svd_of_orthogonal_rows]. rewrite Hr.
    cbn [seq map cwiseAbs].
    match goal with |- maxCoeff ?L <= 2 =>
      assert (Hne : L <> []) by discriminate;
      destruct (maxCoeff_R Hne) as [_ Hin]
    end.
    assert (Hb : forall i, (i < 3)%nat -> Rabs (R_sqrt.sqrt (row_norm2 a i)) <= 2).
    { intros i Hi. rewrite Rabs_pos_eq by apply sqrt_pos.
      rewrite <- sqrt_4. apply sqrt_le_1_alt. apply Hn. exact Hi. }
    real_ops.
    destruct Hin as [<-|[<-|[<-|[]]]]; apply Hb; lia. }
  assert (Hs : / 8 <= R_sqrt.sqrt (row_norm2 a 2)).
  { rewrite <- sqrt_64th. apply sqrt_le_1_alt. exact H2. }
  unfold tolerance_of. rewrite Hr, Hc. real_ops.
  change (IZR (Z.of_nat (Nat.max 4 3))) with 4.
  unfold Exact.eps in *. nra.
Qed.

End ThreeRowSystems.

Section AlternatingQuad.

Local Open Scope R_scope.

Variables mX mY pD : matrix R.
Hypothesis HX : forall k, coeff mX 0 k = nth k [1; 0; -1; 0] 0 * (25 / 100).
Hypothesis HY : forall k, coeff mY 0 k = nth k [0; 1; 0; -1] 0 * (25 / 100).
Hypothesis HP : forall k, coeff pD 0 k = nth k [-1; 1; -1; 1] 0.

Ltac rows_of_quad :=
  unfold row_norm2;
  cbn [cols rows coeff vstack system_roll system_pitch system_yaw nth length
       sum_upto mneg Ones Zero];
  rewrite ?HX, ?HY, ?HP; cbn [nth]; real_ops.

Lemma quad_roll :
  forall j, coeff (mmul (pseudoInverse exact_library (system_roll 4 mX mY) feps)
                     target3) j 0
            = - coeff mY 0 j * 8.
Proof.
  intro j. rewrite solve_three_rows; try reflexivity.
  - rows_of_quad. field.
  - intros i Hi. destruct i as [|[|[|i]]]; try lia; rows_of_quad; lra.
  - rows_of_quad. lra.
Qed.

Lemma quad_pitch :
  forall j, coeff (mmul (pseudoInverse exact_library (system_pitch 4 mX mY) feps)
                     target3) j 0
            = coeff mX 0 j * 8.
Proof.
  intro j. rewrite solve_three_rows; try reflexivity.
  - rows_of_quad. field.
  - intros i Hi. destruct i as [|[|[|i]]]; try lia; rows_of_quad; lra.
  - rows_of_quad. lra.
Qed.

Lemma quad_yaw :
  forall j, coeff (mmul (pseudoInverse exact_library (system_yaw 4 mX mY pD) feps)
                     target3) j 0
            = coeff pD 0 j / 4.
Proof.
  intro j. rewrite solve_three_rows; try reflexivity.
  - rows_of_quad. field.
  - intros i Hi. destruct i as [|[|[|i]]]; try lia; rows_of_quad; lra.
  - rows_of_quad. lra.
Qed.

Lemma quad_product_det :
  forall RO PI YA : matrix R,
    (forall j, coeff RO j 0 = - coeff mY 0 j * 8) ->
    (forall j, coeff PI j 0 = coeff mX 0 j * 8) ->
    (forall j, coeff YA j 0 = coeff pD 0 j / 4) ->
    det3 (mmul (vstack 4 [mneg mY; mX; pD])
            (hstack 4 [(1%nat, RO); (1%nat, PI); (1%nat, YA)])) = 1.
Proof.
  intros RO PI YA HRO HPI HYA.
  unfold det3.
  cbn [coeff mmul cols rows vstack hstack hstack_coeff nth length sum_upto
       mneg Nat.ltb Nat.leb Nat.sub].
  rewrite ?HRO, ?HPI, ?HYA, ?HX, ?HY, ?HP. cbn [nth]. real_ops. lra.
Qed.

Lemma quad_systems_solved :
  meq (mmul (system_roll 4 mX mY)
         (mmul (pseudoInverse exact_library (system_roll 4 mX mY) feps) target3))
    target3
  /\ meq (mmul (system_pitch 4 mX mY)
            (mmul (pseudoInverse exact_library (system_pitch 4 mX mY) feps)
               target3))
       target3
  /\ meq (mmul (system_yaw 4 mX mY pD)
            (mmul (pseudoInverse exact_library (system_yaw 4 mX mY pD) feps)
               target3))
       target3.
Proof.
  assert (Hc : forall (A X : matrix R) (i j : nat),
             coeff (mmul A X) i j
             = sum_upto (cols A) (fun k => coeff A i k * coeff X k j))
    by reflexivity.
  repeat split; try reflexivity;
    intros i j Hi Hj;
    change (i < 3)%nat in Hi; change (j < 1)%nat in Hj;
    (destruct j as [|j]; [|lia]);
    rewrite Hc;
    (destruct i as [|[|[|i]]]; [| | |lia]);
    cbn [cols vstack system_roll system_pitch system_yaw sum_upto];
    rewrite ?quad_roll, ?quad_pitch, ?quad_yaw;
    rows_of_quad; cbn [coeff target3 col_of nth]; real_ops; lra.
Qed.

End AlternatingQuad.

Lemma alternating_quad_invertible :
  det3 (mmul (M (quatosToolCalc exact_library alternating_quad))
          (PD (quatosToolCalc exact_library alternating_quad))) = 1%R.
Proof.
  set (r := quatosToolCalc exact_library alternating_quad).
  assert (HX := quad_motorX exact_library [1; -1; 1; -1]%Z).
  assert (HY := quad_motorY exact_library [1; -1; 1; -1]%Z).
  assert (HP : forall k, coeff (row_of 4 (propDir r)) 0 k
                         = nth k [-1; 1; -1; 1]%R 0%R).
  { intro k. cbn. destruct k as [|[|[|[|k]]]]; lra. }
  cbv zeta in HX, HY.
  change (quatosToolCalc exact_library (quad_plus_craft [1; -1; 1; -1]%Z))
    with r in HX, HY.
  apply (@quad_product_det (motorX r) (motorY r) (row_of 4 (propDir r))
           HX HY HP (ROLL r) (PITCH r) (YAW r)).
  - apply (@quad_roll (motorX r) (motorY r) HX HY).
  - apply (@quad_pitch (motorX r) (motorY r) HX HY).
  - apply (@quad_yaw (motorX r) (motorY r) (row_of 4 (propDir r)) HX HY HP).
Qed.

Lemma alternating_quad_solved :
  meq (mmul (system_roll (n (quatosToolCalc exact_library alternating_quad))
               (motorX (quatosToolCalc exact_library alternating_quad))
               (motorY (quatosToolCalc exact_library alternating_quad)))
         (ROLL (quatosToolCalc exact_library alternating_quad)))
    target3
  /\ meq (mmul (system_pitch (n (quatosToolCalc exact_library alternating_quad))
                  (motorX (quatosToolCalc exact_library alternating_quad))
                  (motorY (quatosToolCalc exact_library alternating_quad)))
            (PITCH (quatosToolCalc exact_library alternating_quad)))
       target3
  /\ meq (mmul (system_yaw (n (quatosToolCalc exact_library alternating_quad))
                  (motorX (quatosToolCalc exact_library alternating_quad))
                  (motorY (quatosToolCalc exact_library alternating_quad))
                  (row_of (n (quatosToolCalc exact_library alternating_quad))
                     (propDir (quatosToolCalc exact_library alternating_quad))))
            (YAW (quatosToolCalc exact_library alternating_quad)))
       target3.
Proof.
  set (r := quatosToolCalc exact_library alternating_quad).
  assert (HX := quad_motorX exact_library [1; -1; 1; -1]%Z).
  assert (HY := quad_motorY exact_library [1; -1; 1; -1]%Z).
  assert (HP : forall k, coeff (row_of 4 (propDir r)) 0 k
                         = nth k [-1; 1; -1; 1]%R 0%R).
  { intro k. cbn. destruct k as [|[|[|[|k]]]]; lra. }
  cbv zeta in HX, HY.
  change (quatosToolCalc exact_library (quad_plus_craft [1; -1; 1; -1]%Z))
    with r in HX, HY.
  exact (@quad_systems_solved (motorX r) (motorY r) (row_of 4 (propDir r))
           HX HY HP).
Qed.

(** ** Standard geometry *)

Section Trigonometry.

Local Open Scope R_scope.

Lemma inv_sqrt2 : 1 / R_sqrt.sqrt 2 = R_sqrt.sqrt 2 / 2.
Proof.
  assert (H : R_sqrt.sqrt 2 * R_sqrt.sqrt 2 = 2) by (apply sqrt_sqrt; lra).
  replace (R_sqrt.sqrt 2 / 2)
    with (R_sqrt.sqrt 2 / (R_sqrt.sqrt 2 * R_sqrt.sqrt 2))
    by (rewrite H; reflexivity).
  field. exact sqrt2_neq_0.
Qed.

Ltac turn a :=
  match goal with
  | |- context [at12 ?k] => replace (at12 k) with a by (unfold at12; lra)
  end.

Lemma cs_0 : cos (at12 0) = 1 /\ sin (at12 0) = 0.
Proof. turn 0. split; [apply cos_0 | apply sin_0]. Qed.

Lemma cs_2 : cos (at12 2) = R_sqrt.sqrt 3 / 2 /\ sin (at12 2) = 1 / 2.
Proof. turn (PI / 6). split; [apply cos_PI6 | apply sin_PI6]. Qed.

Lemma cs_3 :
  cos (at12 3) = R_sqrt.sqrt 2 / 2 /\ sin (at12 3) = R_sqrt.sqrt 2 / 2.
Proof.
  turn (PI / 4). rewrite cos_PI4, sin_PI4, inv_sqrt2. split; reflexivity.
Qed.

Lemma cs_4 : cos (at12 4) = 1 / 2 /\ sin (at12 4) = R_sqrt.sqrt 3 / 2.
Proof. turn (PI / 3). split; [apply cos_PI3 | apply sin_PI3]. Qed.

Lemma cs_6 : cos (at12 6) = 0 /\ sin (at12 6) = 1.
Proof. turn (PI / 2). split; [apply cos_PI2 | apply sin_PI2]. Qed.

Lemma cs_8 : cos (at12 8) = - (1 / 2) /\ sin (at12 8) = R_sqrt.sqrt 3 / 2.
Proof.
  turn (2 * (PI / 3)). rewrite cos_2PI3, sin_2PI3. split; lra.
Qed.

Lemma cs_9 :
  cos (at12 9) = - (R_sqrt.sqrt 2 / 2) /\ sin (at12 9) = R_sqrt.sqrt 2 / 2.
Proof.
  turn (3 * (PI / 4)). rewrite cos_3PI4, sin_3PI4.
  pose proof inv_sqrt2 as H. split; lra.
Qed.

Lemma cs_10 : cos (at12 10) = - (R_sqrt.sqrt 3 / 2) /\ sin (at12 10) = 1 / 2.
Proof.
  turn (PI - PI / 6).
  rewrite Rtrigo_facts.cos_pi_minus, sin_PI_x, cos_PI6, sin_PI6.
  split; reflexivity.
Qed.

Lemma cs_half_turn :
  forall (k : Z) (c s : R),
    cos (at12 k) = c /\ sin (at12 k) = s ->
    cos (at12 (k + 12)) = - c /\ sin (at12 (k + 12)) = - s.
Proof.
  intros k c s [Hc Hs].
  replace (at12 (k + 12)) with (at12 k + PI)
    by (unfold at12; rewrite plus_IZR; lra).
  rewrite neg_cos, neg_sin, Hc, Hs. split; reflexivity.
Qed.

Lemma cs_opposite :
  forall (k : Z) (c s : R),
    cos (at12 k) = c /\ sin (at12 k) = s ->
    cos (at12 (- k)) = c /\ sin (at12 (- k)) = - s.
Proof.
  intros k c s [Hc Hs].
  replace (at12 (- k)) with (- at12 k) by (unfold at12; rewrite opp_IZR; lra).
  rewrite cos_neg, sin_neg, Hc, Hs. split; reflexivity.
Qed.

Lemma cos_full_turn : forall a b, a = b + 2 * PI -> cos a = cos b.
Proof.
  intros a b ->. rewrite <- (cos_period b 1). f_equal. cbn. lra.
Qed.

Lemma cos_quarter_back : forall a b, a = b - PI / 2 -> cos a = sin b.
Proof.
  intros a b ->. rewrite <- (cos_shift b), <- cos_neg. f_equal. lra.
Qed.

Lemma cos_quarter_back_turn :
  forall a b, a = b - PI / 2 + 2 * PI -> cos a = sin b.
Proof.
  intros a b ->.
  rewrite (@cos_full_turn (b - PI / 2 + 2 * PI) (b - PI / 2) eq_refl).
  apply cos_quarter_back. reflexivity.
Qed.

End Trigonometry.

Section StandardGeometry.

Local Open Scope R_scope.

Lemma cs_12 : cos (at12 12) = - 1 /\ sin (at12 12) = - 0.
Proof. exact (@cs_half_turn _ _ _ cs_0). Qed.

Lemma cs_14 :
  cos (at12 14) = - (R_sqrt.sqrt 3 / 2) /\ sin (at12 14) = - (1 / 2).
Proof. exact (@cs_half_turn _ _ _ cs_2). Qed.

Lemma cs_15 :
  cos (at12 15) = - (R_sqrt.sqrt 2 / 2) /\ sin (at12 15) = - (R_sqrt.sqrt 2 / 2).
Proof. exact (@cs_half_turn _ _ _ cs_3). Qed.

Lemma cs_16 :
  cos (at12 16) = - (1 / 2) /\ sin (at12 16) = - (R_sqrt.sqrt 3 / 2).
Proof. exact (@cs_half_turn _ _ _ cs_4). Qed.

Lemma cs_18 : cos (at12 18) = - 0 /\ sin (at12 18) = - 1.
Proof. exact (@cs_half_turn _ _ _ cs_6). Qed.

Lemma cs_20 :
  cos (at12 20) = - - (1 / 2) /\ sin (at12 20) = - (R_sqrt.sqrt 3 / 2).
Proof. exact (@cs_half_turn _ _ _ cs_8). Qed.

Lemma cs_21 :
  cos (at12 21) = - - (R_sqrt.sqrt 2 / 2) /\ sin (at12 21) = - (R_sqrt.sqrt 2 / 2).
Proof. exact (@cs_half_turn _ _ _ cs_9). Qed.

Lemma cs_m3 :
  cos (at12 (-3)) = R_sqrt.sqrt 2 / 2 /\ sin (at12 (-3)) = - (R_sqrt.sqrt 2 / 2).
Proof. exact (@cs_opposite _ _ _ cs_3). Qed.

Lemma cs_m2 :
  cos (at12 (-2)) = R_sqrt.sqrt 3 / 2 /\ sin (at12 (-2)) = - (1 / 2).
Proof. exact (@cs_opposite _ _ _ cs_2). Qed.

Lemma on_unit_circle :
  forall (c : config) (i : nat) (px py : R),
    (px, py) = polar_point c i -> px * px + py * py = 1.
Proof.
  intros c i px py H. unfold polar_point in H. cbv zeta in H.
  injection H as -> ->.
  match goal with |- cos ?t * _ + _ = 1 => pose proof (sin2_cos2 t) as Hs end.
  unfold Rsqr in Hs. lra.
Qed.

End StandardGeometry.

(** Every cosine and sine of the goal at a multiple of 15 degrees, by its
    value. *)
Ltac to12 a :=
  first
    [ replace a with (at12 0) by (unfold at12; lra)
    | replace a with (at12 2) by (unfold at12; lra)
    | replace a with (at12 3) by (unfold at12; lra)
    | replace a with (at12 4) by (unfold at12; lra)
    | replace a with (at12 6) by (unfold at12; lra)
    | replace a with (at12 8) by (unfold at12; lra)
    | replace a with (at12 9) by (unfold at12; lra)
    | replace a with (at12 10) by (unfold at12; lra)
    | replace a with (at12 12) by (unfold at12; lra)
    | replace a with (at12 14) by (unfold at12; lra)
    | replace a with (at12 15) by (unfold at12; lra)
    | replace a with (at12 16) by (unfold at12; lra)
    | replace a with (at12 18) by (unfold at12; lra)
    | replace a with (at12 20) by (unfold at12; lra)
    | replace a with (at12 21) by (unfold at12; lra)
    | replace a with (at12 (-3)) by (unfold at12; lra)
    | replace a with (at12 (-2)) by (unfold at12; lra) ].

Ltac trig_values :=
  repeat match goal with
    | |- context [cos ?a] => lazymatch a with at12 _ => fail | _ => to12 a end
    | |- context [sin ?a] => lazymatch a with at12 _ => fail | _ => to12 a end
    end;
  rewrite ?(proj1 cs_0), ?(proj2 cs_0), ?(proj1 cs_2), ?(proj2 cs_2),
    ?(proj1 cs_3), ?(proj2 cs_3), ?(proj1 cs_4), ?(proj2 cs_4),
    ?(proj1 cs_6), ?(proj2 cs_6), ?(proj1 cs_8), ?(proj2 cs_8),
    ?(proj1 cs_9), ?(proj2 cs_9), ?(proj1 cs_10), ?(proj2 cs_10),
    ?(proj1 cs_12), ?(proj2 cs_12), ?(proj1 cs_14), ?(proj2 cs_14),
    ?(proj1 cs_15), ?(proj2 cs_15), ?(proj1 cs_16), ?(proj2 cs_16),
    ?(proj1 cs_18), ?(proj2 cs_18), ?(proj1 cs_20), ?(proj2 cs_20),
    ?(proj1 cs_21), ?(proj2 cs_21), ?(proj1 cs_m3), ?(proj2 cs_m3),
    ?(proj1 cs_m2), ?(proj2 cs_m2).

Section StandardFrames.

Local Open Scope R_scope.

(** A point all of whose cosines and sines are at table angles. *)
Ltac table_point :=
  unfold polar_point; cbn; trig_values; f_equal; lra.

(** A point of OCTO_X: both sides are cosines or sines of angles that
    agree up to a quarter turn and a full turn. *)
Ltac shifted_point :=
  unfold polar_point; cbn; f_equal;
  first [ f_equal; lra
        | apply cos_full_turn; lra
        | apply cos_quarter_back; lra
        | apply cos_quarter_back_turn; lra ].

Variable E : Extern R.
Variable d : quatosData_t (T := R).
Hypothesis Hcos : forall v, cosf E v = cos v.

Lemma standard_polar :
  is_custom (craftType d) = false ->
  Forall (fun i => (nth i (fst (frame_geometry E d)) 0,
                    nth i (snd (frame_geometry E d)) 0)
                   = polar_point (craftType d) i)
    (seq 0 (motor_count (craftType d))).
Proof.
  intro Hstd. unfold frame_geometry.
  destruct (craftType d); try discriminate Hstd;
    cbn [fst snd motor_count resetCraft n seq]; rewrite ?Hcos.
  - repeat constructor; table_point.
  - repeat constructor; table_point.
  - repeat constructor; table_point.
  - repeat constructor; table_point.
  - repeat constructor; table_point.
  - repeat constructor; shifted_point.
Qed.

End StandardFrames.

(** C4.  For each of the six standard frame types the resolved geometry
    has exactly n points (4, 6 or 8 by type); point i is the point of the
    unit circle at the type's starting phase plus i times 360/n degrees
    (phase 0 for the "+" types, -45, -30 and -22.5 degrees for QUAD_X,
    HEX_X and OCTO_X), so it has norm 1; and QUAD_PLUS yields (1,0),
    (0,1), (-1,0), (0,-1) in motor order. *)
Theorem C4_standard_geometry :
  forall (E : Extern R) (d : quatosData_t (T := R)),
    (forall v, cosf E v = cos v) ->
    is_custom (craftType d) = false ->
    let c := craftType d in
    let fx := fst (frame_geometry E d) in
    let fy := snd (frame_geometry E d) in
    length fx = motor_count c /\ length fy = motor_count c
    /\ Forall (fun i => (nth i fx 0%R, nth i fy 0%R) = polar_point c i)
         (seq 0 (motor_count c))
    /\ Forall (fun i => (nth i fx 0 * nth i fx 0 + nth i fy 0 * nth i fy 0 = 1)%R)
         (seq 0 (motor_count c))
    /\ (c = CONFIG_QUAD_PLUS ->
        fx = [1; 0; -1; 0]%R /\ fy = [0; 1; 0; -1]%R).
Proof.
  intros E d Hcos Hstd c fx fy.
  pose proof (@standard_polar E d Hcos Hstd) as Hpolar.
  split; [|split; [|split; [exact Hpolar|split]]].
  - subst c fx. unfold frame_geometry.
    destruct (craftType d); try discriminate Hstd; reflexivity.
  - subst c fy. unfold frame_geometry.
    destruct (craftType d); try discriminate Hstd; reflexivity.
  - eapply Forall_impl; [|exact Hpolar].
    intros i Hi. cbv beta in Hi. exact (@on_unit_circle _ _ _ _ Hi).
  - intro Hq. subst c fx fy. unfold frame_geometry. rewrite Hq.
    split; reflexivity.
Qed.

(** The hypotheses of C4 hold of the quad "+" run with the exact library
    environment. *)
Lemma C4_quad_plus_geometry :
  fst (frame_geometry exact_library alternating_quad) = [1; 0; -1; 0]%R
  /\ snd (frame_geometry exact_library alternating_quad) = [0; 1; 0; -1]%R.
Proof.
  assert (H1 : forall v, cosf exact_library v = cos v) by reflexivity.
  assert (H2 : is_custom (craftType alternating_quad) = false) by reflexivity.
  exact (proj2 (proj2 (proj2 (proj2
           (@C4_standard_geometry exact_library alternating_quad H1 H2))))
           eq_refl).
Defined.

(** ** Symmetric frames are decoupled *)

Section SymmetricFrame.

Local Open Scope R_scope.

(** As [solve_three_rows], for up to 16 columns. *)
Lemma solve_three_rows_wide :
  forall a : matrix R,
    rows a = 3%nat -> (cols a <= 16)%nat ->
    (forall i, (i < 3)%nat -> 0 <= row_norm2 a i <= 16) ->
    / 64 <= row_norm2 a 2 ->
    forall j,
      coeff (mmul (pseudoInverse exact_library a feps) target3) j 0
      = coeff a 2 j / row_norm2 a 2.
Proof.
  intros a Hr Hc Hn H2 j.
  pose proof eps_small as [He0 He1].
  rewrite pinv_target3 by exact Hr.
  apply pinv_orthogonal_rows; [lia | lra |].
  assert (Hmax : 0 <= maxCoeff (cwiseAbs (singularValues (jacobiSvd exact_library a)))
                 <= 4).
  { split; [apply maxCoeff_abs_nonneg|].
    change (jacobiSvd exact_library a) with (svd_of_orthogonal_rows a).
    cbn [singularValues svd_of_orthogonal_rows]. rewrite Hr.
    cbn [seq map cwiseAbs].
    match goal with |- maxCoeff ?L <= 4 =>
      assert (Hne : L <> []) by discriminate;
      destruct (maxCoeff_R Hne) as [_ Hin]
    end.
    assert (Hb : forall i, (i < 3)%nat -> Rabs (R_sqrt.sqrt (row_norm2 a i)) <= 4).
    { intros i Hi. rewrite Rabs_pos_eq by apply sqrt_pos.
      replace 4 with (R_sqrt.sqrt (4 * 4)) by (apply sqrt_square; lra).
      apply sqrt_le_1_alt. specialize (Hn i Hi). lra. }
    real_ops.
    destruct Hin as [<-|[<-|[<-|[]]]]; apply Hb; lia. }
  assert (Hs : / 8 <= R_sqrt.sqrt (row_norm2 a 2)).
  { rewrite <- sqrt_64th. apply sqrt_le_1_alt. exact H2. }
  assert (Hdim : 0 <= IZR (Z.of_nat (Nat.max (cols a) (rows a))) <= 16).
  { split; apply IZR_le; lia. }
  unfold tolerance_of. real_ops. unfold Exact.eps in *.
  set (c := IZR (Z.of_nat (Nat.max (cols a) (rows a)))) in *.
  set (mx := maxCoeff _) in *.
  assert (A1 : / 2 ^ 52 * c <= / 1024 * 16)
    by (apply Rmult_le_compat; lra).
  assert (A0 : 0 <= / 2 ^ 52 * c) by (apply Rmult_le_pos; lra).
  assert (A2 : / 2 ^ 52 * c * mx <= / 1024 * 16 * 4)
    by (apply Rmult_le_compat; lra).
  lra.
Qed.

Variable nm : nat.
Variables mX mY pD : matrix R.

Let sXX := sum_upto nm (fun k => coeff mX 0 k * coeff mX 0 k).
Let sYY := sum_upto nm (fun k => coeff mY 0 k * coeff mY 0 k).
Let sPP := sum_upto nm (fun k => coeff pD 0 k * coeff pD 0 k).

Hypothesis Hnm : (nm <= 16)%nat.
Hypothesis HXX : / 64 <= sXX <= 16.
Hypothesis HYY : / 64 <= sYY <= 16.
Hypothesis HPP : / 64 <= sPP <= 16.
Hypothesis HXY : sum_upto nm (fun k => coeff mX 0 k * coeff mY 0 k) = 0.
Hypothesis HXP : sum_upto nm (fun k => coeff mX 0 k * coeff pD 0 k) = 0.
Hypothesis HYP : sum_upto nm (fun k => coeff mY 0 k * coeff pD 0 k) = 0.

Lemma ones_norm : sum_upto nm (fun _ => 1 * 1) = INR nm.
Proof.
  clear. induction nm as [|k IH].
  - reflexivity.
  - rewrite S_INR. cbn [sum_upto]. real_ops. rewrite IH. lra.
Qed.

Lemma ones_norm_bound : 0 <= sum_upto nm (fun _ => 1 * 1) <= 16.
Proof.
  rewrite ones_norm. split; [apply pos_INR|].
  replace 16 with (INR 16) by (cbn; lra). apply le_INR. exact Hnm.
Qed.

Lemma sum_neg_neg :
  forall f : nat -> R,
    sum_upto nm (fun k => - f k * - f k) = sum_upto nm (fun k => f k * f k).
Proof. intro f. apply sum_upto_ext. intros k _. lra. Qed.

Lemma symmetric_roll :
  forall j, coeff (mmul (pseudoInverse exact_library (system_roll nm mX mY) feps)
                     target3) j 0
            = - coeff mY 0 j / sYY.
Proof.
  intro j. pose proof ones_norm_bound as H1.
  rewrite solve_three_rows_wide; try reflexivity; try exact Hnm.
  - unfold row_norm2.
    cbn [cols rows coeff vstack system_roll nth length mneg Ones Zero].
    real_ops. rewrite sum_neg_neg. reflexivity.
  - intros i Hi. unfold row_norm2.
    destruct i as [|[|[|i]]]; try lia;
      cbn [cols rows coeff vstack system_roll nth length mneg Ones Zero];
      real_ops; rewrite ?sum_neg_neg; fold sXX sYY; lra.
  - unfold row_norm2.
    cbn [cols rows coeff vstack system_roll nth length mneg Ones Zero].
    real_ops. rewrite sum_neg_neg. fold sYY. lra.
Qed.

Lemma symmetric_pitch :
  forall j, coeff (mmul (pseudoInverse exact_library (system_pitch nm mX mY) feps)
                     target3) j 0
            = coeff mX 0 j / sXX.
Proof.
  intro j. pose proof ones_norm_bound as H1.
  rewrite solve_three_rows_wide; try reflexivity; try exact Hnm.
  - intros i Hi. unfold row_norm2.
    destruct i as [|[|[|i]]]; try lia;
      cbn [cols rows coeff vstack system_pitch nth length mneg Ones Zero];
      real_ops; rewrite ?sum_neg_neg; fold sXX sYY; lra.
  - unfold row_norm2.
    cbn [cols rows coeff vstack system_pitch nth length mneg Ones Zero].
    fold sXX. lra.
Qed.

Lemma symmetric_yaw :
  forall j, coeff (mmul (pseudoInverse exact_library (system_yaw nm mX mY pD) feps)
                     target3) j 0
            = coeff pD 0 j / sPP.
Proof.
  intro j.
  rewrite solve_three_rows_wide; try reflexivity; try exact Hnm.
  - intros i Hi. unfold row_norm2.
    destruct i as [|[|[|i]]]; try lia;
      cbn [cols rows coeff vstack system_yaw nth length mneg Ones Zero];
      fold sXX sYY sPP; lra.
  - unfold row_norm2.
    cbn [cols rows coeff vstack system_yaw nth length mneg Ones Zero].
    fold sPP. lra.
Qed.

Lemma weighted_column :
  forall (f g : nat -> R) (c : R) (col : matrix R),
    (forall j, coeff col j 0 = g j / c) ->
    sum_upto nm (fun k => f k * coeff col k 0)
    = sum_upto nm (fun k => f k * g k) / c.
Proof.
  intros f g c col H. unfold Rdiv. rewrite <- sum_upto_scal_r.
  apply sum_upto_ext. intros k _. rewrite H. unfold Rdiv. ring.
Qed.

Lemma sum_proportional_zero :
  forall (f g : nat -> R) (c : R),
    (forall k, f k = c * g k) -> sum_upto nm g = 0 -> sum_upto nm f = 0.
Proof.
  intros f g c H H0.
  rewrite sum_upto_ext with (g := fun k => c * g k) by (intros k _; apply H).
  rewrite sum_upto_scal_l, H0. ring.
Qed.

(** With the three attitude columns solved as above, M * PD is the
    identity up to the orthogonality of the coordinate and rotation
    rows; its determinant is 1. *)
Lemma symmetric_product_det :
  forall RO PI YA : matrix R,
    (forall j, coeff RO j 0 = - coeff mY 0 j / sYY) ->
    (forall j, coeff PI j 0 = coeff mX 0 j / sXX) ->
    (forall j, coeff YA j 0 = coeff pD 0 j / sPP) ->
    det3 (mmul (vstack nm [mneg mY; mX; pD])
            (hstack nm [(1%nat, RO); (1%nat, PI); (1%nat, YA)])) = 1.
Proof.
  intros RO PI YA HRO HPI HYA.
  unfold det3.
  cbn [coeff mmul cols rows vstack hstack hstack_coeff nth length
       mneg Nat.ltb Nat.leb Nat.sub].
  real_ops.
  rewrite (weighted_column (fun k => - coeff mY 0 k) _ _ HRO).
  rewrite (weighted_column (fun k => - coeff mY 0 k) _ _ HPI).
  rewrite (weighted_column (fun k => - coeff mY 0 k) _ _ HYA).
  rewrite (weighted_column (fun k => coeff mX 0 k) _ _ HRO).
  rewrite (weighted_column (fun k => coeff mX 0 k) _ _ HPI).
  rewrite (weighted_column (fun k => coeff mX 0 k) _ _ HYA).
  rewrite (weighted_column (fun k => coeff pD 0 k) _ _ HRO).
  rewrite (weighted_column (fun k => coeff pD 0 k) _ _ HPI).
  rewrite (weighted_column (fun k => coeff pD 0 k) _ _ HYA).
  rewrite (sum_neg_neg (fun k => coeff mY 0 k)).
  rewrite (@sum_proportional_zero
             (fun k => - coeff mY 0 k * coeff mX 0 k)
             (fun k => coeff mX 0 k * coeff mY 0 k) (-1))
    by (try exact HXY; intros; ring).
  rewrite (@sum_proportional_zero
             (fun k => - coeff mY 0 k * coeff pD 0 k)
             (fun k => coeff mY 0 k * coeff pD 0 k) (-1))
    by (try exact HYP; intros; ring).
  rewrite (@sum_proportional_zero
             (fun k => coeff mX 0 k * - coeff mY 0 k)
             (fun k => coeff mX 0 k * coeff mY 0 k) (-1))
    by (try exact HXY; intros; ring).
  rewrite (@sum_proportional_zero
             (fun k => coeff pD 0 k * - coeff mY 0 k)
             (fun k => coeff mY 0 k * coeff pD 0 k) (-1))
    by (try exact HYP; intros; ring).
  rewrite (@sum_proportional_zero
             (fun k => coeff pD 0 k * coeff mX 0 k)
             (fun k => coeff mX 0 k * coeff pD 0 k) 1)
    by (try exact HXP; intros; ring).
  rewrite HXP.
  fold sXX sYY sPP. field. lra.
Qed.

End SymmetricFrame.

(** ** The six standard frames, alternating rotation signs *)

Section OctoXValues.

Local Open Scope R_scope.

Lemma octo_x_cos :
  forall t,
    (t = 225 / 10 * (PI / 180) -> cos t = cos8)
    /\ (t = 675 / 10 * (PI / 180) -> cos t = sin8)
    /\ (t = 1125 / 10 * (PI / 180) -> cos t = - sin8)
    /\ (t = 1575 / 10 * (PI / 180) -> cos t = - cos8)
    /\ (t = 2025 / 10 * (PI / 180) -> cos t = - cos8)
    /\ (t = 2475 / 10 * (PI / 180) -> cos t = - sin8)
    /\ (t = 2925 / 10 * (PI / 180) -> cos t = sin8)
    /\ (t = 3375 / 10 * (PI / 180) -> cos t = cos8).
Proof.
  intro t. unfold cos8, sin8.
  assert (H67 : cos (PI / 2 - PI / 8) = sin (PI / 8)) by apply cos_shift.
  repeat split; intros ->.
  - f_equal. lra.
  - rewrite <- H67. f_equal. lra.
  - rewrite <- H67, <- Rtrigo_facts.cos_pi_minus. f_equal. lra.
  - rewrite <- Rtrigo_facts.cos_pi_minus. f_equal. lra.
  - rewrite <- neg_cos. f_equal. lra.
  - rewrite <- H67, <- neg_cos. f_equal. lra.
  - rewrite <- H67, <- (cos_neg (PI / 2 - PI / 8)).
    apply cos_full_turn. lra.
  - rewrite <- (cos_neg (PI / 8)). apply cos_full_turn. lra.
Qed.

End OctoXValues.

(** ** The six standard frames with alternating rotations

    For each standard type with motors of alternately signed rotation, the
    computed CG is the origin, the rows of M are pairwise orthogonal, and the
    product M * PD has determinant 1, so the inverse taken in
    [quatosToolCalc] exists. *)

Ltac octo_values :=
  repeat match goal with
  | |- context [cos ?t] =>
      first [ rewrite (proj1 (octo_x_cos t)) by lra
            | rewrite (proj1 (proj2 (octo_x_cos t))) by lra
            | rewrite (proj1 (proj2 (proj2 (octo_x_cos t)))) by lra
            | rewrite (proj1 (proj2 (proj2 (proj2 (octo_x_cos t))))) by lra
            | rewrite (proj1 (proj2 (proj2 (proj2 (proj2 (octo_x_cos t)))))) by lra
            | rewrite (proj1 (proj2 (proj2 (proj2 (proj2 (proj2 (octo_x_cos t))))))) by lra
            | rewrite (proj1 (proj2 (proj2 (proj2 (proj2 (proj2 (proj2 (octo_x_cos t)))))))) by lra
            | rewrite (proj2 (proj2 (proj2 (proj2 (proj2 (proj2 (proj2 (octo_x_cos t)))))))) by lra ]
  end.

Ltac frame_values := trig_values; octo_values.

Section StandardInvertible.

Local Open Scope R_scope.

Lemma surd_squares :
  R_sqrt.sqrt 2 * R_sqrt.sqrt 2 = 2 /\ R_sqrt.sqrt 3 * R_sqrt.sqrt 3 = 3
  /\ cos8 * cos8 + sin8 * sin8 = 1.
Proof.
  split; [apply sqrt_sqrt; lra|]. split; [apply sqrt_sqrt; lra|].
  unfold cos8, sin8. pose proof (sin2_cos2 (PI / 8)) as H. unfold Rsqr in H. lra.
Qed.

(** A row known coefficient by coefficient: its squared norm and its inner
    product with another such row. *)
Lemma rows_bound (m : nat) (mx : matrix R) (f : nat -> R) :
  (forall k, coeff mx 0 k = f k) ->
  / 64 <= sum_upto m (fun k => f k * f k) <= 16 ->
  / 64 <= sum_upto m (fun k => coeff mx 0 k * coeff mx 0 k) <= 16.
Proof.
  intros Hf H.
  rewrite (@sum_upto_ext m (fun k => coeff mx 0 k * coeff mx 0 k)
             (fun k => f k * f k)); [exact H|].
  intros k _. now rewrite Hf.
Qed.

Lemma rows_orthogonal (m : nat) (mx my : matrix R) (f g : nat -> R) :
  (forall k, coeff mx 0 k = f k) ->
  (forall k, coeff my 0 k = g k) ->
  sum_upto m (fun k => f k * g k) = 0 ->
  sum_upto m (fun k => coeff mx 0 k * coeff my 0 k) = 0.
Proof.
  intros Hf Hg H.
  rewrite (@sum_upto_ext m (fun k => coeff mx 0 k * coeff my 0 k)
             (fun k => f k * g k)); [exact H|].
  intros k _. now rewrite Hf, Hg.
Qed.

(** How the fields of the result of [quatosToolCalc] depend on each other. *)
Lemma calc_shape (T : Type) (S : Scalar T) (E : Extern T)
    (d0 : quatosData_t) (m : nat) :
  let r := quatosToolCalc E d0 in
  n r = m ->
  M r = vstack m [mneg (motorY r); motorX r; row_of m (propDir r)]
  /\ PD r = hstack m [(1%nat, ROLL r); (1%nat, PITCH r); (1%nat, YAW r)]
  /\ ROLL r = mmul (pseudoInverse E (system_roll m (motorX r) (motorY r)) feps)
                target3
  /\ PITCH r = mmul (pseudoInverse E (system_pitch m (motorX r) (motorY r)) feps)
                 target3
  /\ YAW r = mmul (pseudoInverse E (system_yaw m (motorX r) (motorY r)
                                      (row_of m (propDir r))) feps) target3.
Proof.
  intros r <-. repeat split; reflexivity.
Qed.

(** The frame [c] of [m] motors: CG at the origin, motor coordinates
    0.25 times the unit-circle points, orthogonal rows, and then
    [symmetric_product_det]. *)
Ltac frame_det c m :=
  let d := constr:(alternating_craft c) in
  let r := constr:(quatosToolCalc exact_library (alternating_craft c)) in
  let H2 := fresh "H2" in let H3 := fresh "H3" in let H8 := fresh "H8" in
  let Hcg := fresh "Hcg" in
  let HX := fresh "HX" in let HY := fresh "HY" in let HP := fresh "HP" in
  let Hnm := fresh "Hnm" in
  let HXX := fresh "HXX" in let HYY := fresh "HYY" in let HPP := fresh "HPP" in
  let HXY := fresh "HXY" in let HXP := fresh "HXP" in let HYP := fresh "HYP" in
  let EM := fresh "EM" in let EPD := fresh "EPD" in
  let ER := fresh "ER" in let EP := fresh "EP" in let EY := fresh "EY" in
  destruct surd_squares as (H2 & H3 & H8);
  assert (Hcg : offsetCG (quatosToolObjCalc
                            (set_frame d (frame_geometry exact_library d)))
                = (0, 0, 0))
    by (unfold quatosToolObjCalc; cbn [offsetCG set_mass_properties];
        cbn; frame_values; (f_equal; [f_equal|]; lra));
  assert (HX : forall k, coeff (motorX r) 0 k
                 = nth k (fst (frame_geometry exact_library d)) 0 * (25 / 100))
    by (intro; unfold quatosToolCalc; cbn [motorX]; unfold motor_coords;
        rewrite Hcg; cbn; lra);
  assert (HY : forall k, coeff (motorY r) 0 k
                 = nth k (snd (frame_geometry exact_library d)) 0 * (25 / 100))
    by (intro; unfold quatosToolCalc; cbn [motorY]; unfold motor_coords;
        rewrite Hcg; cbn; lra);
  assert (HP : forall k, coeff (row_of m (propDir r)) 0 k
                 = nth k (map (fun p => IZR p * -1) (alternating m)) 0)
    by (intro; reflexivity);
  assert (Hnm : (m <= 16)%nat) by lia;
  assert (HXX : / 64 <= sum_upto m (fun k => coeff (motorX r) 0 k
                                             * coeff (motorX r) 0 k) <= 16)
    by (apply (@rows_bound m _ _ HX); cbn; frame_values; nra);
  assert (HYY : / 64 <= sum_upto m (fun k => coeff (motorY r) 0 k
                                             * coeff (motorY r) 0 k) <= 16)
    by (apply (@rows_bound m _ _ HY); cbn; frame_values; nra);
  assert (HPP : / 64 <= sum_upto m (fun k => coeff (row_of m (propDir r)) 0 k
                                             * coeff (row_of m (propDir r)) 0 k)
                <= 16)
    by (apply (@rows_bound m _ _ HP); cbn; lra);
  assert (HXY : sum_upto m (fun k => coeff (motorX r) 0 k
                                     * coeff (motorY r) 0 k) = 0)
    by (apply (@rows_orthogonal m _ _ _ _ HX HY); cbn; frame_values; nra);
  assert (HXP : sum_upto m (fun k => coeff (motorX r) 0 k
                                     * coeff (row_of m (propDir r)) 0 k) = 0)
    by (apply (@rows_orthogonal m _ _ _ _ HX HP); cbn; frame_values; lra);
  assert (HYP : sum_upto m (fun k => coeff (motorY r) 0 k
                                     * coeff (row_of m (propDir r)) 0 k) = 0)
    by (apply (@rows_orthogonal m _ _ _ _ HY HP); cbn; frame_values; lra);
  destruct (@calc_shape R ScalarR exact_library d m eq_refl)
    as (EM & EPD & ER & EP & EY);
  cbv zeta in EM, EPD, ER, EP, EY;
  rewrite EM, EPD;
  apply (@symmetric_product_det m (motorX r) (motorY r) (row_of m (propDir r))
           HXX HYY HPP HXY HXP HYP (ROLL r) (PITCH r) (YAW r));
  [ rewrite ER; apply (@symmetric_roll m (motorX r) (motorY r) Hnm HXX HYY)
  | rewrite EP; apply (@symmetric_pitch m (motorX r) (motorY r) Hnm HXX HYY)
  | rewrite EY; apply (@symmetric_yaw m (motorX r) (motorY r)
                         (row_of m (propDir r)) Hnm HXX HYY HPP) ].

(** Every standard frame with alternating rotations has an invertible
    product: det (M * PD) = 1. *)
Lemma standard_frames_invertible :
  forall c, In c standard_types ->
    let r := quatosToolCalc exact_library (alternating_craft c) in
    det3 (mmul (M r) (PD r)) = 1%R.
Proof.
  intros c Hc r; subst r.
  cbn in Hc.
  destruct Hc as [<-|[<-|[<-|[<-|[<-|[<-|[]]]]]]].
  - frame_det CONFIG_QUAD_PLUS 4%nat.
  - frame_det CONFIG_QUAD_X 4%nat.
  - frame_det CONFIG_HEX_PLUS 6%nat.
  - frame_det CONFIG_HEX_X 6%nat.
  - frame_det CONFIG_OCTO_PLUS 8%nat.
  - frame_det CONFIG_OCTO_X 8%nat.
Qed.

End StandardInvertible.

(** ** Decoupling, and when it fails *)

Section SolvedSystems.

Local Open Scope R_scope.

Variable n0 : nat.
Variables mX mY pD RO PI YA : matrix R.

Hypothesis HRO : meq (mmul (system_roll n0 mX mY) RO) target3.
Hypothesis HPI : meq (mmul (system_pitch n0 mX mY) PI) target3.
Hypothesis HYA : meq (mmul (system_yaw n0 mX mY pD) YA) target3.

(** One equation of a solved system of three rows. *)
Lemma solved_row :
  forall (A X : matrix R) (i : nat),
    rows A = 3%nat -> meq (mmul A X) target3 -> (i < 3)%nat ->
    sum_upto (cols A) (fun k => coeff A i k * coeff X k 0)
    = nth i [0; 0; 1] 0.
Proof.
  intros A X i HA (_ & Hc & Hv) Hi.
  apply (Hv i 0%nat).
  - cbn [rows mmul]. rewrite HA. exact Hi.
  - rewrite Hc. cbn. lia.
Qed.

(** When ROLL, PITCH and YAW solve their systems, M * PD is
    [[1, 0, 0], [0, 1, 0], [a, b, 1]]: its determinant is 1. *)
Lemma solved_systems_det :
  det3 (mmul (vstack n0 [mneg mY; mX; pD])
          (hstack n0 [(1%nat, RO); (1%nat, PI); (1%nat, YA)])) = 1.
Proof.
  pose proof (@solved_row (system_roll n0 mX mY) RO 0%nat eq_refl HRO ltac:(lia)) as R0.
  pose proof (@solved_row (system_roll n0 mX mY) RO 2%nat eq_refl HRO ltac:(lia)) as R2.
  pose proof (@solved_row (system_pitch n0 mX mY) PI 0%nat eq_refl HPI ltac:(lia)) as P0.
  pose proof (@solved_row (system_pitch n0 mX mY) PI 2%nat eq_refl HPI ltac:(lia)) as P2.
  pose proof (@solved_row (system_yaw n0 mX mY pD) YA 0%nat eq_refl HYA ltac:(lia)) as Y0.
  pose proof (@solved_row (system_yaw n0 mX mY pD) YA 1%nat eq_refl HYA ltac:(lia)) as Y1.
  pose proof (@solved_row (system_yaw n0 mX mY pD) YA 2%nat eq_refl HYA ltac:(lia)) as Y2.
  cbn [cols rows coeff vstack system_roll system_pitch system_yaw nth length
       mneg] in R0, R2, P0, P2, Y0, Y1, Y2.
  assert (Y1' : sum_upto n0 (fun k => - coeff mY 0 k * coeff YA k 0) = 0).
  { rewrite (@sum_upto_ext n0 _ (fun k => -1 * (coeff mY 0 k * coeff YA k 0)))
      by (intros k _; lra).
    rewrite sum_upto_scal_l, Y1. lra. }
  unfold det3.
  cbn [coeff mmul cols rows vstack hstack hstack_coeff nth length
       mneg Nat.ltb Nat.leb Nat.sub].
  real_ops.
  rewrite R0, R2, P0, P2, Y0, Y1', Y2. lra.
Qed.

End SolvedSystems.

Section DecouplingCondition.

Local Open Scope R_scope.

Lemma det3_mmul :
  forall a b : matrix R, cols a = 3%nat -> det3 (mmul a b) = det3 a * det3 b.
Proof.
  intros a b H. unfold det3. cbn [coeff mmul]. rewrite H. cbn [sum_upto].
  real_ops. ring.
Qed.

Lemma det3_identity : det3 (Identity 3) = 1.
Proof. unfold det3. cbn. lra. Qed.

(** A product whose right factor has a column of zeros is not the
    identity. *)
Lemma zero_column_no_identity :
  forall (a b : matrix R) (k : nat),
    (k < 3)%nat -> rows b = cols a ->
    meq (mmul a (attitude_columns b)) (Identity 3) ->
    maxCoeff (cwiseAbs (coeffs (col b (S k)))) <> 0.
Proof.
  intros a b k Hk Hdim (Hr & _ & H) H0.
  assert (Hz : forall i, (i < rows b)%nat -> coeff b i (S k) = 0).
  { intros i Hi.
    rewrite coeffs_col in H0. unfold cwiseAbs in H0. rewrite map_map in H0.
    set (L := map _ (seq 0 (rows b))) in H0.
    assert (HL : L <> []).
    { unfold L. destruct (rows b); [lia | simpl; discriminate]. }
    destruct (maxCoeff_R HL) as [Hle _]. rewrite H0 in Hle.
    assert (Hin : In (Rabs (coeff b i (S k))) L).
    { unfold L. apply in_map_iff. exists i. split; [reflexivity|].
      apply in_seq. lia. }
    specialize (Hle _ Hin).
    destruct (Req_dec (coeff b i (S k)) 0) as [E0|E0]; [exact E0|].
    pose proof (Rabs_pos_lt _ E0). lra. }
  assert (H1 : coeff (mmul a (attitude_columns b)) k k = 1).
  { rewrite H.
    - cbn [coeff Identity]. rewrite Nat.eqb_refl. reflexivity.
    - rewrite Hr. exact Hk.
    - exact Hk. }
  assert (H2 : coeff (mmul a (attitude_columns b)) k k = 0).
  { cbn [coeff mmul]. apply sum_upto_zero. intros j Hj.
    cbn [coeff attitude_columns]. rewrite (Hz j) by lia. real_ops. lra. }
  lra.
Qed.

Variable E : Extern R.
Variable d : quatosData_t (T := R).

Let r := quatosToolCalc E d.

(** M times the attitude columns of Mt is (M * PD) * inverse(M * PD),
    coefficient by coefficient. *)
Lemma decoupling_product :
  forall i j, (j < 3)%nat ->
    coeff (mmul (M r) (attitude_columns (Mt r))) i j
    = coeff (mmul (mmul (M r) (PD r)) (inverse E (mmul (M r) (PD r)))) i j.
Proof.
  intros i j Hj.
  transitivity (coeff (mmul (M r) (mmul (PD r) (inverse E (mmul (M r) (PD r))))) i j).
  - cbn [coeff mmul]. apply sum_upto_ext. intros k _.
    f_equal. apply (Mt_attitude_columns E d). exact Hj.
  - symmetry. apply mmul_assoc.
Qed.

(** If the columns decouple, M * PD is invertible. *)
Lemma decoupled_invertible :
  meq (mmul (M r) (attitude_columns (Mt r))) (Identity 3) ->
  det3 (mmul (M r) (PD r)) <> 0.
Proof.
  intros (_ & _ & H) Hdet.
  assert (H1 : det3 (mmul (M r) (attitude_columns (Mt r))) = 1).
  { rewrite <- det3_identity. unfold det3.
    rewrite !H by (cbn [rows cols mmul attitude_columns]; try reflexivity;
                   change (rows (M r)) with 3%nat; lia).
    reflexivity. }
  assert (H2 : det3 (mmul (M r) (attitude_columns (Mt r)))
               = det3 (mmul (mmul (M r) (PD r)) (inverse E (mmul (M r) (PD r))))).
  { unfold det3. rewrite !decoupling_product by lia. reflexivity. }
  rewrite H2, det3_mmul, Hdet in H1 by reflexivity. lra.
Qed.

(** If M * PD is invertible and [inverse] returns its inverse, the columns
    decouple. *)
Lemma invertible_decoupled :
  inverse_spec (inverse E) ->
  det3 (mmul (M r) (PD r)) <> 0 ->
  meq (mmul (M r) (attitude_columns (Mt r))) (Identity 3).
Proof.
  intros Hspec Hdet.
  destruct (M_PD_dims E d) as [Hrows Hcols]. fold r in Hrows, Hcols.
  pose proof (Hspec _ Hrows Hcols Hdet) as (HIr & HIc & HI).
  cbn [rows cols mmul Identity] in HIr, HIc.
  split; [reflexivity|]. split; [reflexivity|].
  intros i j Hi Hj. cbn [rows cols mmul attitude_columns] in Hi, Hj.
  rewrite decoupling_product by exact Hj.
  apply HI.
  - exact Hi.
  - change (j < cols (inverse E (mmul (M r) (PD r))))%nat.
    rewrite HIc. exact Hj.
Qed.

(** When ROLL, PITCH and YAW solve their systems, M * PD has
    determinant 1. *)
Lemma solved_invertible :
  meq (mmul (system_roll (n r) (motorX r) (motorY r)) (ROLL r)) target3 ->
  meq (mmul (system_pitch (n r) (motorX r) (motorY r)) (PITCH r)) target3 ->
  meq (mmul (system_yaw (n r) (motorX r) (motorY r) (row_of (n r) (propDir r)))
         (YAW r)) target3 ->
  det3 (mmul (M r) (PD r)) = 1.
Proof.
  intros H1 H2 H3.
  exact (@solved_systems_det (n r) (motorX r) (motorY r)
           (row_of (n r) (propDir r)) (ROLL r) (PITCH r) (YAW r) H1 H2 H3).
Qed.

(** If the columns decouple, no attitude column of Mt is zero. *)
Lemma decoupled_column_nonzero :
  forall k : nat, (k < 3)%nat ->
    meq (mmul (M r) (attitude_columns (Mt r))) (Identity 3) ->
    maxCoeff (cwiseAbs (coeffs (col (Mt r) (S k)))) <> 0.
Proof.
  intros k Hk H.
  apply (@zero_column_no_identity (M r) (Mt r) k Hk); [reflexivity | exact H].
Qed.

End DecouplingCondition.

(** C1 (as stated, refuted).  The quad "+" whose motors 0, 1 turn one way
    and motors 2, 3 the other is a standard topology, and M times the
    attitude columns of Mt is not the identity, whatever the library
    returns: the third row of M is a combination of the first two. *)
Lemma C1_paired_rotation_not_decoupled :
  (craftType paired_rotation_quad = CONFIG_QUAD_PLUS
   /\ validCraft paired_rotation_quad = 1%Z)
  /\ (forall E : Extern R,
        ~ meq (mmul (M (quatosToolCalc E paired_rotation_quad))
                 (attitude_columns (Mt (quatosToolCalc E paired_rotation_quad))))
            (Identity 3)).
Proof.
  split; [split; reflexivity|].
  intros E H. apply (decoupled_invertible H). apply paired_rotation_singular.
Qed.

(** C1 (amended).  The first column of Mt is the THROTTLE vector
    unchanged and the three attitude columns are those of
    PD * inverse(M * PD), for every frame.  M times the attitude columns
    is the 3 x 3 identity only if M * PD is invertible, and it is the
    identity whenever M * PD is invertible and [inverse] returns its
    inverse.  M * PD has determinant 1 whenever ROLL, PITCH and YAW solve
    their systems, A * v = (0, 0, 1).  The product is the identity for
    each of the six standard topologies with the default masses and
    distances and alternating rotation signs, run with the exact
    library. *)
Theorem C1_decoupling :
  (forall (E : Extern R) (d : quatosData_t (T := R)),
     let r := quatosToolCalc E d in
     (forall i, coeff (Mt r) i 0 = coeff (THROT r) i 0)
     /\ (forall i j, (j < 3)%nat ->
           coeff (attitude_columns (Mt r)) i j
           = coeff (mmul (PD r) (inverse E (mmul (M r) (PD r)))) i j)
     /\ (meq (mmul (M r) (attitude_columns (Mt r))) (Identity 3) ->
         det3 (mmul (M r) (PD r)) <> 0%R)
     /\ (inverse_spec (inverse E) ->
         det3 (mmul (M r) (PD r)) <> 0%R ->
         meq (mmul (M r) (attitude_columns (Mt r))) (Identity 3))
     /\ (meq (mmul (system_roll (n r) (motorX r) (motorY r)) (ROLL r)) target3 ->
         meq (mmul (system_pitch (n r) (motorX r) (motorY r)) (PITCH r)) target3 ->
         meq (mmul (system_yaw (n r) (motorX r) (motorY r)
                      (row_of (n r) (propDir r))) (YAW r)) target3 ->
         det3 (mmul (M r) (PD r)) = 1%R))
  /\ (forall c : config,
        In c standard_types ->
        let r := quatosToolCalc exact_library (alternating_craft c) in
        meq (mmul (M r) (attitude_columns (Mt r))) (Identity 3)).
Proof.
  split.
  - intros E d r. split; [intro i; apply Mt_throttle_column|].
    split; [intros i j Hj; apply Mt_attitude_columns; exact Hj|].
    split; [apply decoupled_invertible|].
    split; [apply invertible_decoupled | apply solved_invertible].
  - intros c Hc r. apply invertible_decoupled.
    + exact cofactor_inverse_spec.
    + pose proof (@standard_frames_invertible c Hc) as H. cbv zeta in H.
      intro H0. apply R1_neq_R0. exact (eq_trans (eq_sym H) H0).
Qed.

(** C1 at the quad "+" with alternating rotation signs, run with the
    exact library: ROLL, PITCH and YAW solve their systems, M * PD has
    determinant 1 and the columns decouple, as they do for the topology
    in the list of standard ones. *)
Lemma C1_alternating_quad_decoupled :
  det3 (mmul (M (quatosToolCalc exact_library alternating_quad))
          (PD (quatosToolCalc exact_library alternating_quad))) = 1%R
  /\ meq (mmul (M (quatosToolCalc exact_library alternating_quad))
            (attitude_columns (Mt (quatosToolCalc exact_library alternating_quad))))
       (Identity 3)
  /\ meq (mmul (M (quatosToolCalc exact_library (alternating_craft CONFIG_QUAD_PLUS)))
            (attitude_columns
               (Mt (quatosToolCalc exact_library (alternating_craft CONFIG_QUAD_PLUS)))))
       (Identity 3).
Proof.
  destruct alternating_quad_solved as (H1 & H2 & H3).
  pose proof (proj2 (proj2 (proj2 (proj2
                (proj1 C1_decoupling exact_library alternating_quad))))
                H1 H2 H3) as Hdet.
  split; [exact Hdet|]. split.
  - apply (proj1 (proj2 (proj2 (proj2
             (proj1 C1_decoupling exact_library alternating_quad))))).
    + exact cofactor_inverse_spec.
    + intro H0. apply R1_neq_R0. exact (eq_trans (eq_sym Hdet) H0).
  - exact (proj2 C1_decoupling CONFIG_QUAD_PLUS (or_introl eq_refl)).
Defined.


(** * The front end *)

(** ** C strings and lookups by name *)

Section CStrings.

Import Ascii String CString Spelling Names.
Local Open Scope Z_scope.

Lemma code_range : forall c : ascii, 0 <= code c < 256.
Proof.
  intro c. unfold code.
  pose proof (N_ascii_bounded c) as H. lia.
Qed.

Lemma tolower_zero : forall c, tolower c = 0 <-> c = 0.
Proof.
  intro c. unfold tolower.
  destruct (65 <=? c) eqn:H1, (c <=? 90) eqn:H2; cbn; lia.
Qed.

Lemma lower_cons :
  forall c r, code c <> 0 -> lower (String c r) = tolower (code c) :: lower r.
Proof.
  intros c r H. unfold lower. cbn [codes].
  destruct (Z.eqb_spec (code c) 0); [contradiction | reflexivity].
Qed.

Lemma lower_nul : forall c r, code c = 0 -> lower (String c r) = [].
Proof.
  intros c r H. unfold lower. cbn [codes]. rewrite H. reflexivity.
Qed.

Lemma lower_nonzero : forall s, ~ In 0 (lower s).
Proof.
  induction s as [|c r IH]; [intros []|].
  destruct (Z.eq_dec (code c) 0) as [H|H].
  - rewrite lower_nul by exact H. intros [].
  - rewrite lower_cons by exact H. intros [H0|H0]; [|exact (IH H0)].
    apply (proj1 (tolower_zero _)) in H0. contradiction.
Qed.

Lemma strlen_lower : forall s, strlen s = List.length (lower s).
Proof.
  unfold strlen, lower. intro s. rewrite length_map.
  induction s as [|c r IH]; [reflexivity|].
  cbn [text codes]. destruct (code c =? 0); [reflexivity|].
  cbn. rewrite IH. reflexivity.
Qed.

(** The head of a string and the rest, against its lowered codes. *)
Lemma head_tail_lower :
  forall s,
    (tolower (head s) = 0 /\ lower s = [])
    \/ (tolower (head s) <> 0
        /\ lower s = tolower (head s) :: lower (tail s)).
Proof.
  intros [|c r].
  - left. split; reflexivity.
  - cbn [head tail]. destruct (Z.eq_dec (code c) 0) as [H|H].
    + left. rewrite H. split; [reflexivity | apply lower_nul; exact H].
    + right. split; [rewrite tolower_zero; exact H | apply lower_cons; exact H].
Qed.

(** [strncasecmp] compares the first [n] characters of the two lowered,
    NUL-terminated strings. *)
Lemma strncasecmp_firstn :
  forall n s1 s2,
    strncasecmp s1 s2 n = 0
    <-> firstn n (lower s1 ++ [0]) = firstn n (lower s2 ++ [0]).
Proof.
  intro n. induction n as [|n IH]; intros s1 s2; [cbn; tauto|].
  cbn [strncasecmp].
  destruct (head_tail_lower s1) as [[H1 E1]|[H1 E1]],
           (head_tail_lower s2) as [[H2 E2]|[H2 E2]];
    rewrite E1, E2; cbn [app firstn].
  - rewrite H1, H2. cbn. split; [|reflexivity].
    intros _. destruct n; reflexivity.
  - rewrite H1. destruct (Z.eqb_spec 0 (tolower (head s2))) as [E|E];
      [congruence|].
    split; [lia|]. intro H. injection H as H _. congruence.
  - rewrite H2. destruct (Z.eqb_spec (tolower (head s1)) 0) as [E|E];
      [congruence|].
    split; [lia|]. intro H. injection H as H _. congruence.
  - destruct (Z.eqb_spec (tolower (head s1)) (tolower (head s2))) as [E|E].
    + destruct (Z.eqb_spec (tolower (head s1)) 0) as [E0|E0]; [congruence|].
      rewrite IH, E. split; [intros ->; reflexivity|].
      intro H. injection H as H. exact H.
    + split; [lia|]. intro H. injection H as H _. congruence.
Qed.

Lemma firstn_terminated_eq :
  forall (l1 l2 : list Z),
    ~ In 0 l1 -> ~ In 0 l2 ->
    (firstn (List.length l2 + 1) (l1 ++ [0]) = l2 ++ [0] <-> l1 = l2).
Proof.
  induction l1 as [|a l1 IH]; intros [|b l2] H1 H2; cbn.
  - tauto.
  - split; [|discriminate]. intro H.
    assert (0 = b) by congruence. exfalso. apply H2. left. auto.
  - split; [|discriminate]. intro H.
    assert (a = 0) by congruence. exfalso. apply H1. left. assumption.
  - assert (H1' : ~ In 0 l1) by (intro; apply H1; right; assumption).
    assert (H2' : ~ In 0 l2) by (intro; apply H2; right; assumption).
    split.
    + intro H. assert (Ha : a = b) by congruence.
      assert (Ht : firstn (List.length l2 + 1) (l1 ++ [0]) = l2 ++ [0])
        by congruence.
      f_equal; [exact Ha | apply (@IH l2 H1' H2'); exact Ht].
    + intro H. assert (Ha : a = b) by congruence.
      assert (Ht : l1 = l2) by congruence.
      f_equal; [exact Ha | apply (@IH l2 H1' H2'); exact Ht].
Qed.

(** With [strlen(entry) + 1] characters compared, the match is of the
    whole string. *)
Lemma strncasecmp_whole :
  forall s entry,
    strncasecmp s entry (strlen entry + 1) = 0 <-> lower s = lower entry.
Proof.
  intros s entry. rewrite strncasecmp_firstn, strlen_lower.
  rewrite (firstn_all2 (lower entry ++ [0]))
    by (rewrite length_app; cbn; lia).
  apply firstn_terminated_eq; apply lower_nonzero.
Qed.

Lemma firstn_prefix :
  forall (p l : list Z),
    ~ In 0 p ->
    (firstn (List.length p) (l ++ [0]) = p <-> starts_with l p).
Proof.
  induction p as [|a p IH]; intros l Hp.
  - cbn. split; [intros _; exists l; reflexivity | reflexivity].
  - assert (Hp' : ~ In 0 p) by (intro; apply Hp; right; assumption).
    destruct l as [|b l]; cbn.
    + split.
      * intro H. assert (0 = a) by congruence.
        exfalso. apply Hp. left. auto.
      * intros [rest H]. discriminate.
    + split.
      * intro H. assert (Hb : b = a) by congruence.
        assert (Ht : firstn (List.length p) (l ++ [0]) = p) by congruence.
        apply (@IH l Hp') in Ht. destruct Ht as [rest ->].
        exists rest. rewrite Hb. reflexivity.
      * intros [rest H]. cbn in H. assert (Hb : b = a) by congruence.
        assert (Ht : l = p ++ rest) by congruence.
        f_equal; [exact Hb|]. apply (@IH l Hp'). exists rest. exact Ht.
Qed.

(** With [strlen(name)] characters compared, the match is of an initial
    segment. *)
Lemma strncasecmp_prefix :
  forall name att,
    strncasecmp name att (strlen name) = 0
    <-> starts_with (lower att) (lower name).
Proof.
  intros name att. rewrite strncasecmp_firstn, strlen_lower.
  assert (E : firstn (List.length (lower name)) (lower name ++ [0]) = lower name).
  { induction (lower name) as [|a l IH]; cbn; congruence. }
  rewrite E.
  rewrite <- (@firstn_prefix (lower name) (lower att) (@lower_nonzero name)).
  split; intro H; symmetry; exact H.
Qed.

(** The loop over a table: the first entry that matches, or -1. *)
Lemma index_by_name_first :
  forall table name i0,
    0 <= i0 ->
    let r := index_by_name table name i0 in
    (r = -1 /\ forall e, In e table -> lower name <> lower e)
    \/ (exists k e,
          r = i0 + Z.of_nat k /\ nth_error table k = Some e
          /\ lower name = lower e
          /\ forall k' e', (k' < k)%nat -> nth_error table k' = Some e' ->
                           lower name <> lower e').
Proof.
  induction table as [|entry rest IH]; intros name i0 Hi0; cbn [index_by_name].
  - left. split; [reflexivity | intros e []].
  - destruct (Z.eqb_spec (strncasecmp name entry (strlen entry + 1)) 0) as [E|E].
    + right. exists 0%nat, entry. apply strncasecmp_whole in E.
      repeat split; [cbn; lia | exact E | intros k' e' Hk; lia].
    + assert (Hne : lower name <> lower entry).
      { intro H. apply E. apply strncasecmp_whole. exact H. }
      destruct (@IH name (i0 + 1) ltac:(lia)) as [[Hr Hall]|(k & e & Hr & Hk & He & Hfirst)].
      * left. split; [exact Hr|]. intros e [<-|He]; [exact Hne | apply Hall; exact He].
      * right. exists (S k), e. repeat split; [lia | exact Hk | exact He |].
        intros [|k'] e' Hlt Hk'; cbn in Hk'.
        -- injection Hk' as <-. exact Hne.
        -- apply (Hfirst k' e'); [lia | exact Hk'].
Qed.

(** In a table without two entries of the same lowered spelling, the
    index returned is the index of the entry spelled like the name. *)
Lemma index_by_name_spec :
  forall table name,
    NoDup (map lower table) ->
    (index_by_name table name 0 = -1
     <-> forall e, In e table -> lower name <> lower e)
    /\ (forall k e, nth_error table k = Some e ->
          (index_by_name table name 0 = Z.of_nat k <-> lower name = lower e)).
Proof.
  intros table name Hnd.
  pose proof (@index_by_name_first table name 0 ltac:(lia)) as H. cbv zeta in H.
  split.
  - split.
    + intro Hr. destruct H as [[_ Hall]|(k & e & Hk & _)]; [exact Hall | lia].
    + intro Hall. destruct H as [[Hr _]|(k & e & _ & Hk & He & _)]; [exact Hr|].
      exfalso. apply (Hall e); [eapply nth_error_In; exact Hk | exact He].
  - intros k e Hk. split.
    + intro Hr. destruct H as [[Hr' _]|(k' & e' & Hr' & Hk' & He' & _)]; [lia|].
      assert (k' = k) by lia. subst k'. congruence.
    + intro He. destruct H as [[_ Hall]|(k' & e' & Hr' & Hk' & He' & _)].
      * exfalso. apply (Hall e); [eapply nth_error_In; exact Hk | exact He].
      * assert (Hkk : k' = k).
        { assert (H1 : nth_error (map lower table) k' = Some (lower e'))
            by (rewrite nth_error_map, Hk'; reflexivity).
          assert (H2 : nth_error (map lower table) k = Some (lower e))
            by (rewrite nth_error_map, Hk; reflexivity).
          rewrite <- He', He in H1.
          apply (proj1 (NoDup_nth_error (map lower table)) Hnd k' k).
          - apply nth_error_Some. rewrite H1. discriminate.
          - rewrite H1, H2. reflexivity. }
        subst k'. lia.
Qed.

Lemma NoDup_configTypes : NoDup (map lower configTypes).
Proof.
  vm_compute.
  repeat (constructor; [cbn; intuition discriminate|]). constructor.
Qed.

Lemma NoDup_elementNames : NoDup (map lower elementNames).
Proof.
  vm_compute.
  repeat (constructor; [cbn; intuition discriminate|]). constructor.
Qed.

End CStrings.

Section Lookups.

Import Ascii String CString Spelling Names.
Local Open Scope Z_scope.

Lemma index_by_name_range :
  forall table name i0,
    0 <= i0 ->
    -1 <= index_by_name table name i0 < i0 + Z.of_nat (List.length table).
Proof.
  induction table as [|entry rest IH]; intros name i0 Hi0; cbn [index_by_name].
  - cbn. lia.
  - destruct (_ =? 0).
    + cbn [List.length]. lia.
    + specialize (@IH name (i0 + 1) ltac:(lia)). cbn [List.length]. lia.
Qed.

Lemma not_in_map_lower :
  forall table name,
    (forall e, In e table -> lower name <> lower e)
    <-> ~ In (lower name) (map lower table).
Proof.
  intros table name. rewrite in_map_iff. split.
  - intros H (e & He & Hin). apply (H e Hin). symmetry. exact He.
  - intros H e Hin He. apply H. exists e. split; [symmetry; exact He | exact Hin].
Qed.

(** X1.  [quatosToolConfigTypeByName] and [quatosToolElementIdByName]
    match the whole name, letter case apart: the result is the index of
    the table entry spelled like the name (the [strlen + 1] characters
    compared include the terminator, so an initial segment of an entry, or
    an entry followed by more characters, does not match), and -1 exactly
    when no entry is spelled like it.  The result is never outside
    -1 .. NUM-1. *)
Theorem X1_lookup_by_name :
  forall name : string,
    (-1 <= quatosToolConfigTypeByName name < CONFIG_NUM)
    /\ (forall k e, nth_error configTypes k = Some e ->
          (quatosToolConfigTypeByName name = Z.of_nat k <-> lower name = lower e))
    /\ (quatosToolConfigTypeByName name = -1
        <-> ~ In (lower name) (map lower configTypes))
    /\ (-1 <= quatosToolElementIdByName name < ELEMENT_NUM)
    /\ (forall k e, nth_error elementNames k = Some e ->
          (quatosToolElementIdByName name = Z.of_nat k <-> lower name = lower e))
    /\ (quatosToolElementIdByName name = -1
        <-> ~ In (lower name) (map lower elementNames)).
Proof.
  intro name.
  destruct (@index_by_name_spec configTypes name NoDup_configTypes) as [C1 C2].
  destruct (@index_by_name_spec elementNames name NoDup_elementNames) as [E1 E2].
  split; [exact (@index_by_name_range configTypes name 0 ltac:(lia))|].
  split; [exact C2|].
  split; [rewrite <- not_in_map_lower; exact C1|].
  split; [exact (@index_by_name_range elementNames name 0 ltac:(lia))|].
  split; [exact E2|].
  rewrite <- not_in_map_lower. exact E1.
Qed.

(** X2.  [quatosToolFindAttr] returns the value of the first attribute
    whose name begins with the name asked for, letter case apart (only
    [strlen(name)] characters are compared): an attribute named
    "configId" answers a request for "config" when it comes first.  The
    result is NULL exactly when no attribute name begins with the name. *)
Theorem X2_find_attr_first_prefix :
  forall (atts : list (string * string)) (name : string),
    (quatosToolFindAttr atts name = None
     <-> forall a v, In (a, v) atts -> ~ starts_with (lower a) (lower name))
    /\ (forall value,
          quatosToolFindAttr atts name = Some value
          <-> exists before a after,
                atts = before ++ (a, value) :: after
                /\ starts_with (lower a) (lower name)
                /\ forall b w, In (b, w) before ->
                               ~ starts_with (lower b) (lower name)).
Proof.
  intros atts name.
  induction atts as [|[a0 v0] rest [IHn IHs]]; cbn [quatosToolFindAttr].
  - split.
    + split; [intros _ a v [] | reflexivity].
    + intro value. split; [discriminate|].
      intros (before & a & after & H & _). destruct before; discriminate.
  - destruct (Z.eqb_spec (strncasecmp name a0 (strlen name)) 0) as [E|E].
    + apply strncasecmp_prefix in E. split.
      * split; [discriminate|]. intro H. exfalso.
        apply (H a0 v0); [left; reflexivity | exact E].
      * intro value. split.
        -- intro H. injection H as <-. exists [], a0, rest.
           repeat split; [exact E | intros b w []].
        -- intros (before & a & after & H & Ha & Hb).
           destruct before as [|[b w] before]; cbn in H.
           ++ congruence.
           ++ exfalso. injection H as Hb0 Hw0 _. subst b w.
              apply (Hb a0 v0); [left; reflexivity | exact E].
    + assert (E' : ~ starts_with (lower a0) (lower name)).
      { intro H. apply E. apply strncasecmp_prefix. exact H. }
      split.
      * rewrite IHn. split.
        -- intros H a v [Heq|Hin]; [injection Heq as <- <-; exact E' | apply (H a v Hin)].
        -- intros H a v Hin. apply (H a v). right. exact Hin.
      * intro value. rewrite IHs. split.
        -- intros (before & a & after & H & Ha & Hb).
           exists ((a0, v0) :: before), a, after.
           repeat split; [cbn; rewrite H; reflexivity | exact Ha |].
           intros b w [Heq|Hin]; [injection Heq as <- <-; exact E' | apply (Hb b w Hin)].
        -- intros (before & a & after & H & Ha & Hb).
           destruct before as [|[b w] before]; cbn in H.
           ++ injection H as -> _ _. contradiction.
           ++ injection H as _ _ H. exists before, a, after.
              repeat split; [exact H | exact Ha |].
              intros b' w' Hin. apply (Hb b' w'). right. exact Hin.
Qed.

End Lookups.

(** ** Ports and output lines *)

Section Ports.

Local Open Scope Z_scope.

Lemma find_port_from_spec :
  forall ports port i0,
    let j := find_port_from ports port i0 in
    (j = -1 /\ ~ In port ports)
    \/ (exists k, j = i0 + Z.of_nat k /\ (k < length ports)%nat
                  /\ nth k ports 0 = port
                  /\ forall k', (k' < k)%nat -> nth k' ports 0 <> port).
Proof.
  intro ports. induction ports as [|p rest IH]; intros port i0; cbn [find_port_from].
  - left. split; [reflexivity | intros []].
  - destruct (Z.eqb_spec p port) as [E|E].
    + right. exists 0%nat. cbn. repeat split; [lia | lia | exact E | intros k' Hk'; lia].
    + destruct (IH port (i0 + 1)) as [[Hj Hn]|(k & Hj & Hk & Hp & Hfirst)].
      * left. split; [exact Hj|]. intros [H|H]; [exact (E H) | exact (Hn H)].
      * right. exists (S k). cbn [length nth].
        repeat split; [lia | lia | exact Hp |].
        intros [|k'] Hk'; [exact E | apply Hfirst; lia].
Qed.

(** X3.  [quatosToolFindPort] returns -1 exactly when no motor is on the
    port, and otherwise the index of the first motor on it: a motor that
    shares its port with an earlier motor is never found. *)
Theorem X3_find_port_first :
  forall (ports : list Z) (port : Z),
    let j := quatosToolFindPort ports port in
    (j = -1 <-> ~ In port ports)
    /\ (j <> -1 ->
        0 <= j < Z.of_nat (length ports)
        /\ nth (Z.to_nat j) ports 0 = port
        /\ forall k, (k < Z.to_nat j)%nat -> nth k ports 0 <> port)
    /\ (forall k1 k2, (k1 < k2)%nat -> (k2 < length ports)%nat ->
          nth k1 ports 0 = nth k2 ports 0 ->
          forall p, quatosToolFindPort ports p <> Z.of_nat k2).
Proof.
  intros ports port j.
  assert (Hspec : forall p,
             let j := quatosToolFindPort ports p in
             (j = -1 /\ ~ In p ports)
             \/ (exists k, j = Z.of_nat k /\ (k < length ports)%nat
                           /\ nth k ports 0 = p
                           /\ forall k', (k' < k)%nat -> nth k' ports 0 <> p)).
  { intro p. pose proof (@find_port_from_spec ports p 0) as H. cbv zeta in H.
    unfold quatosToolFindPort.
    destruct H as [H|(k & Hj & H)]; [left; exact H|].
    right. exists k. split; [lia | exact H]. }
  split; [|split].
  - destruct (Hspec port) as [[Hj Hn]|(k & Hj & Hk & Hp & _)]; fold j in Hj.
    + tauto.
    + split; [lia|]. intro Hn. exfalso. apply Hn. rewrite <- Hp. apply nth_In. exact Hk.
  - intro Hne. destruct (Hspec port) as [[Hj _]|(k & Hj & Hk & Hp & Hfirst)];
      fold j in Hj; [contradiction|].
    rewrite Hj, Nat2Z.id. repeat split; [lia | lia | exact Hp | exact Hfirst].
  - intros k1 k2 Hlt Hk2 Heq p Hp.
    destruct (Hspec p) as [[Hj _]|(k & Hj & _ & Hpk & Hfirst)]; [lia|].
    assert (k = k2) by lia. subst k.
    apply (Hfirst k1 Hlt). rewrite Heq. exact Hpk.
Qed.

End Ports.

Section OutputLines.

Import Ascii String.
Local Open Scope string_scope.
Local Open Scope Z_scope.

Context {T : Type} {SC : Scalar T}.
Variable to_float : T -> T.

Lemma find_port_NoDup :
  forall (ports : list Z) (j : nat),
    NoDup ports -> (j < List.length ports)%nat ->
    quatosToolFindPort ports (nth j ports 0) = Z.of_nat j.
Proof.
  intros ports j Hnd Hj. unfold quatosToolFindPort.
  destruct (@find_port_from_spec ports (nth j ports 0) 0)
    as [[_ Hn]|(k & Hk & Hlen & Hp & _)].
  - exfalso. apply Hn. apply nth_In. exact Hj.
  - rewrite Hk.
    rewrite (proj1 (NoDup_nth ports 0) Hnd k j Hlen Hj Hp). lia.
Qed.

Lemma port_value_NoDup :
  forall (ports : list Z) (mtrx : matrix T) (by_row : bool) (k j : nat),
    NoDup ports -> (j < List.length ports)%nat ->
    Output.port_value to_float ports mtrx by_row k (nth j ports 0)
    = to_float (if by_row then coeff mtrx k j else coeff mtrx j k).
Proof.
  intros ports mtrx by_row k j Hnd Hj. unfold Output.port_value.
  rewrite (@find_port_NoDup ports j Hnd Hj).
  destruct (Z.leb_spec 0 (Z.of_nat j)) as [_|H]; [|lia].
  rewrite Nat2Z.id. reflexivity.
Qed.

Lemma in_port_numbers :
  forall p, 1 <= p <= NUM_PORTS -> In p Output.port_numbers.
Proof.
  intros p Hp. unfold Output.port_numbers. apply in_map_iff.
  exists (Z.to_nat p). split; [lia|]. apply in_seq. unfold NUM_PORTS in *. lia.
Qed.

Lemma nth_port_numbers :
  forall p, 1 <= p <= NUM_PORTS ->
    nth_error Output.port_numbers (Z.to_nat (p - 1)) = Some p.
Proof.
  intros p Hp. unfold Output.port_numbers, NUM_PORTS in *.
  rewrite nth_error_map.
  rewrite (nth_error_nth' _ 0%nat) by (rewrite length_seq; lia).
  rewrite seq_nth by lia. cbn [option_map]. f_equal. lia.
Qed.

Lemma flat_map_seq_split :
  forall (A : Type) (f : nat -> list A) (m ii : nat),
    (ii < m)%nat ->
    flat_map f (seq 0 m)
    = (flat_map f (seq 0 ii) ++ f ii ++ flat_map f (seq (S ii) (m - S ii)))%list.
Proof.
  intros A f m ii H.
  replace m with (ii + S (m - S ii))%nat at 1 by lia.
  rewrite seq_app, flat_map_app. cbn [seq flat_map Nat.add]. reflexivity.
Qed.

(** Every section of the .mix output is 18 lines: its name, the 16 ports
    and a blank line. *)
Lemma mix_sections_length :
  forall (round : T -> T) (ports : list Z) (mtrx : matrix T) (maxIdx ii : nat),
    (ii <= 4)%nat ->
    List.length (flat_map (Output.mix_section to_float round ports mtrx maxIdx)
                   (seq 0 ii))
    = (18 * ii)%nat.
Proof.
  intros round ports mtrx maxIdx ii. induction ii as [|ii IH]; intro H.
  - reflexivity.
  - rewrite seq_S, flat_map_app, length_app, IH by lia.
    cbn [flat_map Nat.add]. rewrite app_nil_r.
    unfold Output.mix_section. rewrite !length_app, length_map.
    change (List.length Output.port_numbers) with 16%nat.
    destruct ii as [|[|[|[|ii]]]]; cbn [Output.mix_header List.length]; lia.
Qed.

End OutputLines.

Section OutputByPort.

Import Ascii String.
Local Open Scope string_scope.

(** X4.  With the motors on distinct ports within 1 .. 16, the default
    output and the .mix output report every motor on the lines of its
    port: for an n x 4 table (Mt, PID) the lines T, R, P, Y of the port of
    motor j carry columns 0, 1, 2, 3 of row j, and for the 3 x n matrix M
    the lines R, P, Y carry rows 0, 1, 2 of column j.  The .mix output is
    a blank line followed by one section of 18 lines per control
    direction: the name of the direction, one line per port 1 .. 16 and a
    blank line; in the section of direction ii the line of the port of
    motor j carries the coefficient of motor j for that direction,
    rounded to four decimals in [float]. *)
Theorem X4_output_by_port :
  forall (T : Type) (SC : Scalar T) (to_float round : T -> T)
         (ports : list Z) (mtrxName : string) (mtrx : matrix T) (j : nat),
    NoDup ports ->
    (forall p, In p ports -> (1 <= p <= NUM_PORTS)%Z) ->
    (j < List.length ports)%nat ->
    (CString.strcmp mtrxName "J" <> 0)%Z ->
    let port := nth j ports 0%Z in
    let out := Output.quatosToolMatrixOutput to_float round false ports mtrxName mtrx in
    let mix := Output.quatosToolMatrixOutput to_float round true ports mtrxName mtrx in
    let line := Output.Motor in
    let is_M := (CString.strcmp mtrxName "M" =? 0)%Z in
    let maxIdx := if is_M then 3%nat else 4%nat in
    (if is_M then
       In (line "#define DEFAULT_QUATOS_MM_R" port "" (to_float (coeff mtrx 0 j))) out
       /\ In (line "#define DEFAULT_QUATOS_MM_P" port "" (to_float (coeff mtrx 1 j))) out
       /\ In (line "#define DEFAULT_QUATOS_MM_Y" port "" (to_float (coeff mtrx 2 j))) out
     else
       In (line "#define DEFAULT_MOT_PWRD_" port "_T" (to_float (coeff mtrx j 0))) out
       /\ In (line "#define DEFAULT_MOT_PWRD_" port "_R" (to_float (coeff mtrx j 1))) out
       /\ In (line "#define DEFAULT_MOT_PWRD_" port "_P" (to_float (coeff mtrx j 2))) out
       /\ In (line "#define DEFAULT_MOT_PWRD_" port "_Y" (to_float (coeff mtrx j 3))) out)
    /\ forall ii,
         (ii < maxIdx)%nat ->
         exists before motors after : list Output.line,
           mix = (before ++ Output.mix_header (T := T) maxIdx ii ++ motors
                  ++ Output.Text "" :: after)%list
           /\ List.length before = (1 + 18 * ii)%nat
           /\ List.length (Output.mix_header (T := T) maxIdx ii) = 1%nat
           /\ List.length motors = 16%nat
           /\ nth_error motors (Z.to_nat (port - 1))
              = Some (line "Motor" port ""
                        (to_float
                           (fdiv
                              (round
                                 (to_float
                                    (fmul
                                       (to_float (if is_M then coeff mtrx ii j
                                                  else coeff mtrx j ii))
                                       (fofZ 10000))))
                              (fofZ 10000)))).
Proof.
  intros T SC to_float round ports mtrxName mtrx j Hnd Hrange Hj HJ port out mix
    line is_M maxIdx.
  assert (Hp : (1 <= port <= NUM_PORTS)%Z).
  { apply Hrange. apply nth_In. exact Hj. }
  assert (Hport : In port Output.port_numbers).
  { apply in_port_numbers. exact Hp. }
  split.
  - subst out is_M. unfold Output.quatosToolMatrixOutput.
    destruct (Z.eqb_spec (CString.strcmp mtrxName "J") 0) as [E|_]; [contradiction|].
    destruct (CString.strcmp mtrxName "M" =? 0)%Z.
    + repeat split; right; cbn [app]; apply in_or_app; left; apply in_flat_map;
        exists port; (split; [exact Hport|]);
        unfold Output.define_lines; subst port;
        rewrite !(@port_value_NoDup T SC to_float ports mtrx true _ j Hnd Hj); cbn; auto.
    + repeat split; right; cbn [app]; apply in_or_app; left; apply in_flat_map;
        exists port; (split; [exact Hport|]);
        unfold Output.define_lines; subst port;
        rewrite !(@port_value_NoDup T SC to_float ports mtrx false _ j Hnd Hj); cbn; tauto.
  - intros ii Hii.
    assert (Hmix : mix = Output.Text "" ::
                         flat_map (Output.mix_section to_float round ports mtrx maxIdx)
                           (seq 0 maxIdx)).
    { subst mix maxIdx is_M. unfold Output.quatosToolMatrixOutput.
      destruct (Z.eqb_spec (CString.strcmp mtrxName "J") 0) as [E|_];
        [contradiction|].
      reflexivity. }
    assert (Hmax : (maxIdx <= 4)%nat) by (subst maxIdx; destruct is_M; lia).
    rewrite (@flat_map_seq_split _ _ maxIdx ii Hii) in Hmix.
    exists (Output.Text "" ::
            flat_map (Output.mix_section to_float round ports mtrx maxIdx) (seq 0 ii)).
    exists (map (fun i =>
                   Output.Motor "Motor" i ""
                     (Output.rounded to_float round
                        (Output.port_value to_float ports mtrx
                           (negb (Nat.eqb maxIdx 4)) ii i)))
              Output.port_numbers).
    exists (flat_map (Output.mix_section to_float round ports mtrx maxIdx)
              (seq (S ii) (maxIdx - S ii))).
    split; [|split; [|split; [|split]]].
    + rewrite Hmix. unfold Output.mix_section at 2.
      cbn [app]. rewrite <- !app_assoc. reflexivity.
    + cbn [List.length]. rewrite mix_sections_length by lia. reflexivity.
    + destruct ii as [|[|[|[|ii]]]]; [reflexivity | reflexivity | reflexivity
                                      | reflexivity | lia].
    + rewrite length_map. reflexivity.
    + rewrite nth_error_map, (@nth_port_numbers port Hp). cbn [option_map].
      subst port.
      rewrite (@port_value_NoDup T SC to_float ports mtrx _ ii j Hnd Hj).
      subst maxIdx. unfold Output.rounded, line.
      destruct is_M; reflexivity.
Qed.

End OutputByPort.

(** ** The XML handlers *)

(** Case analysis on every [match] and [if] of a hypothesis, innermost
    first. *)
Ltac break_in H :=
  repeat match type of H with
         | context [match ?x with _ => _ end] =>
             lazymatch x with
             | context [match _ with _ => _ end] => fail
             | _ => let E := fresh "E" in destruct x eqn:E; try discriminate H
             end
         end.

Ltac unfold_handlers H :=
  unfold Parser.handle, Parser.startElement, Parser.endElement,
    Parser.parseChar, Parser.start_switch, Parser.end_switch,
    Parser.parseCraft, Parser.parsePort, Parser.parseGeometryMotor,
    Parser.parseCube, Parser.resetCraft, Parser.with_text,
    Parser.value_text, Parser.set_cell, Parser.bind in H.

Section HandlerFacts.

Import Ascii String CString Names Parser Parser.context Documents.
Local Open Scope Z_scope.

Context {T : Type} {SC : Scalar T}.
Variable L : Libc (T := T).

Lemma bind_Ok :
  forall (A B : Type) (r : result A) (f : A -> result B) (b : B),
    bind r f = Ok b -> exists a, r = Ok a /\ f a = Ok b.
Proof.
  intros A B [a| |] f b H; cbn in H; try discriminate.
  exists a. split; [reflexivity | exact H].
Qed.

Lemma length_replace_nth :
  forall (A : Type) (a : list A) (k : nat) (v : A),
    List.length (replace_nth a k v) = List.length a.
Proof.
  induction a as [|x a IH]; intros [|k] v; cbn; auto.
Qed.

Lemma write_length :
  forall (A : Type) (a a' : list A) (i : Z) (v : A),
    write a i v = Some a' -> List.length a' = List.length a.
Proof.
  intros A a a' i v H. unfold write in H.
  destruct ((0 <=? i) && (i <? Z.of_nat (List.length a))); [|discriminate].
  injection H as <-. apply length_replace_nth.
Qed.

Lemma run_app :
  forall (ev1 ev2 : list event) (st : state (T := T)),
    run L (ev1 ++ ev2) st = bind (run L ev1 st) (run L ev2).
Proof.
  induction ev1 as [|e ev1 IH]; intros ev2 st; [reflexivity|].
  cbn [app run]. destruct (handle L st e); cbn [bind]; auto.
Qed.

(** No handler clears [quatosData.validCraft]. *)
Lemma handle_keeps_valid :
  forall (st st' : state (T := T)) (e : event),
    quatosData.validCraft (snd st) = 1 ->
    handle L st e = Ok st' ->
    quatosData.validCraft (snd st') = 1.
Proof.
  intros [c q] st' e Hv H.
  destruct e; unfold_handlers H; break_in H;
    injection H as <-; cbn; try reflexivity; exact Hv.
Qed.

(** With [context->validCraft] clear, only the start tag of a craft
    element changes the record. *)
Lemma handle_outside_craft :
  forall (st st' : state (T := T)) (e : event),
    validCraft (fst st) = 0 ->
    opens_craft e = false ->
    handle L st e = Ok st' ->
    snd st' = snd st /\ validCraft (fst st') = 0.
Proof.
  intros [c q] st' e Hv He H. cbn [fst snd] in *.
  destruct e; cbn [opens_craft] in He; unfold_handlers H; break_in H;
    cbn [validCraft with_level with_elementIds with_validCraft with_n
         with_value] in *;
    try (rewrite Hv in *; discriminate);
    try congruence;
    injection H as <-; cbn; split; try reflexivity; exact Hv.
Qed.

(** The element stack keeps its 16 entries and [level] stays below 16. *)
Lemma handle_level :
  forall (st st' : state (T := T)) (e : event),
    List.length (elementIds (fst st)) = 16%nat ->
    level (fst st) <= MAX_DEPTH - 1 ->
    handle L st e = Ok st' ->
    List.length (elementIds (fst st')) = 16%nat
    /\ level (fst st') <= MAX_DEPTH - 1.
Proof.
  intros [c q] st' e Hlen Hlev H. cbn [fst snd] in *. unfold MAX_DEPTH in *.
  destruct e; unfold_handlers H; break_in H;
    injection H as <-; cbn;
    repeat match goal with
           | W : write (elementIds c) _ _ = Some _ |- _ =>
               apply write_length in W
           | B : (_ && _) = true |- _ => apply andb_prop in B; destruct B
           | B : (_ <? _) = true |- _ => apply Z.ltb_lt in B
           end;
    unfold MAX_DEPTH in *; split; try congruence; try lia.
Qed.

End HandlerFacts.

Section HandlerTheorems.

Import Ascii String CString Names Parser Parser.context Documents.
Local Open Scope string_scope.
Local Open Scope Z_scope.

Context {T : Type} {SC : Scalar T}.
Variable L : Libc (T := T).

Lemma run_keeps_valid :
  forall (events : list event) (st st' : state (T := T)),
    quatosData.validCraft (snd st) = 1 ->
    run L events st = Ok st' ->
    quatosData.validCraft (snd st') = 1.
Proof.
  induction events as [|e events IH]; intros st st' Hv H; cbn [run] in H.
  - injection H as <-. exact Hv.
  - apply bind_Ok in H. destruct H as (st1 & H1 & H2).
    apply (IH st1 st'); [|exact H2].
    apply (@handle_keeps_valid T SC L st st1 e Hv H1).
Qed.

Lemma run_outside_craft :
  forall (events : list event) (st st' : state (T := T)),
    validCraft (fst st) = 0 ->
    forallb (fun e => negb (opens_craft e)) events = true ->
    run L events st = Ok st' ->
    snd st' = snd st /\ validCraft (fst st') = 0.
Proof.
  induction events as [|e events IH]; intros st st' Hv He H; cbn [run] in H.
  - injection H as <-. split; [reflexivity | exact Hv].
  - apply bind_Ok in H. destruct H as (st1 & H1 & H2).
    cbn [forallb] in He. apply andb_prop in He. destruct He as [He Hrest].
    apply negb_true_iff in He.
    destruct (@handle_outside_craft T SC L st st1 e Hv He H1) as [Hq Hv1].
    destruct (IH st1 st' Hv1 Hrest H2) as [Hq' Hv'].
    split; [congruence | exact Hv'].
Qed.

Lemma run_level :
  forall (events : list event) (st st' : state (T := T)),
    List.length (elementIds (fst st)) = 16%nat ->
    level (fst st) <= MAX_DEPTH - 1 ->
    run L events st = Ok st' ->
    List.length (elementIds (fst st')) = 16%nat
    /\ level (fst st') <= MAX_DEPTH - 1.
Proof.
  induction events as [|e events IH]; intros st st' Hlen Hlev H; cbn [run] in H.
  - injection H as <-. split; assumption.
  - apply bind_Ok in H. destruct H as (st1 & H1 & H2).
    destruct (@handle_level T SC L st st1 e Hlen Hlev H1) as [Hlen1 Hlev1].
    apply (IH st1 st' Hlen1 Hlev1 H2).
Qed.

Lemma append_empty : forall s : string, (s ++ "")%string = s.
Proof.
  induction s as [|x s IH]; cbn; [reflexivity | rewrite IH; reflexivity].
Qed.

Lemma append_shift :
  forall (s : string) (a : ascii) (r : string),
    ((s ++ String a "") ++ r)%string = (s ++ String a r)%string.
Proof.
  induction s as [|x s IH]; intros a r; cbn; [reflexivity | rewrite IH; reflexivity].
Qed.

Lemma length_append :
  forall s r : string,
    String.length (s ++ r) = (String.length s + String.length r)%nat.
Proof.
  induction s as [|x s IH]; intro r; cbn; [reflexivity | rewrite IH; reflexivity].
Qed.

(** Characters between tags only extend [value]. *)
Lemma run_chars :
  forall (s : string) (c : parseContext_t) (q : quatosData.fields T)
         (rest : list event),
    Z.of_nat (String.length (value c)) + Z.of_nat (String.length s) <= 256 ->
    run L (chars s ++ rest) (c, q)
    = run L rest (with_value c (value c ++ s), q).
Proof.
  induction s as [|a s IH]; intros c q rest Hlen.
  - cbn [chars list_ascii_of_string map app]. rewrite append_empty.
    destruct c; reflexivity.
  - cbn [chars list_ascii_of_string map app run handle parseChar].
    cbn [String.length] in Hlen.
    destruct (Z.leb_spec 256 (Z.of_nat (String.length (value c)))) as [H|H]; [lia|].
    cbn [bind]. fold (chars s).
    rewrite IH.
    + cbn [value with_value]. rewrite append_shift. destruct c; reflexivity.
    + cbn [value with_value]. rewrite length_append. cbn [String.length]. lia.
Qed.

Lemma run_chars_overflow :
  forall (s : string) (c : parseContext_t) (q : quatosData.fields T)
         (rest : list event),
    256 < Z.of_nat (String.length (value c)) + Z.of_nat (String.length s) ->
    Z.of_nat (String.length (value c)) <= 256 ->
    run L (chars s ++ rest) (c, q) = Undefined.
Proof.
  induction s as [|a s IH]; intros c q rest Hlen Hv.
  - cbn [String.length] in Hlen. lia.
  - cbn [chars list_ascii_of_string map app run handle parseChar].
    cbn [String.length] in Hlen.
    destruct (Z.leb_spec 256 (Z.of_nat (String.length (value c)))) as [H|H];
      [reflexivity|].
    cbn [bind]. fold (chars s).
    apply IH; cbn [value with_value]; rewrite length_append;
      cbn [String.length]; lia.
Qed.

End HandlerTheorems.

Section ElementStack.

Import Ascii String CString Names Parser Parser.context Documents.
Local Open Scope string_scope.
Local Open Scope Z_scope.

Context {T : Type} {SC : Scalar T}.
Variable L : Libc (T := T).

Lemma start_not_pushed :
  forall (st : state (T := T)) (name : string) (atts : list (string * string)),
    quatosToolElementIdByName name = -1 \/ MAX_DEPTH - 1 <= level (fst st) ->
    startElement L st name atts = Ok (with_value (fst st) "", snd st).
Proof.
  intros [c q] name atts H. unfold startElement. cbn [fst snd] in *.
  replace ((0 <=? quatosToolElementIdByName name) && (level c <? MAX_DEPTH - 1))
    with false; [reflexivity|].
  symmetry. apply andb_false_iff.
  destruct H as [H|H]; [left; rewrite H; reflexivity | right; apply Z.ltb_ge; exact H].
Qed.

Lemma start_clears_value :
  forall (st st' : state (T := T)) (name : string) (atts : list (string * string)),
    startElement L st name atts = Ok st' -> value (fst st') = "".
Proof.
  intros [c q] st' name atts H. unfold startElement in H.
  apply bind_Ok in H. destruct H as (st1 & _ & H). injection H as <-. reflexivity.
Qed.

(** X5.  An element whose name is not in [elementNames] (or that is nested
    16 deep) is not pushed on the element stack, but its end tag pops the
    stack all the same: the handlers treat it as the end tag of the
    element that encloses it.  Directly inside a craft element this clears
    [context->validCraft], so that the rest of the craft is skipped. *)
Theorem X5_unknown_element_closes_parent :
  forall (st : state (T := T)) (name : string) (atts : list (string * string))
         (text : string) (rest : list event),
    quatosToolElementIdByName name = -1 \/ MAX_DEPTH - 1 <= level (fst st) ->
    (forall other : string,
       run L (StartElement name atts :: chars text ++ EndElement name :: rest) st
       = run L (chars text ++ EndElement other :: rest)
           (with_value (fst st) "", snd st))
    /\ (read (elementIds (fst st)) (level (fst st)) = Some ELEMENT_CRAFT ->
        run L [StartElement name atts; EndElement name] st
        = Ok (with_level (with_validCraft (with_value (fst st) "") 0)
                (level (fst st) - 1),
              snd st)).
Proof.
  intros st name atts text rest H. split.
  - intro other. cbn [run handle]. rewrite (@start_not_pushed st name atts H).
    cbn [bind]. rewrite !run_app. f_equal.
  - intro Hread. cbn [run handle]. rewrite (@start_not_pushed st name atts H).
    cbn [bind]. destruct st as [c q]. cbn [fst snd] in *.
    unfold endElement. cbn [elementIds level with_value]. rewrite Hread.
    reflexivity.
Qed.

(** X6.  The element stack: [level] never exceeds 15, so [startElement]
    never writes past the 16 entries of [elementIds]; but nothing keeps
    [level] from going below 0.  An end tag met with [level] below 0 reads
    [elementIds[-1]], and two elements of unknown name directly inside the
    root element are enough to get there at the end tag of the root. *)
Theorem X6_element_stack_bounds :
  (forall (craft_id : string) (events : list event) (st : state (T := T)),
     run L events (initial craft_id) = Ok st ->
     List.length (elementIds (fst st)) = Z.to_nat MAX_DEPTH
     /\ level (fst st) <= MAX_DEPTH - 1)
  /\ (forall (st : state (T := T)) (name : string),
        level (fst st) < 0 -> endElement L st name = Undefined)
  /\ (forall (craft_id u1 u2 : string) (a0 a1 a2 : list (string * string)),
        quatosToolElementIdByName u1 = -1 ->
        quatosToolElementIdByName u2 = -1 ->
        run L [ StartElement "quatos_configuration" a0;
                StartElement u1 a1; EndElement u1;
                StartElement u2 a2; EndElement u2;
                EndElement "quatos_configuration" ] (initial craft_id)
        = Undefined).
Proof.
  split; [|split].
  - intros craft_id events st H.
    apply (@run_level T SC L events (initial craft_id) st); [reflexivity | | exact H].
    cbn. unfold MAX_DEPTH. lia.
  - intros [c q] name H. unfold endElement, read. cbn [fst] in H.
    destruct (Z.leb_spec 0 (level c)) as [H0|H0]; [lia | reflexivity].
  - intros craft_id u1 u2 a0 a1 a2 H1 H2.
    cbn [run handle].
    change (startElement L (initial craft_id) "quatos_configuration" a0)
      with (Ok (A := state (T := T))
              (mk_context (replace_nth (repeat 0 16) 1 0) 1 0 0 "",
               snd (initial (T := T) craft_id))).
    cbn [bind].
    rewrite (@start_not_pushed _ u1 a1 (or_introl H1)).
    cbv -[startElement endElement]. unfold endElement at 1.
    cbv -[startElement endElement].
    rewrite (@start_not_pushed _ u2 a2 (or_introl H2)).
    reflexivity.
Qed.

(** X7.  [quatosData.validCraft], which [main] tests, is set by the start
    tag of an accepted craft element and by nothing else, and no handler
    clears it: closing the craft element clears [context->validCraft]
    only.  While [context->validCraft] is clear, every event other than
    the start tag of a craft element leaves the record as it is; so a
    document without a craft element ends the run with -1. *)
Theorem X7_validity :
  (forall (events : list event) (st st' : state (T := T)),
     quatosData.validCraft (snd st) = 1 ->
     run L events st = Ok st' ->
     quatosData.validCraft (snd st') = 1)
  /\ (forall (events : list event) (st st' : state (T := T)),
        validCraft (fst st) = 0 ->
        forallb (fun e => negb (opens_craft e)) events = true ->
        run L events st = Ok st' ->
        snd st' = snd st /\ validCraft (fst st') = 0)
  /\ (forall (E : Extern T) (craft_id : string) (events : list event)
             (st' : state (T := T)),
        forallb (fun e => negb (opens_craft e)) events = true ->
        run L events (initial craft_id) = Ok st' ->
        Tool.quatosTool E L craft_id events true = Tool.Returned (-1) None).
Proof.
  split; [exact (@run_keeps_valid T SC L)|].
  split; [exact (@run_outside_craft T SC L)|].
  intros E craft_id events st' He H.
  destruct (@run_outside_craft T SC L events (initial craft_id) st' eq_refl He H)
    as [Hq _].
  unfold Tool.quatosTool, quatosToolReadXML. rewrite H. cbn [bind].
  destruct st' as [c q]. cbn [snd] in Hq. rewrite Hq. reflexivity.
Qed.

(** X8.  The default handler stores one character per call with no test
    on [valueLen]: the 257th character after a start tag is written
    outside the 256 bytes of [value].  Up to 256 characters the buffer
    holds exactly the text since the last start tag. *)
Theorem X8_value_buffer :
  forall (st st1 : state (T := T)) (name : string)
         (atts : list (string * string)) (text : string) (rest : list event),
    startElement L st name atts = Ok st1 ->
    (256 < Z.of_nat (String.length text) ->
     run L (StartElement name atts :: chars text ++ rest) st = Undefined)
    /\ (Z.of_nat (String.length text) <= 256 ->
        run L (StartElement name atts :: chars text ++ rest) st
        = run L rest (with_value (fst st1) text, snd st1)).
Proof.
  intros st st1 name atts text rest H.
  pose proof (@start_clears_value st st1 name atts H) as Hv.
  destruct st1 as [c1 q1]. cbn [fst snd] in *.
  split; intro Hlen; cbn [run handle]; rewrite H; cbn [bind].
  - apply run_chars_overflow; cbn [value]; rewrite Hv; cbn [String.length]; lia.
  - rewrite run_chars by (cbn [value]; rewrite Hv; cbn [String.length]; lia).
    rewrite Hv. reflexivity.
Qed.

End ElementStack.

Section CraftElement.

Import Ascii String CString Names Parser Parser.context Documents.
Local Open Scope string_scope.
Local Open Scope Z_scope.

Context {T : Type} {SC : Scalar T}.
Variable L : Libc (T := T).

(** X9.  The handlers call [exit] in one case only, with status 1: at the
    start tag of a craft element whose config attribute names the custom
    type and whose motors attribute is missing or converts to 0. *)
Theorem X9_exit_only_for_custom_without_motors :
  forall (st : state (T := T)) (e : event) (s : Z),
    handle L st e = Exit s ->
    s = 1
    /\ exists name atts config,
         e = StartElement name atts
         /\ quatosToolElementIdByName name = ELEMENT_CRAFT
         /\ quatosToolFindAttr atts "config" = Some config
         /\ quatosToolConfigTypeByName config = config_value CONFIG_CUSTOM
         /\ (quatosToolFindAttr atts "motors" = None
             \/ exists motors,
                  quatosToolFindAttr atts "motors" = Some motors
                  /\ atoi L motors = 0).
Proof.
  intros [c q] e s H.
  destruct e; unfold_handlers H; break_in H; injection H as <-;
    (split; [reflexivity|]);
    exists name, atts;
    cbn [quatosData.craftType quatosData.set_craftType quatosData.set_craftId] in *;
    repeat match goal with
           | B : (_ =? _) = true |- _ => apply Z.eqb_eq in B
           end;
    eexists; repeat split; try eassumption; try reflexivity;
    try (left; assumption);
    try (right; eexists; split; eassumption).
Qed.

Lemma find_id_first :
  forall (id : string) (rest : list (string * string)),
    quatosToolFindAttr (("id", id) :: rest) "id" = Some id.
Proof. reflexivity. Qed.

(** X10.  The order of the attributes of a craft element matters: the
    request for "config" is answered by an attribute named "configId" that
    comes before it.  With [configId] first the type is looked up under
    the value of [configId] and, that value naming no type, the craft is
    not accepted whatever its config attribute says; with [config] first
    the same element is accepted. *)
Theorem X10_configId_before_config :
  forall (c : parseContext_t) (q : quatosData.fields T) (id v t : string)
         (type : config),
    head (quatosData.craftId q) = 0 ->
    Z.of_nat (strlen id) < 256 ->
    quatosToolConfigTypeByName v = -1 ->
    quatosToolConfigTypeByName t = config_value type ->
    type <> CONFIG_CUSTOM ->
    parseCraft L c q [("id", id); ("configId", v); ("config", t)]
    = Ok (c, quatosData.set_craftType (quatosData.set_craftId q (text id)) (-1))
    /\ parseCraft L c q [("id", id); ("config", t); ("configId", v)]
       = resetCraft (with_validCraft c 1)
           (quatosData.set_configId
              (quatosData.set_craftType (quatosData.set_craftId q (text id))
                 (config_value type))
              (atoi L v)).
Proof.
  intros c q id v t type Hid Hlen Hv Ht Hty.
  assert (Hsel : (head (quatosData.craftId q) =? 0)
                 || (strcmp id (quatosData.craftId q) =? 0) = true)
    by (rewrite Hid; reflexivity).
  assert (Hlen' : (256 <=? Z.of_nat (strlen id)) = false) by (apply Z.leb_gt; exact Hlen).
  split.
  - unfold parseCraft. rewrite find_id_first, Hsel, Hlen'.
    change (quatosToolFindAttr [("id", id); ("configId", v); ("config", t)] "config")
      with (Some v).
    cbn [quatosData.craftType quatosData.set_craftType]. rewrite Hv.
    reflexivity.
  - unfold parseCraft. rewrite find_id_first, Hsel, Hlen'.
    change (quatosToolFindAttr [("id", id); ("config", t); ("configId", v)] "config")
      with (Some t).
    change (quatosToolFindAttr [("id", id); ("config", t); ("configId", v)] "configId")
      with (Some v).
    cbn [quatosData.craftType quatosData.set_craftType]. rewrite Ht.
    destruct type; try contradiction; reflexivity.
Qed.

End CraftElement.

(** ** Documents *)

Section PortElements.

Import Ascii String CString Names Parser Parser.context Documents.
Local Open Scope string_scope.
Local Open Scope Z_scope.

Context {T : Type} {SC : Scalar T}.
Variable L : Libc (T := T).

Lemma replace_nth_overwrite :
  forall (A : Type) (l : list A) (k : nat) (v : A),
    (k < List.length l)%nat -> replace_nth l k v = overwrite l k [v].
Proof.
  unfold overwrite.
  induction l as [|x l IH]; intros k v Hk; cbn in Hk; [lia|].
  destruct k as [|k]; cbn.
  - reflexivity.
  - rewrite IH by lia. cbn. reflexivity.
Qed.

Lemma length_overwrite :
  forall (A : Type) (l : list A) (k : nat) (vs : list A),
    (k + List.length vs <= List.length l)%nat ->
    List.length (overwrite l k vs) = List.length l.
Proof.
  intros A l k vs H. unfold overwrite.
  rewrite !length_app, length_firstn, length_skipn. lia.
Qed.

Lemma overwrite_overwrite :
  forall (A : Type) (l : list A) (k : nat) (v : A) (vs : list A),
    (k + 1 + List.length vs <= List.length l)%nat ->
    overwrite (overwrite l k [v]) (k + 1) vs = overwrite l k (v :: vs).
Proof.
  intros A l k v vs H. unfold overwrite. cbn [List.length app].
  assert (Hk : List.length (firstn k l) = k) by (rewrite length_firstn; lia).
  rewrite firstn_app, Hk.
  replace (k + 1 - k)%nat with 1%nat by lia.
  rewrite firstn_all2 by (rewrite length_firstn; lia).
  cbn [firstn]. rewrite <- app_assoc. cbn [app]. f_equal. f_equal. f_equal.
  rewrite skipn_app, Hk.
  rewrite skipn_all2 by (rewrite length_firstn; lia).
  replace (k + 1 + List.length vs - k)%nat with (S (List.length vs)) by lia.
  cbn [skipn app]. rewrite skipn_skipn. f_equal. lia.
Qed.

Lemma write_overwrite :
  forall (A : Type) (l : list A) (i : Z) (v : A),
    0 <= i < Z.of_nat (List.length l) ->
    write l i v = Some (overwrite l (Z.to_nat i) [v]).
Proof.
  intros A l i v Hi. unfold write.
  destruct (Z.leb_spec 0 i); [|lia].
  destruct (Z.ltb_spec i (Z.of_nat (List.length l))); [|lia].
  cbn [andb]. rewrite replace_nth_overwrite by lia. reflexivity.
Qed.

Lemma write_outside :
  forall (A : Type) (l : list A) (i : Z) (v : A),
    Z.of_nat (List.length l) <= i -> write l i v = None.
Proof.
  intros A l i v Hi. unfold write.
  destruct (Z.ltb_spec i (Z.of_nat (List.length l))); [lia|].
  rewrite andb_false_r. reflexivity.
Qed.

Lemma read_replace_other :
  forall (A : Type) (l : list A) (k : nat) (v : A) (i : Z),
    Z.to_nat i <> k ->
    read (replace_nth l k v) i = read l i.
Proof.
  intros A l k v i Hne. unfold read. rewrite length_replace_nth.
  destruct ((0 <=? i) && (i <? Z.of_nat (List.length l))); [|reflexivity].
  revert k Hne. generalize (Z.to_nat i) as m.
  induction l as [|x l IH]; intros m k Hne; destruct k, m; cbn; auto; try lia.
Qed.

Lemma read_replace_same :
  forall (A : Type) (l : list A) (v : A) (i : Z),
    0 <= i < Z.of_nat (List.length l) ->
    read (replace_nth l (Z.to_nat i) v) i = Some v.
Proof.
  intros A l v i Hi. unfold read. rewrite length_replace_nth.
  destruct (Z.leb_spec 0 i); [|lia].
  destruct (Z.ltb_spec i (Z.of_nat (List.length l))); [|lia].
  cbn [andb].
  assert (Hm : (Z.to_nat i < List.length l)%nat) by lia.
  revert Hm. generalize (Z.to_nat i) as m. clear.
  induction l as [|x l IH]; intros m Hm; cbn in Hm; [lia|].
  destruct m; cbn; [reflexivity | apply IH; lia].
Qed.

(** What one [port] element does inside an accepted craft, with room left
    in the port table. *)
Lemma run_port_element :
  forall (gap : string) (p : string * string) (c : parseContext_t)
         (q : quatosData.fields T) (rest : list event),
    validCraft c <> 0 ->
    List.length (elementIds c) = 16%nat ->
    0 <= level c < 15 ->
    0 <= n c < Z.of_nat (List.length (quatosData.ports q)) ->
    List.length (quatosData.propDir q) = List.length (quatosData.ports q) ->
    Z.of_nat (String.length (snd p)) + Z.of_nat (String.length gap) <= 256 ->
    Z.of_nat (String.length (snd p)) < 256 ->
    run L (port_element gap p ++ rest) (c, q)
    = run L rest
        (mk_context (replace_nth (elementIds c) (Z.to_nat (level c + 1)) ELEMENT_PORT)
           (level c) (validCraft c) (n c + 1) (snd p ++ gap),
         quatosData.set_ports
           (quatosData.set_propDir q
              (overwrite (quatosData.propDir q) (Z.to_nat (n c)) [atoi L (fst p)]))
           (overwrite (quatosData.ports q) (Z.to_nat (n c))
              [atoi L (text (snd p))])).
Proof.
  intros gap [rot txt] c q rest Hv Hlen Hlev Hn Hpd Htxt Htxt'.
  cbn [fst snd] in *.
  unfold port_element. cbn [fst snd]. rewrite <- !app_assoc.
  cbn [app run handle].
  (* the start tag *)
  unfold startElement.
  change (quatosToolElementIdByName "port") with ELEMENT_PORT.
  replace ((0 <=? ELEMENT_PORT) && (level c <? MAX_DEPTH - 1)) with true
    by (symmetry; apply andb_true_iff; split;
        [reflexivity | apply Z.ltb_lt; unfold MAX_DEPTH; lia]).
  unfold write at 1.
  replace ((0 <=? level c + 1) && (level c + 1 <? Z.of_nat (List.length (elementIds c))))
    with true
    by (symmetry; apply andb_true_iff; split;
        [apply Z.leb_le; lia | apply Z.ltb_lt; rewrite Hlen; lia]).
  unfold start_switch.
  change (ELEMENT_PORT =? ELEMENT_QUATOS_CONFIGURATION) with false.
  change (ELEMENT_PORT =? ELEMENT_CRAFT) with false.
  change ((ELEMENT_PORT =? ELEMENT_PORTS) || (ELEMENT_PORT =? ELEMENT_GEOMETRY)
          || (ELEMENT_PORT =? ELEMENT_DISTANCE) || (ELEMENT_PORT =? ELEMENT_MASS))
    with false.
  change (ELEMENT_PORT =? ELEMENT_PORT) with true.
  cbv iota. cbn [validCraft with_level with_elementIds].
  destruct (Z.eqb_spec (validCraft c) 0) as [E|_]; [contradiction|].
  unfold parsePort.
  change (quatosToolFindAttr [("rotation", rot)] "rotation") with (Some rot).
  cbn [n with_level with_elementIds].
  rewrite write_overwrite by lia.
  cbn [bind fst snd].
  (* the text *)
  rewrite run_chars by (cbn [value with_value]; cbn [String.length]; lia).
  cbn [value with_value append].
  (* the end tag *)
  cbn [run handle]. unfold endElement.
  cbn [elementIds level with_value with_level with_elementIds].
  rewrite read_replace_same by lia.
  unfold end_switch.
  change (ELEMENT_PORT =? ELEMENT_CRAFT) with false.
  change (ELEMENT_PORT =? ELEMENT_PORT) with true.
  cbv iota. cbn [validCraft with_value with_level with_elementIds].
  destruct (Z.eqb_spec (validCraft c) 0) as [E|_]; [contradiction|].
  unfold with_text, value_text. cbn [value with_value with_level with_elementIds].
  destruct (Z.ltb_spec (Z.of_nat (String.length txt)) 256) as [_|E]; [|lia].
  cbn [n with_value with_level with_elementIds quatosData.ports
         quatosData.set_propDir].
  rewrite write_overwrite by lia.
  cbn [bind fst snd level with_n with_level with_value with_elementIds].
  (* the gap *)
  rewrite run_chars
    by (cbn [value with_value with_level with_n with_elementIds]; lia).
  f_equal. f_equal.
  unfold with_value, with_level, with_n, with_elementIds. cbn.
  f_equal. lia.
Qed.

Lemma run_port_overflow :
  forall (gap : string) (p : string * string) (c : parseContext_t)
         (q : quatosData.fields T) (rest : list event),
    validCraft c <> 0 ->
    List.length (elementIds c) = 16%nat ->
    0 <= level c < 15 ->
    Z.of_nat (List.length (quatosData.propDir q)) <= n c ->
    run L (port_element gap p ++ rest) (c, q) = Undefined.
Proof.
  intros gap [rot txt] c q rest Hv Hlen Hlev Hn.
  unfold port_element. cbn [fst snd]. rewrite <- !app_assoc.
  cbn [app run handle].
  unfold startElement.
  change (quatosToolElementIdByName "port") with ELEMENT_PORT.
  replace ((0 <=? ELEMENT_PORT) && (level c <? MAX_DEPTH - 1)) with true
    by (symmetry; apply andb_true_iff; split;
        [reflexivity | apply Z.ltb_lt; unfold MAX_DEPTH; lia]).
  unfold write at 1.
  replace ((0 <=? level c + 1) && (level c + 1 <? Z.of_nat (List.length (elementIds c))))
    with true
    by (symmetry; apply andb_true_iff; split;
        [apply Z.leb_le; lia | apply Z.ltb_lt; rewrite Hlen; lia]).
  unfold start_switch.
  change (ELEMENT_PORT =? ELEMENT_QUATOS_CONFIGURATION) with false.
  change (ELEMENT_PORT =? ELEMENT_CRAFT) with false.
  change ((ELEMENT_PORT =? ELEMENT_PORTS) || (ELEMENT_PORT =? ELEMENT_GEOMETRY)
          || (ELEMENT_PORT =? ELEMENT_DISTANCE) || (ELEMENT_PORT =? ELEMENT_MASS))
    with false.
  change (ELEMENT_PORT =? ELEMENT_PORT) with true.
  cbv iota. cbn [validCraft with_level with_elementIds].
  destruct (Z.eqb_spec (validCraft c) 0) as [E|_]; [contradiction|].
  unfold parsePort.
  change (quatosToolFindAttr [("rotation", rot)] "rotation") with (Some rot).
  cbn [n with_level with_elementIds].
  rewrite write_outside by lia.
  reflexivity.
Qed.

Lemma overwrite_nil :
  forall (A : Type) (l : list A) (k : nat), overwrite l k [] = l.
Proof.
  intros A l k. unfold overwrite. cbn [List.length app].
  rewrite Nat.add_0_r. apply firstn_skipn.
Qed.

(** The [port] elements of an accepted craft, as long as the port table
    has room: port [k] and rotation [k] are the numbers [atoi] reads in
    the text and in the rotation attribute of the k-th element. *)
Lemma run_port_elements :
  forall (gap : string) (ps : list (string * string)) (c : parseContext_t)
         (q : quatosData.fields T) (rest : list event) (bound : Z),
    validCraft c <> 0 ->
    List.length (elementIds c) = 16%nat ->
    0 <= level c < 15 ->
    0 <= n c ->
    n c + Z.of_nat (List.length ps) <= Z.of_nat (List.length (quatosData.ports q)) ->
    List.length (quatosData.propDir q) = List.length (quatosData.ports q) ->
    Z.of_nat (String.length (value c)) <= bound ->
    bound <= 256 ->
    (forall p, In p ps ->
       Z.of_nat (String.length (snd p)) + Z.of_nat (String.length gap) <= bound
       /\ Z.of_nat (String.length (snd p)) < 256) ->
    exists c',
      run L (flat_map (port_element gap) ps ++ rest) (c, q)
      = run L rest
          (c',
           quatosData.set_ports
             (quatosData.set_propDir q
                (overwrite (quatosData.propDir q) (Z.to_nat (n c))
                   (map (fun p => atoi L (fst p)) ps)))
             (overwrite (quatosData.ports q) (Z.to_nat (n c))
                (map (fun p => atoi L (text (snd p))) ps)))
      /\ level c' = level c
      /\ validCraft c' = validCraft c
      /\ n c' = n c + Z.of_nat (List.length ps)
      /\ List.length (elementIds c') = 16%nat
      /\ (forall i, i <> level c + 1 ->
            read (elementIds c') i = read (elementIds c) i)
      /\ Z.of_nat (String.length (value c')) <= bound.
Proof.
  intros gap ps. induction ps as [|p ps IH];
    intros c q rest bound Hv Hlen Hlev Hn0 Hn Hpd Hval Hb Hps.
  - exists c. cbn [flat_map app map]. rewrite !overwrite_nil.
    split; [destruct q; reflexivity|].
    cbn [List.length]. repeat split; auto; lia.
  - cbn [flat_map]. rewrite <- app_assoc.
    cbn [List.length] in Hn.
    destruct (Hps p (or_introl eq_refl)) as [Hp1 Hp2].
    rewrite run_port_element; try assumption; try lia.
    set (c1 := mk_context _ _ _ _ _).
    set (q1 := quatosData.set_ports _ _).
    assert (Hports1 : List.length (quatosData.ports q1) = List.length (quatosData.ports q)).
    { subst q1. cbn [quatosData.ports quatosData.set_ports].
      apply length_overwrite. cbn [List.length]. lia. }
    assert (Hpd1 : List.length (quatosData.propDir q1) = List.length (quatosData.ports q1)).
    { rewrite Hports1. subst q1.
      cbn [quatosData.propDir quatosData.set_ports quatosData.set_propDir].
      rewrite length_overwrite; [exact Hpd | cbn [List.length]; lia]. }
    destruct (IH c1 q1 rest bound) as (c' & Hrun & Hl & Hvc & Hnc & Hlen' & Hread & Hval');
      subst c1; cbn [validCraft elementIds level n value]; try assumption; try lia.
    + rewrite length_replace_nth. exact Hlen.
    + rewrite length_append. lia.
    + intros p' Hp'. apply Hps. right. exact Hp'.
    + exists c'. split.
      * rewrite Hrun. f_equal. f_equal.
        subst q1.
        cbn [quatosData.ports quatosData.propDir quatosData.set_ports
               quatosData.set_propDir n].
        replace (Z.to_nat (n c + 1)) with (Z.to_nat (n c) + 1)%nat by lia.
        rewrite !overwrite_overwrite by (rewrite ?length_map; lia).
        destruct q; reflexivity.
      * cbn [validCraft elementIds level n value] in *.
        repeat split; try assumption; try lia.
        -- cbn [List.length]. lia.
        -- intros i Hi. rewrite Hread by exact Hi.
           apply read_replace_other. lia.
Qed.

End PortElements.

Section StandardDocuments.

Import Ascii String CString Names Parser Parser.context Documents.
Local Open Scope string_scope.
Local Open Scope Z_scope.

Context {T : Type} {SC : Scalar T}.
Variable E : Extern T.
Variable L : Libc (T := T).

Lemma run_document_head :
  forall (gap id cfg craft_id : string) (type : config) (rest : list event),
    type <> CONFIG_CUSTOM ->
    quatosToolConfigTypeByName cfg = config_value type ->
    head craft_id = 0 \/ strcmp id craft_id = 0 ->
    Z.of_nat (strlen id) < 256 ->
    Z.of_nat (String.length gap) <= 256 ->
    run L ([StartElement "quatos_configuration" []] ++ chars gap
           ++ [StartElement "craft" [("id", id); ("config", cfg)]] ++ chars gap
           ++ [StartElement "ports" []] ++ chars gap ++ rest)
      (initial craft_id)
    = run L rest (at_ports gap id type).
Proof.
  intros gap id cfg craft_id type rest Hty Hcfg Hsel Hid Hgap.
  cbn [app run handle].
  change (startElement L (initial craft_id) "quatos_configuration" [])
    with (Ok (A := state (T := T))
            (mk_context (replace_nth (repeat 0 16) 1 0) 1 0 0 "",
             snd (initial (T := T) craft_id))).
  cbn [bind].
  rewrite run_chars by (cbn [value String.length]; lia).
  unfold with_value; cbn [value elementIds level validCraft n append app run handle].
  (* the craft element *)
  assert (Hsel' : (head craft_id =? 0) || (strcmp id craft_id =? 0) = true).
  { apply orb_true_iff. destruct Hsel as [H|H]; [left | right]; rewrite H; reflexivity. }
  assert (Hid' : (256 <=? Z.of_nat (strlen id)) = false) by (apply Z.leb_gt; exact Hid).
  assert (Hcraft :
    startElement L
      (mk_context (replace_nth (repeat 0 16) 1 0) 1 0 0 gap,
       snd (initial (T := T) craft_id))
      "craft" [("id", id); ("config", cfg)]
    = Ok (mk_context [0; 0; 1; 0; 0; 0; 0; 0; 0; 0; 0; 0; 0; 0; 0; 0] 2 1 0 "",
          snd (at_ports gap id type))).
  { unfold startElement.
    change (quatosToolElementIdByName "craft") with ELEMENT_CRAFT.
    cbn [level elementIds].
    change ((0 <=? ELEMENT_CRAFT) && (1 <? MAX_DEPTH - 1)) with true.
    cbv iota.
    change (write (replace_nth (repeat 0 16) 1 0) (1 + 1) ELEMENT_CRAFT)
      with (Some [0; 0; 1; 0; 0; 0; 0; 0; 0; 0; 0; 0; 0; 0; 0; 0]).
    cbv iota. unfold start_switch.
    change (ELEMENT_CRAFT =? ELEMENT_QUATOS_CONFIGURATION) with false.
    change (ELEMENT_CRAFT =? ELEMENT_CRAFT) with true.
    cbv iota. unfold parseCraft.
    change (quatosToolFindAttr [("id", id); ("config", cfg)] "id") with (Some id).
    change (quatosToolFindAttr [("id", id); ("config", cfg)] "config")
      with (Some cfg).
    change (quatosToolFindAttr [("id", id); ("config", cfg)] "configId")
      with (@None string).
    cbn [initial snd quatosData.craftId quatosData.set_craftId
           quatosData.craftType quatosData.set_craftType].
    rewrite Hsel', Hid', Hcfg.
    destruct type; try contradiction; reflexivity. }
  rewrite Hcraft. cbn [bind].
  rewrite run_chars by (cbn [value String.length]; lia).
  unfold with_value; cbn [value elementIds level validCraft n append app run handle].
  (* the ports element *)
  change (startElement L
            (mk_context [0; 0; 1; 0; 0; 0; 0; 0; 0; 0; 0; 0; 0; 0; 0; 0] 2 1 0 gap,
             snd (at_ports gap id type)) "ports" [])
    with (Ok (A := state (T := T))
            (mk_context [0; 0; 1; 2; 0; 0; 0; 0; 0; 0; 0; 0; 0; 0; 0; 0] 3 1 0 "",
             snd (at_ports gap id type))).
  cbn [bind].
  rewrite run_chars by (cbn [value String.length]; lia).
  reflexivity.
Qed.

(** The three end tags that close a standard document. *)
Lemma run_document_tail :
  forall (gap : string) (c : parseContext_t) (q : quatosData.fields T),
    level c = 3 ->
    read (elementIds c) 3 = Some ELEMENT_PORTS ->
    read (elementIds c) 2 = Some ELEMENT_CRAFT ->
    read (elementIds c) 1 = Some ELEMENT_QUATOS_CONFIGURATION ->
    Z.of_nat (String.length (value c)) + 2 * Z.of_nat (String.length gap) <= 256 ->
    exists c',
      run L ([EndElement "ports"] ++ chars gap ++ [EndElement "craft"]
             ++ chars gap ++ [EndElement "quatos_configuration"]) (c, q)
      = Ok (c', q).
Proof.
  intros gap c q Hlev H3 H2 H1 Hlen.
  cbn [app run handle]. unfold endElement at 1. rewrite Hlev, H3.
  change (end_switch L ELEMENT_PORTS c q) with (Ok (A := state (T := T)) (c, q)).
  cbn [bind fst snd].
  rewrite run_chars by (cbn [value with_level]; lia).
  cbn [value with_level with_value run handle].
  unfold endElement at 1. cbn [elementIds level with_level with_value].
  rewrite Hlev. change (3 - 1) with 2. rewrite H2.
  unfold end_switch at 1.
  change (ELEMENT_CRAFT =? ELEMENT_CRAFT) with true. cbv iota.
  cbn [bind fst snd].
  rewrite run_chars
    by (cbn [value with_level with_value with_validCraft]; rewrite length_append; lia).
  cbn [run handle].
  unfold endElement at 1.
  cbn [elementIds level with_level with_value with_validCraft].
  change (2 - 1) with 1. rewrite H1.
  eexists. reflexivity.
Qed.

Lemma overwrite_zeros :
  forall (k : nat) (vs : list Z),
    (List.length vs <= k)%nat ->
    overwrite (repeat 0 k) 0 vs = (vs ++ repeat 0 (k - List.length vs))%list.
Proof.
  intros k vs H. unfold overwrite. cbn [firstn app Nat.add]. f_equal.
  replace k with (List.length vs + (k - List.length vs))%nat at 1 by lia.
  rewrite repeat_app, skipn_app, repeat_length, Nat.sub_diag.
  rewrite skipn_all2 by (rewrite repeat_length; lia).
  reflexivity.
Qed.

Lemma standard_count_pos :
  forall type : config,
    type <> CONFIG_CUSTOM -> 0 < Tool.standard_count type <= 8.
Proof. intros [] H; cbn; try lia. contradiction. Qed.

Lemma standard_craft_fits :
  forall (type : config) (port rotation : list Z),
    type <> CONFIG_CUSTOM ->
    List.length rotation = Z.to_nat (Tool.standard_count type) ->
    calc_fits E (standard_craft (T := T) type port rotation) = true.
Proof.
  intros type port rotation Hty Hlen.
  unfold calc_fits, objects_fit, standard_craft, craft_record.
  cbn [frameX frameY propDir n massObjects objectsDim objectsOffset set_frame
       fst snd].
  rewrite length_map, Hlen.
  destruct type; try contradiction; reflexivity.
Qed.

(** A standard document whose character data reaches the handlers one
    character per call is read as written. *)
Lemma standard_document_run :
  forall (gap id cfg craft_id : string) (type : config)
         (ps : list (string * string)),
    type <> CONFIG_CUSTOM ->
    quatosToolConfigTypeByName cfg = config_value type ->
    head craft_id = 0 \/ strcmp id craft_id = 0 ->
    Z.of_nat (strlen id) < 256 ->
    3 * Z.of_nat (String.length gap) <= 256 ->
    (forall p, In p ps ->
       Z.of_nat (String.length (snd p)) + 3 * Z.of_nat (String.length gap) <= 256
       /\ Z.of_nat (String.length (snd p)) < 256) ->
    Z.of_nat (List.length ps) <= Tool.standard_count type ->
    let missing := (Z.to_nat (Tool.standard_count type) - List.length ps)%nat in
    Tool.quatosTool E L craft_id (standard_document gap id cfg ps) true
    = Tool.Returned 0
        (Some (quatosToolCalc E
                 (standard_craft type
                    (map (fun p => atoi L (text (snd p))) ps ++ repeat 0 missing)%list
                    (map (fun p => atoi L (fst p)) ps ++ repeat 0 missing)%list))).
Proof.
  intros gap id cfg craft_id type ps Hty Hcfg Hsel Hid Hgap Hps Hlen missing.
  pose proof (standard_count_pos Hty) as Hcount.
  unfold Tool.quatosTool, quatosToolReadXML, standard_document.
  rewrite (@run_document_head gap id cfg craft_id type _ Hty Hcfg Hsel Hid
             ltac:(lia)).
  unfold at_ports.
  set (c3 := mk_context _ 3 1 0 gap).
  set (q3 := quatosData.mk_fields _ _ _ _ _ _ _ _ _ _ _ _ _ _ _ _ _).
  destruct (@run_port_elements T SC L gap ps c3 q3
              ([EndElement "ports"] ++ chars gap ++ [EndElement "craft"]
               ++ chars gap ++ [EndElement "quatos_configuration"])
              (256 - 2 * Z.of_nat (String.length gap)))
    as (c' & Hrun & Hl & Hv & Hn & Hlen' & Hread & Hval);
    subst c3 q3;
    cbn [validCraft elementIds level n value quatosData.ports quatosData.propDir];
    try reflexivity; try lia.
  - rewrite repeat_length. lia.
  - intros p Hp. destruct (Hps p Hp). lia.
  - rewrite Hrun. clear Hrun.
    cbn [validCraft elementIds level n value quatosData.ports quatosData.propDir] in *.
    match goal with
    | |- context [run L _ (c', ?q)] =>
        destruct (@run_document_tail gap c' q Hl) as (c'' & Htail)
    end;
      [rewrite Hread by lia; reflexivity
      |rewrite Hread by lia; reflexivity
      |rewrite Hread by lia; reflexivity
      |lia|].
    rewrite Htail. cbn [bind].
    change (Z.to_nat 0) with 0%nat.
    rewrite !overwrite_zeros by (rewrite length_map; lia).
    rewrite !length_map. fold missing.
    assert (Hrot : List.length
                     (map (fun p => atoi L (fst p)) ps ++ repeat 0 missing)%list
                   = Z.to_nat (Tool.standard_count type)).
    { rewrite length_app, length_map, repeat_length. subst missing. lia. }
    pose proof (@standard_craft_fits type
                  (map (fun p => atoi L (text (snd p))) ps ++ repeat 0 missing)%list
                  _ Hty Hrot) as Hfit.
    destruct type; try contradiction;
      match goal with
      | |- _ = Tool.Returned 0 (Some (quatosToolCalc E ?d)) =>
          change ((if calc_fits E d
                   then Tool.Returned 0 (Some (quatosToolCalc E d))
                   else Tool.Unspecified)
                  = Tool.Returned 0 (Some (quatosToolCalc E d)));
          rewrite Hfit; reflexivity
      end.
Qed.

Lemma reported_chars :
  forall pieces : list string, reported pieces = chars (stored pieces).
Proof.
  intro pieces. unfold reported, chars, stored.
  rewrite list_ascii_of_string_of_list_ascii. reflexivity.
Qed.

Lemma stored_bytewise : forall s : string, stored (bytewise s) = s.
Proof.
  intro s. unfold stored, bytewise. rewrite flat_map_concat_map, map_map.
  cbn [first_char]. rewrite <- flat_map_concat_map.
  induction s as [|c s IH]; [reflexivity|].
  cbn [list_ascii_of_string flat_map app string_of_list_ascii].
  rewrite IH. reflexivity.
Qed.

Lemma reported_document_chars :
  forall (gap : list string) (id cfg : string)
         (ps : list (string * list string)),
    reported_document gap id cfg ps
    = standard_document (stored gap) id cfg
        (map (fun p => (fst p, stored (snd p))) ps).
Proof.
  intros gap id cfg ps. unfold reported_document, standard_document.
  rewrite !reported_chars. do 6 f_equal.
  rewrite flat_map_concat_map, flat_map_concat_map, map_map.
  f_equal. f_equal. apply map_ext. intro p.
  unfold reported_port, port_element. cbn [fst snd].
  rewrite !reported_chars. reflexivity.
Qed.

(** X11.  [parseChar] keeps the first character of every piece of
    character data the parser reports.  For a standard document (one
    craft of a standard type, at most as many port elements as the type
    has motors) the run returns 0 on the tables [quatosToolCalc] computes
    from the record of that type with the default masses and distances,
    the default config id, as rotations the numbers [atoi] reads in the
    rotation attribute of each port element and as ports the numbers
    [atoi] reads in the first characters of the pieces in which the text
    of each port element is reported, in document order; the motors
    without a port element keep port 0 and rotation 0.  The first
    characters are the text itself when the parser reports every
    character on its own, and its first character only when the parser
    reports the text in one piece. *)
Theorem X11_standard_document :
  forall (gap : list string) (id cfg craft_id : string) (type : config)
         (ps : list (string * list string)),
    type <> CONFIG_CUSTOM ->
    quatosToolConfigTypeByName cfg = config_value type ->
    head craft_id = 0 \/ strcmp id craft_id = 0 ->
    Z.of_nat (strlen id) < 256 ->
    3 * Z.of_nat (String.length (stored gap)) <= 256 ->
    (forall p, In p ps ->
       Z.of_nat (String.length (stored (snd p)))
       + 3 * Z.of_nat (String.length (stored gap)) <= 256
       /\ Z.of_nat (String.length (stored (snd p))) < 256) ->
    Z.of_nat (List.length ps) <= Tool.standard_count type ->
    let missing := (Z.to_nat (Tool.standard_count type) - List.length ps)%nat in
    Tool.quatosTool E L craft_id (reported_document gap id cfg ps) true
    = Tool.Returned 0
        (Some (quatosToolCalc E
                 (standard_craft type
                    (map (fun p => atoi L (text (stored (snd p)))) ps
                     ++ repeat 0 missing)%list
                    (map (fun p => atoi L (fst p)) ps ++ repeat 0 missing)%list)))
    /\ (forall s : string, stored (bytewise s) = s)
    /\ (forall (c : ascii) (s : string),
          stored [String c s] = String c EmptyString).
Proof.
  intros gap id cfg craft_id type ps Hty Hcfg Hsel Hid Hgap Hps Hlen missing.
  split; [|split; [exact stored_bytewise | reflexivity]].
  rewrite reported_document_chars.
  rewrite (@standard_document_run (stored gap) id cfg craft_id type
             (map (fun p => (fst p, stored (snd p))) ps) Hty Hcfg Hsel Hid Hgap).
  - rewrite !map_map, length_map. cbn [fst snd]. reflexivity.
  - intros p Hp. apply in_map_iff in Hp. destruct Hp as (q & <- & Hq).
    cbn [snd]. apply Hps. exact Hq.
  - rewrite length_map. exact Hlen.
Qed.

(** X12.  The number of port elements is not checked against the motor
    count: in a standard document with more port elements than the type
    has motors, the first element in excess stores its rotation past the
    end of [propDir]. *)
Theorem X12_too_many_ports :
  forall (gap id cfg craft_id : string) (type : config)
         (ps : list (string * string)) (well_formed : bool),
    type <> CONFIG_CUSTOM ->
    quatosToolConfigTypeByName cfg = config_value type ->
    head craft_id = 0 \/ strcmp id craft_id = 0 ->
    Z.of_nat (strlen id) < 256 ->
    3 * Z.of_nat (String.length gap) <= 256 ->
    (forall p, In p ps ->
       Z.of_nat (String.length (snd p)) + 3 * Z.of_nat (String.length gap) <= 256
       /\ Z.of_nat (String.length (snd p)) < 256) ->
    Tool.standard_count type < Z.of_nat (List.length ps) ->
    Tool.quatosTool E L craft_id (standard_document gap id cfg ps) well_formed
    = Tool.Unspecified.
Proof.
  intros gap id cfg craft_id type ps wf Hty Hcfg Hsel Hid Hgap Hps Hlen.
  pose proof (standard_count_pos Hty) as Hcount.
  set (k := Z.to_nat (Tool.standard_count type)).
  assert (Hsplit : exists ps1 p ps2,
             ps = (ps1 ++ p :: ps2)%list /\ List.length ps1 = k).
  { destruct (skipn k ps) as [|p ps2] eqn:Hs.
    - exfalso. assert (Hl := length_skipn k ps). rewrite Hs in Hl. cbn in Hl. lia.
    - exists (firstn k ps), p, ps2. split.
      + rewrite <- Hs. symmetry. apply firstn_skipn.
      + rewrite length_firstn. lia. }
  destruct Hsplit as (ps1 & p & ps2 & -> & Hk).
  unfold Tool.quatosTool, quatosToolReadXML, standard_document.
  rewrite (@run_document_head gap id cfg craft_id type _ Hty Hcfg Hsel Hid
             ltac:(lia)).
  unfold at_ports.
  set (c3 := mk_context _ 3 1 0 gap).
  set (q3 := quatosData.mk_fields _ _ _ _ _ _ _ _ _ _ _ _ _ _ _ _ _).
  rewrite flat_map_app. cbn [flat_map]. rewrite <- !app_assoc.
  destruct (@run_port_elements T SC L gap ps1 c3 q3
              (port_element gap p ++ flat_map (port_element gap) ps2
               ++ [EndElement "ports"] ++ chars gap ++ [EndElement "craft"]
               ++ chars gap ++ [EndElement "quatos_configuration"])
              (256 - 2 * Z.of_nat (String.length gap)))
    as (c' & Hrun & Hl & Hv & Hn & Hlen' & Hread & Hval);
    subst c3 q3;
    cbn [validCraft elementIds level n value quatosData.ports quatosData.propDir];
    try reflexivity; try lia.
  - rewrite repeat_length. fold k. lia.
  - intros p' Hp'. destruct (Hps p') as [H1 H2]; [apply in_or_app; left; exact Hp'|].
    lia.
  - rewrite Hrun. clear Hrun.
    cbn [validCraft elementIds level n value quatosData.ports quatosData.propDir] in *.
    rewrite run_port_overflow; try assumption; try lia.
    + reflexivity.
    + cbn [quatosData.propDir quatosData.set_ports quatosData.set_propDir].
      rewrite length_overwrite; rewrite ?repeat_length, ?length_map; fold k; lia.
Qed.

End StandardDocuments.

(** ** The text of a geometry motor *)

Section Tokens.

Import Ascii String CString Spelling.
Local Open Scope string_scope.
Local Open Scope Z_scope.

Lemma append_assoc_string :
  forall a b c : string, ((a ++ b) ++ c)%string = (a ++ (b ++ c))%string.
Proof.
  induction a as [|x a IH]; intros b c; cbn; [reflexivity | rewrite IH; reflexivity].
Qed.

Lemma tokens_from_token :
  forall (delim : Z) (x rest : string) (cur : option string),
    token delim x ->
    tokens_from delim (x ++ rest) cur
    = tokens_from delim rest
        (Some (match cur with Some t => t ++ x | None => x end)).
Proof.
  intros delim x. induction x as [|a x IH]; intros rest cur [Hne Hall].
  - congruence.
  - cbn [list_ascii_of_string] in Hall. inversion Hall as [|? ? [Ha0 Had] Hx]; subst.
    cbn [append tokens_from].
    destruct (Z.eqb_spec (code a) 0) as [E|_]; [contradiction|].
    destruct (Z.eqb_spec (code a) delim) as [E|_]; [contradiction|].
    destruct x as [|b x].
    + cbn [append]. destruct cur; reflexivity.
    + rewrite IH by (split; [discriminate | exact Hx]).
      destruct cur as [t|]; [|reflexivity].
      rewrite append_assoc_string. reflexivity.
Qed.

Lemma strtok_two_tokens :
  forall (delim : Z) (x y : string),
    delim <> 0 -> 0 <= delim < 256 ->
    token delim x -> token delim y ->
    strtok_all (x ++ String (ascii_of_N (Z.to_N delim)) y) delim = [x; y].
Proof.
  intros delim x y Hd0 Hd Hx Hy. unfold strtok_all.
  assert (Hcode : code (ascii_of_N (Z.to_N delim)) = delim).
  { unfold code. rewrite N_ascii_embedding; lia. }
  rewrite tokens_from_token by exact Hx.
  cbn [tokens_from]. rewrite Hcode.
  destruct (Z.eqb_spec delim 0) as [E|_]; [contradiction|].
  rewrite Z.eqb_refl. cbn [app].
  rewrite <- (append_empty y) at 1.
  rewrite tokens_from_token by exact Hy. reflexivity.
Qed.

Lemma tokens_undelimited :
  forall (delim : Z) (s : string) (cur : option string),
    ~ In delim (codes s) ->
    (List.length (tokens_from delim s cur) <= 1)%nat.
Proof.
  intros delim s. induction s as [|a s IH]; intros cur H.
  - cbn. destruct cur; cbn; lia.
  - cbn [tokens_from codes] in *.
    destruct (Z.eqb_spec (code a) 0) as [E|E0].
    + destruct cur; cbn; lia.
    + destruct (Z.eqb_spec (code a) delim) as [E|Ed].
      * exfalso. apply H. left. exact E.
      * apply IH. intro Hin. apply H. right. exact Hin.
Qed.

Lemma text_token :
  forall (delim : Z) (x rest : string),
    token delim x -> text (x ++ rest) = (x ++ text rest)%string.
Proof.
  intros delim x rest [_ Hall]. induction x as [|a x IH]; [reflexivity|].
  cbn [list_ascii_of_string] in Hall. inversion Hall as [|? ? [Ha0 _] Hx]; subst.
  cbn [append text].
  destruct (Z.eqb_spec (code a) 0) as [E|_]; [contradiction|].
  rewrite IH by exact Hx. reflexivity.
Qed.

Lemma marks_token :
  forall (delim : Z) (x rest : string) (b : bool) (k : nat),
    token delim x ->
    strtok_marks delim (x ++ rest) b (S k)
    = (x ++ strtok_marks delim rest true (S k))%string.
Proof.
  intros delim x rest b k [Hne Hall]. revert b.
  induction x as [|a x IH]; intro b; [congruence|].
  cbn [list_ascii_of_string] in Hall. inversion Hall as [|? ? [Ha0 Had] Hx]; subst.
  cbn [append strtok_marks].
  destruct (Z.eqb_spec (code a) 0) as [E|_]; [contradiction|].
  destruct (Z.eqb_spec (code a) delim) as [E|_]; [contradiction|].
  destruct x as [|c x].
  - reflexivity.
  - rewrite IH by (discriminate || exact Hx). reflexivity.
Qed.

End Tokens.

Section GeometryMotor.

Import Ascii String CString Spelling Names Parser Parser.context Documents.
Local Open Scope string_scope.
Local Open Scope Z_scope.

Context {T : Type} {SC : Scalar T}.
Variable L : Libc (T := T).

Lemma codes_text : forall s : string, codes (text s) = codes s.
Proof.
  induction s as [|a s IH]; [reflexivity|].
  cbn [text codes]. destruct (code a =? 0) eqn:E; [reflexivity|].
  cbn [codes]. rewrite E, IH. reflexivity.
Qed.

Lemma text_of_token : forall (delim : Z) (y : string), token delim y -> text y = y.
Proof.
  intros delim y Hy. rewrite <- (append_empty y) at 1.
  rewrite (@text_token delim) by exact Hy. cbn [text]. apply append_empty.
Qed.

Lemma marks_of_token :
  forall (delim : Z) (y : string) (b : bool) (k : nat),
    token delim y -> strtok_marks delim y b (S k) = y.
Proof.
  intros delim y b k Hy. rewrite <- (append_empty y) at 1.
  rewrite marks_token by exact Hy. cbn [strtok_marks]. apply append_empty.
Qed.

(** X23.  At the end tag of a motor element inside a geometry element of
    an accepted craft the text is split at commas by [strtok]: for the
    text x,y (x and y not empty, without a comma) the coordinates of motor
    [n] become atof(x) and atof(y), [n] advances, and the comma in the
    buffer is overwritten by NUL; for a text without a comma the second
    [strtok] (or, for an empty text, the first) returns NULL, which is
    handed to [atof]. *)
Theorem X23_geometry_motor_text :
  forall (c : parseContext_t) (q : quatosData.fields T) (name : string),
    validCraft c <> 0 ->
    read (elementIds c) (level c) = Some ELEMENT_MOTOR ->
    read (elementIds c) (level c - 1) = Some ELEMENT_GEOMETRY ->
    Z.of_nat (String.length (value c)) < 256 ->
    (forall x y : string,
       value c = x ++ "," ++ y -> token 44 x -> token 44 y ->
       0 <= n c < Z.of_nat (List.length (quatosData.frameX q)) ->
       n c < Z.of_nat (List.length (quatosData.frameY q)) ->
       endElement L (c, q) name
       = Ok (with_level
               (with_n (with_value c (x ++ String zero y)) (n c + 1))
               (level c - 1),
             quatosData.set_frameY
               (quatosData.set_frameX q
                  (replace_nth (quatosData.frameX q) (Z.to_nat (n c))
                     (Some (atof L x))))
               (replace_nth (quatosData.frameY q) (Z.to_nat (n c))
                  (Some (atof L y)))))
    /\ (~ In 44 (codes (value c)) -> endElement L (c, q) name = Undefined).
Proof.
  intros c q name Hv Htop Hparent Hlen.
  assert (Hend : endElement L (c, q) name
                 = bind
                     (match strtok_all (text (value c)) 44 with
                      | tx :: ty :: _ =>
                          match write (quatosData.frameX q) (n c) (Some (atof L tx)) with
                          | None => Undefined
                          | Some fx =>
                              match write (quatosData.frameY q) (n c)
                                      (Some (atof L ty)) with
                              | None => Undefined
                              | Some fy =>
                                  Ok (with_n (with_value c
                                                (strtok_marks 44 (value c) false 2))
                                        (n c + 1),
                                      quatosData.set_frameY
                                        (quatosData.set_frameX q fx) fy)
                              end
                          end
                      | _ => Undefined
                      end)
                     (fun st => Ok (with_level (fst st) (level (fst st) - 1), snd st))).
  { unfold endElement. rewrite Htop. unfold end_switch.
    change (ELEMENT_MOTOR =? ELEMENT_CRAFT) with false.
    change (ELEMENT_MOTOR =? ELEMENT_PORT) with false.
    change (ELEMENT_MOTOR =? ELEMENT_MOTOR) with true.
    cbv iota.
    destruct (Z.eqb_spec (validCraft c) 0) as [E|_]; [contradiction|].
    rewrite Hparent.
    change (ELEMENT_GEOMETRY =? ELEMENT_MASS) with false.
    change (ELEMENT_GEOMETRY =? ELEMENT_DISTANCE) with false.
    change (ELEMENT_GEOMETRY =? ELEMENT_GEOMETRY) with true.
    cbv iota. unfold with_text, value_text.
    destruct (Z.ltb_spec (Z.of_nat (String.length (value c))) 256) as [_|E]; [|lia].
    reflexivity. }
  rewrite Hend. clear Hend. split.
  - intros x y Hval Hx Hy Hnx Hny.
    assert (Hval' : value c = x ++ String (ascii_of_N (Z.to_N 44)) y) by exact Hval.
    assert (Htext : text (value c) = value c).
    { rewrite Hval'. rewrite (@text_token 44) by exact Hx.
      cbn [text]. change (code (ascii_of_N (Z.to_N 44)) =? 0) with false.
      cbv iota. rewrite (@text_of_token 44 y Hy). reflexivity. }
    rewrite Htext, Hval'.
    rewrite strtok_two_tokens by (try lia; assumption).
    unfold write.
    destruct (Z.leb_spec 0 (n c)) as [_|E]; [|lia].
    destruct (Z.ltb_spec (n c) (Z.of_nat (List.length (quatosData.frameX q))))
      as [_|E]; [|lia].
    destruct (Z.ltb_spec (n c) (Z.of_nat (List.length (quatosData.frameY q))))
      as [_|E]; [|lia].
    cbn [andb bind fst snd].
    rewrite marks_token by exact Hx.
    cbn [strtok_marks]. change (code (ascii_of_N (Z.to_N 44)) =? 0) with false.
    change (code (ascii_of_N (Z.to_N 44)) =? 44) with true. cbv iota.
    rewrite (@marks_of_token 44 y false 0 Hy).
    reflexivity.
  - intro Hno.
    pose proof (@tokens_undelimited 44 (text (value c)) None) as Hk.
    rewrite codes_text in Hk. specialize (Hk Hno).
    unfold strtok_all.
    destruct (tokens_from 44 (text (value c)) None) as [|tx [|ty l]];
      try reflexivity.
    cbn in Hk. lia.
Qed.

End GeometryMotor.

(** ** Cube elements *)

Section CubeElement.

Import Ascii String CString Spelling Names Parser Parser.context Documents.
Local Open Scope string_scope.
Local Open Scope Z_scope.

Context {T : Type} {SC : Scalar T}.
Variable L : Libc (T := T).

Lemma conservativeResize_next :
  forall (A : Type) (k : nat) (v : list A) (fresh : A),
    k = S (List.length v) ->
    conservativeResize k fresh v = (v ++ [fresh])%list.
Proof.
  intros A k v fresh ->. unfold conservativeResize.
  rewrite firstn_all2 by lia.
  replace (S (List.length v) - List.length v)%nat with 1%nat by lia.
  reflexivity.
Qed.

Lemma replace_nth_last :
  forall (A : Type) (v : list A) (r r' : A),
    replace_nth (v ++ [r]) (List.length v) r' = (v ++ [r'])%list.
Proof.
  induction v as [|a v IH]; intros r r'; cbn; [reflexivity | rewrite IH; reflexivity].
Qed.

Lemma set_cell_last :
  forall (v : list (list (option T))) (r : list (option T)) (k col : Z)
         (att : option string),
    k = Z.of_nat (List.length v) ->
    0 <= col < Z.of_nat (List.length r) ->
    set_cell L (v ++ [r]) k col att
    = Ok (v ++ [match att with
                | Some a => replace_nth r (Z.to_nat col) (Some (atof L a))
                | None => r
                end])%list.
Proof.
  intros v r k col att -> Hcol. unfold set_cell.
  destruct att as [a|]; [|reflexivity].
  unfold read, write. rewrite length_app. cbn [List.length].
  destruct (Z.leb_spec 0 (Z.of_nat (List.length v))) as [_|E]; [|lia].
  destruct (Z.ltb_spec (Z.of_nat (List.length v))
              (Z.of_nat (List.length v + 1))) as [_|E]; [|lia].
  cbn [andb]. rewrite Nat2Z.id.
  rewrite nth_error_app2, Nat.sub_diag by lia. cbn [nth_error].
  destruct (Z.leb_spec 0 col) as [_|E]; [|lia].
  destruct (Z.ltb_spec col (Z.of_nat (List.length r))) as [_|E]; [|lia].
  cbn [andb]. rewrite replace_nth_last. reflexivity.
Qed.

(** X24.  The start tag of a cube element (the tables holding one row per
    cube met so far) appends a row to the mass, dimension and offset
    tables and sets in it exactly the coefficients whose attributes are
    present: the coefficient of an attribute that is missing, and the mass
    until the end tag, keep what the reallocation left there. *)
Theorem X24_cube_attributes :
  forall (c : parseContext_t) (q : quatosData.fields T)
         (atts : list (string * string)),
    n c = Z.of_nat (List.length (quatosData.massObjects q)) ->
    n c = Z.of_nat (List.length (quatosData.objectsDim q)) ->
    n c = Z.of_nat (List.length (quatosData.objectsOffset q)) ->
    let given (name : string) :=
      option_map (atof L) (quatosToolFindAttr atts name) in
    parseCube L c q atts
    = Ok (c,
          quatosData.set_objectsOffset
            (quatosData.set_objectsDim
               (quatosData.set_massObjects q
                  (quatosData.massObjects q ++ [None])%list)
               (quatosData.objectsDim q
                ++ [[given "dimx"; given "dimy"; given "dimz"]])%list)
            (quatosData.objectsOffset q
             ++ [[given "offsetx"; given "offsety"; given "offsetz"]])%list).
Proof.
  intros c q atts Hm Hd Ho given.
  unfold parseCube. cbv zeta.
  cbn [quatosData.objectsDim quatosData.objectsOffset quatosData.massObjects
       quatosData.set_massObjects quatosData.set_objectsDim
       quatosData.set_objectsOffset].
  rewrite !conservativeResize_next by lia.
  cbn [quatosData.objectsDim quatosData.objectsOffset quatosData.massObjects
       quatosData.set_massObjects quatosData.set_objectsDim
       quatosData.set_objectsOffset repeat].
  rewrite set_cell_last by (try exact Hd; rewrite ?length_replace_nth; cbn; lia). cbn [bind].
  rewrite set_cell_last
    by (try exact Hd; destruct (quatosToolFindAttr atts "dimx"); rewrite ?length_replace_nth; cbn; lia).
  cbn [bind].
  rewrite set_cell_last
    by (try exact Hd; destruct (quatosToolFindAttr atts "dimx");
        destruct (quatosToolFindAttr atts "dimy"); rewrite ?length_replace_nth; cbn; lia).
  cbn [bind quatosData.objectsDim quatosData.objectsOffset quatosData.massObjects
       quatosData.set_massObjects quatosData.set_objectsDim
       quatosData.set_objectsOffset].
  rewrite set_cell_last by (try exact Ho; rewrite ?length_replace_nth; cbn; lia). cbn [bind].
  rewrite set_cell_last
    by (try exact Ho; destruct (quatosToolFindAttr atts "offsetx"); rewrite ?length_replace_nth; cbn; lia).
  cbn [bind].
  rewrite set_cell_last
    by (try exact Ho; destruct (quatosToolFindAttr atts "offsetx");
        destruct (quatosToolFindAttr atts "offsety"); rewrite ?length_replace_nth; cbn; lia).
  cbn [bind]. subst given. cbv beta.
  destruct (quatosToolFindAttr atts "dimx"), (quatosToolFindAttr atts "dimy"),
    (quatosToolFindAttr atts "dimz"), (quatosToolFindAttr atts "offsetx"),
    (quatosToolFindAttr atts "offsety"), (quatosToolFindAttr atts "offsetz");
    reflexivity.
Qed.

End CubeElement.

Section CraftSelection.

Import Ascii String CString Names Parser Parser.context Documents.
Local Open Scope string_scope.
Local Open Scope Z_scope.

Context {T : Type} {SC : Scalar T}.
Variable L : Libc (T := T).

(** X25.  A craft element without an id attribute, or whose id is not the
    craft id already selected (by the command line or by an earlier craft
    element), is skipped as a whole: met with [context->validCraft] clear,
    as it is after the start tag of the root and after the end tag of a
    craft, neither its start tag nor anything up to the next start tag of
    a craft element changes the record. *)
Theorem X25_other_craft_skipped :
  forall (c : parseContext_t) (q : quatosData.fields T) (name : string)
         (atts : list (string * string)) (events : list event)
         (st' : state (T := T)),
    quatosToolElementIdByName name = ELEMENT_CRAFT ->
    validCraft c = 0 ->
    (quatosToolFindAttr atts "id" = None
     \/ exists id, quatosToolFindAttr atts "id" = Some id
                   /\ head (quatosData.craftId q) <> 0
                   /\ strcmp id (quatosData.craftId q) <> 0) ->
    forallb (fun e => negb (opens_craft e)) events = true ->
    run L (StartElement name atts :: events) (c, q) = Ok st' ->
    snd st' = q /\ validCraft (fst st') = 0.
Proof.
  intros c q name atts events st' Hname Hv Hid Hev Hrun.
  cbn [run] in Hrun. apply bind_Ok in Hrun. destruct Hrun as (st1 & H1 & H2).
  assert (Hskip : forall c0, parseCraft L c0 q atts = Ok (c0, q)).
  { intro c0. unfold parseCraft.
    destruct Hid as [->|(id & -> & Hh & Hs)]; [reflexivity|].
    destruct (Z.eqb_spec (head (quatosData.craftId q)) 0) as [E|_]; [contradiction|].
    destruct (Z.eqb_spec (strcmp id (quatosData.craftId q)) 0) as [E|_];
      [contradiction|].
    reflexivity. }
  assert (Hst1 : snd st1 = q /\ validCraft (fst st1) = 0).
  { cbn [handle] in H1. unfold startElement in H1. rewrite Hname in H1.
    unfold start_switch in H1.
    change (ELEMENT_CRAFT =? ELEMENT_QUATOS_CONFIGURATION) with false in H1.
    change (ELEMENT_CRAFT =? ELEMENT_CRAFT) with true in H1.
    cbv iota in H1.
    destruct ((0 <=? ELEMENT_CRAFT) && (level c <? MAX_DEPTH - 1)).
    - destruct (write (elementIds c) (level c + 1) ELEMENT_CRAFT) as [ids|];
        [|discriminate H1].
      rewrite Hskip in H1. cbn [bind fst snd] in H1. injection H1 as <-.
      split; [reflexivity | exact Hv].
    - cbn [bind fst snd] in H1. injection H1 as <-.
      split; [reflexivity | exact Hv]. }
  destruct Hst1 as [Hq1 Hv1].
  destruct (@run_outside_craft T SC L events st1 st' Hv1 Hev H2) as [Hq Hv'].
  split; [congruence | exact Hv'].
Qed.

End CraftSelection.

(** * Further properties of the mass model *)

Section Inertia.

Local Open Scope R_scope.

Lemma JCalc_coeff :
  forall (J : matrix R) (m x y z : R) (i j : nat),
    coeff (quatosToolJCalc J m x y z) i j
    = coeff J i j + coeff (point_inertia m x y z) i j.
Proof.
  intros J m x y z i j. unfold quatosToolJCalc, point_inertia.
  cbn [coeff msub smul mmul skew cols rows sum_upto].
  destruct i as [|[|[|i]]]; destruct j as [|[|[|j]]]; real_ops; cbn; ring.
Qed.

(** X13.  [quatosToolJCalc] adds to J the inertia tensor of a point mass:
    J - mass * (S * S), with S the cross-product matrix of (x, y, z), has
    mass * (y^2 + z^2), -mass * x * y, ... added to the coefficients of J. *)
Theorem X13_point_mass_tensor :
  forall (J : matrix R) (m x y z : R) (i j : nat),
    coeff (quatosToolJCalc J m x y z) i j
    = coeff J i j + coeff (point_inertia m x y z) i j.
Proof.
  intros J m x y z i j. unfold quatosToolJCalc, point_inertia.
  cbn [coeff msub smul mmul skew cols rows sum_upto].
  destruct i as [|[|[|i]]]; destruct j as [|[|[|j]]]; real_ops; cbn; ring.
Qed.

Lemma point_inertia_symmetric :
  forall m x y z i j,
    coeff (point_inertia m x y z) i j = coeff (point_inertia m x y z) j i.
Proof.
  intros m x y z i j. unfold point_inertia. cbn [coeff].
  destruct i as [|[|[|i]]]; destruct j as [|[|[|j]]]; reflexivity.
Qed.

Lemma point_inertia_diag :
  forall m x y z i, 0 <= m -> 0 <= coeff (point_inertia m x y z) i i.
Proof.
  intros m x y z i Hm. unfold point_inertia. cbn [coeff].
  destruct i as [|[|[|i]]]; try lra; apply Rmult_le_pos; try exact Hm; nra.
Qed.

Section Invariant.

(** An invariant of J that adding the tensor of a point mass of a
    permitted mass preserves is preserved by the whole accumulation. *)
Variable allowed : R -> Prop.
Variable inv : matrix R -> Prop.
Hypothesis JCalc_keeps :
  forall J m x y z, allowed m -> inv J -> inv (quatosToolJCalc J m x y z).

Lemma fold_JCalc_keeps :
  forall (ps : list (object_t (T := R))) (J : matrix R),
    (forall p, In p ps -> allowed (mass p)) ->
    inv J ->
    inv (fold_left (fun J p => quatosToolJCalc J (mass p) (x p) (y p) (z p)) ps J).
Proof.
  induction ps as [|p ps IH]; intros J Hm HJ; cbn [fold_left]; [exact HJ|].
  apply IH.
  - intros p' Hp'. apply Hm. right. exact Hp'.
  - apply JCalc_keeps; [apply Hm; left; reflexivity | exact HJ].
Qed.

Lemma fold_j_step_keeps :
  forall (cg : vec3 (T := R)) (objs : list (object_t (T := R))) (J : matrix R),
    (forall o, In o objs -> allowed (mass o)) ->
    (forall o p, In o objs -> In p (shape_cells cg o) -> allowed (mass p)) ->
    inv J ->
    inv (fold_left (j_step cg) objs J).
Proof.
  intros cg objs. induction objs as [|o objs IH]; intros J Hm Hc HJ;
    cbn [fold_left]; [exact HJ|].
  apply IH.
  - intros o' Ho'. apply Hm. right. exact Ho'.
  - intros o' p Ho' Hp. apply (Hc o' p); [right; exact Ho' | exact Hp].
  - unfold j_step. destruct (dimensioned o).
    + unfold quatosToolShapeCalc. apply fold_JCalc_keeps; [|exact HJ].
      intros p Hp. apply (Hc o p); [left; reflexivity | exact Hp].
    + apply JCalc_keeps; [apply Hm; left; reflexivity | exact HJ].
Qed.

End Invariant.

Lemma in_cells :
  forall (nx ny nz : Z) (i j k : nat),
    In (i, j, k) (cells nx ny nz)
    <-> (Z.of_nat i < nx /\ Z.of_nat j < ny /\ Z.of_nat k < nz)%Z.
Proof.
  intros nx ny nz i j k. unfold cells. rewrite in_flat_map. split.
  - intros (i' & Hi' & H). rewrite in_flat_map in H.
    destruct H as (j' & Hj' & H). rewrite in_map_iff in H.
    destruct H as (k' & Hk' & H). injection Hk' as -> -> ->.
    rewrite in_seq in *. lia.
  - intros (Hi & Hj & Hk). exists i. split; [apply in_seq; lia|].
    rewrite in_flat_map. exists j. split; [apply in_seq; lia|].
    rewrite in_map_iff. exists k. split; [reflexivity | apply in_seq; lia].
Qed.

Lemma cell_mass_nonneg :
  forall (cg : vec3 (T := R)) (o p : object_t (T := R)),
    0 <= mass o -> In p (shape_cells cg o) -> 0 <= mass p.
Proof.
  intros cg o p Hm Hp. unfold shape_cells in Hp.
  apply in_map_iff in Hp. destruct Hp as ([[i j] k] & <- & Hc).
  apply in_cells in Hc. destruct Hc as (Hi & Hj & Hk).
  unfold cell_point. cbn [mass]. real_ops.
  apply Rmult_le_pos; [exact Hm|].
  apply Rlt_le, Rinv_0_lt_compat. apply IZR_lt.
  apply Z.mul_pos_pos; [apply Z.mul_pos_pos|]; lia.
Qed.

Lemma in_build_objs_mass :
  forall (d : quatosData_t (T := R)) (o : object_t (T := R)),
    In o (build_objs d) ->
    mass o = massMot d \/ mass o = massEsc d \/ mass o = massArm d
    \/ exists i, (i < length (massObjects d))%nat
                 /\ mass o = nth i (massObjects d) 0.
Proof.
  intros d o Ho. unfold build_objs in Ho. apply in_app_or in Ho.
  destruct Ho as [Ho|Ho].
  - apply in_flat_map in Ho. destruct Ho as (i & _ & Ho).
    unfold motor_objs in Ho. cbv zeta in Ho.
    destruct (is_custom (craftType d));
      destruct Ho as [<-|[<-|[<-|[]]]]; cbn [mass]; auto.
  - apply in_map_iff in Ho. destruct Ho as (i & <- & Hi).
    apply in_seq in Hi. right. right. right. exists i.
    split; [lia | reflexivity].
Qed.

(** X14.  The J matrix [quatosToolObjCalc] computes is symmetric, and its
    diagonal is not negative when no declared mass is negative (exact
    arithmetic, at most 256 objects, cell counts within [int]): every
    object, point or cuboid, adds inertia tensors of point masses, and the
    cells of a cuboid carry the cuboid's mass divided by a positive cell
    count. *)
Theorem X14_inertia_symmetric :
  forall d : quatosData_t (T := R),
    objects_fit d = true ->
    let r := quatosToolObjCalc d in
    (forall i j, coeff (J r) i j = coeff (J r) j i)
    /\ (0 <= massMot d -> 0 <= massEsc d -> 0 <= massArm d ->
        Forall (fun m => 0 <= m) (massObjects d) ->
        forall i, 0 <= coeff (J r) i i).
Proof.
  intros d _ r. subst r. unfold quatosToolObjCalc. cbn [J set_mass_properties].
  split.
  - apply (@fold_j_step_keeps (fun _ => True)
             (fun J => forall i j, coeff J i j = coeff J j i)); auto.
    intros J m x y z _ HJ i j.
    rewrite !JCalc_coeff, (HJ i j), (point_inertia_symmetric m x y z i j).
    reflexivity.
  - intros Hmot Hesc Harm Hobj.
    assert (Hmass : forall o, In o (map to_kg (build_objs d)) -> 0 <= mass o).
    { intros o Ho. apply in_map_iff in Ho. destruct Ho as (o' & <- & Ho').
      unfold to_kg. cbn [mass]. real_ops.
      assert (0 <= mass o').
      { destruct (in_build_objs_mass d o' Ho') as [->|[->|[->|(i & Hi & ->)]]];
          try assumption.
        rewrite Forall_forall in Hobj. apply Hobj. apply nth_In. exact Hi. }
      lra. }
    apply (@fold_j_step_keeps (fun m => 0 <= m)
             (fun J => forall i, 0 <= coeff J i i)).
    + intros J m x y z Hm HJ i. rewrite JCalc_coeff.
      pose proof (point_inertia_diag x y z i Hm). specialize (HJ i). lra.
    + exact Hmass.
    + intros o p Ho Hp. apply (cell_mass_nonneg _ o p (Hmass o Ho) Hp).
    + intros i. cbn. real_ops. lra.
Qed.

End Inertia.

Section MassTotals.

Local Open Scope R_scope.

Lemma fold_mass_total :
  forall (objs : list (object_t (T := R))) (a : R),
    fold_left (fun t o => fadd t (mass o)) objs a = a + total (map mass objs).
Proof.
  induction objs as [|o objs IH]; intro a; cbn [fold_left map total fold_right].
  - lra.
  - rewrite IH. real_ops. unfold total. lra.
Qed.

Lemma total_app :
  forall l1 l2 : list R, total (l1 ++ l2) = total l1 + total l2.
Proof.
  unfold total.
  induction l1 as [|a l1 IH]; intro l2; cbn [app fold_right]; [lra|].
  rewrite IH. lra.
Qed.

Lemma total_motor_objs :
  forall (d : quatosData_t (T := R)) (l : list nat),
    total (map mass (map to_kg (flat_map (motor_objs d) l)))
    = INR (length l) * ((massMot d + massEsc d + massArm d) / 1000).
Proof.
  intros d l. induction l as [|i l IH].
  - cbn. lra.
  - cbn [flat_map]. rewrite !map_app, total_app, IH.
    change (length (i :: l)) with (S (length l)). rewrite S_INR.
    unfold motor_objs. cbv zeta.
    destruct (is_custom (craftType d)); cbn; real_ops; lra.
Qed.

Lemma total_payload :
  forall (d : quatosData_t (T := R)),
    total (map mass (map to_kg (map (payload_obj d) (seq 0 (length (massObjects d))))))
    = total (massObjects d) / 1000.
Proof.
  intro d.
  assert (H : forall (l : list R) (k : nat) (pre : list R),
             massObjects d = pre ++ l -> length pre = k ->
             total (map mass (map to_kg (map (payload_obj d) (seq k (length l)))))
             = total l / 1000).
  { induction l as [|m l IH]; intros k pre Hd Hk.
    - cbn. lra.
    - cbn [length seq map total fold_right].
      fold (total (map mass (map to_kg (map (payload_obj d) (seq (S k) (length l)))))).
      rewrite (IH (S k) (pre ++ [m])).
      + fold (total l). unfold payload_obj, to_kg. cbn [mass]. real_ops.
        rewrite Hd, app_nth2, Hk, Nat.sub_diag by lia. cbn [nth]. lra.
      + rewrite Hd, <- app_assoc. reflexivity.
      + rewrite length_app. cbn. lia. }
  apply (H (massObjects d) 0%nat []); reflexivity.
Qed.

(** X15.  [quatosToolObjCalc] counts three objects per motor (motor, ESC,
    arm) and one per cube, and the total mass is, in kg, the motor count
    times the three declared masses plus the masses of the cubes (exact
    arithmetic, at most 256 objects, cell counts within [int]). *)
Theorem X15_object_count_and_mass :
  forall d : quatosData_t (T := R),
    objects_fit d = true ->
    objectsCount (quatosToolObjCalc d) = (3 * n d + length (massObjects d))%nat
    /\ totalMass (quatosToolObjCalc d)
       = (INR (n d) * (massMot d + massEsc d + massArm d)
          + total (massObjects d)) / 1000.
Proof.
  intros d _. split.
  - unfold quatosToolObjCalc. cbn [objectsCount set_mass_properties].
    rewrite length_map. unfold build_objs.
    rewrite length_app, length_map, length_seq.
    rewrite (@flat_map_const_length _ _ (motor_objs d) 3 (seq 0 (n d)))
      by (intro a; reflexivity).
    rewrite length_seq. lia.
  - unfold quatosToolObjCalc. cbn [totalMass set_mass_properties].
    destruct (cg_fold_components (map to_kg (build_objs d))
                ((fofZ 0, fofZ 0, fofZ 0), fofZ 0)) as (_ & _ & _ & Ht).
    cbv zeta in Ht. rewrite Ht. cbn [snd]. rewrite fold_mass_total.
    unfold build_objs. rewrite !map_app, total_app.
    rewrite total_motor_objs, total_payload, length_seq. real_ops. lra.
Qed.

End MassTotals.

Section Cuboids.

Local Open Scope R_scope.

Lemma trunc_below_one :
  forall v : R, v < 1 -> (Exact.trunc v <= 0)%Z.
Proof.
  intros v Hv. unfold Exact.trunc.
  destruct (Rle_dec 0 v) as [H0|H0].
  - destruct (base_Int_part v) as [H1 H2].
    assert (IZR (Int_part v) < 1) by lra.
    apply lt_IZR in H. lia.
  - assert (H : 0 <= - v) by lra.
    destruct (base_Int_part (- v)) as [H1 H2].
    assert (H3 : -1 < IZR (Int_part (- v))) by lra.
    apply lt_IZR in H3. lia.
Qed.

Lemma trunc_bounds :
  forall v : R, 0 <= v -> IZR (Exact.trunc v) <= v < IZR (Exact.trunc v) + 1.
Proof.
  intros v Hv. unfold Exact.trunc.
  destruct (Rle_dec 0 v) as [_|H0]; [|contradiction].
  destruct (base_Int_part v) as [H1 H2]. lra.
Qed.

Lemma trunc_positive :
  forall v : R, (0 < Exact.trunc v)%Z -> 0 < v /\ IZR (Exact.trunc v) <= v.
Proof.
  intros v Hv. destruct (Rle_dec 0 v) as [H0|H0].
  - destruct (@trunc_bounds v H0) as [H1 H2]. split; [|exact H1].
    apply IZR_lt in Hv. lra.
  - exfalso. assert (H : v < 1) by lra. apply trunc_below_one in H. lia.
Qed.

Lemma trunc_at_least_one :
  forall v : R, 1 <= v -> (1 <= Exact.trunc v)%Z.
Proof.
  intros v Hv. destruct (@trunc_bounds v ltac:(lra)) as [H1 H2].
  assert (H : 0 < IZR (Exact.trunc v)) by lra.
  apply lt_IZR in H. lia.
Qed.

Lemma cells_nil :
  forall nx ny nz : Z,
    (nx <= 0 \/ ny <= 0 \/ nz <= 0)%Z -> cells nx ny nz = [].
Proof.
  intros nx ny nz H.
  destruct (cells nx ny nz) as [|[[i j] k] l] eqn:E; [reflexivity|].
  assert (Hin : In (i, j, k) (cells nx ny nz)) by (rewrite E; left; reflexivity).
  apply in_cells in Hin. lia.
Qed.

(** X16.  A cuboid with an extent below one millimetre (or a negative
    extent) adds nothing to J: the extent in millimetres is truncated to a
    cell count of 0, and the loops of [quatosToolShapeCalc] do not run
    (cell counts within [int]).  The object still counts in the total mass
    and in the CG. *)
Theorem X16_thin_cuboid_adds_nothing :
  forall (cg : vec3 (T := R)) (J : matrix R) (o : object_t (T := R)),
    cells_fit o = true ->
    dimensioned o = true ->
    dimX o < / 1000 \/ dimY o < / 1000 \/ dimZ o < / 1000 ->
    j_step cg J o = J.
Proof.
  intros cg J o _ Hd Hthin. unfold j_step. rewrite Hd.
  unfold quatosToolShapeCalc, shape_cells. cbv zeta.
  rewrite cells_nil; [reflexivity|]. real_ops.
  destruct Hthin as [H|[H|H]]; [left | right; left | right; right];
    apply trunc_below_one; lra.
Qed.

Lemma sign_of_R :
  forall v : R,
    (0 <= v /\ sign_of v = 1) \/ (v < 0 /\ sign_of v = -1).
Proof.
  intro v. unfold sign_of. real_ops. unfold Exact.ltb.
  destruct (Rlt_dec v 0); [right | left]; split; lra.
Qed.

(** One coordinate of one cell. *)
Lemma cell_coordinate :
  forall (pos cg dim : R) (i : nat),
    (Z.of_nat i < Exact.trunc (dim * 1000))%Z ->
    let c := pos - cg - (dim / 2 + IZR (Z.of_nat i) / 1000) * sign_of pos in
    (0 <= pos -> pos - cg - 3 / 2 * dim < c <= pos - cg - dim / 2)
    /\ (pos < 0 -> pos - cg + dim / 2 <= c < pos - cg + 3 / 2 * dim).
Proof.
  intros pos cg dim i Hi c.
  assert (Hpos : (0 < Exact.trunc (dim * 1000))%Z) by lia.
  destruct (@trunc_positive (dim * 1000) Hpos) as [Hd Hn].
  assert (Hi' : IZR (Z.of_nat i) <= IZR (Exact.trunc (dim * 1000)) - 1).
  { rewrite <- minus_IZR. apply IZR_le. lia. }
  assert (H0 : 0 <= IZR (Z.of_nat i)) by (apply IZR_le; lia).
  subst c.
  destruct (sign_of_R pos) as [[Hp ->]|[Hp ->]]; split; intro; lra.
Qed.

(** X17.  The cells of a cuboid do not surround the offset of the object:
    along each axis they start half an extent away from it and reach to
    less than one and a half extents, always on the side of the origin:
    below the offset when it is not negative, above it when it is
    negative.  (The coordinates are relative to the CG; cell counts
    within [int].) *)
Theorem X17_cuboid_cells_beside_offset :
  forall (cg : vec3 (T := R)) (o : object_t (T := R)),
    cells_fit o = true ->
    let beside (pos c dim p : R) :=
      (0 <= pos -> pos - c - 3 / 2 * dim < p <= pos - c - dim / 2)
      /\ (pos < 0 -> pos - c + dim / 2 <= p < pos - c + 3 / 2 * dim) in
    Forall (fun p => beside (x o) (vx cg) (dimX o) (x p)
                     /\ beside (y o) (vy cg) (dimY o) (y p)
                     /\ beside (z o) (vz cg) (dimZ o) (z p))
      (shape_cells cg o)
    /\ (/ 1000 <= dimX o -> / 1000 <= dimY o -> / 1000 <= dimZ o ->
        shape_cells cg o <> []).
Proof.
  intros cg o _ beside. split.
  - apply Forall_forall. intros p Hp. unfold shape_cells in Hp.
    apply in_map_iff in Hp. destruct Hp as ([[i j] k] & <- & Hc).
    apply in_cells in Hc. destruct Hc as (Hi & Hj & Hk).
    unfold cell_point. cbn [x y z]. real_ops. subst beside. cbv beta.
    split; [|split].
    + apply (@cell_coordinate (x o) (vx cg) (dimX o) i Hi).
    + apply (@cell_coordinate (y o) (vy cg) (dimY o) j Hj).
    + apply (@cell_coordinate (z o) (vz cg) (dimZ o) k Hk).
  - intros Hx Hy Hz E. unfold shape_cells in E. cbv zeta in E.
    apply map_eq_nil in E.
    assert (Hin : In (0%nat, 0%nat, 0%nat)
                    (cells (ftrunc (fmul (dimX o) (fofZ 1000)))
                       (ftrunc (fmul (dimY o) (fofZ 1000)))
                       (ftrunc (fmul (dimZ o) (fofZ 1000))))).
    { apply in_cells. real_ops.
      repeat split; apply (Z.lt_le_trans _ 1); try lia;
        apply trunc_at_least_one; lra. }
    rewrite E in Hin. exact Hin.
Qed.

Lemma total_constant :
  forall (l : list R) (v : R),
    Forall (fun a => a = v) l -> total l = INR (length l) * v.
Proof.
  intros l v H. induction H as [|a l Ha _ IH].
  - cbn. lra.
  - change (length (a :: l)) with (S (length l)). rewrite S_INR.
    unfold total in *. cbn [fold_right]. rewrite IH, Ha. lra.
Qed.

(** X18.  A cuboid of at least one millimetre along every axis keeps its
    mass through the decomposition: the masses of its cells add up to the
    mass of the object (exact arithmetic, cell counts within [int]). *)
Theorem X18_cuboid_mass_conserved :
  forall (cg : vec3 (T := R)) (o : object_t (T := R)),
    cells_fit o = true ->
    / 1000 <= dimX o -> / 1000 <= dimY o -> / 1000 <= dimZ o ->
    total (map mass (shape_cells cg o)) = mass o.
Proof.
  intros cg o _ Hx Hy Hz.
  set (nx := Exact.trunc (dimX o * 1000)).
  set (ny := Exact.trunc (dimY o * 1000)).
  set (nz := Exact.trunc (dimZ o * 1000)).
  assert (Hnx : (1 <= nx)%Z) by (apply trunc_at_least_one; lra).
  assert (Hny : (1 <= ny)%Z) by (apply trunc_at_least_one; lra).
  assert (Hnz : (1 <= nz)%Z) by (apply trunc_at_least_one; lra).
  rewrite (@total_constant _ (mass o / IZR (nx * ny * nz))).
  - rewrite length_map. unfold shape_cells. cbv zeta. rewrite length_map.
    rewrite cells_length. real_ops. fold nx ny nz.
    rewrite INR_IZR_INZ, !Nat2Z.inj_mul, !Z2Nat.id by lia.
    rewrite Z.mul_assoc.
    field. apply not_0_IZR.
    assert (0 < nx * ny * nz)%Z by (apply Z.mul_pos_pos; [apply Z.mul_pos_pos|]; lia).
    lia.
  - apply Forall_forall. intros m Hm. apply in_map_iff in Hm.
    destruct Hm as (p & <- & Hp). unfold shape_cells in Hp.
    apply in_map_iff in Hp. destruct Hp as ([[i j] k] & <- & _).
    reflexivity.
Qed.

End Cuboids.

Section StandardCG.

Local Open Scope R_scope.

(** X19.  For a standard frame type without cubes, the computed CG is the
    origin whatever the motor, ESC and arm masses and the two distances
    are (exact arithmetic, [cosf] read as the cosine, total mass not
    zero, vectors of the size of the type): the motor positions of each
    type add up to zero. *)
Theorem X19_standard_frame_cg_at_origin :
  forall (E : Extern R) (d : quatosData_t (T := R)),
    (forall a, cosf E a = cos a) ->
    calc_fits E d = true ->
    craftType d <> CONFIG_CUSTOM ->
    n d = motor_count (craftType d) ->
    massObjects d = [] ->
    massMot d + massEsc d + massArm d <> 0 ->
    offsetCG (quatosToolCalc E d) = (0, 0, 0).
Proof.
  intros E d Hcos _ Hty Hn Hobj Hmass.
  unfold quatosToolCalc. cbn [offsetCG].
  unfold quatosToolObjCalc. cbn [offsetCG set_mass_properties].
  unfold build_objs, frame_geometry.
  cbn [n massObjects craftType set_frame]. rewrite Hn, Hobj.
  destruct (craftType d) eqn:Hc; try contradiction;
    cbn [motor_count resetCraft n length seq map app flat_map motor_objs
         is_custom craftType set_frame frameX frameY fst snd nth
         massMot massEsc massArm distMot distEsc to_kg fold_left cg_step
         mass x y z vx vy vz];
    rewrite Hc;
    cbn [motor_count resetCraft n length seq map app flat_map motor_objs
         is_custom craftType set_frame frameX frameY fst snd nth
         massMot massEsc massArm distMot distEsc to_kg fold_left cg_step
         mass x y z vx vy vz];
    rewrite ?Hcos; unfold dec, DEG_TO_RAD; real_ops;
    change (10 ^ Z.of_nat 1)%Z with 10%Z;
    frame_values;
    (f_equal; [f_equal|]);
    match goal with
    | |- ?a / ?b = 0 =>
        replace a with 0 by field; unfold Rdiv; apply Rmult_0_l
    end.
Qed.

End StandardCG.

Section PseudoInverseWide.

Local Open Scope R_scope.

(** (P D Q^T) (Q D' P^T) = I for orthogonal P (n x n), Q (q x n) with
    orthonormal columns and D D' = I. *)
Lemma sandwich_wide :
  forall (n q : nat) (P D Q D' : matrix R),
    rows P = n -> cols P = n -> rows D = n -> cols D = n ->
    rows Q = q -> cols Q = n -> rows D' = n -> cols D' = n ->
    meq (mmul (transpose Q) Q) (Identity n) ->
    meq (mmul D D') (Identity n) ->
    meq (mmul P (transpose P)) (Identity n) ->
    meq (mmul (mmul (mmul P D) (transpose Q)) (mmul (mmul Q D') (transpose P)))
      (Identity n).
Proof.
  intros n q P D Q D' HPr HPc HDr HDc HQr HQc HD'r HD'c HQ HD HP.
  eapply meq_trans; [apply mmul_assoc_meq|].
  eapply meq_trans.
  { apply mmul_meq; [apply meq_refl| |cbn; congruence].
    eapply meq_trans; [apply meq_sym, mmul_assoc_meq|].
    apply mmul_meq; [|apply meq_refl|cbn; congruence].
    eapply meq_trans; [apply meq_sym, mmul_assoc_meq|].
    eapply meq_trans.
    - apply mmul_meq; [exact HQ|apply meq_refl|cbn; congruence].
    - apply mmul_id_l. exact HD'r. }
  eapply meq_trans; [apply mmul_assoc_meq|].
  eapply meq_trans.
  { apply mmul_meq; [apply meq_refl| |cbn; congruence].
    eapply meq_trans; [apply meq_sym, mmul_assoc_meq|].
    eapply meq_trans.
    - apply mmul_meq; [exact HD|apply meq_refl|cbn; congruence].
    - apply mmul_id_l. cbn. exact HPc. }
  exact HP.
Qed.

Lemma sigma_times_selected :
  forall (E : Extern R) (a : matrix R) (eps : R) (i : nat),
    0 <= eps ->
    (forall v, In v (singularValues (jacobiSvd E a)) ->
               tolerance_of E a eps < Rabs v) ->
    (i < length (singularValues (jacobiSvd E a)))%nat ->
    nth i (singularValues (jacobiSvd E a)) 0
    * nth i (select_inverse (tolerance_of E a eps)
               (singularValues (jacobiSvd E a))) 0 = 1.
Proof.
  intros E a eps i Heps Habove Hi.
  set (s := jacobiSvd E a) in *. set (tol := tolerance_of E a eps) in *.
  assert (Ht : 0 <= tol).
  { unfold tol, tolerance_of. real_ops.
    apply Rmult_le_pos; [apply Rmult_le_pos; [exact Heps|]|].
    - apply IZR_le. lia.
    - apply maxCoeff_abs_nonneg. }
  assert (Hin : In (nth i (singularValues s) 0) (singularValues s))
    by (apply nth_In; exact Hi).
  pose proof (Habove _ Hin) as Hgt.
  rewrite select_inverse_rule.
  set (f := fun v => if Rle_dec (Rabs v) tol then 0 else 1 / v).
  assert (Hnth : nth i (map f (singularValues s)) 0
                 = f (nth i (singularValues s) 0)).
  { transitivity (nth i (map f (singularValues s)) (f 0)).
    - apply nth_indep. rewrite length_map. exact Hi.
    - apply map_nth. }
  rewrite Hnth. unfold f.
  destruct (Rle_dec _ _) as [Hle|_]; [lra|].
  assert (nth i (singularValues s) 0 <> 0).
  { intro H0. rewrite H0, Rabs_R0 in Hgt. lra. }
  field. assumption.
Qed.

Lemma pinv_right_inverse :
  forall (E : Extern R) (a : matrix R) (eps : R),
    0 <= eps ->
    (rows a <= cols a)%nat ->
    thin_svd a (jacobiSvd E a) ->
    (forall v, In v (singularValues (jacobiSvd E a)) ->
               tolerance_of E a eps < Rabs v) ->
    meq (mmul a (pseudoInverse E a eps)) (Identity (rows a)).
Proof.
  intros E a eps Heps Hwide Hsvd Habove.
  set (s := jacobiSvd E a) in *.
  set (tol := tolerance_of E a eps) in *.
  destruct Hsvd as [Hk HUr HUc HVr HVc Hprod HUo HVo HUs HVs].
  assert (Hn : length (singularValues s) = rows a) by (rewrite Hk; lia).
  rewrite Hn in *.
  specialize (HUs Hwide).
  set (D := asDiagonal (singularValues s)) in *.
  set (D' := asDiagonal (select_inverse tol (singularValues s))).
  assert (HDD' : meq (mmul D D') (Identity (rows a))).
  { apply diag_product; [exact Hn | unfold select_inverse; rewrite length_map; exact Hn|].
    intros i Hi.
    apply (@sigma_times_selected E a eps i Heps Habove). fold s. lia. }
  assert (HDr : rows D = rows a) by (cbn; exact Hn).
  assert (HD'r : rows D' = rows a)
    by (cbn; unfold select_inverse; rewrite length_map; exact Hn).
  change (pseudoInverse E a eps)
    with (mmul (mmul (matrixV s) D') (transpose (matrixU s))).
  eapply meq_trans.
  - apply mmul_meq; [exact Hprod | apply meq_refl | cbn; congruence].
  - apply (@sandwich_wide (rows a) (cols a)); assumption.
Qed.

(** X20.  For a matrix with no more rows than columns whose singular
    values all exceed the tolerance, [pseudoInverse] is a right inverse
    (exact arithmetic, under the contract of a thin SVD): A * A+ is the
    identity, so A+ * b solves A x = b for every right-hand side b. *)
Theorem X20_pseudo_inverse_right_inverse :
  forall (E : Extern R) (a b : matrix R) (eps : R),
    0 <= eps ->
    (rows a <= cols a)%nat ->
    thin_svd a (jacobiSvd E a) ->
    (forall v, In v (singularValues (jacobiSvd E a)) ->
               tolerance_of E a eps < Rabs v) ->
    rows b = rows a ->
    meq (mmul a (pseudoInverse E a eps)) (Identity (rows a))
    /\ meq (mmul a (mmul (pseudoInverse E a eps) b)) b.
Proof.
  intros E a b eps Heps Hwide Hsvd Habove Hb.
  pose proof (@pinv_right_inverse E a eps Heps Hwide Hsvd Habove) as H.
  split; [exact H|].
  eapply meq_trans; [apply meq_sym, mmul_assoc_meq|].
  eapply meq_trans.
  - apply mmul_meq; [exact H | apply meq_refl|].
    cbn [cols mmul rows pseudoInverse transpose].
    destruct Hsvd as [_ HUr _ _ _ _ _ _ _ _]. congruence.
  - apply mmul_id_l. exact Hb.
Qed.

End PseudoInverseWide.

Section MixerSystems.

Local Open Scope R_scope.

(** The four linear systems of [quatosToolCalc], each with its
    right-hand side and the vector the program solves it for. *)
Lemma mixer_vectors :
  forall (E : Extern R) (d : quatosData_t (T := R)) (A B X : matrix R),
    In (A, B, X) (mixer_systems (quatosToolCalc E d)) ->
    X = mmul (pseudoInverse E A feps) B /\ rows B = rows A.
Proof.
  intros E d A B X H. unfold mixer_systems in H. cbv zeta in H.
  destruct H as [H|[H|[H|[H|[]]]]]; injection H as <- <- <-;
    split; reflexivity.
Qed.

Lemma eps_nonneg : 0 <= feps.
Proof. pose proof eps_small as [H _]. real_ops. lra. Qed.

(** X21.  Each of the four response vectors solves its system exactly
    (exact arithmetic, under the contract of a thin SVD, on a record
    within the ranges of the computation), when the system has no more
    rows than the frame has motors and its singular values all exceed the
    tolerance: A * ROLL = (0, 0, 1) for the roll system, and
    likewise PITCH, YAW, and A * THROT = (0, 0, 0, n) for the throttle
    system. *)
Theorem X21_mixer_vectors_solve_their_systems :
  forall (E : Extern R) (d : quatosData_t (T := R)) (A B X : matrix R),
    calc_fits E d = true ->
    In (A, B, X) (mixer_systems (quatosToolCalc E d)) ->
    (rows A <= cols A)%nat ->
    thin_svd A (jacobiSvd E A) ->
    (forall v, In v (singularValues (jacobiSvd E A)) ->
               tolerance_of E A feps < Rabs v) ->
    meq (mmul A X) B.
Proof.
  intros E d A B X _ Hin Hwide Hsvd Habove.
  destruct (@mixer_vectors E d A B X Hin) as [-> Hb].
  pose proof (@pinv_right_inverse E A feps eps_nonneg Hwide Hsvd Habove) as H.
  eapply meq_trans; [apply meq_sym, mmul_assoc_meq|].
  eapply meq_trans.
  - apply mmul_meq; [exact H | apply meq_refl|].
    cbn [cols mmul rows pseudoInverse transpose].
    destruct Hsvd as [_ HUr _ _ _ _ _ _ _ _]. congruence.
  - apply mmul_id_l. exact Hb.
Qed.

End MixerSystems.

Section OrthogonalRowsSVD.

Local Open Scope R_scope.

Variable a : matrix R.
Hypothesis Hwide : (rows a < cols a)%nat.
Hypothesis Hnorm : forall i, (i < rows a)%nat -> 0 < row_norm2 a i.
Hypothesis Horth :
  forall i k, (i < rows a)%nat -> (k < rows a)%nat -> i <> k ->
    sum_upto (cols a) (fun j => coeff a i j * coeff a k j) = 0.

Let sv := map (fun i => R_sqrt.sqrt (row_norm2 a i)) (seq 0 (rows a)).

Lemma sv_length : length sv = rows a.
Proof. unfold sv. rewrite length_map, length_seq. reflexivity. Qed.

Lemma sv_nth :
  forall i, (i < rows a)%nat -> nth i sv 0 = R_sqrt.sqrt (row_norm2 a i).
Proof. intros i Hi. unfold sv. apply nth_map_seq. exact Hi. Qed.

Lemma sv_positive : forall i, (i < rows a)%nat -> 0 < nth i sv 0.
Proof.
  intros i Hi. rewrite sv_nth by exact Hi. apply sqrt_lt_R0. apply Hnorm. exact Hi.
Qed.

Lemma identity_orthogonal :
  forall m : nat,
    meq (mmul (transpose (Identity m)) (Identity m)) (Identity m)
    /\ meq (mmul (Identity m) (transpose (Identity m))) (Identity m).
Proof.
  intro m.
  assert (Ht : meq (transpose (Identity (T := R) m)) (Identity m)).
  { split; [reflexivity|]. split; [reflexivity|].
    intros i j _ _. cbn. rewrite Nat.eqb_sym. reflexivity. }
  split.
  - eapply meq_trans.
    + apply mmul_meq; [exact Ht | apply meq_refl | reflexivity].
    + apply mmul_id_l. reflexivity.
  - eapply meq_trans.
    + apply mmul_meq; [apply meq_refl | exact Ht | reflexivity].
    + apply mmul_id_l. reflexivity.
Qed.

(** The decomposition [svd_of_orthogonal_rows] answers with is a thin SVD
    of a matrix with mutually orthogonal non-zero rows, fewer than it has
    columns. *)
Lemma thin_svd_orthogonal_rows : thin_svd a (svd_of_orthogonal_rows a).
Proof.
  pose proof sv_length as Hlen.
  destruct (identity_orthogonal (rows a)) as [HI1 HI2].
  constructor; unfold svd_of_orthogonal_rows; fold sv;
    cbn [singularValues matrixU matrixV rows cols Identity];
    rewrite ?Hlen; try reflexivity; try lia.
  - (* the product *)
    split; [reflexivity|]. split; [reflexivity|].
    intros i j Hi Hj.
    transitivity (coeff (mmul (asDiagonal sv)
                           (transpose (mk_matrix (cols a) (rows a)
                                         (fun j i => coeff a i j / nth i sv 0))))
                    i j).
    + cbn [coeff mmul cols asDiagonal transpose]. rewrite Hlen.
      rewrite sum_upto_ext
        with (g := fun k => if Nat.eqb k i
                            then nth k sv 0 * (coeff a k j / nth k sv 0) else 0).
      * rewrite (@sum_upto_delta (rows a) i
                   (fun k => nth k sv 0 * (coeff a k j / nth k sv 0)) Hi).
        field. apply Rgt_not_eq. exact (sv_positive Hi).
      * intros k _. real_ops. rewrite (Nat.eqb_sym i k).
        destruct (Nat.eqb_spec k i) as [->|_]; lra.
    + symmetry. 
      assert (H : meq (mmul (Identity (rows a)) (asDiagonal sv)) (asDiagonal sv))
        by (apply mmul_id_l; cbn; exact Hlen).
      assert (H' : meq (mmul (mmul (Identity (rows a)) (asDiagonal sv))
                          (transpose (mk_matrix (cols a) (rows a)
                                        (fun j i => coeff a i j / nth i sv 0))))
                     (mmul (asDiagonal sv)
                        (transpose (mk_matrix (cols a) (rows a)
                                      (fun j i => coeff a i j / nth i sv 0))))).
      { apply mmul_meq; [exact H | apply meq_refl | cbn; rewrite Hlen; reflexivity]. }
      destruct H' as (_ & _ & H'). apply H'; cbn; assumption.
  - exact HI1.
  - (* the columns of V *)
    split; [reflexivity|]. split; [reflexivity|].
    intros i k Hi Hk. cbn in Hi, Hk.
    cbn [coeff mmul cols transpose rows Identity].
    rewrite sum_upto_ext
      with (g := fun j => (coeff a i j * coeff a k j) * / (nth i sv 0 * nth k sv 0)).
    2:{ intros j _. real_ops. field.
        split; apply Rgt_not_eq; [exact (sv_positive Hk) | exact (sv_positive Hi)]. }
    rewrite sum_upto_scal_r.
    destruct (Nat.eqb_spec i k) as [->|Hne].
    + fold (row_norm2 a k). rewrite sv_nth by exact Hk.
      rewrite sqrt_sqrt by (apply Rlt_le, Hnorm; exact Hk).
      real_ops. field. pose proof (Hnorm Hk). lra.
    + rewrite (Horth Hi Hk Hne). real_ops. lra.
  - intros _. exact HI2.
Qed.

End OrthogonalRowsSVD.

(** * The port-order words *)

Section PortWords.

Import PortOrder.
Local Open Scope Z_scope.

Lemma lor_disjoint :
  forall x y k : Z,
    0 <= k -> 0 <= x -> x mod 2 ^ k = 0 -> 0 <= y < 2 ^ k ->
    Z.lor x y = x + y.
Proof.
  intros x y k Hk Hx Hmod Hy.
  assert (Hland : Z.land x y = 0).
  { apply Z.bits_inj'. intros n Hn. rewrite Z.land_spec, Z.bits_0.
    destruct (Z.lt_ge_cases n k) as [Hlt|Hge].
    - assert (Hb : Z.testbit x n = false).
      { rewrite <- (Z.mod_pow2_bits_low x k n) by lia. rewrite Hmod. apply Z.bits_0. }
      rewrite Hb. reflexivity.
    - assert (Hb : Z.testbit y n = false).
      { destruct (Z.eq_dec y 0) as [->|Hy0]; [apply Z.bits_0|].
        apply Z.bits_above_log2; [lia|].
        apply Z.lt_le_trans with k; [|exact Hge].
        apply Z.log2_lt_pow2; lia. }
      rewrite Hb. apply andb_false_r. }
  pose proof (Z.add_lor_land x y) as H. rewrite Hland in H. lia.
Qed.

Lemma packed_bounds :
  forall (ports : list Z) (base : nat) (lo : Z) (count : nat),
    0 <= lo ->
    (forall i, (i < count)%nat -> 0 <= nth (i + base) ports 0 < 16) ->
    0 <= packed ports base lo count < 2 ^ (lo + 4 * Z.of_nat count)
    /\ packed ports base lo count mod 2 ^ lo = 0.
Proof.
  intros ports base lo count Hlo. induction count as [|k IH]; intro Hp.
  - cbn [packed]. rewrite Z.mod_0_l by (apply Z.pow_nonzero; lia).
    split; [|reflexivity]. split; [lia | apply Z.pow_pos_nonneg; lia].
  - destruct IH as [[IH0 IH1] IH2]; [intros i Hi; apply Hp; lia|].
    specialize (Hp k ltac:(lia)). cbn [packed].
    set (q := nth (k + base) ports 0) in *.
    set (S := packed ports base lo k) in *.
    assert (Hpow : 2 ^ (lo + 4 * Z.of_nat (Datatypes.S k))
                   = 16 * 2 ^ (lo + 4 * Z.of_nat k)).
    { replace (lo + 4 * Z.of_nat (Datatypes.S k)) with (4 + (lo + 4 * Z.of_nat k)) by lia.
      rewrite Z.pow_add_r by lia. reflexivity. }
    assert (Hpos : 0 < 2 ^ (lo + 4 * Z.of_nat k)) by (apply Z.pow_pos_nonneg; lia).
    split.
    + rewrite Hpow. nia.
    + replace (lo + 4 * Z.of_nat k) with (4 * Z.of_nat k + lo) by lia.
      rewrite Z.pow_add_r by lia. rewrite Z.mul_assoc.
      rewrite Z.mod_add by (apply Z.pow_nonzero; lia). exact IH2.
Qed.

Lemma pack_fold :
  forall (ports : list Z) (base : nat) (lo : Z) (count : nat) (acc : Z),
    0 <= lo -> lo + 4 * Z.of_nat count <= 64 ->
    (forall i, (i < count)%nat -> 0 <= nth (i + base) ports 0 < 16) ->
    0 <= acc -> acc mod 2 ^ (lo + 4 * Z.of_nat count) = 0 ->
    fold_left
      (fun a i =>
         Z.lor a (ulong (Z.shiftl (ulong (nth (i + base) ports 0))
                           (lo + 4 * Z.of_nat i))))
      (rev (seq 0 count)) acc
    = acc + packed ports base lo count.
Proof.
  intros ports base lo count. induction count as [|k IH];
    intros acc Hlo Hfit Hp Hacc Hmod.
  - cbn. lia.
  - rewrite seq_S, rev_app_distr. cbn [rev app fold_left Nat.add].
    pose proof (Hp k ltac:(lia)) as Hq.
    set (q := nth (k + base) ports 0) in *.
    assert (Hpos : 0 < 2 ^ (lo + 4 * Z.of_nat k)) by (apply Z.pow_pos_nonneg; lia).
    assert (Hpow : 2 ^ (lo + 4 * Z.of_nat (S k)) = 16 * 2 ^ (lo + 4 * Z.of_nat k)).
    { replace (lo + 4 * Z.of_nat (S k)) with (4 + (lo + 4 * Z.of_nat k)) by lia.
      rewrite Z.pow_add_r by lia. reflexivity. }
    assert (Hle : 2 ^ (lo + 4 * Z.of_nat (S k)) <= 2 ^ 64)
      by (apply Z.pow_le_mono_r; lia).
    assert (Hterm : ulong (Z.shiftl (ulong q) (lo + 4 * Z.of_nat k))
                    = q * 2 ^ (lo + 4 * Z.of_nat k)).
    { unfold ulong. rewrite (Z.mod_small q) by lia.
      rewrite Z.shiftl_mul_pow2 by lia. apply Z.mod_small. nia. }
    rewrite Hterm.
    assert (Hq0 : 0 <= q * 2 ^ (lo + 4 * Z.of_nat k) < 2 ^ (lo + 4 * Z.of_nat (S k)))
      by (rewrite Hpow; nia).
    rewrite (@lor_disjoint acc (q * 2 ^ (lo + 4 * Z.of_nat k))
               (lo + 4 * Z.of_nat (S k)) ltac:(lia) Hacc Hmod Hq0).
    assert (Hacc' : 0 <= acc + q * 2 ^ (lo + 4 * Z.of_nat k)) by lia.
    assert (Hmod' : (acc + q * 2 ^ (lo + 4 * Z.of_nat k))
                    mod 2 ^ (lo + 4 * Z.of_nat k) = 0).
    { rewrite Hpow in Hmod.
      apply Z.mod_divide in Hmod; [|lia]. destruct Hmod as [c Hc].
      rewrite Hc.
      replace (c * (16 * 2 ^ (lo + 4 * Z.of_nat k)) + q * 2 ^ (lo + 4 * Z.of_nat k))
        with ((c * 16 + q) * 2 ^ (lo + 4 * Z.of_nat k)) by ring.
      apply Z.mod_mul. lia. }
    assert (Hp' : forall i, (i < k)%nat -> 0 <= nth (i + base) ports 0 < 16)
      by (intros i Hi; apply Hp; lia).
    rewrite (IH (acc + q * 2 ^ (lo + 4 * Z.of_nat k)) Hlo ltac:(lia) Hp' Hacc' Hmod').
    cbn [packed]. fold q. lia.
Qed.

Lemma packed_field :
  forall (ports : list Z) (base : nat) (lo : Z) (count i : nat),
    0 <= lo ->
    (forall i, (i < count)%nat -> 0 <= nth (i + base) ports 0 < 16) ->
    (i < count)%nat ->
    (packed ports base lo count / 2 ^ (lo + 4 * Z.of_nat i)) mod 16
    = nth (i + base) ports 0.
Proof.
  intros ports base lo count i Hlo. induction count as [|k IH]; intros Hp Hi; [lia|].
  cbn [packed].
  pose proof (Hp k ltac:(lia)) as Hq.
  set (q := nth (k + base) ports 0) in *.
  assert (Hpi : 0 < 2 ^ (lo + 4 * Z.of_nat i)) by (apply Z.pow_pos_nonneg; lia).
  destruct (Nat.eq_dec i k) as [->|Hne].
  - destruct (@packed_bounds ports base lo k Hlo) as [[H0 H1] _];
      [intros j Hj; apply Hp; lia|].
    rewrite Z.div_add by lia. rewrite Z.div_small by lia.
    fold q. apply Z.mod_small. lia.
  - assert (Hsplit : 2 ^ (lo + 4 * Z.of_nat k)
                     = 2 ^ (4 * (Z.of_nat k - Z.of_nat i - 1)) * 16
                       * 2 ^ (lo + 4 * Z.of_nat i)).
    { replace (lo + 4 * Z.of_nat k)
        with (4 * (Z.of_nat k - Z.of_nat i - 1) + 4 + (lo + 4 * Z.of_nat i)) by lia.
      rewrite !Z.pow_add_r by lia. reflexivity. }
    rewrite Hsplit, !Z.mul_assoc.
    rewrite Z.div_add by lia. rewrite Z.mod_add by lia.
    apply IH; [intros j Hj; apply Hp; lia | lia].
Qed.

Lemma packed_extend :
  forall (ports : list Z) (base : nat) (lo : Z) (count more : nat),
    (forall k, (count <= k < count + more)%nat -> nth (k + base) ports 0 = 0) ->
    packed ports base lo (count + more) = packed ports base lo count.
Proof.
  intros ports base lo count more. induction more as [|m IH]; intro H.
  - rewrite Nat.add_0_r. reflexivity.
  - rewrite Nat.add_succ_r. cbn [packed].
    rewrite IH by (intros k Hk; apply H; lia). rewrite H by lia. lia.
Qed.

Lemma nth_in_range :
  forall (ports : list Z) (k : nat),
    (forall p, In p ports -> 0 <= p < 16) -> 0 <= nth k ports 0 < 16.
Proof.
  intros ports k H. destruct (Nat.lt_ge_cases k (length ports)) as [Hk|Hk].
  - apply H. apply nth_In. exact Hk.
  - rewrite nth_overflow by exact Hk. lia.
Qed.

Lemma field_spec :
  forall bits lo width : Z,
    0 <= lo -> 0 <= width ->
    field bits lo width = (bits / 2 ^ lo) mod 2 ^ width.
Proof.
  intros bits lo width Hlo Hw. unfold field.
  rewrite Z.shiftr_div_pow2 by exact Hlo.
  replace (2 ^ width - 1) with (Z.ones width)
    by (rewrite Z.ones_equiv; lia).
  apply Z.land_ones. exact Hw.
Qed.

Lemma div_above :
  forall x low lo m : Z,
    0 <= lo <= m -> x mod 2 ^ lo = 0 -> 0 <= low < 2 ^ lo ->
    (x + low) / 2 ^ m = x / 2 ^ m.
Proof.
  intros x low lo m Hm Hx Hlow.
  assert (Hpl : 0 < 2 ^ lo) by (apply Z.pow_pos_nonneg; lia).
  assert (Hpm : 0 < 2 ^ (m - lo)) by (apply Z.pow_pos_nonneg; lia).
  assert (Hsplit : 2 ^ m = 2 ^ lo * 2 ^ (m - lo)).
  { rewrite <- Z.pow_add_r by lia. f_equal. lia. }
  rewrite Hsplit, <- !Z.div_div by lia. f_equal.
  apply Z.mod_divide in Hx; [|lia]. destruct Hx as [c ->].
  rewrite Z.div_add_l by lia. rewrite (Z.div_small low) by lia.
  rewrite Z.div_mul by lia. lia.
Qed.

(** The word with [count] ports packed from bit [lo] on, and [low] below
    bit [lo]. *)
Lemma word_fields :
  forall (ports : list Z) (base : nat) (lo low : Z) (count : nat),
    0 <= lo -> lo + 4 * Z.of_nat count <= 32 ->
    (forall p, In p ports -> 0 <= p < 16) ->
    0 <= low < 2 ^ lo ->
    let w := float_bits (packed ports base lo count + low) in
    field w 0 lo = low
    /\ forall i, (i < count)%nat ->
         field w (lo + 4 * Z.of_nat i) 4 = nth (i + base) ports 0.
Proof.
  intros ports base lo low count Hlo Hfit Hp Hlow w.
  assert (Hq : forall i, (i < count)%nat -> 0 <= nth (i + base) ports 0 < 16)
    by (intros i _; apply nth_in_range; exact Hp).
  destruct (@packed_bounds ports base lo count Hlo Hq) as [[H0 H1] H2].
  assert (Hle : 2 ^ (lo + 4 * Z.of_nat count) <= 2 ^ 32)
    by (apply Z.pow_le_mono_r; lia).
  assert (Hpl : 0 < 2 ^ lo) by (apply Z.pow_pos_nonneg; lia).
  apply Z.mod_divide in H2; [|lia]. destruct H2 as [c Hc].
  assert (Hlt : packed ports base lo count + low < 2 ^ (lo + 4 * Z.of_nat count)).
  { assert (Hpc : 0 < 2 ^ (4 * Z.of_nat count)) by (apply Z.pow_pos_nonneg; lia).
    assert (Hsplit : 2 ^ (lo + 4 * Z.of_nat count)
                     = 2 ^ (4 * Z.of_nat count) * 2 ^ lo).
    { rewrite <- Z.pow_add_r by lia. f_equal. lia. }
    rewrite Hsplit in *. rewrite Hc in *.
    assert (Hcl : c < 2 ^ (4 * Z.of_nat count)) by nia.
    assert (Hcl' : (c + 1) * 2 ^ lo <= 2 ^ (4 * Z.of_nat count) * 2 ^ lo)
      by (apply Z.mul_le_mono_nonneg_r; lia).
    lia. }
  assert (Hw : w = packed ports base lo count + low).
  { subst w. unfold float_bits. apply Z.mod_small. lia. }
  rewrite Hw. split.
  - rewrite field_spec by lia. rewrite Z.pow_0_r, Z.div_1_r.
    rewrite Hc, Z.add_comm, Z.mod_add by lia. apply Z.mod_small. exact Hlow.
  - intros i Hi. rewrite field_spec by lia. change (2 ^ 4) with 16.
    rewrite <- (@packed_field ports base lo count i Hlo Hq Hi).
    f_equal. apply (@div_above _ _ lo); [lia | | exact Hlow].
    rewrite Hc. apply Z.mod_mul. lia.
Qed.

(** X22.  With every port number within 0 .. 15 and the config id within
    0 .. 255, the two 32-bit patterns that [main] reads as the floats
    DEFAULT_MOT_FRAME and DEFAULT_MOT_FRAME_H hold what the comment in
    [main] says: the config id in the 8 low bits of
    the first word, the port of motor i (i < 6) in the 4 bits from bit
    8 + 4 i on, and in the second word, written when there are more than 6
    motors, the port of motor 6 + i (i < 8) in the 4 bits from bit 4 i on.
    Fields of motors the frame does not have are 0. *)
Theorem X22_port_word_fields :
  forall (ports : list Z) (configId : Z),
    (forall p, In p ports -> 0 <= p < 16) ->
    0 <= configId < 256 ->
    let w := float_bits (frame_word ports configId) in
    field w 0 8 = configId
    /\ (forall i, (i < 6)%nat -> field w (8 + 4 * Z.of_nat i) 4 = nth i ports 0)
    /\ match frame_word_h ports with
       | Some h =>
           (6 < length ports)%nat
           /\ forall i, (i < 8)%nat ->
                field (float_bits h) (4 * Z.of_nat i) 4 = nth (i + 6) ports 0
       | None => (length ports <= 6)%nat
       end.
Proof.
  intros ports configId Hp Hid w.
  assert (Hq : forall base i, 0 <= nth (i + base) ports 0 < 16)
    by (intros base i; apply nth_in_range; exact Hp).
  (* the first word *)
  set (count := Nat.min 6 (length ports)).
  assert (Hpack : pack ports 0 8 (Z.min 5 (Z.of_nat (length ports) - 1)) 0
                  = packed ports 0 8 6).
  { unfold pack.
    replace (Z.to_nat (Z.min 5 (Z.of_nat (length ports) - 1) + 1)) with count
      by (subst count; lia).
    rewrite pack_fold; try lia.
    - rewrite <- (@packed_extend ports 0%nat 8 count (6 - count)).
      + replace (count + (6 - count))%nat with 6%nat by (subst count; lia).
        reflexivity.
      + intros k Hk. rewrite Nat.add_0_r. apply nth_overflow. subst count. lia.
    - intros i _. apply Hq.
    - apply Z.mod_0_l. apply Z.pow_nonzero; lia. }
  assert (Hword : frame_word ports configId = packed ports 0 8 6 + configId).
  { unfold frame_word. cbv zeta. rewrite Hpack.
    destruct (@packed_bounds ports 0%nat 8 6 ltac:(lia) (fun i _ => Hq 0%nat i))
      as [[H0 H1] H2].
    unfold ulong. rewrite (Z.mod_small configId) by lia.
    apply (@lor_disjoint _ _ 8); try lia. }
  destruct (@word_fields ports 0%nat 8 configId 6 ltac:(lia) ltac:(lia) Hp
              ltac:(lia)) as [Hf0 Hfi].
  cbv zeta in Hf0, Hfi. subst w. rewrite Hword.
  split; [exact Hf0|]. split.
  - intros i Hi. rewrite (Hfi i Hi), Nat.add_0_r. reflexivity.
  - (* the second word *)
    unfold frame_word_h. cbv zeta.
    destruct (Z.ltb_spec 6 (Z.of_nat (length ports))) as [Hlen|Hlen]; [|lia].
    split; [lia|].
    set (count' := Nat.min 8 (length ports - 6)).
    assert (Hpack' : pack ports 6 0 (Z.min 7 (Z.of_nat (length ports) - 7)) 0
                     = packed ports 6 0 8).
    { unfold pack.
      replace (Z.to_nat (Z.min 7 (Z.of_nat (length ports) - 7) + 1)) with count'
        by (subst count'; lia).
      rewrite pack_fold; try lia.
      - rewrite <- (@packed_extend ports 6%nat 0 count' (8 - count')).
        + replace (count' + (8 - count'))%nat with 8%nat by (subst count'; lia).
          reflexivity.
        + intros k Hk. apply nth_overflow. subst count'. lia.
      - intros i _. apply Hq.
      - apply Z.mod_0_l. apply Z.pow_nonzero; lia. }
    rewrite Hpack'.
    destruct (@word_fields ports 6%nat 0 0 8 ltac:(lia) ltac:(lia) Hp
                ltac:(cbn; lia)) as [_ Hfi'].
    cbv zeta in Hfi'. rewrite Z.add_0_r in Hfi'.
    intros i Hi. specialize (Hfi' i Hi). rewrite Z.add_0_l in Hfi'. exact Hfi'.
Qed.

End PortWords.

(** * The statements at concrete inputs *)

Section FrontEndExamples.

Import Ascii String CString Names Parser Parser.context Documents.
Local Open Scope string_scope.
Local Open Scope Z_scope.

(** The hypotheses of X4 hold of four motors on ports 3, 1, 4, 2 and the
    table Mt: the T line of port 1 carries row 1, and in the .mix output
    the first of the 16 lines of the second section, [Roll], carries
    column 1 of row 1. *)
Lemma X4_ports_3142 :
  In (Output.Motor "#define DEFAULT_MOT_PWRD_" 1 "_T" (coeff sample_Mt 1 0))
    (Output.quatosToolMatrixOutput (fun v : R => v) (fun v : R => v) false
       [3; 1; 4; 2] "Mt" sample_Mt)
  /\ exists before motors after : list Output.line,
       Output.quatosToolMatrixOutput (fun v : R => v) (fun v : R => v) true
         [3; 1; 4; 2] "Mt" sample_Mt
       = (before ++ [Output.Text "[Roll]"] ++ motors
          ++ Output.Text "" :: after)%list
       /\ List.length before = 19%nat
       /\ List.length motors = 16%nat
       /\ nth_error motors 0
          = Some (Output.Motor "Motor" 1 ""
                    (coeff sample_Mt 1 1 * 10000 / 10000)%R).
Proof.
  assert (H1 : NoDup [3; 1; 4; 2]).
  { repeat constructor; cbn; intuition discriminate. }
  assert (H2 : forall p, In p [3; 1; 4; 2] -> 1 <= p <= NUM_PORTS).
  { intros p Hp. unfold NUM_PORTS. cbn in Hp. intuition lia. }
  assert (H3 : (1 < List.length [3; 1; 4; 2])%nat) by (cbn; lia).
  assert (H4 : strcmp "Mt" "J" <> 0) by (vm_compute; discriminate).
  pose proof (@X4_output_by_port R ScalarR (fun v => v) (fun v => v)
                [3; 1; 4; 2] "Mt" sample_Mt 1%nat H1 H2 H3 H4) as [Hout Hmix].
  split; [exact (proj1 Hout)|].
  destruct (Hmix 1%nat ltac:(vm_compute; lia))
    as (before & motors & after & Heq & Hb & _ & Hm & Hn).
  exists before, motors, after.
  split; [exact Heq|]. split; [exact Hb|]. split; [exact Hm|]. exact Hn.
Defined.

(** The hypothesis of X5 holds of an element named "frame". *)
Lemma X5_frame_element :
  run Examples.libc
    (StartElement "frame" [] :: chars "x" ++ EndElement "frame" :: []) (initial "")
  = run Examples.libc (chars "x" ++ EndElement "craft" :: [])
      (with_value (fst (initial "")) "", snd (initial "")).
Proof.
  assert (H : quatosToolElementIdByName "frame" = -1
              \/ MAX_DEPTH - 1 <= level (fst (initial (T := R) ""))).
  { left. vm_compute. reflexivity. }
  exact (proj1 (@X5_unknown_element_closes_parent R ScalarR Examples.libc
                  (initial "") "frame" [] "x" [] H) "craft").
Defined.

(** X6 at a document with two elements of unknown name in the root. *)
Lemma X6_two_unknown_elements :
  run Examples.libc
    [ StartElement "quatos_configuration" [];
      StartElement "a" []; EndElement "a";
      StartElement "b" []; EndElement "b";
      EndElement "quatos_configuration" ] (initial "")
  = Undefined.
Proof.
  assert (Ha : quatosToolElementIdByName "a" = -1) by (vm_compute; reflexivity).
  assert (Hb : quatosToolElementIdByName "b" = -1) by (vm_compute; reflexivity).
  exact (proj2 (proj2 (@X6_element_stack_bounds R ScalarR Examples.libc))
           "" "a" "b" [] [] [] Ha Hb).
Defined.

(** X7 at a document that is an empty root element. *)
Lemma X7_empty_root :
  Tool.quatosTool exact_library Examples.libc ""
    [StartElement "quatos_configuration" []; EndElement "quatos_configuration"]
    true
  = Tool.Returned (-1) None.
Proof.
  refine (proj2 (proj2 (@X7_validity R ScalarR Examples.libc))
            exact_library ""
            [StartElement "quatos_configuration" [];
             EndElement "quatos_configuration"]
            _ _ _).
  - vm_compute. reflexivity.
  - reflexivity.
Defined.

(** The hypotheses of X8 hold of a [ports] element with the text "12". *)
Lemma X8_short_text :
  run Examples.libc (StartElement "ports" [] :: chars "12" ++ []) (initial "")
  = Ok (mk_context [0; 2; 0; 0; 0; 0; 0; 0; 0; 0; 0; 0; 0; 0; 0; 0] 1 0 0 "12",
        snd (initial "")).
Proof.
  assert (H : startElement Examples.libc (initial "") "ports" []
              = Ok (mk_context [0; 2; 0; 0; 0; 0; 0; 0; 0; 0; 0; 0; 0; 0; 0; 0]
                      1 0 0 "",
                    snd (initial ""))) by reflexivity.
  assert (Hlen : Z.of_nat (String.length "12") <= 256) by (cbn; lia).
  exact (proj2 (@X8_value_buffer R ScalarR Examples.libc _ _ "ports" [] "12" [] H)
           Hlen).
Defined.

(** The hypothesis of X9 holds of a custom craft without a motors
    attribute. *)
Lemma X9_custom_without_motors :
  1 = 1
  /\ exists name atts config,
       StartElement "craft" [("id", "q"); ("config", "custom")]
       = StartElement name atts
       /\ quatosToolElementIdByName name = ELEMENT_CRAFT
       /\ quatosToolFindAttr atts "config" = Some config
       /\ quatosToolConfigTypeByName config = config_value CONFIG_CUSTOM
       /\ (quatosToolFindAttr atts "motors" = None
           \/ exists motors,
                quatosToolFindAttr atts "motors" = Some motors
                /\ atoi Examples.libc motors = 0).
Proof.
  assert (H : handle Examples.libc (initial "")
                (StartElement "craft" [("id", "q"); ("config", "custom")])
              = Exit 1) by reflexivity.
  exact (@X9_exit_only_for_custom_without_motors R ScalarR Examples.libc
           (initial "") _ 1 H).
Defined.

(** The hypotheses of X10 hold of a quad "x" with config id 7. *)
Lemma X10_config_id_7 :
  parseCraft Examples.libc (fst (initial "")) (snd (initial ""))
    [("id", "q"); ("configId", "7"); ("config", "quad_x")]
  = Ok (fst (initial ""),
        quatosData.set_craftType
          (quatosData.set_craftId (snd (initial "")) (text "q")) (-1)).
Proof.
  assert (H1 : head (quatosData.craftId (snd (initial (T := R) ""))) = 0)
    by reflexivity.
  assert (H2 : Z.of_nat (strlen "q") < 256) by (cbn; lia).
  assert (H3 : quatosToolConfigTypeByName "7" = -1) by (vm_compute; reflexivity).
  assert (H4 : quatosToolConfigTypeByName "quad_x" = config_value CONFIG_QUAD_X)
    by (vm_compute; reflexivity).
  assert (H5 : CONFIG_QUAD_X <> CONFIG_CUSTOM) by discriminate.
  exact (proj1 (@X10_configId_before_config R ScalarR Examples.libc
                  (fst (initial "")) (snd (initial "")) "q" "7" "quad_x"
                  CONFIG_QUAD_X H1 H2 H3 H4 H5)).
Defined.

(** The hypotheses of X11 hold of a quad "x" document with four port
    elements, whose white space and texts are reported one character per
    piece, but for the text 16 of the second element, reported in one
    piece: the first motor is on port 16, the second on port 1. *)
Lemma X11_quad_x_document :
  Tool.quatosTool exact_library Examples.libc ""
    (reported_document [" "] "q" "quad_x"
       [("1", ["1"; "6"]); ("-1", ["16"]); ("1", ["4"]); ("-1", ["2"])]) true
  = Tool.Returned 0
      (Some (quatosToolCalc exact_library
               (standard_craft CONFIG_QUAD_X [16; 1; 4; 2] [1; -1; 1; -1]))).
Proof.
  assert (H1 : CONFIG_QUAD_X <> CONFIG_CUSTOM) by discriminate.
  assert (H2 : quatosToolConfigTypeByName "quad_x" = config_value CONFIG_QUAD_X)
    by (vm_compute; reflexivity).
  assert (H3 : head "" = 0 \/ strcmp "q" "" = 0) by (left; reflexivity).
  assert (H4 : Z.of_nat (strlen "q") < 256) by (cbn; lia).
  assert (H5 : 3 * Z.of_nat (String.length (stored [" "])) <= 256) by (cbn; lia).
  assert (H6 : forall p,
             In p [("1", ["1"; "6"]); ("-1", ["16"]); ("1", ["4"]); ("-1", ["2"])] ->
             Z.of_nat (String.length (stored (snd p)))
             + 3 * Z.of_nat (String.length (stored [" "])) <= 256
             /\ Z.of_nat (String.length (stored (snd p))) < 256).
  { intros p [<-|[<-|[<-|[<-|[]]]]]; cbn; lia. }
  assert (H7 : Z.of_nat (List.length
                           [("1", ["1"; "6"]); ("-1", ["16"]); ("1", ["4"]);
                            ("-1", ["2"])])
               <= Tool.standard_count CONFIG_QUAD_X) by (cbn; lia).
  exact (proj1 (@X11_standard_document R ScalarR exact_library Examples.libc
                  [" "] "q" "quad_x" "" CONFIG_QUAD_X _ H1 H2 H3 H4 H5 H6 H7)).
Defined.

(** The hypotheses of X12 hold of a quad "x" document with five port
    elements. *)
Lemma X12_quad_x_five_ports :
  Tool.quatosTool exact_library Examples.libc ""
    (standard_document " " "q" "quad_x"
       [("1", "3"); ("-1", "1"); ("1", "4"); ("-1", "2"); ("1", "5")]) true
  = Tool.Unspecified.
Proof.
  assert (H1 : CONFIG_QUAD_X <> CONFIG_CUSTOM) by discriminate.
  assert (H2 : quatosToolConfigTypeByName "quad_x" = config_value CONFIG_QUAD_X)
    by (vm_compute; reflexivity).
  assert (H3 : head "" = 0 \/ strcmp "q" "" = 0) by (left; reflexivity).
  assert (H4 : Z.of_nat (strlen "q") < 256) by (cbn; lia).
  assert (H5 : 3 * Z.of_nat (String.length " ") <= 256) by (cbn; lia).
  assert (H6 : forall p,
             In p [("1", "3"); ("-1", "1"); ("1", "4"); ("-1", "2"); ("1", "5")] ->
             Z.of_nat (String.length (snd p)) + 3 * Z.of_nat (String.length " ")
             <= 256
             /\ Z.of_nat (String.length (snd p)) < 256).
  { intros p [<-|[<-|[<-|[<-|[<-|[]]]]]]; cbn; lia. }
  assert (H7 : Tool.standard_count CONFIG_QUAD_X
               < Z.of_nat (List.length
                             [("1", "3"); ("-1", "1"); ("1", "4"); ("-1", "2");
                              ("1", "5")])) by (cbn; lia).
  exact (@X12_too_many_ports R ScalarR exact_library Examples.libc
           " " "q" "quad_x" "" CONFIG_QUAD_X _ true H1 H2 H3 H4 H5 H6 H7).
Defined.

End FrontEndExamples.

Section MassExamples.

Import Examples.
Local Open Scope R_scope.

Lemma trunc_unique :
  forall (v : R) (k : Z),
    0 <= v -> IZR k <= v < IZR k + 1 -> Exact.trunc v = k.
Proof.
  intros v k Hv [H1 H2].
  destruct (@trunc_bounds v Hv) as [H3 H4].
  assert (Ha : IZR (Exact.trunc v) < IZR (k + 1)) by (rewrite plus_IZR; lra).
  assert (Hb : IZR k < IZR (Exact.trunc v + 1)) by (rewrite plus_IZR; lra).
  apply lt_IZR in Ha, Hb. lia.
Qed.

Lemma small_block_fits : cells_fit small_block = true.
Proof.
  unfold cells_fit, small_block. cbn [dimX dimY dimZ]. real_ops.
  rewrite (@trunc_unique (2 / 1000 * 1000) 2) by lra.
  rewrite (@trunc_unique (1 / 1000 * 1000) 1) by lra.
  rewrite (@trunc_unique (3 / 1000 * 1000) 3) by lra.
  reflexivity.
Qed.


Lemma thin_plate_fits : cells_fit thin_plate = true.
Proof.
  unfold cells_fit, thin_plate. cbn [dimX dimY dimZ]. real_ops.
  rewrite (@trunc_unique (/ 2000 * 1000) 0) by lra.
  rewrite (@trunc_unique (1 * 1000) 1000) by lra.
  reflexivity.
Qed.

Lemma loaded_quad_fits : objects_fit loaded_quad = true.
Proof.
  unfold objects_fit.
  replace (forallb _ _) with true; [reflexivity|].
  symmetry. cbn [forallb seq length massObjects loaded_quad craft_record map].
  change (payload_obj loaded_quad 0) with small_block.
  rewrite small_block_fits. destruct (dimensioned small_block); reflexivity.
Qed.

(** The hypothesis of X14 holds of the quad that carries the small
    block. *)
Lemma X14_loaded_quad :
  coeff (J (quatosToolObjCalc loaded_quad)) 0 1
  = coeff (J (quatosToolObjCalc loaded_quad)) 1 0.
Proof.
  exact (proj1 (@X14_inertia_symmetric loaded_quad loaded_quad_fits) 0%nat 1%nat).
Defined.

(** The hypothesis of X15 holds of the quad that carries the small block:
    13 objects. *)
Lemma X15_loaded_quad :
  objectsCount (quatosToolObjCalc loaded_quad) = 13%nat
  /\ totalMass (quatosToolObjCalc loaded_quad)
     = (INR 4 * (massMot loaded_quad + massEsc loaded_quad + massArm loaded_quad)
        + total [6]) / 1000.
Proof.
  exact (@X15_object_count_and_mass loaded_quad loaded_quad_fits).
Defined.

(** The hypotheses of X16 hold of the thin plate. *)
Lemma X16_thin_plate :
  j_step (0, 0, 0) (Zero 3 3) thin_plate = Zero 3 3.
Proof.
  assert (Hd : dimensioned thin_plate = true).
  { unfold dimensioned, thin_plate. cbn [dimX dimY dimZ]. real_ops.
    unfold Exact.eqb.
    destruct (Req_dec_T (/ 2000) 0) as [H|_]; [exfalso; lra|].
    destruct (Req_dec_T 1 0) as [H|_]; [exfalso; lra|].
    reflexivity. }
  assert (Ht : dimX thin_plate < / 1000 \/ dimY thin_plate < / 1000
               \/ dimZ thin_plate < / 1000).
  { left. unfold thin_plate. cbn [dimX]. lra. }
  exact (@X16_thin_cuboid_adds_nothing (0, 0, 0) (Zero 3 3) thin_plate
           thin_plate_fits Hd Ht).
Defined.

(** The hypothesis of X17 holds of the small block. *)
Lemma X17_small_block :
  shape_cells (0, 0, 0) small_block <> [].
Proof.
  assert (Hx : / 1000 <= dimX small_block) by (unfold small_block; cbn [dimX]; lra).
  assert (Hy : / 1000 <= dimY small_block) by (unfold small_block; cbn [dimY]; lra).
  assert (Hz : / 1000 <= dimZ small_block) by (unfold small_block; cbn [dimZ]; lra).
  exact (proj2 (@X17_cuboid_cells_beside_offset (0, 0, 0) small_block
                  small_block_fits) Hx Hy Hz).
Defined.

(** The hypotheses of X18 hold of the small block. *)
Lemma X18_small_block :
  total (map mass (shape_cells (0, 0, 0) small_block)) = 6.
Proof.
  assert (Hx : / 1000 <= dimX small_block) by (unfold small_block; cbn [dimX]; lra).
  assert (Hy : / 1000 <= dimY small_block) by (unfold small_block; cbn [dimY]; lra).
  assert (Hz : / 1000 <= dimZ small_block) by (unfold small_block; cbn [dimZ]; lra).
  exact (@X18_cuboid_mass_conserved (0, 0, 0) small_block small_block_fits
           Hx Hy Hz).
Defined.

(** The hypotheses of X19 hold of the quad "+" with default masses. *)
Lemma X19_alternating_quad :
  offsetCG (quatosToolCalc exact_library alternating_quad) = (0, 0, 0).
Proof.
  assert (H1 : forall a, cosf exact_library a = cos a) by reflexivity.
  assert (H2 : calc_fits exact_library alternating_quad = true) by reflexivity.
  assert (H3 : craftType alternating_quad <> CONFIG_CUSTOM) by discriminate.
  assert (H4 : n alternating_quad = motor_count (craftType alternating_quad))
    by reflexivity.
  assert (H5 : massObjects alternating_quad = []) by reflexivity.
  assert (H6 : massMot alternating_quad + massEsc alternating_quad
               + massArm alternating_quad <> 0).
  { cbn. lra. }
  exact (@X19_standard_frame_cg_at_origin exact_library alternating_quad
           H1 H2 H3 H4 H5 H6).
Defined.

End MassExamples.

Section SystemExamples.

Local Open Scope R_scope.

(** The singular values the exact library reports for a matrix of at most
    16 rows and columns whose rows have squared norms between 1/64 and 4
    all exceed the tolerance of [pseudoInverse]. *)
Lemma row_norms_above_tolerance :
  forall a : matrix R,
    (Nat.max (cols a) (rows a) <= 16)%nat ->
    (forall i, (i < rows a)%nat -> / 64 <= row_norm2 a i <= 4) ->
    forall v, In v (singularValues (jacobiSvd exact_library a)) ->
              tolerance_of exact_library a feps < Rabs v.
Proof.
  intros a Hsize Hn v Hv.
  pose proof eps_small as [He0 He1].
  change (jacobiSvd exact_library a) with (svd_of_orthogonal_rows a) in *.
  cbn [singularValues svd_of_orthogonal_rows] in *.
  assert (Hb : forall w,
             In w (map (fun i => R_sqrt.sqrt (row_norm2 a i)) (seq 0 (rows a))) ->
             / 8 <= Rabs w <= 2).
  { intros w Hw. apply in_map_iff in Hw. destruct Hw as (i & <- & Hi).
    apply in_seq in Hi. destruct (Hn i ltac:(lia)) as [H1 H2].
    rewrite Rabs_pos_eq by apply sqrt_pos. split.
    - rewrite <- sqrt_64th. apply sqrt_le_1_alt. exact H1.
    - rewrite <- sqrt_4. apply sqrt_le_1_alt. exact H2. }
  assert (Hmax : 0 <= maxCoeff (cwiseAbs
                         (map (fun i => R_sqrt.sqrt (row_norm2 a i))
                            (seq 0 (rows a)))) <= 2).
  { split; [apply maxCoeff_abs_nonneg|].
    destruct (map (fun i => R_sqrt.sqrt (row_norm2 a i)) (seq 0 (rows a)))
      as [|w0 l] eqn:El; [destruct Hv|].
    assert (Hne : cwiseAbs (w0 :: l) <> []) by discriminate.
    destruct (maxCoeff_R Hne) as [_ Hin].
    unfold cwiseAbs in Hin at 2. apply in_map_iff in Hin.
    destruct Hin as (w & Hw & Hwin). rewrite <- Hw.
    real_ops. apply Hb. exact Hwin. }
  destruct (Hb v Hv) as [Hv1 _].
  unfold tolerance_of. real_ops.
  assert (Hk : 0 <= IZR (Z.of_nat (Nat.max (cols a) (rows a))) <= 16).
  { split; [apply IZR_le; lia|]. apply IZR_le. lia. }
  unfold Exact.eps in *.
  set (e := / 2 ^ 52) in *.
  set (k := IZR (Z.of_nat (Nat.max (cols a) (rows a)))) in *.
  set (m := maxCoeff _) in *.
  assert (e * k <= / 1024 * 16) by nra.
  assert (e * k * m <= / 1024 * 16 * 2) by nra.
  lra.
Qed.

(** The hypotheses of X20 hold of the 1 x 2 matrix of ones, with the
    exact library. *)
Lemma X20_row_of_ones :
  meq (mmul (Ones 1 2) (pseudoInverse exact_library (Ones 1 2) Exact.eps))
    (Identity 1).
Proof.
  pose proof eps_small as [He0 He1].
  assert (H1 : 0 <= Exact.eps) by lra.
  assert (H2 : (rows (Ones (T := R) 1 2) <= cols (Ones (T := R) 1 2))%nat)
    by (cbn; lia).
  assert (Hnorm : forall i, (i < rows (Ones (T := R) 1 2))%nat ->
                            / 64 <= row_norm2 (Ones 1 2) i <= 4).
  { intros i Hi. unfold row_norm2. cbn. lra. }
  assert (H3 : thin_svd (Ones 1 2) (jacobiSvd exact_library (Ones 1 2))).
  { apply thin_svd_orthogonal_rows.
    - cbn. lia.
    - intros i Hi. destruct (Hnorm i Hi). lra.
    - intros i k Hi Hk Hne. cbn in Hi, Hk. lia. }
  assert (H4 : forall v, In v (singularValues (jacobiSvd exact_library (Ones 1 2))) ->
                         tolerance_of exact_library (Ones 1 2) Exact.eps < Rabs v).
  { apply row_norms_above_tolerance; [cbn; lia | exact Hnorm]. }
  assert (H5 : rows (Identity (T := R) 1) = rows (Ones (T := R) 1 2)) by reflexivity.
  exact (proj1 (@X20_pseudo_inverse_right_inverse exact_library (Ones 1 2)
                  (Identity 1) Exact.eps H1 H2 H3 H4 H5)).
Defined.

Section QuadRollSystem.

Variables mX mY : matrix R.
Hypothesis HX : forall k, coeff mX 0 k = nth k [1; 0; -1; 0] 0 * (25 / 100).
Hypothesis HY : forall k, coeff mY 0 k = nth k [0; 1; 0; -1] 0 * (25 / 100).

Ltac roll_rows :=
  cbn [cols rows coeff vstack system_roll nth length sum_upto mneg Ones];
  rewrite ?HX, ?HY; cbn [nth]; real_ops.

Lemma quad_roll_wide :
  (rows (system_roll 4 mX mY) <= cols (system_roll 4 mX mY))%nat.
Proof. cbn. lia. Qed.

Lemma quad_roll_size :
  (Nat.max (cols (system_roll 4 mX mY)) (rows (system_roll 4 mX mY)) <= 16)%nat.
Proof. cbn. lia. Qed.

Lemma quad_roll_norms :
  forall i, (i < rows (system_roll 4 mX mY))%nat ->
            / 64 <= row_norm2 (system_roll 4 mX mY) i <= 4.
Proof.
  intros i Hi. change (rows (system_roll 4 mX mY)) with 3%nat in Hi.
  unfold row_norm2.
  destruct i as [|[|[|i]]]; try lia; roll_rows; lra.
Qed.

Lemma quad_roll_svd :
  thin_svd (system_roll 4 mX mY) (jacobiSvd exact_library (system_roll 4 mX mY)).
Proof.
  apply thin_svd_orthogonal_rows.
  - cbn. lia.
  - intros i Hi. destruct (quad_roll_norms Hi). lra.
  - intros i k Hi Hk Hne. change (rows (system_roll 4 mX mY)) with 3%nat in Hi, Hk.
    destruct i as [|[|[|i]]]; try lia; destruct k as [|[|[|k]]]; try lia;
      try congruence; roll_rows; lra.
Qed.

End QuadRollSystem.

(** The hypotheses of X21 hold of the roll system of the quad "+" with
    alternating rotation signs, with the exact library. *)
Lemma X21_quad_roll_system :
  meq (mmul (system_roll 4
               (motorX (quatosToolCalc exact_library alternating_quad))
               (motorY (quatosToolCalc exact_library alternating_quad)))
         (ROLL (quatosToolCalc exact_library alternating_quad)))
    target3.
Proof.
  assert (HX := quad_motorX exact_library [1; -1; 1; -1]%Z).
  assert (HY := quad_motorY exact_library [1; -1; 1; -1]%Z).
  cbv zeta in HX, HY.
  change (quad_plus_craft [1; -1; 1; -1]%Z) with alternating_quad in HX, HY.
  assert (H0 : calc_fits exact_library alternating_quad = true) by reflexivity.
  assert (H1 : In (system_roll 4
                     (motorX (quatosToolCalc exact_library alternating_quad))
                     (motorY (quatosToolCalc exact_library alternating_quad)),
                   target3,
                   ROLL (quatosToolCalc exact_library alternating_quad))
                 (mixer_systems (quatosToolCalc exact_library alternating_quad)))
    by (left; reflexivity).
  exact (@X21_mixer_vectors_solve_their_systems exact_library alternating_quad
           _ target3 _ H0 H1
           (@quad_roll_wide _ _)
           (@quad_roll_svd _ _ HX HY)
           (@row_norms_above_tolerance _ (@quad_roll_size _ _)
              (@quad_roll_norms _ _ HX HY))).
Defined.

End SystemExamples.

Section WordExamples.

Import PortOrder.
Local Open Scope Z_scope.

(** The hypotheses of X22 hold of the six-motor frame on ports
    1, 2, 3, 8, 15, 7 with config id 10. *)
Lemma X22_six_motor_word :
  field (float_bits (frame_word [1; 2; 3; 8; 15; 7] 10)) 0 8 = 10.
Proof.
  assert (H1 : forall p, In p [1; 2; 3; 8; 15; 7] -> 0 <= p < 16).
  { intros p Hp. cbn in Hp. intuition lia. }
  assert (H2 : 0 <= 10 < 256) by lia.
  exact (proj1 (@X22_port_word_fields [1; 2; 3; 8; 15; 7] 10 H1 H2)).
Defined.

End WordExamples.

Section HandlerExamples.

Import Ascii String CString Spelling Names Parser Parser.context Documents.
Local Open Scope string_scope.
Local Open Scope Z_scope.

(** The hypotheses of X23 hold at the end tag of the first geometry motor
    of a craft with one motor, with the text 1,2. *)
Lemma X23_motor_at_1_2 :
  endElement Examples.libc
    (mk_context [0; 0; 1; 10; 6; 0; 0; 0; 0; 0; 0; 0; 0; 0; 0; 0] 4 1 0 "1,2",
     quatosData.set_frameY
       (quatosData.set_frameX (snd (initial "")) [None]) [None])
    "motor"
  = Ok (mk_context [0; 0; 1; 10; 6; 0; 0; 0; 0; 0; 0; 0; 0; 0; 0; 0] 3 1 1
          ("1" ++ String zero "2"),
        quatosData.set_frameY
          (quatosData.set_frameX (snd (initial "")) [Some 1%R]) [Some 2%R]).
Proof.
  set (c := mk_context [0; 0; 1; 10; 6; 0; 0; 0; 0; 0; 0; 0; 0; 0; 0; 0] 4 1 0 "1,2").
  set (q := quatosData.set_frameY
              (quatosData.set_frameX (snd (initial (T := R) "")) [None]) [None]).
  assert (H1 : validCraft c <> 0) by discriminate.
  assert (H2 : read (elementIds c) (level c) = Some ELEMENT_MOTOR) by reflexivity.
  assert (H3 : read (elementIds c) (level c - 1) = Some ELEMENT_GEOMETRY)
    by reflexivity.
  assert (H4 : Z.of_nat (String.length (value c)) < 256) by (cbn; lia).
  assert (H5 : value c = "1" ++ "," ++ "2") by reflexivity.
  assert (H6 : token 44 "1").
  { split; [discriminate|]. repeat constructor; discriminate. }
  assert (H7 : token 44 "2").
  { split; [discriminate|]. repeat constructor; discriminate. }
  assert (H8 : 0 <= n c < Z.of_nat (List.length (quatosData.frameX q)))
    by (cbn; lia).
  assert (H9 : n c < Z.of_nat (List.length (quatosData.frameY q))) by (cbn; lia).
  exact (proj1 (@X23_geometry_motor_text R Examples.libc c q "motor"
                  H1 H2 H3 H4) "1" "2" H5 H6 H7 H8 H9).
Defined.

(** The hypotheses of X24 hold at the first cube of a document, here with
    two of its six attributes. *)
Lemma X24_cube_with_two_attributes :
  parseCube Examples.libc (fst (initial "")) (snd (initial ""))
    [("dimx", "1"); ("offsetz", "-2")]
  = Ok (fst (initial ""),
        quatosData.set_objectsOffset
          (quatosData.set_objectsDim
             (quatosData.set_massObjects (snd (initial "")) [None])
             [[Some 1%R; None; None]])
          [[None; None; Some (-2)%R]]).
Proof.
  assert (H1 : n (fst (initial (T := R) ""))
               = Z.of_nat (List.length
                             (quatosData.massObjects (snd (initial (T := R) "")))))
    by reflexivity.
  assert (H2 : n (fst (initial (T := R) ""))
               = Z.of_nat (List.length
                             (quatosData.objectsDim (snd (initial (T := R) "")))))
    by reflexivity.
  assert (H3 : n (fst (initial (T := R) ""))
               = Z.of_nat (List.length
                             (quatosData.objectsOffset (snd (initial (T := R) "")))))
    by reflexivity.
  exact (@X24_cube_attributes R Examples.libc (fst (initial ""))
           (snd (initial "")) [("dimx", "1"); ("offsetz", "-2")] H1 H2 H3).
Defined.

End HandlerExamples.

Section SelectionExamples.

Import Ascii String CString Names Parser Parser.context Documents.
Local Open Scope string_scope.
Local Open Scope Z_scope.

(** The hypotheses of X25 hold of a craft "b" with one port element, met
    when the craft "a" is the one selected. *)
Lemma X25_craft_b_skipped :
  snd (mk_context [0; 0; 1; 3; 0; 0; 0; 0; 0; 0; 0; 0; 0; 0; 0; 0] 1 0 0 "3",
       snd (initial (T := R) "a"))
  = snd (initial "a")
  /\ validCraft
       (fst (mk_context [0; 0; 1; 3; 0; 0; 0; 0; 0; 0; 0; 0; 0; 0; 0; 0] 1 0 0 "3",
             snd (initial (T := R) "a")))
     = 0.
Proof.
  assert (H1 : quatosToolElementIdByName "craft" = ELEMENT_CRAFT)
    by (vm_compute; reflexivity).
  assert (H2 : validCraft (mk_context (repeat 0 16) 1 0 0 "") = 0) by reflexivity.
  assert (H3 : quatosToolFindAttr [("id", "b"); ("config", "quad_x")] "id" = None
               \/ exists id,
                    quatosToolFindAttr [("id", "b"); ("config", "quad_x")] "id"
                    = Some id
                    /\ head (quatosData.craftId (snd (initial (T := R) "a"))) <> 0
                    /\ strcmp id (quatosData.craftId (snd (initial (T := R) "a")))
                       <> 0).
  { right. exists "b". repeat split; vm_compute; discriminate. }
  assert (H4 : forallb (fun e => negb (opens_craft e))
                 [StartElement "port" [("rotation", "1")]; Default "3"%char;
                  EndElement "port"; EndElement "craft"] = true)
    by (vm_compute; reflexivity).
  assert (H5 : run Examples.libc
                 (StartElement "craft" [("id", "b"); ("config", "quad_x")]
                  :: [StartElement "port" [("rotation", "1")]; Default "3"%char;
                      EndElement "port"; EndElement "craft"])
                 (mk_context (repeat 0 16) 1 0 0 "", snd (initial "a"))
               = Ok (mk_context [0; 0; 1; 3; 0; 0; 0; 0; 0; 0; 0; 0; 0; 0; 0; 0]
                       1 0 0 "3",
                     snd (initial "a"))).
  { reflexivity. }
  exact (@X25_other_craft_skipped R ScalarR Examples.libc _ _ "craft" _ _ _
           H1 H2 H3 H4 H5).
Defined.

End SelectionExamples.
